(** * The transaction memory pool of SuperBitcoin (src/mempool/txmempool.cpp)

    A shallow embedding of [CTxMemPoolEntry] and [CTxMemPool]: the entry
    aggregates, the link graph, the outpoint index, the package accountant,
    the admission pipeline [AcceptToMemoryPoolWorker], and the eviction
    engine, followed by the properties the specification states about them.

    Conventions.
    - [uint256] transaction ids are natural numbers; their order stands for
      [base_blob]'s comparison, which is what orders [setEntries]
      ([CompareIteratorByHash]) and [std::set<uint256>].
    - A [txiter] is the txid of the entry it points to: [mapTx] is keyed by
      txid, so an iterator and a key carry the same information.
    - Unsigned 64-bit fields are integers with the reduction modulo 2^64
      written out ([wrap64]); [CAmount] and the other signed 64-bit values
      are integers (signed overflow is undefined behaviour in C++ and is
      not modelled).
    - [assert] aborts the process: every function that can reach a failing
      assertion returns [option], with [None] for the abort.
    - [rollingMinimumFeeRate] is a [double]; it is modelled by the rational
      it denotes. *)

From Stdlib Require Import ZArith NArith QArith Qminmax Qround Lia String List.
From stdpp Require Import base option list sorting gmap fin_maps fin_sets.

Local Open Scope Z_scope.

(** ** Machine integers *)

Definition wrap64 (z : Z) : Z := z mod 2 ^ 64.
Definition wrap32 (z : Z) : Z := z mod 2 ^ 32.

(** [int64_t(x)] for an unsigned 64-bit [x]. *)
Definition int64_of (z : Z) : Z :=
  let w := wrap64 z in if w <? 2 ^ 63 then w else w - 2 ^ 64.

(** [int(x)] for a 64-bit [x]. *)
Definition int32_of (z : Z) : Z :=
  let w := wrap32 z in if w <? 2 ^ 31 then w else w - 2 ^ 32.

Definition UINT64_MAX : Z := 2 ^ 64 - 1.

(** ** Transactions *)

Definition uint256 := N.

Record COutPoint := mkOutPoint { op_hash : uint256; op_n : N }.
Arguments mkOutPoint (op_hash op_n)%_N.

Record CTxIn := mkTxIn { prevout : COutPoint; nSequence : Z }.

Record CTxOut := mkTxOut { nValue : Z }.

Global Instance CTxOut_eq_dec : EqDecision CTxOut.
Proof. solve_decision. Defined.

Record CTransaction := mkTx {
  GetHash : uint256;
  vin : list CTxIn;
  vout : list CTxOut;
  HasWitness : bool;
  GetWitnessHash : uint256
}.

Global Instance COutPoint_eq_dec : EqDecision COutPoint.
Proof. solve_decision. Defined.

Global Instance COutPoint_countable : Countable COutPoint.
Proof.
  refine (inj_countable' (fun o => (op_hash o, op_n o))
                         (fun p => mkOutPoint (fst p) (snd p)) _).
  intros []; reflexivity.
Defined.

Definition SEQUENCE_FINAL : Z := 4294967295.
Definition MAX_BIP125_RBF_SEQUENCE : Z := SEQUENCE_FINAL - 2.

(** ** Fee rates *)

Record CFeeRate := mkFeeRate { nSatoshisPerK : Z }.

Definition GetFeePerK (r : CFeeRate) : Z := nSatoshisPerK r.

Definition CFeeRate_le (a b : CFeeRate) : bool := nSatoshisPerK a <=? nSatoshisPerK b.
Definition CFeeRate_lt (a b : CFeeRate) : bool := nSatoshisPerK a <? nSatoshisPerK b.
Definition CFeeRate_max (a b : CFeeRate) : CFeeRate := if CFeeRate_lt a b then b else a.
Definition CFeeRate_add (a b : CFeeRate) : CFeeRate :=
  mkFeeRate (nSatoshisPerK a + nSatoshisPerK b).

(** ** What txmempool.cpp takes from files that are not part of it

    [GetVirtualTransactionSize] and the relay fee rates are policy.cpp's;
    the two-argument constructor of [CFeeRate] and [CFeeRate::GetFee] are
    feerate.cpp's; the [memusage] estimates depend on the allocator; the
    script flags and the sig-op bound are constants of policy.h and
    interpreter.h; the decay of the rolling minimum fee rate is a
    floating-point expression over the clock
    ([rollingMinimumFeeRate / pow(2.0, (time - lastRollingFeeUpdate) / halflife)]). *)

Class Externals := {
  GetVirtualTransactionSize : Z -> Z -> Z;
  CFeeRate_of : Z -> Z -> CFeeRate;
  GetFee : CFeeRate -> Z -> Z;
  incrementalRelayFee : CFeeRate;
  minRelayTxFee : CFeeRate;
  IncrementalDynamicUsage : Z;
  DynamicUsage_setEntries : gset uint256 -> Z;
  MallocUsage_entry : Z;
  DynamicUsage_containers : nat -> nat -> nat -> nat -> Z;
  rolling_decay : Q -> Z -> Q -> Q;
  STANDARD_SCRIPT_VERIFY_FLAGS : Z;
  MANDATORY_SCRIPT_VERIFY_FLAGS : Z;
  SCRIPT_VERIFY_WITNESS : Z;
  SCRIPT_VERIFY_CLEANSTACK : Z;
  MAX_STANDARD_TX_SIGOPS_COST : Z
}.

(** ** Pool entries *)

Record LockPoints := mkLockPoints { lp_height : Z; lp_time : Z }.

Record CTxMemPoolEntry := mkEntry {
  tx : CTransaction;
  nFee : Z;
  nTxWeight : Z;
  nUsageSize : Z;
  nTime : Z;
  entryHeight : Z;
  spendsCoinbase : bool;
  sigOpCost : Z;
  feeDelta : Z;
  lockPoints : LockPoints;
  nCountWithDescendants : Z;
  nSizeWithDescendants : Z;
  nModFeesWithDescendants : Z;
  nCountWithAncestors : Z;
  nSizeWithAncestors : Z;
  nModFeesWithAncestors : Z;
  nSigOpCostWithAncestors : Z;
  vTxHashesIdx : nat
}.

Definition GetModifiedFee (e : CTxMemPoolEntry) : Z := nFee e + feeDelta e.

Section Entry.
Context `{Externals}.

Definition GetTxSize (e : CTxMemPoolEntry) : Z :=
  GetVirtualTransactionSize (nTxWeight e) (sigOpCost e).

(** The constructor; [weight] and [usage] are what [GetTransactionWeight]
    and [RecursiveDynamicUsage] return for the transaction. *)
Definition CTxMemPoolEntry_new (t : CTransaction) (fee time height : Z)
    (coinbase : bool) (sigops : Z) (lp : LockPoints) (weight usage : Z)
    : CTxMemPoolEntry :=
  let vsize := GetVirtualTransactionSize weight sigops in
  {| tx := t; nFee := fee; nTxWeight := weight; nUsageSize := usage;
     nTime := time; entryHeight := height; spendsCoinbase := coinbase;
     sigOpCost := sigops; feeDelta := 0; lockPoints := lp;
     nCountWithDescendants := 1;
     nSizeWithDescendants := wrap64 vsize;
     nModFeesWithDescendants := fee;
     nCountWithAncestors := 1;
     nSizeWithAncestors := wrap64 vsize;
     nModFeesWithAncestors := fee;
     nSigOpCostWithAncestors := sigops;
     vTxHashesIdx := 0 |}.
End Entry.

Definition set_desc (e : CTxMemPoolEntry) (size fees count : Z) : CTxMemPoolEntry :=
  {| tx := tx e; nFee := nFee e; nTxWeight := nTxWeight e; nUsageSize := nUsageSize e;
     nTime := nTime e; entryHeight := entryHeight e; spendsCoinbase := spendsCoinbase e;
     sigOpCost := sigOpCost e; feeDelta := feeDelta e; lockPoints := lockPoints e;
     nCountWithDescendants := count;
     nSizeWithDescendants := size;
     nModFeesWithDescendants := fees;
     nCountWithAncestors := nCountWithAncestors e;
     nSizeWithAncestors := nSizeWithAncestors e;
     nModFeesWithAncestors := nModFeesWithAncestors e;
     nSigOpCostWithAncestors := nSigOpCostWithAncestors e;
     vTxHashesIdx := vTxHashesIdx e |}.

Definition set_anc (e : CTxMemPoolEntry) (size fees count sigops : Z) : CTxMemPoolEntry :=
  {| tx := tx e; nFee := nFee e; nTxWeight := nTxWeight e; nUsageSize := nUsageSize e;
     nTime := nTime e; entryHeight := entryHeight e; spendsCoinbase := spendsCoinbase e;
     sigOpCost := sigOpCost e; feeDelta := feeDelta e; lockPoints := lockPoints e;
     nCountWithDescendants := nCountWithDescendants e;
     nSizeWithDescendants := nSizeWithDescendants e;
     nModFeesWithDescendants := nModFeesWithDescendants e;
     nCountWithAncestors := count;
     nSizeWithAncestors := size;
     nModFeesWithAncestors := fees;
     nSigOpCostWithAncestors := sigops;
     vTxHashesIdx := vTxHashesIdx e |}.

Definition set_vTxHashesIdx (i : nat) (e : CTxMemPoolEntry) : CTxMemPoolEntry :=
  {| tx := tx e; nFee := nFee e; nTxWeight := nTxWeight e; nUsageSize := nUsageSize e;
     nTime := nTime e; entryHeight := entryHeight e; spendsCoinbase := spendsCoinbase e;
     sigOpCost := sigOpCost e; feeDelta := feeDelta e; lockPoints := lockPoints e;
     nCountWithDescendants := nCountWithDescendants e;
     nSizeWithDescendants := nSizeWithDescendants e;
     nModFeesWithDescendants := nModFeesWithDescendants e;
     nCountWithAncestors := nCountWithAncestors e;
     nSizeWithAncestors := nSizeWithAncestors e;
     nModFeesWithAncestors := nModFeesWithAncestors e;
     nSigOpCostWithAncestors := nSigOpCostWithAncestors e;
     vTxHashesIdx := i |}.

(** [CTxMemPoolEntry::UpdateFeeDelta]. *)
Definition UpdateFeeDelta (newFeeDelta : Z) (e : CTxMemPoolEntry) : CTxMemPoolEntry :=
  {| tx := tx e; nFee := nFee e; nTxWeight := nTxWeight e; nUsageSize := nUsageSize e;
     nTime := nTime e; entryHeight := entryHeight e; spendsCoinbase := spendsCoinbase e;
     sigOpCost := sigOpCost e; feeDelta := newFeeDelta; lockPoints := lockPoints e;
     nCountWithDescendants := nCountWithDescendants e;
     nSizeWithDescendants := nSizeWithDescendants e;
     nModFeesWithDescendants := nModFeesWithDescendants e + (newFeeDelta - feeDelta e);
     nCountWithAncestors := nCountWithAncestors e;
     nSizeWithAncestors := nSizeWithAncestors e;
     nModFeesWithAncestors := nModFeesWithAncestors e + (newFeeDelta - feeDelta e);
     nSigOpCostWithAncestors := nSigOpCostWithAncestors e;
     vTxHashesIdx := vTxHashesIdx e |}.

(** [CTxMemPoolEntry::UpdateDescendantState]: the two assertions abort. *)
Definition UpdateDescendantState (modifySize modifyFee modifyCount : Z)
    (e : CTxMemPoolEntry) : option CTxMemPoolEntry :=
  let size := wrap64 (nSizeWithDescendants e + modifySize) in
  if negb (0 <? int64_of size) then None else
  let fees := nModFeesWithDescendants e + modifyFee in
  let count := wrap64 (nCountWithDescendants e + modifyCount) in
  if negb (0 <? int64_of count) then None else
  Some (set_desc e size fees count).

(** [CTxMemPoolEntry::UpdateAncestorState]: [modifySigOps] is an [int]. *)
Definition UpdateAncestorState (modifySize modifyFee modifyCount modifySigOps : Z)
    (e : CTxMemPoolEntry) : option CTxMemPoolEntry :=
  let size := wrap64 (nSizeWithAncestors e + modifySize) in
  if negb (0 <? int64_of size) then None else
  let fees := nModFeesWithAncestors e + modifyFee in
  let count := wrap64 (nCountWithAncestors e + modifyCount) in
  if negb (0 <? int64_of count) then None else
  let sigops := nSigOpCostWithAncestors e + int32_of modifySigOps in
  if negb (0 <=? int32_of sigops) then None else
  Some (set_anc e size fees count sigops).

(** ** The pool *)

Inductive MemPoolRemovalReason :=
  UNKNOWN | EXPIRY | SIZELIMIT | REORG | BLOCK | CONFLICT | REPLACED.

(** What the pool tells its observers, in the order it tells them: the
    [NotifyEntryAdded] and [NotifyEntryRemoved] signals, the calls into the
    fee estimator, and the validation interface's
    [TransactionAddedToMempool]. *)
Inductive Signal :=
| NotifyEntryAdded (h : uint256)
| NotifyEntryRemoved (h : uint256) (reason : MemPoolRemovalReason)
| EstimatorProcessTransaction (h : uint256) (validFeeEstimate : bool)
| EstimatorRemoveTx (h : uint256) (inBlock : bool)
| TransactionAddedToMempool (h : uint256).

Record TxLinks := mkLinks { parents : gset uint256; children : gset uint256 }.

Record CTxMemPool := mkPool {
  mapTx : gmap uint256 CTxMemPoolEntry;
  mapLinks : gmap uint256 TxLinks;
  mapNextTx : gmap COutPoint uint256;
  mapDeltas : gmap uint256 Z;
  vTxHashes : list (uint256 * uint256);
  totalTxSize : Z;
  cachedInnerUsage : Z;
  nTransactionsUpdated : Z;
  rollingMinimumFeeRate : Q;
  lastRollingFeeUpdate : Z;
  blockSinceLastRollingFeeBump : bool;
  minerPolicyEstimator : bool;
  signals : list Signal
}.

Definition with_mapTx (m : gmap uint256 CTxMemPoolEntry) (p : CTxMemPool) : CTxMemPool :=
  mkPool m (mapLinks p) (mapNextTx p) (mapDeltas p) (vTxHashes p) (totalTxSize p)
         (cachedInnerUsage p) (nTransactionsUpdated p) (rollingMinimumFeeRate p)
         (lastRollingFeeUpdate p) (blockSinceLastRollingFeeBump p)
         (minerPolicyEstimator p) (signals p).

Definition with_mapLinks (m : gmap uint256 TxLinks) (p : CTxMemPool) : CTxMemPool :=
  mkPool (mapTx p) m (mapNextTx p) (mapDeltas p) (vTxHashes p) (totalTxSize p)
         (cachedInnerUsage p) (nTransactionsUpdated p) (rollingMinimumFeeRate p)
         (lastRollingFeeUpdate p) (blockSinceLastRollingFeeBump p)
         (minerPolicyEstimator p) (signals p).

Definition with_mapNextTx (m : gmap COutPoint uint256) (p : CTxMemPool) : CTxMemPool :=
  mkPool (mapTx p) (mapLinks p) m (mapDeltas p) (vTxHashes p) (totalTxSize p)
         (cachedInnerUsage p) (nTransactionsUpdated p) (rollingMinimumFeeRate p)
         (lastRollingFeeUpdate p) (blockSinceLastRollingFeeBump p)
         (minerPolicyEstimator p) (signals p).

Definition with_mapDeltas (m : gmap uint256 Z) (p : CTxMemPool) : CTxMemPool :=
  mkPool (mapTx p) (mapLinks p) (mapNextTx p) m (vTxHashes p) (totalTxSize p)
         (cachedInnerUsage p) (nTransactionsUpdated p) (rollingMinimumFeeRate p)
         (lastRollingFeeUpdate p) (blockSinceLastRollingFeeBump p)
         (minerPolicyEstimator p) (signals p).

Definition with_vTxHashes (v : list (uint256 * uint256)) (p : CTxMemPool) : CTxMemPool :=
  mkPool (mapTx p) (mapLinks p) (mapNextTx p) (mapDeltas p) v (totalTxSize p)
         (cachedInnerUsage p) (nTransactionsUpdated p) (rollingMinimumFeeRate p)
         (lastRollingFeeUpdate p) (blockSinceLastRollingFeeBump p)
         (minerPolicyEstimator p) (signals p).

Definition with_totalTxSize (z : Z) (p : CTxMemPool) : CTxMemPool :=
  mkPool (mapTx p) (mapLinks p) (mapNextTx p) (mapDeltas p) (vTxHashes p) z
         (cachedInnerUsage p) (nTransactionsUpdated p) (rollingMinimumFeeRate p)
         (lastRollingFeeUpdate p) (blockSinceLastRollingFeeBump p)
         (minerPolicyEstimator p) (signals p).

Definition with_cachedInnerUsage (z : Z) (p : CTxMemPool) : CTxMemPool :=
  mkPool (mapTx p) (mapLinks p) (mapNextTx p) (mapDeltas p) (vTxHashes p) (totalTxSize p)
         z (nTransactionsUpdated p) (rollingMinimumFeeRate p)
         (lastRollingFeeUpdate p) (blockSinceLastRollingFeeBump p)
         (minerPolicyEstimator p) (signals p).

Definition with_nTransactionsUpdated (z : Z) (p : CTxMemPool) : CTxMemPool :=
  mkPool (mapTx p) (mapLinks p) (mapNextTx p) (mapDeltas p) (vTxHashes p) (totalTxSize p)
         (cachedInnerUsage p) z (rollingMinimumFeeRate p)
         (lastRollingFeeUpdate p) (blockSinceLastRollingFeeBump p)
         (minerPolicyEstimator p) (signals p).

Definition with_rolling (rate : Q) (last : Z) (bump : bool) (p : CTxMemPool) : CTxMemPool :=
  mkPool (mapTx p) (mapLinks p) (mapNextTx p) (mapDeltas p) (vTxHashes p) (totalTxSize p)
         (cachedInnerUsage p) (nTransactionsUpdated p) rate last bump
         (minerPolicyEstimator p) (signals p).

Definition emit (s : Signal) (p : CTxMemPool) : CTxMemPool :=
  mkPool (mapTx p) (mapLinks p) (mapNextTx p) (mapDeltas p) (vTxHashes p) (totalTxSize p)
         (cachedInnerUsage p) (nTransactionsUpdated p) (rollingMinimumFeeRate p)
         (lastRollingFeeUpdate p) (blockSinceLastRollingFeeBump p)
         (minerPolicyEstimator p) (signals p ++ [s]).

(** [CTxMemPool::_clear] on a fresh pool: the state the constructor leaves. *)
Definition CTxMemPool_new (estimator : bool) (now : Z) : CTxMemPool :=
  mkPool ∅ ∅ ∅ ∅ [] 0 0 1 0%Q now false estimator [].

(** Iteration over a [std::set] goes in the order of its keys. *)
Definition ordered (s : gset uint256) : list uint256 :=
  merge_sort N.le (elements s).

(** [*s.begin()] *)
Definition set_begin (s : gset uint256) : option uint256 := head (ordered s).

Definition exists_ (p : CTxMemPool) (h : uint256) : bool :=
  bool_decide (is_Some (mapTx p !! h)).

(** [CTxMemPool::get] *)
Definition get (p : CTxMemPool) (h : uint256) : option CTransaction :=
  tx <$> mapTx p !! h.

(** [mapTx.modify(it, f)] for a modifier [f] that may hit an assertion. *)
Definition modify (it : uint256) (f : CTxMemPoolEntry -> option CTxMemPoolEntry)
    (p : CTxMemPool) : option CTxMemPool :=
  e ← mapTx p !! it;
  e' ← f e;
  Some (with_mapTx (<[it := e']> (mapTx p)) p).

(** Running a loop body over the elements of a container, with aborts. *)
Fixpoint for_each {A S : Type} (body : A -> S -> option S) (l : list A) (s : S)
    : option S :=
  match l with
  | [] => Some s
  | x :: l' => s' ← body x s; for_each body l' s'
  end.

(** ** Link graph *)

(** [CTxMemPool::GetMemPoolParents] and [GetMemPoolChildren]: both assert
    that the iterator is live and that it has links. *)
Definition GetMemPoolParents (p : CTxMemPool) (entry : uint256) : option (gset uint256) :=
  _ ← mapTx p !! entry;
  parents <$> mapLinks p !! entry.

Definition GetMemPoolChildren (p : CTxMemPool) (entry : uint256) : option (gset uint256) :=
  _ ← mapTx p !! entry;
  children <$> mapLinks p !! entry.

Section Links.
Context `{Externals}.

(** [mapLinks[entry]] default-constructs the links when there are none. *)
Definition links_at (p : CTxMemPool) (entry : uint256) : TxLinks :=
  default (mkLinks ∅ ∅) (mapLinks p !! entry).

(** [CTxMemPool::UpdateChild] *)
Definition UpdateChild (entry child : uint256) (add : bool) (p : CTxMemPool)
    : CTxMemPool :=
  let l := links_at p entry in
  if add then
    if decide (child ∈ children l) then
      with_mapLinks (<[entry := l]> (mapLinks p)) p
    else
      with_cachedInnerUsage (wrap64 (cachedInnerUsage p + IncrementalDynamicUsage))
        (with_mapLinks (<[entry := mkLinks (parents l) ({[child]} ∪ children l)]> (mapLinks p)) p)
  else
    if decide (child ∈ children l) then
      with_cachedInnerUsage (wrap64 (cachedInnerUsage p - IncrementalDynamicUsage))
        (with_mapLinks (<[entry := mkLinks (parents l) (children l ∖ {[child]})]> (mapLinks p)) p)
    else
      with_mapLinks (<[entry := l]> (mapLinks p)) p.

(** [CTxMemPool::UpdateParent] *)
Definition UpdateParent (entry parent : uint256) (add : bool) (p : CTxMemPool)
    : CTxMemPool :=
  let l := links_at p entry in
  if add then
    if decide (parent ∈ parents l) then
      with_mapLinks (<[entry := l]> (mapLinks p)) p
    else
      with_cachedInnerUsage (wrap64 (cachedInnerUsage p + IncrementalDynamicUsage))
        (with_mapLinks (<[entry := mkLinks ({[parent]} ∪ parents l) (children l)]> (mapLinks p)) p)
  else
    if decide (parent ∈ parents l) then
      with_cachedInnerUsage (wrap64 (cachedInnerUsage p - IncrementalDynamicUsage))
        (with_mapLinks (<[entry := mkLinks (parents l ∖ {[parent]}) (children l)]> (mapLinks p)) p)
    else
      with_mapLinks (<[entry := l]> (mapLinks p)) p.
End Links.

(** ** Package accountant *)

Record Limits := mkLimits {
  limitAncestorCount : Z;
  limitAncestorSize : Z;
  limitDescendantCount : Z;
  limitDescendantSize : Z
}.

Definition nNoLimit : Z := UINT64_MAX.
Definition NoLimits : Limits := mkLimits nNoLimit nNoLimit nNoLimit nNoLimit.

Definition sizeZ (s : gset uint256) : Z := Z.of_nat (size s).

Section Accountant.
Context `{Externals}.

(** The first loop of [CalculateMemPoolAncestors]: the in-pool parents of
    a transaction that is not in the pool yet, found through [mapTx].
    [None] is the early [return false]. *)
Fixpoint search_parents (p : CTxMemPool) (limit : Z) (ins : list CTxIn)
    (parentHashes : gset uint256) : option (gset uint256) :=
  match ins with
  | [] => Some parentHashes
  | txin :: ins' =>
      let h := op_hash (prevout txin) in
      match mapTx p !! h with
      | Some _ =>
          let parentHashes := {[h]} ∪ parentHashes in
          if limit <? wrap64 (sizeZ parentHashes + 1) then None
          else search_parents p limit ins' parentHashes
      | None => search_parents p limit ins' parentHashes
      end
  end.

(** The inner loop over [setMemPoolParents]; [None] is [return false]. *)
Fixpoint visit_parents (limit : Z) (setAncestors : gset uint256)
    (ps : list uint256) (parentHashes : gset uint256) : option (gset uint256) :=
  match ps with
  | [] => Some parentHashes
  | phash :: ps' =>
      let parentHashes :=
        if decide (phash ∈ setAncestors) then parentHashes
        else {[phash]} ∪ parentHashes in
      if limit <? wrap64 (sizeZ parentHashes + sizeZ setAncestors + 1) then None
      else visit_parents limit setAncestors ps' parentHashes
  end.

(** The [while (!parentHashes.empty())] loop. The result is the returned
    flag with [setAncestors] as the loop leaves it; [None] is an abort
    (a dangling iterator, a failed assertion, no fuel left). *)
Fixpoint ancestors_loop (fuel : nat) (p : CTxMemPool) (entrySize : Z) (lim : Limits)
    (parentHashes setAncestors : gset uint256) (totalSizeWithAncestors : Z)
    : option (bool * gset uint256) :=
  match set_begin parentHashes with
  | None => Some (true, setAncestors)
  | Some stageit =>
      match fuel with
      | O => None
      | S fuel' =>
          e ← mapTx p !! stageit;
          let setAncestors := {[stageit]} ∪ setAncestors in
          let parentHashes := parentHashes ∖ {[stageit]} in
          let total := wrap64 (totalSizeWithAncestors + GetTxSize e) in
          if limitDescendantSize lim <? wrap64 (nSizeWithDescendants e + entrySize)
          then Some (false, setAncestors)
          else if limitDescendantCount lim <? wrap64 (nCountWithDescendants e + 1)
          then Some (false, setAncestors)
          else if limitAncestorSize lim <? total
          then Some (false, setAncestors)
          else
            setMemPoolParents ← GetMemPoolParents p stageit;
            match visit_parents (limitAncestorCount lim) setAncestors
                    (ordered setMemPoolParents) parentHashes with
            | None => Some (false, setAncestors)
            | Some parentHashes =>
                ancestors_loop fuel' p entrySize lim parentHashes setAncestors total
            end
      end
  end.

(** [CTxMemPool::CalculateMemPoolAncestors], called with an empty
    [setAncestors]. Every pass of the loop stages an entry that has links
    and was not staged before, so [size mapLinks] passes are the most
    there can be. *)
Definition CalculateMemPoolAncestors (p : CTxMemPool) (entry : CTxMemPoolEntry)
    (lim : Limits) (fSearchForParents : bool) : option (bool * gset uint256) :=
  let run parentHashes :=
    ancestors_loop (S (size (mapLinks p))) p (GetTxSize entry) lim
                   parentHashes ∅ (wrap64 (GetTxSize entry)) in
  if fSearchForParents then
    match search_parents p (limitAncestorCount lim) (vin (tx entry)) ∅ with
    | None => Some (false, ∅)
    | Some parentHashes => run parentHashes
    end
  else
    parentHashes ← GetMemPoolParents p (GetHash (tx entry));
    run parentHashes.

(** The loop over [setChildren] in [CalculateDescendants]. *)
Definition stage_children (setDescendants : gset uint256) (cs : list uint256)
    (stage : gset uint256) : gset uint256 :=
  foldl (fun st c => if decide (c ∈ setDescendants) then st else {[c]} ∪ st) stage cs.

Fixpoint descendants_loop (fuel : nat) (p : CTxMemPool)
    (stage setDescendants : gset uint256) : option (gset uint256) :=
  match set_begin stage with
  | None => Some setDescendants
  | Some it =>
      match fuel with
      | O => None
      | S fuel' =>
          let setDescendants := {[it]} ∪ setDescendants in
          let stage := stage ∖ {[it]} in
          setChildren ← GetMemPoolChildren p it;
          descendants_loop fuel' p
            (stage_children setDescendants (ordered setChildren) stage) setDescendants
      end
  end.

(** [CTxMemPool::CalculateDescendants]: adds to [setDescendants]. *)
Definition CalculateDescendants (p : CTxMemPool) (entryit : uint256)
    (setDescendants : gset uint256) : option (gset uint256) :=
  descendants_loop (S (size (mapLinks p))) p
    (if decide (entryit ∈ setDescendants) then ∅ else {[entryit]}) setDescendants.

(** [CTxMemPool::UpdateAncestorsOf] *)
Definition UpdateAncestorsOf (add : bool) (it : uint256) (setAncestors : gset uint256)
    (p : CTxMemPool) : option CTxMemPool :=
  parentIters ← GetMemPoolParents p it;
  let p := foldl (fun q piter => UpdateChild piter it add q) p (ordered parentIters) in
  e ← mapTx p !! it;
  let updateCount := if add then 1 else -1 in
  let updateSize := updateCount * GetTxSize e in
  let updateFee := updateCount * GetModifiedFee e in
  for_each (fun ancestorIt q =>
              modify ancestorIt (UpdateDescendantState updateSize updateFee updateCount) q)
           (ordered setAncestors) p.

(** [CTxMemPool::UpdateEntryForAncestors] *)
Definition UpdateEntryForAncestors (it : uint256) (setAncestors : gset uint256)
    (p : CTxMemPool) : option CTxMemPool :=
  let updateCount := sizeZ setAncestors in
  sums ← for_each (fun ancestorIt '(updateSize, updateFee, updateSigOpsCost) =>
                     a ← mapTx p !! ancestorIt;
                     Some (updateSize + GetTxSize a, updateFee + GetModifiedFee a,
                           updateSigOpsCost + sigOpCost a))
                  (ordered setAncestors) (0, 0, 0);
  let '(updateSize, updateFee, updateSigOpsCost) := sums in
  modify it (UpdateAncestorState updateSize updateFee updateCount updateSigOpsCost) p.

(** [CTxMemPool::UpdateChildrenForRemoval] *)
Definition UpdateChildrenForRemoval (it : uint256) (p : CTxMemPool) : option CTxMemPool :=
  setMemPoolChildren ← GetMemPoolChildren p it;
  Some (foldl (fun q updateIt => UpdateParent updateIt it false q) p
              (ordered setMemPoolChildren)).

(** [CTxMemPool::UpdateForRemoveFromMempool] *)
Definition UpdateForRemoveFromMempool (entriesToRemove : gset uint256)
    (updateDescendants : bool) (p : CTxMemPool) : option CTxMemPool :=
  p ← (if updateDescendants then
         for_each (fun removeIt q =>
                     setDescendants ← CalculateDescendants q removeIt ∅;
                     let setDescendants := setDescendants ∖ {[removeIt]} in
                     r ← mapTx q !! removeIt;
                     let modifySize := - GetTxSize r in
                     let modifyFee := - GetModifiedFee r in
                     let modifySigOps := int32_of (- sigOpCost r) in
                     for_each (fun dit q' =>
                                 modify dit (UpdateAncestorState modifySize modifyFee (-1)
                                                                 modifySigOps) q')
                              (ordered setDescendants) q)
                  (ordered entriesToRemove) p
       else Some p);
  p ← for_each (fun removeIt q =>
                  entry ← mapTx q !! removeIt;
                  r ← CalculateMemPoolAncestors q entry NoLimits false;
                  UpdateAncestorsOf false removeIt (snd r) q)
               (ordered entriesToRemove) p;
  for_each UpdateChildrenForRemoval (ordered entriesToRemove) p.
End Accountant.

(** ** Insertion and removal *)

Section Mutators.
Context `{Externals}.

(** [mapNextTx.insert(...)] keeps the mapping an outpoint already has. *)
Definition mapNextTx_insert (o : COutPoint) (h : uint256) (p : CTxMemPool) : CTxMemPool :=
  match mapNextTx p !! o with
  | Some _ => p
  | None => with_mapNextTx (<[o := h]> (mapNextTx p)) p
  end.

(** The steps of [addUnchecked], in the order of the source. *)

(** [mapTx.insert(entry)] and [mapLinks.insert(...)]: neither replaces
    what is already filed under the hash. *)
Definition insert_entry (entry : CTxMemPoolEntry) (p : CTxMemPool) : CTxMemPool :=
  let newit := GetHash (tx entry) in
  let p := match mapTx p !! newit with
           | Some _ => p
           | None => with_mapTx (<[newit := entry]> (mapTx p)) p
           end in
  match mapLinks p !! newit with
  | Some _ => p
  | None => with_mapLinks (<[newit := mkLinks ∅ ∅]> (mapLinks p)) p
  end.

(** The fee delta [PrioritiseTransaction] has recorded for [hash]. *)
Definition apply_fee_delta (hash newit : uint256) (p : CTxMemPool) : option CTxMemPool :=
  match mapDeltas p !! hash with
  | Some delta =>
      if delta =? 0 then Some p
      else modify newit (fun e => Some (UpdateFeeDelta delta e)) p
  | None => Some p
  end.

(** The loop over [tx.vin] that fills [mapNextTx]. *)
Definition index_inputs (newit : uint256) (ins : list CTxIn) (p : CTxMemPool) : CTxMemPool :=
  foldl (fun q txin => mapNextTx_insert (prevout txin) newit q) p ins.

(** The loop over [setParentTransactions]. *)
Definition link_parents (newit : uint256) (ins : list CTxIn) (p : CTxMemPool) : CTxMemPool :=
  let setParentTransactions : gset uint256 :=
    list_to_set ((fun txin => op_hash (prevout txin)) <$> ins) in
  foldl (fun q phash =>
           match mapTx q !! phash with
           | Some _ => UpdateParent newit phash true q
           | None => q
           end) p (ordered setParentTransactions).

(** The counters, the fee estimator and [vTxHashes]. *)
Definition register_entry (newit : uint256) (entry : CTxMemPoolEntry) (witnessHash : uint256)
    (validFeeEstimate : bool) (p : CTxMemPool) : CTxMemPool :=
  let p := with_nTransactionsUpdated (wrap32 (nTransactionsUpdated p + 1)) p in
  let p := with_totalTxSize (wrap64 (totalTxSize p + GetTxSize entry)) p in
  let p := if minerPolicyEstimator p
           then emit (EstimatorProcessTransaction newit validFeeEstimate) p else p in
  let p := with_vTxHashes (vTxHashes p ++ [(witnessHash, newit)]) p in
  with_mapTx (alter (set_vTxHashesIdx (length (vTxHashes p) - 1)) newit (mapTx p)) p.

(** [CTxMemPool::addUnchecked], the four-argument overload. [mapTx] is
    keyed by the hash of the entry's transaction; [hash] is what the
    caller passes and only indexes [mapDeltas]. *)
Definition addUnchecked (hash : uint256) (entry : CTxMemPoolEntry)
    (setAncestors : gset uint256) (validFeeEstimate : bool) (p : CTxMemPool)
    : option CTxMemPool :=
  let newit := GetHash (tx entry) in
  p ← apply_fee_delta hash newit (insert_entry entry (emit (NotifyEntryAdded newit) p));
  e ← mapTx p !! newit;
  p ← UpdateAncestorsOf true newit setAncestors
        (link_parents newit (vin (tx e))
           (index_inputs newit (vin (tx e))
              (with_cachedInnerUsage (wrap64 (cachedInnerUsage p + nUsageSize entry)) p)));
  p ← UpdateEntryForAncestors newit setAncestors p;
  Some (register_entry newit entry (GetWitnessHash (tx e)) validFeeEstimate p).

(** [CTxMemPool::addUnchecked], the three-argument overload. *)
Definition addUnchecked3 (hash : uint256) (entry : CTxMemPoolEntry)
    (validFeeEstimate : bool) (p : CTxMemPool) : option CTxMemPool :=
  r ← CalculateMemPoolAncestors p entry NoLimits true;
  addUnchecked hash entry (snd r) validFeeEstimate p.

(** The steps of [removeUnchecked], in the order of the source. *)

(** The loop over the inputs that clears [mapNextTx]. *)
Definition unindex_inputs (ins : list CTxIn) (p : CTxMemPool) : CTxMemPool :=
  foldl (fun q txin => with_mapNextTx (delete (prevout txin) (mapNextTx q)) q) p ins.

(** The slot of the entry in [vTxHashes] is filled with the last pair,
    whose entry is told its new index. An index past the end of the
    vector is undefined behaviour in C++; here the vector is then left
    alone. *)
Definition unregister_hash (idx : nat) (p : CTxMemPool) : CTxMemPool :=
  if (1 <? length (vTxHashes p))%nat then
    match last (vTxHashes p) with
    | Some back =>
        with_vTxHashes (removelast (<[idx := back]> (vTxHashes p)))
          (with_mapTx (alter (set_vTxHashesIdx idx) (snd back) (mapTx p)) p)
    | None => p
    end
  else with_vTxHashes [] p.

(** The counters, and the entry leaves [mapLinks] and [mapTx]. *)
Definition erase_entry (it : uint256) (e : CTxMemPoolEntry) (p : CTxMemPool) : CTxMemPool :=
  let p := with_totalTxSize (wrap64 (totalTxSize p - GetTxSize e)) p in
  let p := with_cachedInnerUsage (wrap64 (cachedInnerUsage p - nUsageSize e)) p in
  let l := links_at p it in
  let p := with_cachedInnerUsage
             (wrap64 (cachedInnerUsage p
                      - wrap64 (DynamicUsage_setEntries (parents l)
                                + DynamicUsage_setEntries (children l)))) p in
  let p := with_mapLinks (delete it (mapLinks p)) p in
  let p := with_mapTx (delete it (mapTx p)) p in
  with_nTransactionsUpdated (wrap32 (nTransactionsUpdated p + 1)) p.

(** [CTxMemPool::removeUnchecked] *)
Definition removeUnchecked (it : uint256) (reason : MemPoolRemovalReason)
    (p : CTxMemPool) : option CTxMemPool :=
  e ← mapTx p !! it;
  let hash := GetHash (tx e) in
  let p := erase_entry it e
             (unregister_hash (vTxHashesIdx e)
                (unindex_inputs (vin (tx e))
                   (emit (NotifyEntryRemoved hash reason) p))) in
  Some (if minerPolicyEstimator p then emit (EstimatorRemoveTx hash false) p else p).

(** [CTxMemPool::RemoveStaged] *)
Definition RemoveStaged (stage : gset uint256) (updateDescendants : bool)
    (reason : MemPoolRemovalReason) (p : CTxMemPool) : option CTxMemPool :=
  p ← UpdateForRemoveFromMempool stage updateDescendants p;
  for_each (fun it q => removeUnchecked it reason q) (ordered stage) p.

(** The children of a transaction that is not in the pool, found through
    [mapNextTx]: the [else] branch of [removeRecursive]. *)
Fixpoint spenders_of (p : CTxMemPool) (h : uint256) (n : nat) (i : N)
    (txToRemove : gset uint256) : option (gset uint256) :=
  match n with
  | O => Some txToRemove
  | S n' =>
      match mapNextTx p !! mkOutPoint h i with
      | None => spenders_of p h n' (i + 1)%N txToRemove
      | Some nexthash =>
          _ ← mapTx p !! nexthash;
          spenders_of p h n' (i + 1)%N ({[nexthash]} ∪ txToRemove)
      end
  end.

(** [CTxMemPool::removeRecursive] *)
Definition removeRecursive (origTx : CTransaction) (reason : MemPoolRemovalReason)
    (p : CTxMemPool) : option CTxMemPool :=
  txToRemove ← match mapTx p !! GetHash origTx with
               | Some _ => Some {[GetHash origTx]}
               | None => spenders_of p (GetHash origTx) (length (vout origTx)) 0%N ∅
               end;
  setAllRemoves ← for_each (fun it acc => CalculateDescendants p it acc)
                           (ordered txToRemove) ∅;
  RemoveStaged setAllRemoves false reason p.

(** [CTxMemPool::Expire]: the entry-time index is walked from the oldest
    entry up to the first one that is not older than [time]. *)
Definition Expire (time : Z) (p : CTxMemPool) : option (Z * CTxMemPool) :=
  let toremove : gset uint256 := dom (filter (fun kv => nTime (snd kv) < time) (mapTx p)) in
  stage ← for_each (fun removeit acc => CalculateDescendants p removeit acc)
                   (ordered toremove) ∅;
  p ← RemoveStaged stage false EXPIRY p;
  Some (sizeZ stage, p).
End Mutators.

(** ** Eviction, the rolling fee floor, prioritisation *)

(** The [descendant_score] index of [mapTx]. Its comparator,
    [CompareTxMemPoolEntryByDescendantScore], is declared in txmempool.h,
    which is not part of the sources at hand; it is a parameter here, and
    [cmp a b] reads "[a] sorts before [b]". *)
Definition index_le (cmp : CTxMemPoolEntry -> CTxMemPoolEntry -> bool)
    (a b : uint256 * CTxMemPoolEntry) : Prop :=
  cmp (snd b) (snd a) = false.

Global Instance index_le_dec cmp a b : Decision (index_le cmp a b).
Proof. unfold index_le. apply _. Defined.

(** [mapTx.get<descendant_score>().begin()], projected to the primary index. *)
Definition descendant_score_begin (cmp : CTxMemPoolEntry -> CTxMemPoolEntry -> bool)
    (p : CTxMemPool) : option uint256 :=
  fst <$> head (merge_sort (index_le cmp) (map_to_list (mapTx p))).

Definition ROLLING_FEE_HALFLIFE : Z := 60 * 60 * 12.

(** The conversion of a [double] to [CAmount] truncates. *)
Definition Qtruncate (q : Q) : Z := if Qle_bool 0 q then Qfloor q else Qceiling q.

Section Eviction.
Context `{Externals}.
Variable CompareTxMemPoolEntryByDescendantScore :
  CTxMemPoolEntry -> CTxMemPoolEntry -> bool.

(** [CTxMemPool::DynamicMemoryUsage] *)
Definition DynamicMemoryUsage (p : CTxMemPool) : Z :=
  wrap64 (MallocUsage_entry * Z.of_nat (size (mapTx p))
          + DynamicUsage_containers (size (mapNextTx p)) (size (mapDeltas p))
                                    (size (mapLinks p)) (length (vTxHashes p))
          + cachedInnerUsage p).

(** [CTxMemPool::trackPackageRemoved] *)
Definition trackPackageRemoved (rate : CFeeRate) (p : CTxMemPool) : CTxMemPool :=
  if Qle_bool (inject_Z (GetFeePerK rate)) (rollingMinimumFeeRate p) then p
  else with_rolling (inject_Z (GetFeePerK rate)) (lastRollingFeeUpdate p) false p.

(** [CTxMemPool::GetMinFee]; [now] is [GetTime()]. The call refreshes the
    decayed rate the pool caches. *)
Definition GetMinFee (now : Z) (sizelimit : Z) (p : CTxMemPool) : CFeeRate * CTxMemPool :=
  if negb (blockSinceLastRollingFeeBump p) || Qeq_bool (rollingMinimumFeeRate p) 0
  then (mkFeeRate (Qtruncate (rollingMinimumFeeRate p)), p)
  else
    let refreshed :=
      if lastRollingFeeUpdate p + 10 <? now then
        let halflife : Q :=
          if DynamicMemoryUsage p <? sizelimit / 4
          then (inject_Z ROLLING_FEE_HALFLIFE / 4)%Q
          else if DynamicMemoryUsage p <? sizelimit / 2
          then (inject_Z ROLLING_FEE_HALFLIFE / 2)%Q
          else inject_Z ROLLING_FEE_HALFLIFE in
        let rate := rolling_decay (rollingMinimumFeeRate p)
                                  (now - lastRollingFeeUpdate p) halflife in
        if Qle_bool (inject_Z (GetFeePerK incrementalRelayFee) / 2)%Q rate
        then inr (with_rolling rate now (blockSinceLastRollingFeeBump p) p)
        else inl (with_rolling 0%Q now (blockSinceLastRollingFeeBump p) p)
      else inr p in
    match refreshed with
    | inl p' => (mkFeeRate 0, p')
    | inr p' =>
        (CFeeRate_max (mkFeeRate (Qtruncate (rollingMinimumFeeRate p'))) incrementalRelayFee, p')
    end.

(** The outpoints [TrimToSize] reports: inputs of removed transactions
    whose funding transaction is not in the pool. *)
Definition no_spends_remaining (p : CTxMemPool) (txn : list CTransaction) : list COutPoint :=
  flat_map (fun t => filter (fun o => exists_ p (op_hash o) = false) (prevout <$> vin t)) txn.

(** One pass of the loop of [TrimToSize]. *)
Definition TrimToSize_pass (collect : bool) (acc : list COutPoint) (p : CTxMemPool)
    : option (list COutPoint * CTxMemPool) :=
  it ← descendant_score_begin CompareTxMemPoolEntryByDescendantScore p;
  e ← mapTx p !! it;
  let removed := CFeeRate_add (CFeeRate_of (nModFeesWithDescendants e)
                                           (nSizeWithDescendants e))
                              incrementalRelayFee in
  let p := trackPackageRemoved removed p in
  stage ← CalculateDescendants p it ∅;
  txn ← (if collect then mapM (fun h => tx <$> mapTx p !! h) (ordered stage) else Some []);
  p ← RemoveStaged stage false SIZELIMIT p;
  Some (acc ++ no_spends_remaining p txn, p).

Fixpoint TrimToSize_loop (fuel : nat) (sizelimit : Z) (collect : bool)
    (acc : list COutPoint) (p : CTxMemPool) : option (list COutPoint * CTxMemPool) :=
  if bool_decide (mapTx p ≠ ∅) && (sizelimit <? DynamicMemoryUsage p) then
    match fuel with
    | O => None
    | S fuel' =>
        r ← TrimToSize_pass collect acc p;
        TrimToSize_loop fuel' sizelimit collect (fst r) (snd r)
    end
  else Some (acc, p).

(** [CTxMemPool::TrimToSize]; [collect] says whether [pvNoSpendsRemaining]
    was given. Every pass removes at least the entry it selected, so
    [size mapTx] passes are the most there can be. *)
Definition TrimToSize (sizelimit : Z) (collect : bool) (p : CTxMemPool)
    : option (list COutPoint * CTxMemPool) :=
  TrimToSize_loop (size (mapTx p)) sizelimit collect [] p.

(** [CTxMemPool::LimitMempoolSize]; the outpoints returned are those the
    caller uncaches from [pcoinsTip]. *)
Definition LimitMempoolSize (now : Z) (limit : Z) (age : Z) (p : CTxMemPool)
    : option (list COutPoint * CTxMemPool) :=
  r ← Expire (now - age) p;
  TrimToSize limit true (snd r).
End Eviction.

Section Prioritise.
Context `{Externals}.

(** [CTxMemPool::PrioritiseTransaction] *)
Definition PrioritiseTransaction (hash : uint256) (nFeeDelta : Z) (p : CTxMemPool)
    : option CTxMemPool :=
  let delta := default 0 (mapDeltas p !! hash) + nFeeDelta in
  let p := with_mapDeltas (<[hash := delta]> (mapDeltas p)) p in
  match mapTx p !! hash with
  | None => Some p
  | Some _ =>
      p ← modify hash (fun e => Some (UpdateFeeDelta delta e)) p;
      e ← mapTx p !! hash;
      r ← CalculateMemPoolAncestors p e NoLimits false;
      p ← for_each (fun ancestorIt q =>
                      modify ancestorIt (UpdateDescendantState 0 nFeeDelta 0) q)
                   (ordered (snd r)) p;
      setDescendants ← CalculateDescendants p hash ∅;
      p ← for_each (fun descendantIt q =>
                      modify descendantIt (UpdateAncestorState 0 nFeeDelta 0 0) q)
                   (ordered (setDescendants ∖ {[hash]})) p;
      Some (with_nTransactionsUpdated (wrap32 (nTransactionsUpdated p + 1)) p)
  end.

(** [CTxMemPool::ApplyDelta] *)
Definition ApplyDelta (p : CTxMemPool) (hash : uint256) (nFeeDelta : Z) : Z :=
  match mapDeltas p !! hash with
  | None => nFeeDelta
  | Some delta => nFeeDelta + delta
  end.

(** [CTxMemPool::ClearPrioritisation] *)
Definition ClearPrioritisation (hash : uint256) (p : CTxMemPool) : CTxMemPool :=
  with_mapDeltas (delete hash (mapDeltas p)) p.

(** [CTxMemPool::HasNoInputsOf] *)
Definition HasNoInputsOf (p : CTxMemPool) (t : CTransaction) : bool :=
  forallb (fun txin => negb (exists_ p (op_hash (prevout txin)))) (vin t).

(** [CTxMemPool::TransactionWithinChainLimit] *)
Definition TransactionWithinChainLimit (p : CTxMemPool) (txid : uint256) (chainLimit : Z)
    : bool :=
  match mapTx p !! txid with
  | None => true
  | Some e => (nCountWithAncestors e <? chainLimit) && (nCountWithDescendants e <? chainLimit)
  end.
End Prioritise.

(** ** Admission *)

Inductive RejectCode :=
  REJECT_INVALID | REJECT_NONSTANDARD | REJECT_DUPLICATE
| REJECT_INSUFFICIENTFEE | REJECT_HIGHFEE | REJECT_OTHER (code : Z).

(** What [state.DoS] and [state.Invalid] record in the validation state. *)
Record Rejection := mkRejection {
  rej_dos : Z;
  rej_code : RejectCode;
  rej_reason : string;
  rej_corruptionPossible : bool
}.

(** How [AcceptToMemoryPoolWorker] ends. [MissingInputs] is the plain
    [return false] that leaves the state valid; [FatalError] is
    [return error(...)]; [Aborted] is a failed assertion. *)
Inductive AcceptResult :=
| Accepted
| Rejected (r : Rejection)
| MissingInputs (pfMissingInputs : bool)
| FatalError (msg : string)
| Aborted.

Record Coin := mkCoin { coin_out : CTxOut; coin_nHeight : Z; coin_fCoinBase : bool }.

Definition MEMPOOL_HEIGHT : Z := 2147483647.

(** [Coin::IsSpent]: the output is null. *)
Definition IsSpent (c : Coin) : bool := nValue (coin_out c) =? -1.

(** The node around the pool, as one call of the admission sees it:
    configuration, chain tip, clock, the UTXO cache [pcoinsTip], and the
    validation primitives of tx_verify, policy and validation. *)
Record ChainEnv := mkEnv {
  chainparams_RequireStandard : bool;
  fRequireStandard : bool;
  fEnableReplacement : bool;
  witnessEnabled : bool;
  arg_prematurewitness : bool;
  arg_promiscuousmempoolflags : option Z;
  arg_maxmempool : Z;
  arg_mempoolexpiry : Z;
  arg_limitancestorcount : Z;
  arg_limitancestorsize : Z;
  arg_limitdescendantcount : Z;
  arg_limitdescendantsize : Z;
  chainActive_Height : Z;
  GetBlockScriptFlags : Z;
  IsCurrentForFeeEstimation : bool;
  GetTime : Z;
  CheckTransaction : CTransaction -> option Rejection;
  IsCoinBase : CTransaction -> bool;
  IsStandardTx : CTransaction -> bool -> option string;
  CheckFinalTx : CTransaction -> bool;
  CheckSequenceLocks : CTransaction -> bool * LockPoints;
  AreInputsStandard : CTransaction -> gmap COutPoint Coin -> bool;
  IsWitnessStandard : CTransaction -> gmap COutPoint Coin -> bool;
  GetTransactionSigOpCost : CTransaction -> gmap COutPoint Coin -> Z;
  GetTransactionWeight : CTransaction -> Z;
  RecursiveDynamicUsage : CTransaction -> Z;
  CheckInputs : CTransaction -> gmap COutPoint Coin -> Z -> bool -> option Rejection;
  pcoinsTip_GetCoin : COutPoint -> option Coin;
  pcoinsTip_HaveCoinInCache : COutPoint -> bool
}.

(** A step of the pipeline either hands on a value or ends the call. *)
Inductive step (A : Type) :=
| Continue (a : A)
| Stop (r : AcceptResult).
Arguments Continue {A} a.
Arguments Stop {A} r.

Definition step_bind {A B} (s : step A) (k : A -> step B) : step B :=
  match s with
  | Continue a => k a
  | Stop r => Stop r
  end.

Notation "x <-- s ;; k" := (step_bind s (fun x => k))
  (at level 100, s at next level, right associativity, only parsing).

Definition reject {A} (dos : Z) (code : RejectCode) (reason : string) (corruption : bool)
    : step A :=
  Stop (Rejected (mkRejection dos code reason corruption)).

Definition or_abort {A} (o : option A) : step A :=
  match o with
  | Some a => Continue a
  | None => Stop Aborted
  end.

(** [CCoinsViewMemPool::GetCoin] *)
Definition CCoinsViewMemPool_GetCoin (env : ChainEnv) (p : CTxMemPool) (outpoint : COutPoint)
    : option Coin :=
  match get p (op_hash outpoint) with
  | Some ptx =>
      match vout ptx !! N.to_nat (op_n outpoint) with
      | Some out => Some (mkCoin out MEMPOOL_HEIGHT false)
      | None => None
      end
  | None => pcoinsTip_GetCoin env outpoint
  end.

(** [view.AccessCoin]: the empty coin stands for a missing one. *)
Definition AccessCoin (view : gmap COutPoint Coin) (o : COutPoint) : Coin :=
  default (mkCoin (mkTxOut (-1)) 0 false) (view !! o).

Section Admission.
Context `{Externals}.
Variable CompareTxMemPoolEntryByDescendantScore :
  CTxMemPoolEntry -> CTxMemPoolEntry -> bool.
Variable env : ChainEnv.

(** Lines 136-165: the checks that need neither the pool's indices nor
    the coins. *)
Definition basic_checks (p : CTxMemPool) (t : CTransaction) : step unit :=
  match CheckTransaction env t with
  | Some r => Stop (Rejected r)
  | None =>
      if IsCoinBase env t then reject 100 REJECT_INVALID "coinbase" false
      else if negb (arg_prematurewitness env) && HasWitness t && negb (witnessEnabled env)
      then reject 0 REJECT_NONSTANDARD "no-witness-yet" true
      else
        match (if fRequireStandard env then IsStandardTx env t (witnessEnabled env)
               else None) with
        | Some reason => reject 0 REJECT_NONSTANDARD reason false
        | None =>
            if negb (CheckFinalTx env t) then reject 0 REJECT_NONSTANDARD "non-final" false
            else if exists_ p (GetHash t)
            then reject 0 REJECT_DUPLICATE "txn-already-in-mempool" false
            else Continue tt
        end
  end.

(** The opt-out test on one conflicting transaction (lines 191-202):
    [fReplacementOptOut] stays true unless replacement is enabled and
    some input signals with a sequence number of at most
    [MAX_BIP125_RBF_SEQUENCE]. *)
Definition fReplacementOptOut (ptxConflicting : CTransaction) : bool :=
  if fEnableReplacement env then
    negb (existsb (fun txin => nSequence txin <=? MAX_BIP125_RBF_SEQUENCE)
                  (vin ptxConflicting))
  else true.

(** Lines 168-212: the loop over the inputs that collects [setConflicts]. *)
Fixpoint find_conflicts (p : CTxMemPool) (ins : list CTxIn) (setConflicts : gset uint256)
    : step (gset uint256) :=
  match ins with
  | [] => Continue setConflicts
  | txin :: ins' =>
      match mapNextTx p !! prevout txin with
      | None => find_conflicts p ins' setConflicts
      | Some hConflicting =>
          ptxConflicting <-- or_abort (get p hConflicting) ;;
          if decide (GetHash ptxConflicting ∈ setConflicts)
          then find_conflicts p ins' setConflicts
          else if fReplacementOptOut ptxConflicting
          then reject 0 REJECT_DUPLICATE "txn-mempool-conflict" false
          else find_conflicts p ins' ({[GetHash ptxConflicting]} ∪ setConflicts)
      end
  end.

(** Lines 234-248: an input without a coin. *)
Definition missing_or_known (t : CTransaction) (pfMissingInputs : bool) : AcceptResult :=
  if existsb (fun out => pcoinsTip_HaveCoinInCache env (mkOutPoint (GetHash t) (N.of_nat out)))
             (seq 0 (length (vout t)))
  then Rejected (mkRejection 0 REJECT_DUPLICATE "txn-already-known" false)
  else MissingInputs pfMissingInputs.

(** Lines 226-250: every input must have a coin, in the pool or in the
    UTXO set. The first component is [coins_to_uncache]; the second is
    the cache of [view] as the loop fills it. *)
Fixpoint fetch_inputs (p : CTxMemPool) (t : CTransaction) (pfMissingInputs : bool)
    (ins : list CTxIn) (uncache : list COutPoint) (view : gmap COutPoint Coin)
    : list COutPoint * step (gmap COutPoint Coin) :=
  match ins with
  | [] => (uncache, Continue view)
  | txin :: ins' =>
      let uncache :=
        if pcoinsTip_HaveCoinInCache env (prevout txin) then uncache
        else uncache ++ [prevout txin] in
      let coin :=
        match view !! prevout txin with
        | Some c => Some c
        | None => CCoinsViewMemPool_GetCoin env p (prevout txin)
        end in
      match coin with
      | Some c =>
          if IsSpent c then (uncache, Stop (missing_or_known t pfMissingInputs))
          else fetch_inputs p t pfMissingInputs ins' uncache (<[prevout txin := c]> view)
      | None => (uncache, Stop (missing_or_known t pfMissingInputs))
      end
  end.

(** [view.GetValueIn] *)
Definition GetValueIn (view : gmap COutPoint Coin) (t : CTransaction) : Z :=
  if IsCoinBase env t then 0
  else foldl (fun acc txin => acc + nValue (coin_out (AccessCoin view (prevout txin))))
             0 (vin t).

Definition GetValueOut (t : CTransaction) : Z :=
  foldl (fun acc out => acc + nValue out) 0 (vout t).

(** What the pipeline has established once the fee checks are passed. *)
Record Candidate := mkCandidate {
  c_view : gmap COutPoint Coin;
  c_nFees : Z;
  c_nModifiedFees : Z;
  c_entry : CTxMemPoolEntry;
  c_nSize : Z
}.

Definition package_limits : Limits :=
  mkLimits (arg_limitancestorcount env)
           (wrap32 (arg_limitancestorsize env * 1000))
           (arg_limitdescendantcount env)
           (wrap32 (arg_limitdescendantsize env * 1000)).

Definition maxmempool_bytes : Z := wrap32 (arg_maxmempool env * 1000000).

(** Lines 252-328: sequence locks, standardness of the inputs, sig-op
    cost and the fee checks. [GetMinFee] refreshes the rolling rate the
    pool caches, so the pool is handed on as that call leaves it. *)
Definition fee_checks (p : CTxMemPool) (t : CTransaction) (fLimitFree : bool)
    (nAcceptTime nAbsurdFee : Z) (view : gmap COutPoint Coin)
    : CTxMemPool * step Candidate :=
  let nValueIn := GetValueIn view t in
  let '(locks_ok, lp) := CheckSequenceLocks env t in
  if negb locks_ok then (p, reject 0 REJECT_NONSTANDARD "non-BIP68-final" false)
  else if fRequireStandard env && negb (AreInputsStandard env t view)
  then (p, reject 0 REJECT_NONSTANDARD "bad-txns-nonstandard-inputs" false)
  else if HasWitness t && fRequireStandard env && negb (IsWitnessStandard env t view)
  then (p, reject 0 REJECT_NONSTANDARD "bad-witness-nonstandard" true)
  else
    let nSigOpsCost := GetTransactionSigOpCost env t view in
    let nValueOut := GetValueOut t in
    let nFees := nValueIn - nValueOut in
    let nModifiedFees := ApplyDelta p (GetHash t) nFees in
    let fSpendsCoinbase :=
      existsb (fun txin => coin_fCoinBase (AccessCoin view (prevout txin))) (vin t) in
    let entry := CTxMemPoolEntry_new t nFees nAcceptTime (chainActive_Height env)
                   fSpendsCoinbase nSigOpsCost lp
                   (GetTransactionWeight env t) (RecursiveDynamicUsage env t) in
    let nSize := wrap32 (GetTxSize entry) in
    if MAX_STANDARD_TX_SIGOPS_COST <? nSigOpsCost
    then (p, reject 0 REJECT_NONSTANDARD "bad-txns-too-many-sigops" false)
    else
      let '(minFee, p) :=
        GetMinFee (GetTime env) maxmempool_bytes p in
      let mempoolRejectFee := GetFee minFee nSize in
      if (0 <? mempoolRejectFee) && (nModifiedFees <? mempoolRejectFee)
      then (p, reject 0 REJECT_INSUFFICIENTFEE "mempool min fee not met" false)
      else if fLimitFree && (nModifiedFees <? GetFee minRelayTxFee nSize)
      then (p, reject 0 REJECT_INSUFFICIENTFEE "min relay fee not met" false)
      else if negb (nAbsurdFee =? 0) && (nAbsurdFee <? nFees)
      then (p, reject 0 REJECT_HIGHFEE "absurdly-high-fee" false)
      else (p, Continue (mkCandidate view nFees nModifiedFees entry nSize)).

(** Lines 330-359: the in-pool ancestors within the package limits, and
    the test that none of them is also a conflict. *)
Definition ancestor_checks (p : CTxMemPool) (c : Candidate) (setConflicts : gset uint256)
    : step (gset uint256) :=
  r <-- or_abort (CalculateMemPoolAncestors p (c_entry c) package_limits true) ;;
  if negb (fst r) then reject 0 REJECT_NONSTANDARD "too-long-mempool-chain" false
  else
    hashes <-- or_abort (mapM (fun ancestorIt => (fun e => GetHash (tx e)) <$> mapTx p !! ancestorIt)
                              (ordered (snd r))) ;;
    if existsb (fun hashAncestor => bool_decide (hashAncestor ∈ setConflicts)) hashes
    then reject 10 REJECT_INVALID "bad-txns-spends-conflicting-tx" false
    else Continue (snd r).

(** Lines 379-421: the loop over [setConflicts]. It hands on
    [setIterConflicting], [setConflictsParents] and [nConflictingCount]. *)
Fixpoint direct_conflicts (p : CTxMemPool) (newFeeRate : CFeeRate) (cs : list uint256)
    (setIterConflicting setConflictsParents : gset uint256) (nConflictingCount : Z)
    : step (gset uint256 * gset uint256 * Z) :=
  match cs with
  | [] => Continue (setIterConflicting, setConflictsParents, nConflictingCount)
  | hashConflicting :: cs' =>
      match mapTx p !! hashConflicting with
      | None =>
          direct_conflicts p newFeeRate cs' setIterConflicting setConflictsParents
                           nConflictingCount
      | Some mi =>
          let oldFeeRate := CFeeRate_of (GetModifiedFee mi) (GetTxSize mi) in
          if CFeeRate_le newFeeRate oldFeeRate
          then reject 0 REJECT_INSUFFICIENTFEE "insufficient fee" false
          else
            direct_conflicts p newFeeRate cs'
              ({[hashConflicting]} ∪ setIterConflicting)
              (list_to_set ((fun txin => op_hash (prevout txin)) <$> vin (tx mi))
                 ∪ setConflictsParents)
              (wrap64 (nConflictingCount + nCountWithDescendants mi))
      end
  end.

Definition maxDescendantsToVisit : Z := 100.

(** What the replacement arbitration hands to the commit. *)
Record Replacement := mkReplacement {
  allConflicting : gset uint256;
  nConflictingFees : Z;
  nConflictingSize : Z
}.

(** Lines 375-465: the conflicts to evict. The loop over [setConflicts],
    the bound on the work, the set [allConflicting] with its fees and size,
    and the test that the replacement spends no new unconfirmed input. *)
Definition replacement_staging (p : CTxMemPool) (t : CTransaction) (c : Candidate)
    (setConflicts : gset uint256) : step Replacement :=
  let newFeeRate := CFeeRate_of (c_nModifiedFees c) (c_nSize c) in
  d <-- direct_conflicts p newFeeRate (ordered setConflicts) ∅ ∅ 0 ;;
  let '(setIterConflicting, setConflictsParents, nConflictingCount) := d in
  if nConflictingCount <=? maxDescendantsToVisit then
    all <-- or_abort (for_each (fun it acc => CalculateDescendants p it acc)
                               (ordered setIterConflicting) ∅) ;;
    sums <-- or_abort (for_each (fun it '(fees, size) =>
                                   e ← mapTx p !! it;
                                   Some (fees + GetModifiedFee e, wrap64 (size + GetTxSize e)))
                                (ordered all) (0, 0)) ;;
    if existsb (fun txin =>
                  bool_decide (op_hash (prevout txin) ∉ setConflictsParents)
                  && exists_ p (op_hash (prevout txin))) (vin t)
    then reject 0 REJECT_NONSTANDARD "replacement-adds-unconfirmed" false
    else Continue (mkReplacement all (fst sums) (snd sums))
  else reject 0 REJECT_NONSTANDARD "too many potential replacements" false.

(** Lines 361-490: replacement arbitration, which ends with the two fee
    rules (lines 467-489). *)
Definition replacement_checks (p : CTxMemPool) (t : CTransaction) (c : Candidate)
    (setConflicts : gset uint256) : step Replacement :=
  if bool_decide (size setConflicts = 0%nat) then Continue (mkReplacement ∅ 0 0)
  else
    rep <-- replacement_staging p t c setConflicts ;;
    if c_nModifiedFees c <? nConflictingFees rep
    then reject 0 REJECT_INSUFFICIENTFEE "insufficient fee" false
    else
      let nDeltaFees := c_nModifiedFees c - nConflictingFees rep in
      if nDeltaFees <? GetFee incrementalRelayFee (c_nSize c)
      then reject 0 REJECT_INSUFFICIENTFEE "insufficient fee" false
      else Continue rep.

(** Lines 492-496 *)
Definition scriptVerifyFlags : Z :=
  if negb (chainparams_RequireStandard env)
  then default STANDARD_SCRIPT_VERIFY_FLAGS (arg_promiscuousmempoolflags env)
  else STANDARD_SCRIPT_VERIFY_FLAGS.

(** Lines 498-517: the script checks under the policy flags. *)
Definition script_checks (t : CTransaction) (view : gmap COutPoint Coin) : step unit :=
  match CheckInputs env t view scriptVerifyFlags false with
  | None => Continue tt
  | Some r =>
      let onlyWitnessMissing :=
        negb (HasWitness t)
        && bool_decide (CheckInputs env t view
                          (Z.land scriptVerifyFlags
                             (Z.lnot (Z.lor SCRIPT_VERIFY_WITNESS SCRIPT_VERIFY_CLEANSTACK)))
                          false = None)
        && bool_decide (CheckInputs env t view
                          (Z.land scriptVerifyFlags (Z.lnot SCRIPT_VERIFY_CLEANSTACK))
                          false ≠ None) in
      Stop (Rejected (if onlyWitnessMissing
                      then mkRejection (rej_dos r) (rej_code r) (rej_reason r) true
                      else r))
  end.

(** One pass of the loop of [CheckInputsFromMempoolAndCache]: [Some true]
    goes on, [Some false] is the [return false] on a spent coin, [None]
    a failed assertion. *)
Definition check_input_coin (p : CTxMemPool) (view : gmap COutPoint Coin) (txin : CTxIn)
    : option bool :=
  let coin := AccessCoin view (prevout txin) in
  if IsSpent coin then Some false
  else
    match get p (op_hash (prevout txin)) with
    | Some txFrom =>
        if negb (bool_decide (GetHash txFrom = op_hash (prevout txin))) then None
        else
          match vout txFrom !! N.to_nat (op_n (prevout txin)) with
          | None => None
          | Some out => if bool_decide (out = coin_out coin) then Some true else None
          end
    | None =>
        match pcoinsTip_GetCoin env (prevout txin) with
        | None => None
        | Some coinFromDisk =>
            if IsSpent coinFromDisk then None
            else if bool_decide (coin_out coinFromDisk = coin_out coin) then Some true
            else None
        end
    end.

Fixpoint check_input_coins (p : CTxMemPool) (view : gmap COutPoint Coin) (ins : list CTxIn)
    : option bool :=
  match ins with
  | [] => Some true
  | txin :: ins' =>
      match check_input_coin p view txin with
      | None => None
      | Some true => check_input_coins p view ins'
      | Some false => Some false
      end
  end.

(** [CTxMemPool::CheckInputsFromMempoolAndCache] *)
Definition CheckInputsFromMempoolAndCache (p : CTxMemPool) (t : CTransaction)
    (view : gmap COutPoint Coin) (flags : Z) : option bool :=
  if IsCoinBase env t then None
  else
    match check_input_coins p view (vin t) with
    | None => None
    | Some true => Some (bool_decide (CheckInputs env t view flags true = None))
    | Some false => Some false
    end.

(** Lines 519-559: the second run of the script checks. The flags it runs
    under are the constant [0], not the flags of the tip. *)
Definition reconcile_checks (p : CTxMemPool) (t : CTransaction)
    (view : gmap COutPoint Coin) : step unit :=
  let currentBlockScriptVerifyFlags := 0 in
  ok <-- or_abort (CheckInputsFromMempoolAndCache p t view currentBlockScriptVerifyFlags) ;;
  if ok : bool then Continue tt
  else if Z.land (Z.lnot scriptVerifyFlags) currentBlockScriptVerifyFlags =? 0
  then Stop (FatalError
               "BUG! PLEASE REPORT THIS! ConnectInputs failed against latest-block but not STANDARD flags")
  else
    match CheckInputs env t view MANDATORY_SCRIPT_VERIFY_FLAGS false with
    | Some _ =>
        Stop (FatalError
                "ConnectInputs failed against MANDATORY but not STANDARD flags due to promiscuous mempool")
    | None => Continue tt
    end.

(** What a call of the admission leaves behind. *)
Record WorkerResult := mkResult {
  w_result : AcceptResult;
  w_pool : CTxMemPool;
  w_coins_to_uncache : list COutPoint;
  w_plTxnReplaced : list CTransaction
}.

(** Lines 561-596: the conflicts go, the entry comes in, the pool is
    trimmed, the listeners are told. *)
Definition commit (p : CTxMemPool) (t : CTransaction) (c : Candidate)
    (setAncestors : gset uint256) (rep : Replacement) (fOverrideMempoolLimit : bool)
    (uncache : list COutPoint) : WorkerResult :=
  let hash := GetHash t in
  match mapM (fun it => tx <$> mapTx p !! it) (ordered (allConflicting rep)) with
  | None => mkResult Aborted p uncache []
  | Some replaced =>
      match RemoveStaged (allConflicting rep) false REPLACED p with
      | None => mkResult Aborted p uncache replaced
      | Some p =>
          let validForFeeEstimation := false in
          match addUnchecked hash (c_entry c) setAncestors validForFeeEstimation p with
          | None => mkResult Aborted p uncache replaced
          | Some p =>
              if fOverrideMempoolLimit
              then mkResult Accepted (emit (TransactionAddedToMempool hash) p) uncache replaced
              else
                match LimitMempoolSize CompareTxMemPoolEntryByDescendantScore
                        (GetTime env) maxmempool_bytes
                        (arg_mempoolexpiry env * 60 * 60) p with
                | None => mkResult Aborted p uncache replaced
                | Some (_, p) =>
                    if negb (exists_ p hash)
                    then mkResult (Rejected (mkRejection 0 REJECT_INSUFFICIENTFEE
                                                         "mempool full" false))
                                  p uncache replaced
                    else mkResult Accepted (emit (TransactionAddedToMempool hash) p)
                                  uncache replaced
                end
          end
      end
  end.

(** Lines 136-328: everything up to and including the fee checks. *)
Definition admission_prefix (p : CTxMemPool) (t : CTransaction) (fLimitFree : bool)
    (pfMissingInputs : bool) (nAcceptTime nAbsurdFee : Z)
    : list COutPoint * CTxMemPool * step (gset uint256 * Candidate) :=
  match basic_checks p t with
  | Stop r => ([], p, Stop r)
  | Continue _ =>
      match find_conflicts p (vin t) ∅ with
      | Stop r => ([], p, Stop r)
      | Continue setConflicts =>
          let '(uncache, s) := fetch_inputs p t pfMissingInputs (vin t) [] ∅ in
          match s with
          | Stop r => (uncache, p, Stop r)
          | Continue view =>
              let '(p, s) := fee_checks p t fLimitFree nAcceptTime nAbsurdFee view in
              (uncache, p, c <-- s ;; Continue (setConflicts, c))
          end
      end
  end.

(** Lines 330-559: what stands between the fee checks and the commit. *)
Definition admission_checks (p : CTxMemPool) (t : CTransaction) (c : Candidate)
    (setConflicts : gset uint256) : step (gset uint256 * Replacement) :=
  setAncestors <-- ancestor_checks p c setConflicts ;;
  rep <-- replacement_checks p t c setConflicts ;;
  _ <-- script_checks t (c_view c) ;;
  _ <-- reconcile_checks p t (c_view c) ;;
  Continue (setAncestors, rep).

(** [CTxMemPool::AcceptToMemoryPoolWorker]. [pfMissingInputs] says
    whether the caller passed a place for the missing-inputs flag. *)
Definition AcceptToMemoryPoolWorker (p : CTxMemPool) (t : CTransaction)
    (fLimitFree : bool) (pfMissingInputs : bool) (nAcceptTime : Z)
    (fOverrideMempoolLimit : bool) (nAbsurdFee : Z) : WorkerResult :=
  let '(uncache, p, s) :=
    admission_prefix p t fLimitFree pfMissingInputs nAcceptTime nAbsurdFee in
  match s with
  | Stop r => mkResult r p uncache []
  | Continue (setConflicts, c) =>
      match admission_checks p t c setConflicts with
      | Stop r => mkResult r p uncache []
      | Continue (setAncestors, rep) =>
          commit p t c setAncestors rep fOverrideMempoolLimit uncache
      end
  end.
End Admission.

(** * Specification-side notions *)

(** The link graph as relations: [child_rel p x y] says [y] is a child of
    [x], [parent_rel p x y] that [y] is a parent of [x]. *)
Definition child_rel (p : CTxMemPool) (x y : uint256) : Prop :=
  exists l, mapLinks p !! x = Some l /\ y ∈ children l.

Definition parent_rel (p : CTxMemPool) (x y : uint256) : Prop :=
  exists l, mapLinks p !! x = Some l /\ y ∈ parents l.

(** [descendant p x y]: [y] is [x] or is reached from [x] through child
    links; [ancestor p x y]: [y] is reached from [x] through at least one
    parent link. *)
Definition descendant (p : CTxMemPool) : relation uint256 := rtc (child_rel p).
Definition ancestor (p : CTxMemPool) : relation uint256 := tc (parent_rel p).

(** Every entry has links, and links point to entries. *)
Definition links_closed (p : CTxMemPool) : Prop :=
  dom (mapLinks p) = dom (mapTx p)
  /\ map_Forall (fun _ l => parents l ⊆ dom (mapTx p) /\ children l ⊆ dom (mapTx p))
                (mapLinks p).

Global Instance links_closed_dec p : Decision (links_closed p).
Proof. unfold links_closed. apply _. Defined.

(** The sum of [f] over a set of entries of [m]. *)
Definition sum_over (m : gmap uint256 CTxMemPoolEntry) (f : CTxMemPoolEntry -> Z)
    (s : gset uint256) : Z :=
  foldr (fun h acc => from_option f 0 (m !! h) + acc) 0 (elements s).

(** The breadth-first closure both traversals of the accountant compute. *)
Fixpoint bfs (next : uint256 -> option (gset uint256)) (fuel : nat)
    (stage acc : gset uint256) : option (gset uint256) :=
  match set_begin stage with
  | None => Some acc
  | Some x =>
      match fuel with
      | O => None
      | S fuel' =>
          ns ← next x;
          bfs next fuel' ((stage ∖ {[x]}) ∪ (ns ∖ ({[x]} ∪ acc))) ({[x]} ∪ acc)
      end
  end.

(** * A concrete node

    The parameters as Bitcoin Core's policy, feerate and interpreter modules
    define them, a chain environment in which every external check passes,
    and a UTXO set that funds the examples: the outpoints of transaction
    [0] hold 100000 satoshi each. They instantiate the statements below. *)

Definition demo_externals : Externals := {|
  GetVirtualTransactionSize := fun w s => (Z.max w (s * 20) + 3) / 4;
  CFeeRate_of := fun fee size =>
    mkFeeRate (if 0 <? size then Z.quot (fee * 1000) size else 0);
  GetFee := fun r n =>
    let f := Z.quot (nSatoshisPerK r * n) 1000 in
    if (f =? 0) && negb (n =? 0)
    then (if 0 <? nSatoshisPerK r then 1 else if nSatoshisPerK r <? 0 then -1 else 0)
    else f;
  incrementalRelayFee := mkFeeRate 1000;
  minRelayTxFee := mkFeeRate 1000;
  IncrementalDynamicUsage := 64;
  DynamicUsage_setEntries := fun s => 64 * Z.of_nat (size s);
  MallocUsage_entry := 400;
  DynamicUsage_containers := fun a b c d =>
    96 * Z.of_nat a + 80 * Z.of_nat b + 128 * Z.of_nat c + 40 * Z.of_nat d;
  rolling_decay := fun r _ _ => r;
  STANDARD_SCRIPT_VERIFY_FLAGS := 65503;
  MANDATORY_SCRIPT_VERIFY_FLAGS := 1;
  SCRIPT_VERIFY_WITNESS := 2048;
  SCRIPT_VERIFY_CLEANSTACK := 256;
  MAX_STANDARD_TX_SIGOPS_COST := 16000
|}.

(** The descendant score as the specification words it: the fee rate of
    the descendant package, compared by cross-multiplication, then the
    txid. The sizes of packages are positive; a size that is not counts
    as 1, which makes the comparison an ordering of all entries. *)
Definition demo_cmp (a b : CTxMemPoolEntry) : bool :=
  let f1 := nModFeesWithDescendants a * Z.max 1 (nSizeWithDescendants b) in
  let f2 := nModFeesWithDescendants b * Z.max 1 (nSizeWithDescendants a) in
  if f1 =? f2 then (GetHash (tx a) <? GetHash (tx b))%N else f1 <? f2.

Definition demo_utxo (o : COutPoint) : option Coin :=
  if (op_hash o =? 0)%N then Some (mkCoin (mkTxOut 100000) 100 false) else None.

Definition demo_env_with
    (checkInputs : CTransaction -> gmap COutPoint Coin -> Z -> bool -> option Rejection)
    : ChainEnv := {|
  chainparams_RequireStandard := true;
  fRequireStandard := true;
  fEnableReplacement := true;
  witnessEnabled := true;
  arg_prematurewitness := false;
  arg_promiscuousmempoolflags := None;
  arg_maxmempool := 300;
  arg_mempoolexpiry := 336;
  arg_limitancestorcount := 25;
  arg_limitancestorsize := 101;
  arg_limitdescendantcount := 25;
  arg_limitdescendantsize := 101;
  chainActive_Height := 500000;
  GetBlockScriptFlags := 3605;
  IsCurrentForFeeEstimation := true;
  GetTime := 1500000000;
  CheckTransaction := fun _ => None;
  IsCoinBase := fun _ => false;
  IsStandardTx := fun _ _ => None;
  CheckFinalTx := fun _ => true;
  CheckSequenceLocks := fun _ => (true, mkLockPoints 0 0);
  AreInputsStandard := fun _ _ => true;
  IsWitnessStandard := fun _ _ => true;
  GetTransactionSigOpCost := fun _ _ => 4;
  GetTransactionWeight := fun _ => 1000;
  RecursiveDynamicUsage := fun _ => 500;
  CheckInputs := checkInputs;
  pcoinsTip_GetCoin := demo_utxo;
  pcoinsTip_HaveCoinInCache := fun _ => false
|}.

Definition demo_env : ChainEnv := demo_env_with (fun _ _ _ _ => None).

(** A node on which the scripts of every transaction pass under the policy
    flags and under no flags at all, and fail under the flags of the tip. *)
Definition drift_env : ChainEnv :=
  demo_env_with (fun _ _ flags _ =>
                   if flags =? 3605
                   then Some (mkRejection 100 REJECT_INVALID
                                          "mandatory-script-verify-flag-failed" false)
                   else None).

(** An admission into the concrete node, with [fLimitFree], a place for
    the missing-inputs flag and no absurd-fee bound. *)
Definition demo_admit (env : ChainEnv) (p : CTxMemPool) (t : CTransaction) : WorkerResult :=
  @AcceptToMemoryPoolWorker demo_externals demo_cmp env p t true true 1500000000 false 0.

Definition demo_pool : CTxMemPool := CTxMemPool_new true 1500000000.

(** A transaction with hash [h], one output of [value], and inputs that
    spend [ins] with the sequence numbers given. *)
Definition simple_tx (h : uint256) (ins : list (uint256 * N * Z)) (value : Z) : CTransaction :=
  mkTx h ((fun i => mkTxIn (mkOutPoint (fst (fst i)) (snd (fst i))) (snd i)) <$> ins)
       [mkTxOut value] false h.

(** The outpoint index points at entries of the pool, each filed under
    the hash of its transaction. *)
Definition spend_index_ok (p : CTxMemPool) : Prop :=
  map_Forall (fun _ h => (fun e => GetHash (tx e)) <$> mapTx p !! h = Some h) (mapNextTx p).

Global Instance spend_index_ok_dec p : Decision (spend_index_ok p).
Proof. unfold spend_index_ok. apply _. Defined.

(** The txids of the pool transactions that spend an input of [t]. *)
Definition conflicts_of (p : CTxMemPool) (t : CTransaction) : gset uint256 :=
  list_to_set (omap (fun txin => mapNextTx p !! prevout txin) (vin t)).

(** Examples for the replacement rules. [tx_optout] spends outpoint
    [(0,0)] with a final sequence number; [tx_mixed] spends [(0,0)] with a
    signalling sequence number and [(0,1)] with a final one; [tx_bump]
    spends [(0,0)] again and pays a higher fee. *)
Definition tx_optout : CTransaction := simple_tx 1%N [(0%N, 0%N, 4294967295)] 99000.
Definition tx_mixed : CTransaction :=
  simple_tx 1%N [(0%N, 0%N, 0); (0%N, 1%N, 4294967295)] 199000.
Definition tx_bump : CTransaction := simple_tx 2%N [(0%N, 0%N, 0)] 98000.

(** [GetMinFee] lets the rate the pool caches decay, and the admission
    calls it before most of its checks: a rejected admission leaves the
    pool as it was up to that refresh of [rollingMinimumFeeRate] and
    [lastRollingFeeUpdate]. *)
Definition same_up_to_fee_decay (p q : CTxMemPool) : Prop :=
  exists rate last, q = with_rolling rate last (blockSinceLastRollingFeeBump p) p.

(** The [k]-th transaction of a chain: it spends output 0 of the
    transaction before it, the first one an outpoint of the UTXO set. *)
Definition chain_tx (k : nat) : CTransaction :=
  simple_tx (N.of_nat k) [(N.of_nat (k - 1), 0%N, 0)] (100000 - 1000 * Z.of_nat k).

(** Admitting [chain_tx 1], ..., [chain_tx n] in this order: the results of
    the admissions and the pool they leave. *)
Fixpoint admit_chain (n : nat) : list AcceptResult * CTxMemPool :=
  match n with
  | O => ([], demo_pool)
  | S n' =>
      let '(results, p) := admit_chain n' in
      let r := demo_admit demo_env p (chain_tx n) in
      (results ++ [w_result r], w_pool r)
  end.

(** [tx_signal] spends outpoint [(0,0)] with a signalling sequence number
    and pays 1000; [tx_small_bump] spends it again and pays 1100, a higher
    fee rate but only 100 more in fees. *)
Definition tx_signal : CTransaction := simple_tx 1%N [(0%N, 0%N, 0)] 99000.
Definition tx_small_bump : CTransaction := simple_tx 3%N [(0%N, 0%N, 0)] 98900.

(** The sum of the virtual sizes of all entries of the pool. *)
Definition sum_of_sizes `{Externals} (p : CTxMemPool) : Z :=
  map_fold (fun _ sz acc => sz + acc) 0 (GetTxSize <$> mapTx p).

(** [totalTxSize] is an unsigned 64-bit counter: it holds the sum of the
    virtual sizes as such a counter holds it, which is the sum itself as
    long as the sum is below 2^64. *)
Definition total_size_ok `{Externals} (p : CTxMemPool) : Prop :=
  totalTxSize p = wrap64 (sum_of_sizes p).

(** The states a pool goes through: the fresh pool, and what an insertion
    by [addUnchecked] of a transaction that is not in the pool yet, or a
    removal by [removeUnchecked], makes of such a state. *)
Inductive quiescent `{Externals} : CTxMemPool -> Prop :=
| quiescent_new estimator now :
    quiescent (CTxMemPool_new estimator now)
| quiescent_add p hash entry setAncestors validFeeEstimate p' :
    quiescent p ->
    mapTx p !! GetHash (tx entry) = None ->
    addUnchecked hash entry setAncestors validFeeEstimate p = Some p' ->
    quiescent p'
| quiescent_remove p it reason p' :
    quiescent p ->
    removeUnchecked it reason p = Some p' ->
    quiescent p'.

(** The entry the concrete node makes of a transaction that pays [fee]. *)
Definition demo_entry (t : CTransaction) (fee : Z) : CTxMemPoolEntry :=
  @CTxMemPoolEntry_new demo_externals t fee 1500000000 500000 false 4
                       (mkLockPoints 0 0) 1000 500.

(** [chain_tx 1] and its child [chain_tx 2] are inserted, then the child
    is removed. *)
Definition demo_add_add_remove : option CTxMemPool :=
  p ← @addUnchecked demo_externals 1%N (demo_entry (chain_tx 1) 1000) ∅ false demo_pool;
  p ← @addUnchecked demo_externals 2%N (demo_entry (chain_tx 2) 1000) {[ 1%N ]} false p;
  @removeUnchecked demo_externals 2%N UNKNOWN p.

(** Entries are filed under the hash of their transaction. *)
Definition entry_keys_ok (p : CTxMemPool) : Prop :=
  map_Forall (fun h e => GetHash (tx e) = h) (mapTx p).

Global Instance entry_keys_ok_dec p : Decision (entry_keys_ok p).
Proof. unfold entry_keys_ok. apply _. Defined.

(** The package aggregates of an entry are such that the assertions of
    [UpdateDescendantState] and [UpdateAncestorState] hold of them. *)
Definition aggregates_in_range (e : CTxMemPoolEntry) : Prop :=
  0 < nSizeWithDescendants e < 2 ^ 63
  /\ 0 < nCountWithDescendants e < 2 ^ 63
  /\ 0 < nSizeWithAncestors e < 2 ^ 63
  /\ 0 < nCountWithAncestors e < 2 ^ 63
  /\ 0 <= int32_of (nSigOpCostWithAncestors e).

Global Instance aggregates_in_range_dec e : Decision (aggregates_in_range e).
Proof. unfold aggregates_in_range. apply _. Defined.

(** The fee delta of every entry is the one [mapDeltas] records for it. *)
Definition fee_deltas_recorded (p : CTxMemPool) : Prop :=
  map_Forall (fun h e => feeDelta e = default 0 (mapDeltas p !! h)) (mapTx p).

Global Instance fee_deltas_recorded_dec p : Decision (fee_deltas_recorded p).
Proof. unfold fee_deltas_recorded. apply _. Defined.

(** [g] applied to the entries whose key is in [s]. *)
Definition map_at (s : gset uint256) (g : CTxMemPoolEntry -> CTxMemPoolEntry)
    (m : gmap uint256 CTxMemPoolEntry) : gmap uint256 CTxMemPoolEntry :=
  map_imap (fun h e => Some (if decide (h ∈ s) then g e else e)) m.

(** What [UpdateDescendantState(0, fee, 0)] and
    [UpdateAncestorState(0, fee, 0, 0)] do to an entry whose aggregates
    are in range. *)
Definition add_desc_fee (fee : Z) (e : CTxMemPoolEntry) : CTxMemPoolEntry :=
  set_desc e (nSizeWithDescendants e) (nModFeesWithDescendants e + fee)
           (nCountWithDescendants e).

Definition add_anc_fee (fee : Z) (e : CTxMemPoolEntry) : CTxMemPoolEntry :=
  set_anc e (nSizeWithAncestors e) (nModFeesWithAncestors e + fee)
          (nCountWithAncestors e) (nSigOpCostWithAncestors e).

(** The pool after [chain_tx 1], [chain_tx 2] and [chain_tx 3] were
    admitted: a parent, its child and its grandchild. *)
Definition chain_pool : CTxMemPool := snd (admit_chain 3).

(** A fee delta of 5 is recorded for a transaction before it arrives, the
    transaction is added, and the prioritisation is cleared while the
    transaction is in the pool. *)
Definition cleared_pool : option CTxMemPool :=
  p ← @PrioritiseTransaction demo_externals 1%N 5 demo_pool;
  p ← @addUnchecked demo_externals 1%N (demo_entry (chain_tx 1) 1000) ∅ false p;
  Some (ClearPrioritisation 1%N p).

(** The modified fee the pool has for [hash]. *)
Definition modified_fee_of (p : CTxMemPool) (hash : uint256) : option Z :=
  GetModifiedFee <$> mapTx p !! hash.

(** ** Well-formed pools *)

Section WellFormed.
Context `{Externals}.

(** The strict ancestors of an entry, as [CalculateMemPoolAncestors]
    finds them through the parent links. *)
Definition ancestors_of (p : CTxMemPool) (h : uint256) : gset uint256 :=
  match mapTx p !! h with
  | Some e =>
      match CalculateMemPoolAncestors p e NoLimits false with
      | Some r => snd r
      | None => ∅
      end
  | None => ∅
  end.

(** Of the entries in [s], those that have [a] among their ancestors. *)
Definition below (p : CTxMemPool) (a : uint256) (s : gset uint256) : gset uint256 :=
  filter (fun r => a ∈ ancestors_of p r) s.

(** A child link from [a] to [c] goes with a parent link from [c] to [a]. *)
Definition links_symmetric (p : CTxMemPool) : Prop :=
  map_Forall (fun a l =>
                set_Forall (fun c => a ∈ parents (links_at p c)) (children l)
                /\ set_Forall (fun b => a ∈ children (links_at p b)) (parents l))
             (mapLinks p).

(** Every transaction has a size. *)
Definition sizes_positive (p : CTxMemPool) : Prop :=
  map_Forall (fun _ e => 0 < GetTxSize e) (mapTx p).

(** The descendant size and count of every entry account for the entry
    and for every entry that has it among its ancestors. The assertions
    of [UpdateDescendantState] rest on this when entries are removed. *)
Definition packages_accounted (p : CTxMemPool) : Prop :=
  map_Forall (fun a e =>
                GetTxSize e + sum_over (mapTx p) GetTxSize (below p a (dom (mapTx p)))
                <= nSizeWithDescendants e
                /\ 1 + sizeZ (below p a (dom (mapTx p))) <= nCountWithDescendants e)
             (mapTx p).

(** The invariants of the pool the removal code relies on. *)
Definition well_formed (p : CTxMemPool) : Prop :=
  links_closed p /\ links_symmetric p /\ entry_keys_ok p
  /\ map_Forall (fun _ e => aggregates_in_range e) (mapTx p)
  /\ sizes_positive p /\ packages_accounted p.

Global Instance well_formed_dec p : Decision (well_formed p).
Proof.
  unfold well_formed, links_symmetric, sizes_positive, packages_accounted.
  apply _.
Defined.
End WellFormed.

(** An entry whose descendant aggregates are reduced by a package that
    leaves the pool. *)
Definition reduce_desc (size fee count : Z) (e : CTxMemPoolEntry) : CTxMemPoolEntry :=
  set_desc e (nSizeWithDescendants e - size) (nModFeesWithDescendants e - fee)
           (nCountWithDescendants e - count).

(** An entry without its position in [vTxHashes]. *)
Definition forget_idx (e : CTxMemPoolEntry) : CTxMemPoolEntry := set_vTxHashesIdx 0 e.

(** [q] is [p] but for the entries, the links and the memory they take. *)
Definition same_but_graph (p q : CTxMemPool) : Prop :=
  q = with_cachedInnerUsage (cachedInnerUsage q)
        (with_mapLinks (mapLinks q) (with_mapTx (mapTx q) p)).

Section Detached.
Context `{Externals}.

(** [detached p L q]: [q] is [p] after the first loop of
    [UpdateForRemoveFromMempool] went over the entries of [L]. They are
    no longer children of anything, and the descendant aggregates of
    their ancestors no longer count them. *)
Definition detached (p : CTxMemPool) (L : gset uint256) (q : CTxMemPool) : Prop :=
  same_but_graph p q
  /\ (forall h, mapTx q !! h
                = reduce_desc (sum_over (mapTx p) GetTxSize (below p h L))
                              (sum_over (mapTx p) GetModifiedFee (below p h L))
                              (sizeZ (below p h L)) <$> mapTx p !! h)
  /\ (forall h, mapLinks q !! h
                = (fun l => mkLinks (parents l) (children l ∖ L)) <$> mapLinks p !! h).
End Detached.

(** What the observers of the pool are told when [r] is removed. *)
Definition removal_signals (estimator : bool) (reason : MemPoolRemovalReason)
    (r : uint256) : list Signal :=
  NotifyEntryRemoved r reason :: (if estimator then [EstimatorRemoveTx r false] else []).

(** [erased reason q L q']: [q'] is [q] after [removeUnchecked] went over
    the entries of [L]. The other entries are as they were but for their
    position in [vTxHashes]. *)
Definition erased (reason : MemPoolRemovalReason) (q : CTxMemPool) (L : list uint256)
    (q' : CTxMemPool) : Prop :=
  (forall h, forget_idx <$> mapTx q' !! h
             = if decide (h ∈ L) then None else forget_idx <$> mapTx q !! h)
  /\ (forall h, mapLinks q' !! h = if decide (h ∈ L) then None else mapLinks q !! h)
  /\ mapDeltas q' = mapDeltas q
  /\ rollingMinimumFeeRate q' = rollingMinimumFeeRate q
  /\ lastRollingFeeUpdate q' = lastRollingFeeUpdate q
  /\ blockSinceLastRollingFeeBump q' = blockSinceLastRollingFeeBump q
  /\ minerPolicyEstimator q' = minerPolicyEstimator q
  /\ signals q' = signals q ++ flat_map (removal_signals (minerPolicyEstimator q) reason) L.

Section RemovedFrom.
Context `{Externals}.

(** [removed_from reason p R p']: [p'] is [p] without the entries of [R].
    The entries that stay are as they were but for their position in
    [vTxHashes] and for their descendant aggregates, which no longer
    count the entries of [R] below them; the links that stay are those
    between entries that stay; the observers were told of every removal,
    in the order of the txids. *)
Definition removed_from (reason : MemPoolRemovalReason) (p : CTxMemPool)
    (R : gset uint256) (p' : CTxMemPool) : Prop :=
  (forall h, forget_idx <$> mapTx p' !! h
             = if decide (h ∈ R) then None
               else forget_idx <$>
                      (reduce_desc (sum_over (mapTx p) GetTxSize (below p h R))
                                   (sum_over (mapTx p) GetModifiedFee (below p h R))
                                   (sizeZ (below p h R)) <$> mapTx p !! h))
  /\ (forall h, mapLinks p' !! h
                = if decide (h ∈ R) then None
                  else (fun l => mkLinks (parents l) (children l ∖ R)) <$> mapLinks p !! h)
  /\ mapDeltas p' = mapDeltas p
  /\ minerPolicyEstimator p' = minerPolicyEstimator p
  /\ signals p' = signals p
                  ++ flat_map (removal_signals (minerPolicyEstimator p) reason) (ordered R).

(** A set of entries that holds the children of its members. *)
Definition closed_under_children (p : CTxMemPool) (R : gset uint256) : Prop :=
  forall r lr, r ∈ R -> mapLinks p !! r = Some lr -> children lr ⊆ R.
End RemovedFrom.

(** ** Spending *)

(** [s] is a transaction of the pool with an input that spends an output
    of [T]. *)
Definition spends_output_of (p : CTxMemPool) (T : CTransaction) (s : uint256) : Prop :=
  exists e o, mapTx p !! s = Some e /\ o ∈ prevout <$> vin (tx e)
              /\ op_hash o = GetHash T /\ (op_n o < N.of_nat (length (vout T)))%N.

(** [mapNextTx] maps the outpoints that the transactions of the pool
    spend, and no others, each to the transaction that spends it. *)
Definition spend_index_exact (p : CTxMemPool) : Prop :=
  map_Forall (fun o s => match mapTx p !! s with
                         | Some e => o ∈ prevout <$> vin (tx e)
                         | None => False
                         end) (mapNextTx p)
  /\ map_Forall (fun s e => Forall (fun txin => mapNextTx p !! prevout txin = Some s)
                                   (vin (tx e))) (mapTx p).

Global Instance spend_index_exact_dec p : Decision (spend_index_exact p).
Proof.
  unfold spend_index_exact. apply and_dec; [| apply _].
  apply map_Forall_dec. intros o s. destruct (mapTx p !! s); apply _.
Defined.

(** A transaction that spends the output of [chain_tx 1] and the output
    of transaction 2; transaction 2, which never enters the pool; and the
    pool that holds [chain_tx 1] and its child. *)
Definition tx_child : CTransaction :=
  simple_tx 3%N [(1%N, 0%N, SEQUENCE_FINAL); (2%N, 0%N, SEQUENCE_FINAL)] 50000.

Definition tx_absent : CTransaction := simple_tx 2%N [(9%N, 0%N, SEQUENCE_FINAL)] 60000.

Definition family_pool : option CTxMemPool :=
  p ← @addUnchecked3 demo_externals 1%N (demo_entry (chain_tx 1) 1000) false demo_pool;
  @addUnchecked3 demo_externals 3%N (demo_entry tx_child 1000) false p.

(** The descendant count the pool has for [hash]. *)
Definition descendant_count_of (p : CTxMemPool) (hash : uint256) : option Z :=
  nCountWithDescendants <$> mapTx p !! hash.

Definition family : CTxMemPool := default demo_pool family_pool.

(** ** Trimming, as the specification words it *)

Section Trimmed.
Context `{Externals}.
Variable CompareTxMemPoolEntryByDescendantScore :
  CTxMemPoolEntry -> CTxMemPoolEntry -> bool.

(** The fee rate of the package of an entry, raised by the incremental
    relay fee. *)
Definition removed_rate (e : CTxMemPoolEntry) : CFeeRate :=
  CFeeRate_add (CFeeRate_of (nModFeesWithDescendants e) (nSizeWithDescendants e))
               incrementalRelayFee.

End Trimmed.

(** A transaction on its own that pays five times the fee of the others,
    and the pool that holds it next to [chain_tx 1] and its child. *)
Definition tx_rich : CTransaction := simple_tx 7%N [(0%N, 1%N, SEQUENCE_FINAL)] 95000.

Definition crowded : CTxMemPool :=
  default family (@addUnchecked3 demo_externals 7%N (demo_entry tx_rich 5000) false family).

(** ** Notions the properties are stated with *)

(** The graph a traversal walks: [next x] is what it stages after [x]. *)
Definition edge (next : uint256 -> option (gset uint256)) (x y : uint256) : Prop :=
  exists ns, next x = Some ns /\ y ∈ ns.

Definition reach (next : uint256 -> option (gset uint256)) (stage : gset uint256)
    (y : uint256) : Prop :=
  exists x, x ∈ stage /\ rtc (edge next) x y.

(** Two pools with the same links between the same entries. *)
Definition same_graph (p q : CTxMemPool) : Prop :=
  mapLinks q = mapLinks p /\ dom (mapTx q) = dom (mapTx p).

Section KeepsSizes.
Context `{Externals}.

(** What an operation leaves alone when it neither adds nor removes an
    entry: the virtual size of every entry, and the counter. *)
Definition keeps_sizes (p q : CTxMemPool) : Prop :=
  GetTxSize <$> mapTx q = GetTxSize <$> mapTx p /\ totalTxSize q = totalTxSize p.
End KeepsSizes.

Section WithinLimits.
Context `{Externals}.

(** What the checks of the loop of [CalculateMemPoolAncestors] say of an
    ancestor [a] it has staged, for an entry of size [entrySize]. *)
Definition within_descendant_limits (p : CTxMemPool) (entrySize : Z) (lim : Limits)
    (a : uint256) : Prop :=
  exists e, mapTx p !! a = Some e
            /\ wrap64 (nSizeWithDescendants e + entrySize) <= limitDescendantSize lim
            /\ wrap64 (nCountWithDescendants e + 1) <= limitDescendantCount lim.
End WithinLimits.

(** An entry without its descendant aggregates and its position in
    [vTxHashes]: what a removal elsewhere in the pool leaves of it. *)
Definition package_core (e : CTxMemPoolEntry) : CTxMemPoolEntry :=
  forget_idx (set_desc e 0 0 0).

(** [shrunk p p']: every entry of [p'] is an entry of [p], the same but
    for its descendant aggregates and its position in [vTxHashes]. *)
Definition shrunk (p p' : CTxMemPool) : Prop :=
  forall h e', mapTx p' !! h = Some e' ->
               exists e, mapTx p !! h = Some e /\ package_core e' = package_core e.

(** What no operation of the pool changes of an entry: the transaction,
    its fee, weight, memory usage and sig-op cost, and when and at which
    height it entered. *)
Definition identity_of (e : CTxMemPoolEntry)
    : CTransaction * Z * Z * Z * Z * Z * bool * Z :=
  (tx e, nFee e, nTxWeight e, nUsageSize e, nTime e, entryHeight e, spendsCoinbase e,
   sigOpCost e).

(** [keeps_entries p q]: the pools hold the same entries, up to fee deltas,
    aggregates and positions. [never_adds p q]: the entries of [q] are
    entries of [p] in that sense. *)
Definition keeps_entries (p q : CTxMemPool) : Prop :=
  identity_of <$> mapTx q = identity_of <$> mapTx p.

Definition never_adds (p q : CTxMemPool) : Prop :=
  identity_of <$> mapTx q ⊆ identity_of <$> mapTx p.

(** ** Outcomes of the admission *)

(** A step that does not end the call with [Accepted]. *)
Definition refuses {A : Type} (s : step A) : Prop :=
  match s with
  | Stop Accepted => False
  | _ => True
  end.

(** The rejection of a transaction that the trimming of the pool has
    removed again. *)
Definition mempool_full : Rejection :=
  mkRejection 0 REJECT_INSUFFICIENTFEE "mempool full" false.

(** The outcomes of a call that has refused the transaction before
    anything was committed: the rejections but for [mempool_full], the
    missing inputs, the fatal errors. *)
Definition refused_before_commit (r : AcceptResult) : Prop :=
  match r with
  | Rejected r => r <> mempool_full
  | MissingInputs _ | FatalError _ => True
  | Accepted | Aborted => False
  end.

(** A transaction whose only input is an outpoint nobody knows. *)
Definition tx_orphan : CTransaction := simple_tx 5%N [(9%N, 0%N, SEQUENCE_FINAL)] 1000.

(** What the invariants of the pool read of an entry besides the range
    of its aggregates: the transaction, what gives its virtual size, and
    the descendant size and count. *)
Definition weight_of (e : CTxMemPoolEntry) : CTransaction * Z * Z * Z * Z :=
  (tx e, nTxWeight e, sigOpCost e, nSizeWithDescendants e, nCountWithDescendants e).

(** [keeps proj p q]: the pools hold the same entries as far as [proj]
    tells them apart. *)
Definition keeps {X : Type} (proj : CTxMemPoolEntry -> X) (p q : CTxMemPool) : Prop :=
  proj <$> mapTx q = proj <$> mapTx p.

(** ** Arrivals *)

(** The transactions of the pool that the inputs of [t] refer to. *)
Definition pool_parents (p : CTxMemPool) (t : CTransaction) : gset uint256 :=
  list_to_set ((fun txin => op_hash (prevout txin)) <$> vin t) ∩ dom (mapTx p).

Section RoomFor.
Context `{Externals}.

(** The aggregates have room for [entry] below the ancestors [A]: no
    64-bit size or count and no 32-bit sig-op cost wraps around when the
    entry is accounted for. *)
Definition room_for (p : CTxMemPool) (entry : CTxMemPoolEntry) (A : gset uint256) : Prop :=
  map_Forall (fun a ea => a ∈ A ->
                          nSizeWithDescendants ea + GetTxSize entry < 2 ^ 63
                          /\ nCountWithDescendants ea + 1 < 2 ^ 63) (mapTx p)
  /\ GetTxSize entry + sum_over (mapTx p) GetTxSize A < 2 ^ 63
  /\ 1 + sizeZ A < 2 ^ 63
  /\ 0 <= sum_over (mapTx p) sigOpCost A
  /\ sigOpCost entry + sum_over (mapTx p) sigOpCost A < 2 ^ 31.

Global Instance room_for_dec p entry A : Decision (room_for p entry A).
Proof. unfold room_for. apply _. Defined.
End RoomFor.

(** An entry whose descendant aggregates account for a package that has
    entered the pool. *)
Definition add_desc (size fee count : Z) (e : CTxMemPoolEntry) : CTxMemPoolEntry :=
  set_desc e (nSizeWithDescendants e + size) (nModFeesWithDescendants e + fee)
           (nCountWithDescendants e + count).

Section FreshEntry.
Context `{Externals}.

(** An entry as [CTxMemPoolEntry]'s constructor leaves its sizes, counts
    and sig-op cost: it has a size, and its aggregates count nothing but
    itself. *)
Definition fresh_entry (entry : CTxMemPoolEntry) : Prop :=
  0 < GetTxSize entry < 2 ^ 63
  /\ 0 <= sigOpCost entry
  /\ nSizeWithDescendants entry = GetTxSize entry
  /\ nCountWithDescendants entry = 1
  /\ nSizeWithAncestors entry = GetTxSize entry
  /\ nCountWithAncestors entry = 1
  /\ nSigOpCostWithAncestors entry = sigOpCost entry.

Global Instance fresh_entry_dec entry : Decision (fresh_entry entry).
Proof. unfold fresh_entry. apply _. Defined.

(** The links of the pool once an entry [h] with the parents [P0] has
    been linked in. *)
Definition linked_in (h : uint256) (P0 : gset uint256) (links links' : gmap uint256 TxLinks)
    : Prop :=
  forall x, links' !! x
            = if decide (x = h) then Some (mkLinks P0 ∅)
              else (fun l => if decide (x ∈ P0)
                             then mkLinks (parents l) ({[h]} ∪ children l) else l)
                   <$> links !! x.
End FreshEntry.

(** A transaction that spends the output of [tx_child]. *)
Definition tx_grandchild : CTransaction :=
  simple_tx 4%N [(3%N, 0%N, SEQUENCE_FINAL)] 40000.

(** ** A block is connected *)

Section Blocks.
Context `{Externals}.

(** [CTxMemPool::removeConflicts]. [mapNextTx] holds a pointer to the
    spending transaction, which lives in its entry: the entry is looked
    up, and a pointer that dangles aborts. Two transactions are unequal
    when their hashes are. *)
Definition removeConflicts (t : CTransaction) (p : CTxMemPool) : option CTxMemPool :=
  for_each (fun txin q =>
              match mapNextTx q !! prevout txin with
              | Some nexthash =>
                  e ← mapTx q !! nexthash;
                  let txConflict := tx e in
                  if negb (GetHash txConflict =? GetHash t)%N then
                    removeRecursive txConflict CONFLICT
                      (ClearPrioritisation (GetHash txConflict) q)
                  else Some q
              | None => Some q
              end) (vin t) p.

(** One pass of the second loop of [removeForBlock]. *)
Definition removeForBlock_pass (t : CTransaction) (p : CTxMemPool) : option CTxMemPool :=
  p ← match mapTx p !! GetHash t with
      | Some _ => RemoveStaged {[GetHash t]} true BLOCK p
      | None => Some p
      end;
  p ← removeConflicts t p;
  Some (ClearPrioritisation (GetHash t) p).

(** [CTxMemPool::removeForBlock]; [now] is [GetTime()]. The result holds
    what the fee estimator is given through [processBlock], if there is
    an estimator: the height and the entries of the block's transactions
    that were in the pool, before anything is removed. *)
Definition removeForBlock (vtx : list CTransaction) (nBlockHeight : Z) (now : Z)
    (p : CTxMemPool) : option (option (Z * list CTxMemPoolEntry) * CTxMemPool) :=
  let entries := omap (fun t => mapTx p !! GetHash t) vtx in
  let processBlock := if minerPolicyEstimator p then Some (nBlockHeight, entries) else None in
  p ← for_each removeForBlock_pass vtx p;
  Some (processBlock, with_rolling (rollingMinimumFeeRate p) now true p).

(** The ancestor size, count and sig-op cost of every entry account for
    the entry and for its ancestors, and the sig-op costs are those of an
    [int]. The assertions of [UpdateAncestorState] rest on this when a
    confirmed transaction leaves the pool. *)
Definition ancestors_accounted (p : CTxMemPool) : Prop :=
  map_Forall (fun h e =>
                0 <= sigOpCost e
                /\ nSigOpCostWithAncestors e < 2 ^ 31
                /\ GetTxSize e + sum_over (mapTx p) GetTxSize (ancestors_of p h)
                   <= nSizeWithAncestors e
                /\ 1 + sizeZ (ancestors_of p h) <= nCountWithAncestors e
                /\ sigOpCost e + sum_over (mapTx p) sigOpCost (ancestors_of p h)
                   <= nSigOpCostWithAncestors e)
             (mapTx p).

Global Instance ancestors_accounted_dec p : Decision (ancestors_accounted p).
Proof. unfold ancestors_accounted. apply _. Defined.

(** The invariants the removal of a block relies on. *)
Definition consistent (p : CTxMemPool) : Prop :=
  well_formed p /\ ancestors_accounted p /\ spend_index_exact p.

Global Instance consistent_dec p : Decision (consistent p).
Proof. unfold consistent. apply _. Defined.

(** An entry whose ancestor aggregates no longer count an ancestor that
    has left the pool. *)
Definition sub_anc (size fee count sigops : Z) (e : CTxMemPoolEntry) : CTxMemPoolEntry :=
  set_anc e (nSizeWithAncestors e - size) (nModFeesWithAncestors e - fee)
          (nCountWithAncestors e - count) (nSigOpCostWithAncestors e - sigops).

(** [taken_out reason p h p']: [p'] is [p] without the entry [h], whose
    descendants stay. The descendant aggregates of its ancestors and the
    ancestor aggregates of its descendants no longer count it, and it is
    in no link any more. *)
Definition taken_out (p : CTxMemPool) (h : uint256) (p' : CTxMemPool) : Prop :=
  exists (e : CTxMemPoolEntry) (A D : gset uint256),
    mapTx p !! h = Some e
    /\ (forall y, y ∈ A <-> ancestor p h y)
    /\ (forall y, y ∈ D <-> descendant p h y /\ y <> h)
    /\ (forall x, forget_idx <$> mapTx p' !! x
                  = if decide (x = h) then None
                    else forget_idx <$>
                           ((fun ex =>
                               (if decide (x ∈ A)
                                then reduce_desc (GetTxSize e) (GetModifiedFee e) 1 else id)
                                 ((if decide (x ∈ D)
                                   then sub_anc (GetTxSize e) (GetModifiedFee e) 1 (sigOpCost e)
                                   else id) ex))
                            <$> mapTx p !! x))
    /\ (forall x, mapLinks p' !! x
                  = if decide (x = h) then None
                    else (fun l => mkLinks (parents l ∖ {[h]}) (children l ∖ {[h]}))
                         <$> mapLinks p !! x)
    /\ mapDeltas p' = mapDeltas p.
End Blocks.

(** [thinned p q]: [q] has no entry, no spent outpoint, no fee delta and
    no child link that [p] has not. *)
Definition thinned (p q : CTxMemPool) : Prop :=
  never_adds p q
  /\ mapNextTx q ⊆ mapNextTx p
  /\ mapDeltas q ⊆ mapDeltas p
  /\ (forall x y, child_rel q x y -> child_rel p x y).

(** [c] is in conflict with the block transaction [t] in the pool [p]:
    it is not [t], and it spends an outpoint that [t] spends. *)
Definition conflicts_with (p : CTxMemPool) (t : CTransaction) (c : uint256) : Prop :=
  c <> GetHash t
  /\ exists txin, txin ∈ vin t /\ mapNextTx p !! prevout txin = Some c.

(** A transaction that spends the outpoint of transaction 2 that
    [tx_child] spends too, and the block that confirms [chain_tx 1] and
    this rival of [tx_child]. *)
Definition tx_rival : CTransaction := simple_tx 8%N [(2%N, 0%N, SEQUENCE_FINAL)] 70000.

Definition demo_block : list CTransaction := [chain_tx 1; tx_rival].

(** A pool whose rolling minimum fee rate was raised to 2000 a million
    seconds before the clock of the concrete node, with a block since. *)
Definition aged (p : CTxMemPool) : CTxMemPool := with_rolling 2000 1499000000 true p.

(** * Properties *)

(** ** Ordered iteration over sets *)

Lemma ordered_perm (s : gset uint256) : ordered s ≡ₚ elements s.
Proof. unfold ordered. apply merge_sort_Permutation. Qed.

Lemma elem_of_ordered (s : gset uint256) x : x ∈ ordered s <-> x ∈ s.
Proof. rewrite ordered_perm. apply elem_of_elements. Qed.

Lemma NoDup_ordered (s : gset uint256) : NoDup (ordered s).
Proof. rewrite ordered_perm. apply NoDup_elements. Qed.

Lemma ordered_empty : ordered ∅ = [].
Proof. apply Permutation_nil_r. rewrite ordered_perm, elements_empty. done. Qed.

Lemma set_begin_None (s : gset uint256) : set_begin s = None <-> s = ∅.
Proof.
  unfold set_begin. split.
  - intros Hh. apply head_None in Hh. apply set_eq. intros x.
    rewrite <- elem_of_ordered, Hh. set_solver.
  - intros ->. by rewrite ordered_empty.
Qed.

Lemma set_begin_Some (s : gset uint256) x : set_begin s = Some x -> x ∈ s.
Proof.
  unfold set_begin. intros Hh. apply elem_of_ordered.
  destruct (ordered s); simplify_eq/=. left.
Qed.

(** ** Wrap-around *)

Lemma wrap64_range z : 0 <= wrap64 z < 2 ^ 64.
Proof. unfold wrap64. apply Z.mod_pos_bound. lia. Qed.

Lemma nNoLimit_never z : (nNoLimit <? wrap64 z) = false.
Proof.
  apply Z.ltb_ge. pose proof (wrap64_range z). unfold nNoLimit, UINT64_MAX. lia.
Qed.

Lemma wrap64_small z : 0 <= z < 2 ^ 64 -> wrap64 z = z.
Proof. intros. unfold wrap64. by apply Z.mod_small. Qed.

Lemma int64_of_small z : 0 <= z < 2 ^ 63 -> int64_of z = z.
Proof.
  intros Hz. unfold int64_of. rewrite wrap64_small by lia.
  destruct (z <? 2 ^ 63) eqn:E; [done | apply Z.ltb_ge in E; lia].
Qed.

(** ** The breadth-first closure *)

Section BFS.
Variable next : uint256 -> option (gset uint256).
Variable universe : gset uint256.
Hypothesis next_universe :
  forall x, x ∈ universe -> exists ns, next x = Some ns /\ ns ⊆ universe.

Lemma closed_under_edges (stage acc : gset uint256) x y :
  (forall a b, a ∈ acc -> edge next a b -> b ∈ acc ∪ stage) ->
  x ∈ acc \/ reach next stage x -> rtc (edge next) x y -> y ∈ acc \/ reach next stage y.
Proof.
  intros Hacc Hx Hxy. induction Hxy as [x | x z y Hxz Hzy IH]; [done |].
  apply IH. destruct Hx as [Hx | (s & Hs & Hsx)].
  - pose proof (Hacc _ _ Hx Hxz) as Hz.
    apply elem_of_union in Hz as [Hz | Hz]; [by left |].
    right. exists z. split; [done | apply rtc_refl].
  - right. exists s. split; [done |]. eapply rtc_r; eauto.
Qed.

Lemma bfs_spec fuel : forall stage acc,
  stage ⊆ universe ->
  stage ## acc ->
  (forall a b, a ∈ acc -> edge next a b -> b ∈ acc ∪ stage) ->
  (size (universe ∖ acc) < fuel)%nat ->
  exists res, bfs next fuel stage acc = Some res
            /\ forall y, y ∈ res <-> y ∈ acc \/ reach next stage y.
Proof.
  induction fuel as [| fuel IH]; intros stage acc Hsub Hdisj Hacc Hfuel; [lia |].
  simpl. destruct (set_begin stage) as [x |] eqn:Hb.
  - apply set_begin_Some in Hb.
    destruct (next_universe x) as (ns & Hns & Hnsu); [set_solver |].
    rewrite Hns. simpl.
    assert (Hx : x ∉ acc) by set_solver.
    destruct (IH ((stage ∖ {[x]}) ∪ (ns ∖ ({[x]} ∪ acc))) ({[x]} ∪ acc))
      as (res & HS & HSspec).
    + set_solver.
    + set_solver.
    + intros a b Ha Hab. apply elem_of_union in Ha as [Ha | Ha].
      * apply elem_of_singleton in Ha as ->. destruct Hab as (ns' & Hns' & Hb').
        rewrite Hns in Hns'. simplify_eq.
        destruct (decide (b ∈ ({[x]} ∪ acc : gset uint256))); set_solver.
      * specialize (Hacc _ _ Ha Hab).
        destruct (decide (b = x)) as [-> | Hne]; set_solver.
    + assert (universe ∖ ({[x]} ∪ acc) ⊂ universe ∖ acc) as Hlt by set_solver.
      apply subset_size in Hlt. lia.
    + exists res. split; [done |]. intros y. rewrite HSspec. split.
      * intros [Hy | (s & Hs & Hsy)].
        -- apply elem_of_union in Hy as [Hy | Hy]; [| by left].
           apply elem_of_singleton in Hy as ->. right. exists x. split; [done | apply rtc_refl].
        -- right. apply elem_of_union in Hs as [Hs | Hs].
           ++ exists s. split; [set_solver | done].
           ++ exists x. split; [done |]. eapply rtc_l; [| exact Hsy].
              exists ns. split; [done | set_solver].
      * intros Hy.
        assert (Hcl : forall a b, a ∈ ({[x]} ∪ acc : gset uint256) -> edge next a b ->
                  b ∈ ({[x]} ∪ acc) ∪ ((stage ∖ {[x]}) ∪ (ns ∖ ({[x]} ∪ acc)))).
        { intros a b Ha Hab. apply elem_of_union in Ha as [Ha | Ha].
          - apply elem_of_singleton in Ha as ->. destruct Hab as (ns' & Hns' & Hb').
            rewrite Hns in Hns'. simplify_eq.
            destruct (decide (b ∈ ({[x]} ∪ acc : gset uint256))); set_solver.
          - specialize (Hacc _ _ Ha Hab).
            destruct (decide (b = x)) as [-> | Hne]; set_solver. }
        destruct Hy as [Hy | (s & Hs & Hsy)]; [left; set_solver |].
        destruct (decide (s = x)) as [-> | Hne].
        -- eapply (closed_under_edges _ _ x y Hcl); [| done]. left. set_solver.
        -- right. exists s. split; [set_solver | done].
  - apply set_begin_None in Hb. subst stage. exists acc. split; [done |].
    intros y. split; [by left |]. intros [Hy | (s & Hs & _)]; [done | set_solver].
Qed.
End BFS.

(** ** The traversals of the accountant compute closures *)

Lemma list_to_set_ordered (s : gset uint256) : list_to_set (ordered s) = s.
Proof. apply set_eq. intros x. rewrite elem_of_list_to_set. apply elem_of_ordered. Qed.

Lemma tc_first_step {A} (R : relation A) x y :
  tc R x y <-> exists z, R x z /\ rtc R z y.
Proof.
  split.
  - induction 1 as [x y Hxy | x z y Hxz _ (w & Hzw & Hwy)].
    + exists y. split; [done | apply rtc_refl].
    + exists z. split; [done |]. by eapply rtc_l.
  - intros (z & Hxz & Hzy). eapply tc_rtc_r; [by apply tc_once | done].
Qed.

Section Traversals.
Context `{Externals}.

Lemma stage_children_spec (acc : gset uint256) cs stage :
  stage_children acc cs stage = stage ∪ (list_to_set cs ∖ acc).
Proof.
  unfold stage_children. revert stage.
  induction cs as [| c cs IH]; intros stage; simpl; [set_solver |].
  rewrite IH. destruct (decide (c ∈ acc)); set_solver.
Qed.

Lemma descendants_loop_bfs fuel p : forall stage acc,
  descendants_loop fuel p stage acc = bfs (GetMemPoolChildren p) fuel stage acc.
Proof.
  induction fuel as [| fuel IH]; intros stage acc; simpl; [done |].
  destruct (set_begin stage) as [x |]; [| done].
  destruct (GetMemPoolChildren p x) as [ns |]; simpl; [| done].
  rewrite stage_children_spec, list_to_set_ordered. apply IH.
Qed.

Lemma visit_parents_nolimit (acc : gset uint256) ps : forall stage,
  visit_parents nNoLimit acc ps stage = Some (stage ∪ (list_to_set ps ∖ acc)).
Proof.
  induction ps as [| c ps IH]; intros stage; simpl.
  - f_equal. set_solver.
  - rewrite nNoLimit_never, IH. f_equal. destruct (decide (c ∈ acc)); set_solver.
Qed.

Lemma ancestors_loop_bfs fuel p entrySize : forall stage acc total,
  ancestors_loop fuel p entrySize NoLimits stage acc total
  = (fun res => (true, res)) <$> bfs (GetMemPoolParents p) fuel stage acc.
Proof.
  induction fuel as [| fuel IH]; intros stage acc total; simpl.
  - by destruct (set_begin stage).
  - destruct (set_begin stage) as [x |]; [| done].
    destruct (mapTx p !! x) as [e |] eqn:He; simpl.
    + assert (GetMemPoolParents p x = parents <$> mapLinks p !! x) as ->
        by (unfold GetMemPoolParents; by rewrite He).
      rewrite !nNoLimit_never.
      destruct (mapLinks p !! x) as [l |]; simpl; [| done].
      rewrite visit_parents_nolimit, list_to_set_ordered. apply IH.
    + assert (GetMemPoolParents p x = None) as ->
        by (unfold GetMemPoolParents; by rewrite He).
      done.
Qed.

Lemma children_next_universe p :
  links_closed p ->
  forall x, x ∈ dom (mapTx p) ->
    exists ns, GetMemPoolChildren p x = Some ns /\ ns ⊆ dom (mapTx p).
Proof.
  intros [Hdom Hcl] x Hx. unfold GetMemPoolChildren.
  pose proof Hx as Hx'. rewrite <- Hdom in Hx'.
  apply elem_of_dom in Hx as [e He]. apply elem_of_dom in Hx' as [l Hl].
  rewrite He, Hl. simpl. exists (children l). split; [done |].
  by destruct (Hcl _ _ Hl).
Qed.

Lemma parents_next_universe p :
  links_closed p ->
  forall x, x ∈ dom (mapTx p) ->
    exists ns, GetMemPoolParents p x = Some ns /\ ns ⊆ dom (mapTx p).
Proof.
  intros [Hdom Hcl] x Hx. unfold GetMemPoolParents.
  pose proof Hx as Hx'. rewrite <- Hdom in Hx'.
  apply elem_of_dom in Hx as [e He]. apply elem_of_dom in Hx' as [l Hl].
  rewrite He, Hl. simpl. exists (parents l). split; [done |].
  by destruct (Hcl _ _ Hl).
Qed.

Lemma edge_children p x y :
  links_closed p -> edge (GetMemPoolChildren p) x y <-> child_rel p x y.
Proof.
  intros [Hdom Hcl]. unfold edge, child_rel, GetMemPoolChildren. split.
  - intros (ns & Hns & Hy). destruct (mapTx p !! x); simplify_eq/=.
    destruct (mapLinks p !! x) as [l |]; simplify_eq/=. eauto.
  - intros (l & Hl & Hy). assert (x ∈ dom (mapTx p)) as [e He]%elem_of_dom.
    { rewrite <- Hdom. apply elem_of_dom. eauto. }
    rewrite He, Hl. simpl. eauto.
Qed.

Lemma edge_parents p x y :
  links_closed p -> edge (GetMemPoolParents p) x y <-> parent_rel p x y.
Proof.
  intros [Hdom Hcl]. unfold edge, parent_rel, GetMemPoolParents. split.
  - intros (ns & Hns & Hy). destruct (mapTx p !! x); simplify_eq/=.
    destruct (mapLinks p !! x) as [l |]; simplify_eq/=. eauto.
  - intros (l & Hl & Hy). assert (x ∈ dom (mapTx p)) as [e He]%elem_of_dom.
    { rewrite <- Hdom. apply elem_of_dom. eauto. }
    rewrite He, Hl. simpl. eauto.
Qed.

Lemma rtc_edge_children p x y :
  links_closed p -> rtc (edge (GetMemPoolChildren p)) x y <-> descendant p x y.
Proof.
  intros Hl. unfold descendant.
  split; (induction 1; [apply rtc_refl | eapply rtc_l; [| done]]);
    by apply (edge_children p _ _ Hl).
Qed.

Lemma rtc_edge_parents p x y :
  links_closed p -> rtc (edge (GetMemPoolParents p)) x y <-> rtc (parent_rel p) x y.
Proof.
  intros Hl.
  split; (induction 1; [apply rtc_refl | eapply rtc_l; [| done]]);
    by apply (edge_parents p _ _ Hl).
Qed.

Lemma fuel_enough p (acc : gset uint256) :
  links_closed p -> (size (dom (mapTx p) ∖ acc) < S (size (mapLinks p)))%nat.
Proof.
  intros [Hdom _]. rewrite <- size_dom, Hdom.
  assert (size (dom (mapTx p) ∖ acc) <= size (dom (mapTx p)))%nat; [| lia].
  apply subseteq_size. set_solver.
Qed.

(** [CalculateDescendants] adds to a set that is closed under child links
    the entry and everything below it. *)
Lemma CalculateDescendants_spec p it acc :
  links_closed p ->
  it ∈ dom (mapTx p) ->
  (forall a b, a ∈ acc -> child_rel p a b -> b ∈ acc) ->
  exists res, CalculateDescendants p it acc = Some res
              /\ forall y, y ∈ res <-> y ∈ acc \/ descendant p it y.
Proof.
  intros Hl Hit Hacc. unfold CalculateDescendants. rewrite descendants_loop_bfs.
  destruct (bfs_spec (GetMemPoolChildren p) (dom (mapTx p)) (children_next_universe p Hl)
              (S (size (mapLinks p)))
              (if decide (it ∈ acc) then ∅ else {[it]}) acc) as (res & Hres & Hspec).
  - destruct (decide (it ∈ acc)); set_solver.
  - destruct (decide (it ∈ acc)); set_solver.
  - intros a b Ha Hab. apply (edge_children p _ _ Hl) in Hab.
    apply elem_of_union. left. eauto.
  - by apply fuel_enough.
  - exists res. split; [done |]. intros y. rewrite Hspec. split.
    + intros [Hy | (x & Hx & Hxy)]; [by left |].
      destruct (decide (it ∈ acc)); [set_solver |].
      apply elem_of_singleton in Hx as ->. right. by apply rtc_edge_children.
    + intros [Hy | Hy]; [by left |].
      destruct (decide (it ∈ acc)) as [Hin | Hnin].
      * left. clear Hres Hspec Hit. induction Hy as [| x z y Hxz _ IH]; [done |].
        apply IH; eauto.
      * right. exists it. split; [set_solver |]. by apply rtc_edge_children.
Qed.

(** With no limits and for an entry of the pool,
    [CalculateMemPoolAncestors] returns the strict ancestors. *)
Lemma CalculateMemPoolAncestors_nolimit p e :
  links_closed p ->
  GetHash (tx e) ∈ dom (mapTx p) ->
  exists res, CalculateMemPoolAncestors p e NoLimits false = Some (true, res)
              /\ forall y, y ∈ res <-> ancestor p (GetHash (tx e)) y.
Proof.
  intros Hl Hin. unfold CalculateMemPoolAncestors.
  destruct (parents_next_universe p Hl _ Hin) as (ps & Hps & Hpsu).
  rewrite Hps. cbn [mbind option_bind]. rewrite ancestors_loop_bfs.
  destruct (bfs_spec (GetMemPoolParents p) (dom (mapTx p)) (parents_next_universe p Hl)
              (S (size (mapLinks p))) ps ∅) as (res & Hres & Hspec).
  - done.
  - set_solver.
  - set_solver.
  - by apply fuel_enough.
  - rewrite Hres. simpl. exists res. split; [done |]. intros y.
    rewrite Hspec. unfold ancestor. rewrite tc_first_step. split.
    + intros [Hy | (x & Hx & Hxy)]; [set_solver |].
      exists x. split; [| by apply rtc_edge_parents].
      apply (edge_parents p _ _ Hl). exists ps. done.
    + intros (x & Hx & Hxy). right. exists x. split; [| by apply rtc_edge_parents].
      apply (edge_parents p _ _ Hl) in Hx. destruct Hx as (ns & Hns & Hx).
      rewrite Hps in Hns. by simplify_eq.
Qed.

(** The descendants of a list of entries, collected one after the other. *)
Lemma descendants_of_list p l : forall acc,
  links_closed p ->
  (forall x, x ∈ l -> x ∈ dom (mapTx p)) ->
  (forall a b, a ∈ acc -> child_rel p a b -> b ∈ acc) ->
  exists res, for_each (fun it acc => CalculateDescendants p it acc) l acc = Some res
              /\ (forall y, y ∈ res <-> y ∈ acc \/ exists x, x ∈ l /\ descendant p x y)
              /\ (forall a b, a ∈ res -> child_rel p a b -> b ∈ res).
Proof.
  induction l as [| x l IH]; intros acc Hl Hin Hacc; simpl.
  - exists acc. split; [done |]. split; [| done].
    intros y. split; [by left |]. intros [Hy | (x & Hx & _)]; [done |].
    by apply elem_of_nil in Hx.
  - destruct (CalculateDescendants_spec p x acc Hl) as (r1 & Hr1 & Hs1); [| done |].
    { apply Hin. left. }
    rewrite Hr1. simpl.
    destruct (IH r1 Hl) as (res & Hres & Hs & Hcl).
    { intros z Hz. apply Hin. by right. }
    { intros a b Ha Hab. apply Hs1. apply Hs1 in Ha as [Ha | Ha].
      - left. eauto.
      - right. eapply rtc_r; eauto. }
    exists res. split; [done |]. split; [| done].
    intros y. rewrite Hs, Hs1. split.
    + intros [[Hy | Hy] | (z & Hz & Hzy)]; [by left | |].
      * right. exists x. split; [left | done].
      * right. exists z. split; [by right | done].
    + intros [Hy | (z & Hz & Hzy)]; [by left; left |].
      apply elem_of_cons in Hz as [-> | Hz]; [by left; right |].
      right. eauto.
Qed.
End Traversals.

(** ** Chain limits *)

(** C10. [TransactionWithinChainLimit] answers [true] for a txid that is
    not in the pool; for one that is, it answers [true] exactly when both
    the ancestor count and the descendant count of the entry are strictly
    below the limit. *)
Theorem TransactionWithinChainLimit_spec (p : CTxMemPool) (txid : uint256) (chainLimit : Z) :
  (mapTx p !! txid = None -> TransactionWithinChainLimit p txid chainLimit = true)
  /\ (forall e, mapTx p !! txid = Some e ->
        (TransactionWithinChainLimit p txid chainLimit = true
         <-> nCountWithAncestors e < chainLimit /\ nCountWithDescendants e < chainLimit)).
Proof.
  unfold TransactionWithinChainLimit. split.
  - by intros ->.
  - intros e ->. rewrite andb_true_iff, !Z.ltb_lt. done.
Qed.

(** ** Conflict detection *)

Section ConflictDetection.
Context `{Externals}.
Variable env : ChainEnv.

Lemma fReplacementOptOut_true C :
  fReplacementOptOut env C = true
  <-> fEnableReplacement env = false
      \/ Forall (fun txin => MAX_BIP125_RBF_SEQUENCE < nSequence txin) (vin C).
Proof.
  unfold fReplacementOptOut. destruct (fEnableReplacement env).
  - rewrite negb_true_iff. split.
    + intros Hex. right. apply Forall_forall. intros txin Hin.
      destruct (Z.ltb_spec MAX_BIP125_RBF_SEQUENCE (nSequence txin)) as [| Hle]; [done |].
      assert (existsb (fun txin => nSequence txin <=? MAX_BIP125_RBF_SEQUENCE) (vin C) = true);
        [| congruence].
      apply existsb_exists. exists txin. split; [by apply list_elem_of_In |].
      by apply Z.leb_le.
    + intros [? | Hall]; [done |]. apply not_true_is_false. intros Hex.
      apply existsb_exists in Hex as (txin & Hin & Hle). apply Z.leb_le in Hle.
      rewrite Forall_forall in Hall. apply list_elem_of_In in Hin.
      specialize (Hall _ Hin). lia.
  - split; [by left | done].
Qed.

Lemma fReplacementOptOut_false C :
  fReplacementOptOut env C = false
  <-> fEnableReplacement env = true
      /\ Exists (fun txin => nSequence txin <= MAX_BIP125_RBF_SEQUENCE) (vin C).
Proof.
  unfold fReplacementOptOut. destruct (fEnableReplacement env).
  - rewrite negb_false_iff, existsb_exists, Exists_exists. split.
    + intros (txin & Hin & Hle). split; [done |]. exists txin.
      split; [by apply list_elem_of_In | by apply Z.leb_le].
    + intros [_ (txin & Hin & Hle)]. exists txin.
      split; [by apply list_elem_of_In | by apply Z.leb_le].
  - split; [done | by intros []].
Qed.

Lemma spend_index_get p o h :
  spend_index_ok p -> mapNextTx p !! o = Some h ->
  exists C, get p h = Some C /\ GetHash C = h.
Proof.
  intros Hok Ho. specialize (Hok _ _ Ho). simpl in Hok. unfold get.
  destruct (mapTx p !! h) as [e |]; simplify_eq/=. eauto.
Qed.

Lemma find_conflicts_rejects p ins : forall setConflicts,
  spend_index_ok p ->
  (exists txin C, txin ∈ ins /\ mapNextTx p !! prevout txin = Some (GetHash C)
                  /\ get p (GetHash C) = Some C /\ fReplacementOptOut env C = true) ->
  (forall h C, h ∈ setConflicts -> get p h = Some C -> fReplacementOptOut env C = false) ->
  find_conflicts env p ins setConflicts
  = reject 0 REJECT_DUPLICATE "txn-mempool-conflict" false.
Proof.
  induction ins as [| txin0 ins IH]; intros sc Hok (txin & C & Hin & Hnext & Hget & Hopt) Hsc.
  - by apply elem_of_nil in Hin.
  - simpl. destruct (mapNextTx p !! prevout txin0) as [h0 |] eqn:Hn0.
    + destruct (spend_index_get p _ _ Hok Hn0) as (C0 & Hget0 & Hh0).
      rewrite Hget0. simpl. rewrite Hh0.
      destruct (decide (h0 ∈ sc)) as [Hin0 | Hnin0].
      * apply IH; [done | | done]. exists txin, C.
        apply elem_of_cons in Hin as [-> | Hin]; [| done].
        assert (h0 = GetHash C) as -> by congruence.
        rewrite (Hsc _ _ Hin0 Hget) in Hopt. done.
      * destruct (fReplacementOptOut env C0) eqn:Hopt0; [done |].
        apply IH; [done | |].
        -- exists txin, C. apply elem_of_cons in Hin as [-> | Hin]; [| done].
           assert (h0 = GetHash C) as -> by congruence. congruence.
        -- intros h C' Hh HC'. apply elem_of_union in Hh as [Hh | Hh]; [| eauto].
           apply elem_of_singleton in Hh as ->. rewrite Hget0 in HC'. by simplify_eq.
    + apply IH; [done | | done]. exists txin, C.
      apply elem_of_cons in Hin as [-> | Hin]; [congruence | done].
Qed.

Lemma find_conflicts_proceeds p ins : forall setConflicts,
  spend_index_ok p ->
  (forall txin h C, txin ∈ ins -> mapNextTx p !! prevout txin = Some h ->
                    get p h = Some C -> fReplacementOptOut env C = false) ->
  find_conflicts env p ins setConflicts
  = Continue (list_to_set (omap (fun txin => mapNextTx p !! prevout txin) ins)
                ∪ setConflicts).
Proof.
  induction ins as [| txin0 ins IH]; intros sc Hok Hall; simpl.
  - f_equal. set_solver.
  - destruct (mapNextTx p !! prevout txin0) as [h0 |] eqn:Hn0.
    + destruct (spend_index_get p _ _ Hok Hn0) as (C0 & Hget0 & Hh0).
      rewrite Hget0. simpl. rewrite Hh0.
      rewrite (Hall txin0 h0 C0); [| left | done | done].
      destruct (decide (h0 ∈ sc)) as [Hin0 | Hnin0].
      * rewrite IH; [| done | intros; eapply Hall; eauto; by right].
        f_equal. set_solver.
      * rewrite IH; [| done | intros; eapply Hall; eauto; by right].
        f_equal. set_solver.
    + rewrite IH; [| done | intros; eapply Hall; eauto; by right]. done.
Qed.
End ConflictDetection.

Section ConflictClaim.
Context `{Externals}.
Variable CompareTxMemPoolEntryByDescendantScore :
  CTxMemPoolEntry -> CTxMemPoolEntry -> bool.
Variable env : ChainEnv.

(** C4, as the code has it. A candidate that has passed the checks before
    conflict detection is rejected with DUPLICATE "txn-mempool-conflict",
    the pool untouched, when some pool transaction [C] spends one of its
    inputs and no input of [C] has a sequence number of at most
    [MAX_BIP125_RBF_SEQUENCE] (or replacement is switched off). When every
    conflicting transaction has at least one such input, conflict
    detection hands on the txids of all conflicting transactions. *)
Theorem conflict_detection_by_signalling_input (p : CTxMemPool) (t : CTransaction)
    (fLimitFree pfMissingInputs : bool) (nAcceptTime : Z)
    (fOverrideMempoolLimit : bool) (nAbsurdFee : Z) :
  basic_checks env p t = Continue tt ->
  spend_index_ok p ->
  ((exists txin C, txin ∈ vin t
                   /\ mapNextTx p !! prevout txin = Some (GetHash C)
                   /\ get p (GetHash C) = Some C
                   /\ (fEnableReplacement env = false
                       \/ Forall (fun i => MAX_BIP125_RBF_SEQUENCE < nSequence i) (vin C))) ->
   let r := AcceptToMemoryPoolWorker CompareTxMemPoolEntryByDescendantScore env p t
              fLimitFree pfMissingInputs nAcceptTime fOverrideMempoolLimit nAbsurdFee in
   w_result r = Rejected (mkRejection 0 REJECT_DUPLICATE "txn-mempool-conflict" false)
   /\ w_pool r = p)
  /\ ((forall txin h C, txin ∈ vin t -> mapNextTx p !! prevout txin = Some h ->
                        get p h = Some C ->
                        fEnableReplacement env = true
                        /\ Exists (fun i => nSequence i <= MAX_BIP125_RBF_SEQUENCE) (vin C)) ->
      find_conflicts env p (vin t) ∅ = Continue (conflicts_of p t)).
Proof.
  intros Hbasic Hok. split.
  - intros (txin & C & Hin & Hnext & Hget & Hopt).
    apply fReplacementOptOut_true in Hopt.
    unfold AcceptToMemoryPoolWorker, admission_prefix. rewrite Hbasic.
    rewrite (find_conflicts_rejects env p (vin t) ∅ Hok); [done | | set_solver].
    exists txin, C. done.
  - intros Hall. rewrite (find_conflicts_proceeds env p (vin t) ∅ Hok).
    + unfold conflicts_of. f_equal. set_solver.
    + intros txin h C Hin Hnext Hget. apply fReplacementOptOut_false. eauto.
Qed.
End ConflictClaim.

(** The statement at a pool that holds [tx_optout] and the candidate
    [tx_bump]: the candidate is rejected and [tx_optout] stays. *)
Lemma conflict_detection_witness :
  let p := w_pool (demo_admit demo_env demo_pool tx_optout) in
  let r := demo_admit demo_env p tx_bump in
  (w_result r = Rejected (mkRejection 0 REJECT_DUPLICATE "txn-mempool-conflict" false)
   /\ w_pool r = p)
  /\ dom (mapTx (w_pool r)) = {[ 1%N ]}.
Proof.
  split; [| by vm_compute].
  refine (proj1 (@conflict_detection_by_signalling_input demo_externals demo_cmp demo_env
                   (w_pool (demo_admit demo_env demo_pool tx_optout)) tx_bump
                   true true 1500000000 false 0 _ _) _).
  - by vm_compute.
  - apply (bool_decide_unpack _). by vm_compute.
  - exists (mkTxIn (mkOutPoint 0 0) 0), tx_optout. split; [left |].
    split; [by vm_compute |]. split; [by vm_compute |]. right.
    repeat constructor.
Defined.

(** C4 as stated fails: [tx_mixed] is in the pool and spends an input of
    the candidate [tx_bump]; not every input of [tx_mixed] has a sequence
    number of at most [MAX_BIP125_RBF_SEQUENCE]; yet the candidate is not
    rejected: it is accepted and replaces [tx_mixed]. *)
Lemma conflict_with_one_signalling_input_is_replaced :
  let p := w_pool (demo_admit demo_env demo_pool tx_mixed) in
  let r := demo_admit demo_env p tx_bump in
  get p 1%N = Some tx_mixed
  /\ mapNextTx p !! mkOutPoint 0 0 = Some 1%N
  /\ mkTxIn (mkOutPoint 0 0) 0 ∈ vin tx_bump
  /\ ~ Forall (fun i => nSequence i <= MAX_BIP125_RBF_SEQUENCE) (vin tx_mixed)
  /\ w_result r = Accepted
  /\ dom (mapTx (w_pool r)) = {[ 2%N ]}.
Proof.
  split; [by vm_compute |]. split; [by vm_compute |]. split; [left |].
  split; [| split; by vm_compute].
  intros Hall. apply Forall_cons in Hall as [_ Hall].
  apply Forall_cons in Hall as [Hle _]. vm_compute in Hle. by apply Hle.
Qed.

(** ** The second script check and the fee-estimation marker *)

Section Reconcile.
Context `{Externals}.
Variable env : ChainEnv.

(** The second script check runs under the flags [0]: when it fails, the
    call ends in the fatal error, whatever the policy flags are. *)
Lemma reconcile_checks_failure_is_fatal p t view :
  CheckInputsFromMempoolAndCache env p t view 0 = Some false ->
  exists msg, reconcile_checks env p t view = Stop (FatalError msg).
Proof.
  intros Hc. unfold reconcile_checks. rewrite Hc. simpl.
  rewrite Z.land_0_r. simpl. eauto.
Qed.

(** And when it passes under the flags [0], the admission goes on: the
    flags of the tip are not consulted. *)
Lemma reconcile_checks_ignores_tip p t view :
  CheckInputsFromMempoolAndCache env p t view 0 = Some true ->
  reconcile_checks env p t view = Continue tt.
Proof. intros Hc. unfold reconcile_checks. by rewrite Hc. Qed.
End Reconcile.

(** C1 fails on the code. On [drift_env] the candidate [tx_bump] passes the
    script check under the policy flags, fails it under the flags of the
    tip, and every flag of the tip is a policy flag, so nothing is explained
    by promiscuous flags; the admission accepts the candidate all the
    same. *)
Lemma tip_flag_failure_is_accepted :
  let r := demo_admit drift_env demo_pool tx_bump in
  let view : gmap COutPoint Coin := {[ mkOutPoint 0 0 := mkCoin (mkTxOut 100000) 100 false ]} in
  CheckInputs drift_env tx_bump view (@scriptVerifyFlags demo_externals drift_env) false = None
  /\ CheckInputs drift_env tx_bump view (GetBlockScriptFlags drift_env) true <> None
  /\ Z.land (Z.lnot (@scriptVerifyFlags demo_externals drift_env))
            (GetBlockScriptFlags drift_env) = 0
  /\ w_result r = Accepted
  /\ get (w_pool r) 2%N = Some tx_bump.
Proof. cbv zeta. repeat match goal with |- _ /\ _ => split end; by vm_compute. Qed.

(** C2 fails on the code. [tx_bump] enters the empty pool of a node that is
    current: it replaces nothing and none of its inputs is in the pool, yet
    the fee estimator is told that it is not valid for fee estimation. *)
Lemma fee_estimation_marker_is_false :
  let r := demo_admit demo_env demo_pool tx_bump in
  w_result r = Accepted
  /\ conflicts_of demo_pool tx_bump = ∅
  /\ IsCurrentForFeeEstimation demo_env = true
  /\ HasNoInputsOf demo_pool tx_bump = true
  /\ signals (w_pool r)
     = [NotifyEntryAdded 2%N; EstimatorProcessTransaction 2%N false;
        TransactionAddedToMempool 2%N].
Proof. cbv zeta. repeat match goal with |- _ /\ _ => split end; by vm_compute. Qed.

(** ** What a rejection leaves of the pool *)

Lemma same_up_to_fee_decay_refl p : same_up_to_fee_decay p p.
Proof. exists (rollingMinimumFeeRate p), (lastRollingFeeUpdate p). by destruct p. Qed.

Lemma same_up_to_fee_decay_contents p q :
  same_up_to_fee_decay p q ->
  mapTx q = mapTx p /\ mapLinks q = mapLinks p /\ mapNextTx q = mapNextTx p
  /\ mapDeltas q = mapDeltas p /\ vTxHashes q = vTxHashes p
  /\ totalTxSize q = totalTxSize p /\ cachedInnerUsage q = cachedInnerUsage p
  /\ nTransactionsUpdated q = nTransactionsUpdated p /\ signals q = signals p.
Proof. intros (rate & last & ->). done. Qed.

Section Rejections.
Context `{Externals}.
Variable CompareTxMemPoolEntryByDescendantScore :
  CTxMemPoolEntry -> CTxMemPoolEntry -> bool.
Variable env : ChainEnv.

Lemma GetMinFee_same now sizelimit p :
  same_up_to_fee_decay p (snd (GetMinFee now sizelimit p)).
Proof.
  unfold GetMinFee.
  destruct (negb (blockSinceLastRollingFeeBump p) || Qeq_bool (rollingMinimumFeeRate p) 0);
    [apply same_up_to_fee_decay_refl |].
  destruct (lastRollingFeeUpdate p + 10 <? now); [| apply same_up_to_fee_decay_refl].
  match goal with |- context [if ?b then inr _ else inl _] => destruct b end;
    simpl; eexists _, _; reflexivity.
Qed.

Lemma fee_checks_same p t fLimitFree nAcceptTime nAbsurdFee view :
  same_up_to_fee_decay p (fst (fee_checks env p t fLimitFree nAcceptTime nAbsurdFee view)).
Proof.
  unfold fee_checks. destruct (CheckSequenceLocks env t) as [locks_ok lp].
  repeat match goal with
         | |- context [if ?b then (p, _) else _] =>
             destruct b; [apply same_up_to_fee_decay_refl |]
         end.
  pose proof (GetMinFee_same (GetTime env) (maxmempool_bytes env) p) as Hs.
  destruct (GetMinFee (GetTime env) (maxmempool_bytes env) p) as [minFee p1].
  simpl in Hs.
  repeat match goal with
         | |- context [if ?b then (p1, _) else _] => destruct b; [exact Hs |]
         end.
  exact Hs.
Qed.

Lemma admission_prefix_same p t fLimitFree pfMissingInputs nAcceptTime nAbsurdFee :
  same_up_to_fee_decay p
    (snd (fst (admission_prefix env p t fLimitFree pfMissingInputs nAcceptTime nAbsurdFee))).
Proof.
  unfold admission_prefix.
  destruct (basic_checks env p t); [| apply same_up_to_fee_decay_refl].
  destruct (find_conflicts env p (vin t) ∅); [| apply same_up_to_fee_decay_refl].
  destruct (fetch_inputs env p t pfMissingInputs (vin t) [] ∅) as [uncache [view | r]];
    [| apply same_up_to_fee_decay_refl].
  pose proof (fee_checks_same p t fLimitFree nAcceptTime nAbsurdFee view) as Hs.
  destruct (fee_checks env p t fLimitFree nAcceptTime nAbsurdFee view). exact Hs.
Qed.

(** A stop anywhere between the fee checks and the commit ends the call
    with the pool the prefix handed on. *)
Lemma worker_stops_in_checks p t fLimitFree pfMissingInputs nAcceptTime
    fOverrideMempoolLimit nAbsurdFee uncache p1 setConflicts c r :
  admission_prefix env p t fLimitFree pfMissingInputs nAcceptTime nAbsurdFee
  = (uncache, p1, Continue (setConflicts, c)) ->
  admission_checks env p1 t c setConflicts = Stop r ->
  let w := AcceptToMemoryPoolWorker CompareTxMemPoolEntryByDescendantScore env p t
             fLimitFree pfMissingInputs nAcceptTime fOverrideMempoolLimit nAbsurdFee in
  w_result w = r /\ same_up_to_fee_decay p (w_pool w).
Proof.
  intros Hpre Hchk. simpl. unfold AcceptToMemoryPoolWorker.
  pose proof (admission_prefix_same p t fLimitFree pfMissingInputs nAcceptTime nAbsurdFee) as Hs.
  rewrite Hpre in *. rewrite Hchk. done.
Qed.
End Rejections.

(** ** Package limits *)




(** ** Replacement arbitration *)

Lemma foldr_sum_perm (g : uint256 -> Z) l1 l2 :
  l1 ≡ₚ l2 ->
  foldr (fun h acc => g h + acc) 0 l1 = foldr (fun h acc => g h + acc) 0 l2.
Proof. induction 1; simpl; lia. Qed.

Lemma sum_over_ordered m f (s : gset uint256) :
  sum_over m f s = foldr (fun h acc => from_option f 0 (m !! h) + acc) 0 (ordered s).
Proof. unfold sum_over. symmetry. apply foldr_sum_perm, ordered_perm. Qed.

Section Replacement.
Context `{Externals}.
Variable CompareTxMemPoolEntryByDescendantScore :
  CTxMemPoolEntry -> CTxMemPoolEntry -> bool.
Variable env : ChainEnv.

Lemma direct_conflicts_iter p rate l : forall it ps n it' ps' n',
  direct_conflicts p rate l it ps n = Continue (it', ps', n') ->
  forall h, h ∈ it' <-> h ∈ it \/ (h ∈ l /\ h ∈ dom (mapTx p)).
Proof.
  induction l as [| x l IH]; intros it ps n it' ps' n' Hd h; simpl in Hd.
  - simplify_eq. split; [by left |]. intros [? | [Hin _]]; [done |].
    by apply elem_of_nil in Hin.
  - destruct (mapTx p !! x) as [mi |] eqn:Hx.
    + destruct (CFeeRate_le rate (CFeeRate_of (GetModifiedFee mi) (GetTxSize mi)));
        [discriminate |].
      rewrite (IH _ _ _ _ _ _ Hd h). rewrite elem_of_union, elem_of_singleton, elem_of_cons.
      split.
      * intros [[-> | ?] | [? ?]]; [| by left | by right; split; [right |]].
        right. split; [by left |]. apply elem_of_dom. eauto.
      * intros [? | [[-> | ?] ?]]; [by left; right | by left; left | by right].
    + rewrite (IH _ _ _ _ _ _ Hd h). rewrite elem_of_cons.
      split; [intros [? | [? ?]]; [by left | by right; split; [right |]] |].
      intros [? | [[-> | ?] Hdom]]; [by left | | by right].
      apply elem_of_dom in Hdom as [? ?]. congruence.
Qed.

Lemma conflict_sums p l : forall fees0 size0 fees size,
  for_each (fun it '(fees, size) =>
              e ← mapTx p !! it;
              Some (fees + GetModifiedFee e, wrap64 (size + GetTxSize e)))
           l (fees0, size0) = Some (fees, size) ->
  fees = fees0 + foldr (fun h acc => from_option GetModifiedFee 0 (mapTx p !! h) + acc) 0 l.
Proof.
  induction l as [| x l IH]; intros fees0 size0 fees size Hf; simpl in Hf.
  - simplify_eq. simpl. lia.
  - destruct (mapTx p !! x) as [e |] eqn:Hx; simpl in Hf; [| discriminate].
    apply IH in Hf. simpl. rewrite Hx. simpl. lia.
Qed.

(** What [replacement_staging] hands on: [allConflicting] is the set of
    the pool transactions in [setConflicts] with all their descendants,
    and [nConflictingFees] is the sum of their modified fees. *)
Lemma replacement_staging_spec p t c setConflicts rep :
  links_closed p ->
  replacement_staging p t c setConflicts = Continue rep ->
  (forall d, d ∈ allConflicting rep
             <-> exists h, h ∈ setConflicts /\ h ∈ dom (mapTx p) /\ descendant p h d)
  /\ nConflictingFees rep = sum_over (mapTx p) GetModifiedFee (allConflicting rep).
Proof.
  intros Hl. unfold replacement_staging.
  destruct (direct_conflicts p _ (ordered setConflicts) ∅ ∅ 0) as [[[it ps] n] |] eqn:Hd;
    simpl; [| discriminate].
  destruct (n <=? maxDescendantsToVisit); [| discriminate].
  pose proof (direct_conflicts_iter _ _ _ _ _ _ _ _ _ Hd) as Hit.
  destruct (descendants_of_list p (ordered it) ∅ Hl) as (all & Hall & Hspec & _).
  { intros x Hx. apply elem_of_ordered, Hit in Hx as [Hx | [_ Hx]]; [set_solver | done]. }
  { set_solver. }
  rewrite Hall. simpl.
  destruct (for_each _ (ordered all) (0, 0)) as [[fees size] |] eqn:Hsum; simpl; [| discriminate].
  destruct (existsb _ (vin t)); [discriminate |].
  intros Hrep. simplify_eq. simpl. split.
  - intros d. rewrite Hspec. split.
    + intros [Hd' | (x & Hx & Hxd)]; [set_solver |].
      apply elem_of_ordered, Hit in Hx as [Hx | [Hx Hdom]]; [set_solver |].
      apply elem_of_ordered in Hx. eauto.
    + intros (h & Hh & Hdom & Hhd). right. exists h. split; [| done].
      apply elem_of_ordered, Hit. right. split; [by apply elem_of_ordered | done].
  - apply conflict_sums in Hsum. rewrite sum_over_ordered. lia.
Qed.

(** C3. A candidate with conflicts that has come through the checks up to
    the fee rules of the replacement arbitration is rejected with
    INSUFFICIENTFEE "insufficient fee", the pool keeping its contents,
    whenever its modified fee less the modified fees of the directly
    conflicting transactions and all their descendants is below
    [incrementalRelayFee.GetFee] of its virtual size. *)
Theorem replacement_must_pay_for_its_bandwidth (p : CTxMemPool) (t : CTransaction)
    (fLimitFree pfMissingInputs : bool) (nAcceptTime : Z)
    (fOverrideMempoolLimit : bool) (nAbsurdFee : Z)
    uncache p1 setConflicts c setAncestors rep (evicted : gset uint256) :
  admission_prefix env p t fLimitFree pfMissingInputs nAcceptTime nAbsurdFee
  = (uncache, p1, Continue (setConflicts, c)) ->
  setConflicts <> ∅ ->
  links_closed p1 ->
  ancestor_checks env p1 c setConflicts = Continue setAncestors ->
  replacement_staging p1 t c setConflicts = Continue rep ->
  (forall d, d ∈ evicted
             <-> exists h, h ∈ setConflicts /\ h ∈ dom (mapTx p1) /\ descendant p1 h d) ->
  c_nModifiedFees c - sum_over (mapTx p1) GetModifiedFee evicted
  < GetFee incrementalRelayFee (c_nSize c) ->
  let w := AcceptToMemoryPoolWorker CompareTxMemPoolEntryByDescendantScore env p t
             fLimitFree pfMissingInputs nAcceptTime fOverrideMempoolLimit nAbsurdFee in
  w_result w = Rejected (mkRejection 0 REJECT_INSUFFICIENTFEE "insufficient fee" false)
  /\ same_up_to_fee_decay p (w_pool w).
Proof.
  intros Hpre Hne Hl Hanc Hst Hev Hfee.
  apply (worker_stops_in_checks CompareTxMemPoolEntryByDescendantScore env
           _ _ _ _ _ _ _ _ _ _ _ _ Hpre).
  unfold admission_checks. rewrite Hanc. simpl. unfold replacement_checks.
  rewrite bool_decide_eq_false_2; [| by intros ?%size_empty_inv%leibniz_equiv].
  rewrite Hst. simpl.
  destruct (replacement_staging_spec _ _ _ _ _ Hl Hst) as [Hall Hfees].
  assert (allConflicting rep = evicted) as Heq.
  { apply set_eq. intros d. by rewrite Hall, Hev. }
  rewrite Hfees, Heq.
  destruct (c_nModifiedFees c <? sum_over (mapTx p1) GetModifiedFee evicted); [done |].
  by apply Z.ltb_lt in Hfee as ->.
Qed.
End Replacement.

(** The statement at a pool that holds [tx_signal] and the candidate
    [tx_small_bump]: 100 satoshi of additional fees do not pay for 250
    virtual bytes at 1000 satoshi per kilobyte. *)
Lemma replacement_fee_witness :
  let p := w_pool (demo_admit demo_env demo_pool tx_signal) in
  let w := demo_admit demo_env p tx_small_bump in
  w_result w = Rejected (mkRejection 0 REJECT_INSUFFICIENTFEE "insufficient fee" false)
  /\ same_up_to_fee_decay p (w_pool w).
Proof.
  cbv zeta.
  set (p := w_pool (demo_admit demo_env demo_pool tx_signal)).
  match eval vm_compute in
        (@admission_prefix demo_externals demo_env p tx_small_bump true true 1500000000 0) with
  | (?u, ?p1, Continue (?sc, ?c)) =>
      assert (@admission_prefix demo_externals demo_env p tx_small_bump true true 1500000000 0
              = (u, p1, Continue (sc, c))) as Hpre by (vm_compute; reflexivity);
      assert (links_closed p1) as Hl by (apply (bool_decide_unpack _); by vm_compute);
      assert (sc <> ∅) as Hne
          by (intros Heq; apply (f_equal size) in Heq; vm_compute in Heq; discriminate);
      match eval vm_compute in (@ancestor_checks demo_externals demo_env p1 c sc) with
      | Continue ?anc =>
          assert (@ancestor_checks demo_externals demo_env p1 c sc = Continue anc) as Hanc
              by (vm_compute; reflexivity);
          match eval vm_compute in (@replacement_staging demo_externals p1 tx_small_bump c sc) with
          | Continue ?rep =>
              assert (@replacement_staging demo_externals p1 tx_small_bump c sc = Continue rep)
                as Hst by (vm_compute; reflexivity);
              apply (@replacement_must_pay_for_its_bandwidth demo_externals demo_cmp demo_env
                       p tx_small_bump true true 1500000000 false 0
                       u p1 sc c anc rep (allConflicting rep) Hpre Hne Hl Hanc Hst
                       (proj1 (replacement_staging_spec p1 tx_small_bump c sc rep Hl Hst)));
              by vm_compute
          end
      end
  end.
Defined.

(** C3 as stated fails in what it says of the pool. The pool holds
    [tx_signal], its rolling fee rate was raised a while ago and a block
    has come since; the candidate [tx_small_bump] conflicts with
    [tx_signal] and is rejected for its fee, yet the pool is not as it
    was: [GetMinFee], which the admission calls before the replacement
    rules, has set [lastRollingFeeUpdate] to the time of the call. *)
Lemma insufficient_fee_rejection_refreshes_the_fee_rate :
  let p := aged (w_pool (demo_admit demo_env demo_pool tx_signal)) in
  let w := demo_admit demo_env p tx_small_bump in
  conflicts_of p tx_small_bump = {[ 1%N ]}
  /\ w_result w = Rejected (mkRejection 0 REJECT_INSUFFICIENTFEE "insufficient fee" false)
  /\ lastRollingFeeUpdate p = 1499000000
  /\ lastRollingFeeUpdate (w_pool w) = 1500000000
  /\ w_pool w <> p.
Proof.
  cbv zeta. split; [by vm_compute |]. split; [by vm_compute |]. split; [by vm_compute |].
  split; [by vm_compute |].
  intros Heq. apply (f_equal lastRollingFeeUpdate) in Heq. vm_compute in Heq. discriminate.
Qed.

(** ** Loops keep what their bodies keep *)

Lemma for_each_inv {A S : Type} (P : S -> Prop) (body : A -> S -> option S) l :
  (forall x s s', x ∈ l -> body x s = Some s' -> P s -> P s') ->
  forall s s', for_each body l s = Some s' -> P s -> P s'.
Proof.
  induction l as [| x l IH]; intros Hbody s s' Hrun Hs; simpl in Hrun.
  - by simplify_eq.
  - destruct (body x s) as [s1 |] eqn:Hx; simpl in Hrun; [| discriminate].
    eapply IH; [| exact Hrun |].
    + intros y t t' Hy. apply Hbody. by right.
    + eapply Hbody; [left | exact Hx | exact Hs].
Qed.

Lemma foldl_inv {A S : Type} (P : S -> Prop) (body : S -> A -> S) l :
  (forall x s, x ∈ l -> P s -> P (body s x)) ->
  forall s, P s -> P (foldl body s l).
Proof.
  induction l as [| x l IH]; intros Hbody s Hs; simpl; [done |].
  apply IH.
  - intros y t Hy. apply Hbody. by right.
  - apply Hbody; [left | done].
Qed.

(** ** The total size *)

Section TotalSize.
Context `{Externals}.

Lemma keeps_sizes_refl p : keeps_sizes p p.
Proof. done. Qed.

Lemma keeps_sizes_trans p q r : keeps_sizes p q -> keeps_sizes q r -> keeps_sizes p r.
Proof. intros [? ?] [? ?]. split; congruence. Qed.

Lemma modify_keeps_sizes it f p p' :
  (forall e e', f e = Some e' -> GetTxSize e' = GetTxSize e) ->
  modify it f p = Some p' -> keeps_sizes p p'.
Proof.
  intros Hf Hm. unfold modify in Hm.
  destruct (mapTx p !! it) as [e |] eqn:He; simpl in Hm; [| discriminate].
  destruct (f e) as [e' |] eqn:Hfe; simpl in Hm; [| discriminate].
  simplify_eq. split; [| done]. simpl.
  rewrite fmap_insert. apply insert_id. rewrite lookup_fmap, He. simpl.
  f_equal. symmetry. by apply Hf.
Qed.

Lemma alter_keeps_sizes g it p :
  (forall e, GetTxSize (g e) = GetTxSize e) ->
  keeps_sizes p (with_mapTx (alter g it (mapTx p)) p).
Proof.
  intros Hg. split; [| done]. simpl. apply map_eq. intros h.
  rewrite !lookup_fmap. destruct (decide (h = it)) as [-> | Hne].
  - rewrite lookup_alter_eq. destruct (mapTx p !! it); simpl; [| done]. by rewrite Hg.
  - by rewrite lookup_alter_ne.
Qed.

Lemma UpdateDescendantState_size a b c e e' :
  UpdateDescendantState a b c e = Some e' -> GetTxSize e' = GetTxSize e.
Proof.
  unfold UpdateDescendantState. intros Hu. cbv zeta in Hu.
  repeat match type of Hu with
         | (if ?b then _ else _) = _ => destruct b; [discriminate |]
         end.
  by simplify_eq.
Qed.

Lemma UpdateAncestorState_size a b c d e e' :
  UpdateAncestorState a b c d e = Some e' -> GetTxSize e' = GetTxSize e.
Proof.
  unfold UpdateAncestorState. intros Hu. cbv zeta in Hu.
  repeat match type of Hu with
         | (if ?b then _ else _) = _ => destruct b; [discriminate |]
         end.
  by simplify_eq.
Qed.

Lemma UpdateChild_keeps_sizes a b add p : keeps_sizes p (UpdateChild a b add p).
Proof. unfold UpdateChild. by repeat case_match. Qed.

Lemma UpdateParent_keeps_sizes a b add p : keeps_sizes p (UpdateParent a b add p).
Proof. unfold UpdateParent. by repeat case_match. Qed.

Lemma UpdateAncestorsOf_keeps_sizes add it setAncestors p p' :
  UpdateAncestorsOf add it setAncestors p = Some p' -> keeps_sizes p p'.
Proof.
  unfold UpdateAncestorsOf. intros Hu.
  destruct (GetMemPoolParents p it) as [ps |]; simpl in Hu; [| discriminate].
  match type of Hu with
  | context [foldl ?body p ?l] =>
      assert (keeps_sizes p (foldl body p l)) as Hk
        by (apply (foldl_inv (keeps_sizes p)); [| apply keeps_sizes_refl];
            intros x s _ Hs; eapply keeps_sizes_trans; [exact Hs | apply UpdateChild_keeps_sizes]);
      destruct (mapTx (foldl body p l) !! it) as [e |]; simpl in Hu; [| discriminate]
  end.
  eapply (for_each_inv (keeps_sizes p)); [| exact Hu | exact Hk].
  intros x s s' _ Hm Hs. eapply keeps_sizes_trans; [exact Hs |].
  eapply modify_keeps_sizes; [| exact Hm]. apply UpdateDescendantState_size.
Qed.

Lemma UpdateEntryForAncestors_keeps_sizes it setAncestors p p' :
  UpdateEntryForAncestors it setAncestors p = Some p' -> keeps_sizes p p'.
Proof.
  unfold UpdateEntryForAncestors. intros Hu.
  destruct (for_each _ (ordered setAncestors) (0, 0, 0)) as [[[a b] c] |];
    simpl in Hu; [| discriminate].
  eapply modify_keeps_sizes; [| exact Hu]. apply UpdateAncestorState_size.
Qed.
End TotalSize.

Section TotalSizeOps.
Context `{Externals}.

Lemma sum_insert (m : gmap uint256 Z) h z :
  m !! h = None ->
  map_fold (fun _ sz acc => sz + acc) 0 (<[h := z]> m)
  = z + map_fold (fun _ sz acc => sz + acc) 0 m.
Proof.
  intros Hm.
  apply (map_fold_insert_L (fun (_ : uint256) sz acc => sz + acc) 0 h z m); [intros; lia | done].
Qed.

Lemma sum_delete (m : gmap uint256 Z) h z :
  m !! h = Some z ->
  map_fold (fun _ sz acc => sz + acc) 0 m
  = z + map_fold (fun _ sz acc => sz + acc) 0 (delete h m).
Proof.
  intros Hm.
  apply (map_fold_delete_L (fun (_ : uint256) sz acc => sz + acc) 0 h z m); [intros; lia | done].
Qed.

Lemma insert_entry_sizes entry p :
  mapTx p !! GetHash (tx entry) = None ->
  GetTxSize <$> mapTx (insert_entry entry p)
  = <[GetHash (tx entry) := GetTxSize entry]> (GetTxSize <$> mapTx p)
  /\ totalTxSize (insert_entry entry p) = totalTxSize p.
Proof.
  intros Hfresh. unfold insert_entry. cbv zeta. rewrite Hfresh.
  case_match; simpl; by rewrite fmap_insert.
Qed.

Lemma apply_fee_delta_keeps_sizes hash newit p p' :
  apply_fee_delta hash newit p = Some p' -> keeps_sizes p p'.
Proof.
  unfold apply_fee_delta. intros Ha.
  destruct (mapDeltas p !! hash) as [delta |];
    [| simplify_eq; apply keeps_sizes_refl].
  destruct (delta =? 0); [simplify_eq; apply keeps_sizes_refl |].
  eapply modify_keeps_sizes; [| exact Ha]. intros e e' He.
  injection He as <-. reflexivity.
Qed.

Lemma index_inputs_keeps_sizes newit ins p : keeps_sizes p (index_inputs newit ins p).
Proof.
  unfold index_inputs. apply (foldl_inv (keeps_sizes p)); [| apply keeps_sizes_refl].
  intros x s _ Hs. eapply keeps_sizes_trans; [exact Hs |].
  unfold mapNextTx_insert. by case_match.
Qed.

Lemma link_parents_keeps_sizes newit ins p : keeps_sizes p (link_parents newit ins p).
Proof.
  unfold link_parents. cbv zeta.
  apply (foldl_inv (keeps_sizes p)); [| apply keeps_sizes_refl].
  intros x s _ Hs. eapply keeps_sizes_trans; [exact Hs |].
  case_match; [apply UpdateParent_keeps_sizes | apply keeps_sizes_refl].
Qed.

Lemma register_entry_sizes newit entry wh v p :
  GetTxSize <$> mapTx (register_entry newit entry wh v p) = GetTxSize <$> mapTx p
  /\ totalTxSize (register_entry newit entry wh v p)
     = wrap64 (totalTxSize p + GetTxSize entry).
Proof.
  unfold register_entry. cbv zeta.
  match goal with
  | |- context [with_mapTx (alter ?g ?k (mapTx ?q)) ?q] =>
      destruct (alter_keeps_sizes g k q) as [Hm Ht]; [done |]; rewrite Hm, Ht
  end.
  by case_match.
Qed.

Lemma addUnchecked_sizes hash entry setAncestors validFeeEstimate p p' :
  mapTx p !! GetHash (tx entry) = None ->
  addUnchecked hash entry setAncestors validFeeEstimate p = Some p' ->
  GetTxSize <$> mapTx p' = <[GetHash (tx entry) := GetTxSize entry]> (GetTxSize <$> mapTx p)
  /\ totalTxSize p' = wrap64 (totalTxSize p + GetTxSize entry).
Proof.
  intros Hfresh Ha. unfold addUnchecked in Ha. cbv zeta in Ha.
  destruct (insert_entry_sizes entry (emit (NotifyEntryAdded (GetHash (tx entry))) p) Hfresh)
    as [Hm0 Ht0].
  destruct (apply_fee_delta _ _ _) as [p1 |] eqn:H1; simpl in Ha; [| discriminate].
  apply apply_fee_delta_keeps_sizes in H1 as [Hm1 Ht1].
  destruct (mapTx p1 !! GetHash (tx entry)) as [e |]; simpl in Ha; [| discriminate].
  destruct (UpdateAncestorsOf _ _ _ _) as [p2 |] eqn:H2; simpl in Ha; [| discriminate].
  apply UpdateAncestorsOf_keeps_sizes in H2.
  destruct (UpdateEntryForAncestors _ _ _) as [p3 |] eqn:H3; simpl in Ha; [| discriminate].
  apply UpdateEntryForAncestors_keeps_sizes in H3 as [Hm3 Ht3].
  pose proof (keeps_sizes_trans _ _ _
                (keeps_sizes_trans _ _ _
                   (index_inputs_keeps_sizes (GetHash (tx entry)) (vin (tx e)) _)
                   (link_parents_keeps_sizes (GetHash (tx entry)) (vin (tx e)) _)) H2)
    as [Hm2 Ht2].
  simpl in Hm2, Ht2.
  injection Ha as <-.
  destruct (register_entry_sizes (GetHash (tx entry)) entry (GetWitnessHash (tx e))
              validFeeEstimate p3) as [Hm4 Ht4].
  rewrite Hm4, Ht4, Hm3, Ht3, Hm2, Ht2, Hm1, Ht1, Hm0, Ht0. done.
Qed.

Lemma unindex_inputs_keeps_sizes ins p : keeps_sizes p (unindex_inputs ins p).
Proof.
  unfold unindex_inputs. apply (foldl_inv (keeps_sizes p)); [| apply keeps_sizes_refl].
  intros x s _ Hs. eapply keeps_sizes_trans; [exact Hs | done].
Qed.

Lemma unregister_hash_keeps_sizes idx p : keeps_sizes p (unregister_hash idx p).
Proof.
  unfold unregister_hash. case_match; [| done]. case_match; [| done].
  destruct (alter_keeps_sizes (set_vTxHashesIdx idx) (snd p0) p); done.
Qed.

Lemma emit_if_keeps (b : bool) s q :
  mapTx (if b then emit s q else q) = mapTx q
  /\ totalTxSize (if b then emit s q else q) = totalTxSize q.
Proof. by destruct b. Qed.

Lemma removeUnchecked_sizes it reason p p' :
  removeUnchecked it reason p = Some p' ->
  exists e, mapTx p !! it = Some e
            /\ GetTxSize <$> mapTx p' = delete it (GetTxSize <$> mapTx p)
            /\ totalTxSize p' = wrap64 (totalTxSize p - GetTxSize e).
Proof.
  unfold removeUnchecked. intros Hr.
  destruct (mapTx p !! it) as [e |] eqn:He; simpl in Hr; [| discriminate].
  exists e. split; [done |]. injection Hr as <-.
  pose proof (keeps_sizes_trans _ _ _
                (unindex_inputs_keeps_sizes (vin (tx e))
                   (emit (NotifyEntryRemoved (GetHash (tx e)) reason) p))
                (unregister_hash_keeps_sizes (vTxHashesIdx e) _)) as [Hm Ht].
  simpl in Hm, Ht.
  match goal with
  | |- context [erase_entry it e ?q] =>
      assert (GetTxSize <$> mapTx (erase_entry it e q) = delete it (GetTxSize <$> mapTx q)
              /\ totalTxSize (erase_entry it e q) = wrap64 (totalTxSize q - GetTxSize e))
        as [Hm' Ht'] by (unfold erase_entry; simpl; by rewrite fmap_delete);
      rewrite (proj1 (emit_if_keeps (minerPolicyEstimator (erase_entry it e q))
                        (EstimatorRemoveTx (GetHash (tx e)) false) (erase_entry it e q)));
      rewrite (proj2 (emit_if_keeps (minerPolicyEstimator (erase_entry it e q))
                        (EstimatorRemoveTx (GetHash (tx e)) false) (erase_entry it e q)));
      rewrite Hm', Ht', Hm, Ht; done
  end.
Qed.

(** C7. In every state the pool goes through by [addUnchecked] and
    [removeUnchecked], [totalTxSize] is the sum of the virtual sizes of the
    entries, as a 64-bit counter holds it; it is that sum itself whenever
    the sum is below 2^64. *)
Theorem totalTxSize_is_sum_of_sizes (p : CTxMemPool) :
  quiescent p ->
  total_size_ok p
  /\ (0 <= sum_of_sizes p < 2 ^ 64 -> totalTxSize p = sum_of_sizes p).
Proof.
  intros Hq.
  assert (total_size_ok p) as Hok; [| split; [done |]; intros Hb; rewrite Hok;
                                      by apply wrap64_small].
  induction Hq as [estimator now
                  | p hash entry setAncestors v p' _ IH Hfresh Hadd
                  | p it reason p' _ IH Hrem].
  - unfold total_size_ok, sum_of_sizes. simpl. rewrite fmap_empty, map_fold_empty. done.
  - destruct (addUnchecked_sizes _ _ _ _ _ _ Hfresh Hadd) as [Hm Ht].
    unfold total_size_ok, sum_of_sizes in *. rewrite Hm, Ht, IH.
    rewrite sum_insert by (by rewrite lookup_fmap, Hfresh).
    unfold wrap64. rewrite Zplus_mod_idemp_l. f_equal. lia.
  - destruct (removeUnchecked_sizes _ _ _ _ Hrem) as (e & He & Hm & Ht).
    unfold total_size_ok, sum_of_sizes in *. rewrite Hm, Ht, IH.
    rewrite (sum_delete (GetTxSize <$> mapTx p) it (GetTxSize e))
      by (by rewrite lookup_fmap, He).
    unfold wrap64. rewrite Zminus_mod_idemp_l. f_equal. lia.
Qed.
End TotalSizeOps.

(** The statement at the pool that two insertions and one removal leave:
    the counter holds the 250 virtual bytes of the one entry left. *)
Lemma totalTxSize_witness :
  exists p, demo_add_add_remove = Some p
            /\ @total_size_ok demo_externals p
            /\ totalTxSize p = 250.
Proof.
  match eval vm_compute in
        (@addUnchecked demo_externals 1%N (demo_entry (chain_tx 1) 1000) ∅ false demo_pool) with
  | Some ?p1 =>
      match eval vm_compute in
            (@addUnchecked demo_externals 2%N (demo_entry (chain_tx 2) 1000) {[ 1%N ]} false p1) with
      | Some ?p2 =>
          match eval vm_compute in (@removeUnchecked demo_externals 2%N UNKNOWN p2) with
          | Some ?p3 =>
              assert (@quiescent demo_externals p1) as Hq1
                by (apply (@quiescent_add demo_externals demo_pool 1%N
                             (demo_entry (chain_tx 1) 1000) ∅ false p1);
                    [apply quiescent_new | by vm_compute | by vm_compute]);
              assert (@quiescent demo_externals p2) as Hq2
                by (apply (@quiescent_add demo_externals p1 2%N
                             (demo_entry (chain_tx 2) 1000) {[ 1%N ]} false p2);
                    [exact Hq1 | by vm_compute | by vm_compute]);
              assert (@quiescent demo_externals p3) as Hq3
                by (apply (@quiescent_remove demo_externals p2 2%N UNKNOWN p3);
                    [exact Hq2 | by vm_compute]);
              exists p3; split; [by vm_compute |];
              destruct (@totalTxSize_is_sum_of_sizes demo_externals p3 Hq3) as [Hok Hsum];
              split; [exact Hok |]; rewrite Hsum; by vm_compute
          end
      end
  end.
Defined.

(** ** Modifying entries in place *)

Lemma modify_Some it f p e e' :
  mapTx p !! it = Some e -> f e = Some e' ->
  modify it f p = Some (with_mapTx (<[it := e']> (mapTx p)) p).
Proof. intros He Hf. unfold modify. rewrite He. simpl. by rewrite Hf. Qed.

Lemma modify_inv it f p p' :
  modify it f p = Some p' ->
  exists e e', mapTx p !! it = Some e /\ f e = Some e'
               /\ p' = with_mapTx (<[it := e']> (mapTx p)) p.
Proof.
  unfold modify. intros Hm.
  destruct (mapTx p !! it) as [e |]; simpl in Hm; [| discriminate].
  destruct (f e) as [e' |] eqn:Hf; simpl in Hm; [| discriminate].
  simplify_eq. eauto.
Qed.

(** A loop that modifies the entry of every key of a duplicate-free list
    changes [mapTx] at those keys and nothing else. *)
Lemma for_each_modify f l : NoDup l -> forall p,
  (forall h, h ∈ l -> exists e e', mapTx p !! h = Some e /\ f e = Some e') ->
  exists m, for_each (fun it q => modify it f q) l p = Some (with_mapTx m p)
            /\ forall h, m !! h = if decide (h ∈ l) then mapTx p !! h ≫= f else mapTx p !! h.
Proof.
  induction 1 as [| x l Hx Hnd IH]; intros p Hall; simpl.
  - exists (mapTx p). split; [by destruct p |]. intros h.
    destruct (decide (h ∈ [])) as [Hin | _]; [by apply elem_of_nil in Hin | done].
  - destruct (Hall x) as (e & e' & He & Hf); [left |].
    rewrite (modify_Some _ _ _ _ _ He Hf). simpl.
    destruct (IH (with_mapTx (<[x := e']> (mapTx p)) p)) as (m & Hm & Hlk).
    { intros h Hh. destruct (Hall h) as (eh & eh' & Heh & Hfh); [by right |].
      exists eh, eh'. split; [| done]. simpl. rewrite lookup_insert_ne; [done |].
      intros ->. done. }
    exists m. split; [exact Hm |]. intros h. rewrite Hlk. simpl.
    destruct (decide (h = x)) as [-> | Hne].
    + rewrite decide_False by done. rewrite decide_True by left.
      rewrite lookup_insert_eq, He. simpl. done.
    + rewrite lookup_insert_ne by done.
      destruct (decide (h ∈ l)) as [Hin | Hnin].
      * rewrite decide_True by (by right). done.
      * rewrite decide_False; [done |]. intros [? | ?]%elem_of_cons; done.
Qed.

(** ** The traversals read the links and the set of keys only *)

Lemma bfs_ext next1 next2 fuel : forall stage acc,
  (forall x, next1 x = next2 x) ->
  bfs next1 fuel stage acc = bfs next2 fuel stage acc.
Proof.
  induction fuel as [| fuel IH]; intros stage acc Hext; simpl; [done |].
  destruct (set_begin stage) as [x |]; [| done].
  rewrite Hext. destruct (next2 x); simpl; [| done]. by apply IH.
Qed.

Section Frames.
Context `{Externals}.

Lemma same_graph_refl p : same_graph p p.
Proof. done. Qed.

Lemma same_graph_trans p q r : same_graph p q -> same_graph q r -> same_graph p r.
Proof. intros [? ?] [? ?]. split; congruence. Qed.

Lemma same_graph_lookup p q x :
  same_graph p q -> is_Some (mapTx q !! x) <-> is_Some (mapTx p !! x).
Proof. intros [_ Hd]. by rewrite <- !elem_of_dom, Hd. Qed.

Lemma GetMemPoolParents_frame p q x :
  same_graph p q -> GetMemPoolParents q x = GetMemPoolParents p x.
Proof.
  intros Hs. unfold GetMemPoolParents. destruct Hs as [Hl Hd]. rewrite Hl.
  assert (is_Some (mapTx q !! x) <-> is_Some (mapTx p !! x)) as Hx
    by (by rewrite <- !elem_of_dom, Hd).
  destruct (mapTx q !! x) as [eq |], (mapTx p !! x) as [ep |]; simpl; try done.
  - destruct Hx as [Hx _]. destruct Hx; [eauto | done].
  - destruct Hx as [_ Hx]. destruct Hx; [eauto | done].
Qed.

Lemma GetMemPoolChildren_frame p q x :
  same_graph p q -> GetMemPoolChildren q x = GetMemPoolChildren p x.
Proof.
  intros Hs. unfold GetMemPoolChildren. destruct Hs as [Hl Hd]. rewrite Hl.
  assert (is_Some (mapTx q !! x) <-> is_Some (mapTx p !! x)) as Hx
    by (by rewrite <- !elem_of_dom, Hd).
  destruct (mapTx q !! x) as [eq |], (mapTx p !! x) as [ep |]; simpl; try done.
  - destruct Hx as [Hx _]. destruct Hx; [eauto | done].
  - destruct Hx as [_ Hx]. destruct Hx; [eauto | done].
Qed.

Lemma CalculateDescendants_frame p q it acc :
  same_graph p q -> CalculateDescendants q it acc = CalculateDescendants p it acc.
Proof.
  intros Hs. unfold CalculateDescendants. rewrite !descendants_loop_bfs.
  destruct Hs as [Hl Hd]. rewrite Hl. apply bfs_ext.
  intros x. by apply GetMemPoolChildren_frame.
Qed.

Lemma CalculateMemPoolAncestors_frame p q e e' :
  same_graph p q -> GetHash (tx e') = GetHash (tx e) ->
  CalculateMemPoolAncestors q e' NoLimits false = CalculateMemPoolAncestors p e NoLimits false.
Proof.
  intros Hs Hh. unfold CalculateMemPoolAncestors. rewrite Hh.
  rewrite (GetMemPoolParents_frame p q _ Hs).
  destruct (GetMemPoolParents p (GetHash (tx e))) as [ps |]; [| done].
  cbn [mbind option_bind]. rewrite !ancestors_loop_bfs.
  destruct Hs as [Hl Hd]. rewrite Hl. f_equal. apply bfs_ext.
  intros x. by apply GetMemPoolParents_frame.
Qed.

Lemma same_graph_links_closed p q :
  same_graph p q -> links_closed p -> links_closed q.
Proof. intros [Hl Hd] [H1 H2]. split; rewrite Hl, Hd; done. Qed.

Lemma with_mapTx_same_graph m p :
  dom m = dom (mapTx p) -> same_graph p (with_mapTx m p).
Proof. intros Hd. split; done. Qed.
End Frames.

(** ** Prioritisation *)

Lemma lookup_map_at s g m h :
  map_at s g m !! h = (fun e => if decide (h ∈ s) then g e else e) <$> m !! h.
Proof. unfold map_at. rewrite map_lookup_imap. by destruct (m !! h). Qed.

Lemma dom_map_at s g m : dom (map_at s g m) = dom m.
Proof.
  apply set_eq. intros h. rewrite !elem_of_dom, lookup_map_at.
  by rewrite fmap_is_Some.
Qed.

Lemma for_each_modify_pure f g (s : gset uint256) p :
  (forall h e, h ∈ s -> mapTx p !! h = Some e -> f e = Some (g e)) ->
  s ⊆ dom (mapTx p) ->
  for_each (fun it q => modify it f q) (ordered s) p
  = Some (with_mapTx (map_at s g (mapTx p)) p).
Proof.
  intros Hf Hs.
  destruct (for_each_modify f (ordered s) (NoDup_ordered s) p) as (m & Hm & Hlk).
  { intros h Hh%elem_of_ordered. pose proof (Hs _ Hh) as [e He]%elem_of_dom.
    exists e, (g e). split; [done | by eapply Hf]. }
  rewrite Hm. do 2 f_equal. apply map_eq. intros h.
  rewrite Hlk, lookup_map_at. destruct (mapTx p !! h) as [e |] eqn:He; simpl.
  - destruct (decide (h ∈ ordered s)) as [Hin | Hnin];
      destruct (decide (h ∈ s)) as [Hin' | Hnin']; simpl; try done.
    + by eapply Hf.
    + by apply elem_of_ordered in Hin.
    + exfalso. by apply Hnin, elem_of_ordered.
  - by destruct (decide (h ∈ ordered s)).
Qed.

Lemma UpdateDescendantState_fee fee e :
  aggregates_in_range e ->
  UpdateDescendantState 0 fee 0 e = Some (add_desc_fee fee e).
Proof.
  intros (Hs & Hc & _). unfold UpdateDescendantState, add_desc_fee.
  rewrite !Z.add_0_r, !wrap64_small by lia. rewrite !int64_of_small by lia.
  destruct (0 <? nSizeWithDescendants e) eqn:E1; [| apply Z.ltb_ge in E1; lia].
  destruct (0 <? nCountWithDescendants e) eqn:E2; [| apply Z.ltb_ge in E2; lia].
  done.
Qed.

Lemma UpdateAncestorState_fee fee e :
  aggregates_in_range e ->
  UpdateAncestorState 0 fee 0 0 e = Some (add_anc_fee fee e).
Proof.
  intros (_ & _ & Hs & Hc & Hg). unfold UpdateAncestorState, add_anc_fee.
  change (int32_of 0) with 0.
  rewrite !Z.add_0_r, !wrap64_small by lia. rewrite !int64_of_small by lia.
  destruct (0 <? nSizeWithAncestors e) eqn:E1; [| apply Z.ltb_ge in E1; lia].
  destruct (0 <? nCountWithAncestors e) eqn:E2; [| apply Z.ltb_ge in E2; lia].
  destruct (0 <=? int32_of (nSigOpCostWithAncestors e)) eqn:E3; [| apply Z.leb_gt in E3; lia].
  done.
Qed.

Lemma map_at_in_range s g m :
  (forall e, aggregates_in_range e -> aggregates_in_range (g e)) ->
  map_Forall (fun _ e => aggregates_in_range e) m ->
  map_Forall (fun _ e => aggregates_in_range e) (map_at s g m).
Proof.
  intros Hg Hm h e. rewrite lookup_map_at.
  destruct (m !! h) as [e0 |] eqn:He0; simpl; [| done].
  intros [= <-]. specialize (Hm _ _ He0). simpl in Hm. case_decide; eauto.
Qed.

Lemma map_at_keys s g m :
  (forall e, tx (g e) = tx e) ->
  map_Forall (fun h e => GetHash (tx e) = h) m ->
  map_Forall (fun h e => GetHash (tx e) = h) (map_at s g m).
Proof.
  intros Hg Hm h e. rewrite lookup_map_at.
  destruct (m !! h) as [e0 |] eqn:He0; simpl; [| done].
  intros [= <-]. specialize (Hm _ _ He0). simpl in Hm. case_decide; [by rewrite Hg | done].
Qed.

Section PrioritiseProps.
Context `{Externals}.

Lemma ancestors_in_pool p x y : links_closed p -> ancestor p x y -> y ∈ dom (mapTx p).
Proof.
  intros [_ Hcl] Hxy. induction Hxy as [x y (l & Hl & Hy) | x z y _ _ IH]; [| done].
  destruct (Hcl _ _ Hl) as [Hp _]. by apply Hp.
Qed.

Lemma descendants_in_pool p x y :
  links_closed p -> x ∈ dom (mapTx p) -> descendant p x y -> y ∈ dom (mapTx p).
Proof.
  intros [_ Hcl] Hx Hxy. induction Hxy as [| x z y (l & Hl & Hz) _ IH]; [done |].
  apply IH. destruct (Hcl _ _ Hl) as [_ Hc]. by apply Hc.
Qed.

(** What one call of [PrioritiseTransaction] does to a pool that holds
    the transaction: the fee delta of the entry is the new total, the
    descendant fees of its ancestors and the ancestor fees of its
    descendants move by the amount. *)
Lemma PrioritiseTransaction_spec p hash nFeeDelta e0 A D :
  links_closed p ->
  entry_keys_ok p ->
  map_Forall (fun _ e => aggregates_in_range e) (mapTx p) ->
  mapTx p !! hash = Some e0 ->
  CalculateMemPoolAncestors p e0 NoLimits false = Some (true, A) ->
  CalculateDescendants p hash ∅ = Some D ->
  let delta := default 0 (mapDeltas p !! hash) + nFeeDelta in
  exists p',
    PrioritiseTransaction hash nFeeDelta p = Some p'
    /\ mapTx p' = map_at (D ∖ {[hash]}) (add_anc_fee nFeeDelta)
                    (map_at A (add_desc_fee nFeeDelta)
                       (map_at {[hash]} (UpdateFeeDelta delta) (mapTx p)))
    /\ mapLinks p' = mapLinks p
    /\ mapDeltas p' = <[hash := delta]> (mapDeltas p).
Proof.
  intros Hl Hk Hr He0 HA HD delta.
  assert (GetHash (tx e0) = hash) as Hh0 by (by apply (Hk _ _ He0)).
  assert (A ⊆ dom (mapTx p)) as HAdom.
  { destruct (CalculateMemPoolAncestors_nolimit p e0 Hl) as (A' & HA' & Hspec).
    { rewrite Hh0. apply elem_of_dom. eauto. }
    rewrite HA in HA'. simplify_eq. intros y Hy%Hspec. by eapply ancestors_in_pool. }
  assert (D ⊆ dom (mapTx p)) as HDdom.
  { destruct (CalculateDescendants_spec p hash ∅ Hl) as (D' & HD' & Hspec).
    { apply elem_of_dom. eauto. }
    { set_solver. }
    rewrite HD in HD'. simplify_eq. intros y [Hy | Hy]%Hspec; [set_solver |].
    eapply descendants_in_pool; [done | | done]. apply elem_of_dom. eauto. }
  unfold PrioritiseTransaction. fold delta. cbv zeta. cbn [mapTx with_mapDeltas].
  rewrite He0.
  set (pa := with_mapDeltas (<[hash := delta]> (mapDeltas p)) p).
  rewrite (modify_Some hash _ pa e0 (UpdateFeeDelta delta e0)) by done.
  cbn [mbind option_bind].
  set (m1 := <[hash := UpdateFeeDelta delta e0]> (mapTx pa)).
  assert (m1 = map_at {[hash]} (UpdateFeeDelta delta) (mapTx p)) as Hm1.
  { apply map_eq. intros h. unfold m1. rewrite lookup_map_at. simpl.
    destruct (decide (h = hash)) as [-> | Hne].
    - rewrite lookup_insert_eq, He0. simpl. by rewrite decide_True by set_solver.
    - rewrite lookup_insert_ne by done. destruct (mapTx p !! h); simpl; [| done].
      by rewrite decide_False by set_solver. }
  set (pb := with_mapTx m1 pa).
  assert (same_graph p pb) as Hgb.
  { split; [done |]. simpl. rewrite Hm1. apply dom_map_at. }
  assert (mapTx pb !! hash = Some (UpdateFeeDelta delta e0)) as Hb0
    by (simpl; unfold m1; apply lookup_insert_eq).
  rewrite Hb0. cbn [mbind option_bind].
  rewrite (CalculateMemPoolAncestors_frame p pb e0 (UpdateFeeDelta delta e0) Hgb) by done.
  rewrite HA. cbn [mbind option_bind snd].
  assert (map_Forall (fun _ e => aggregates_in_range e) m1) as Hr1.
  { rewrite Hm1. apply map_at_in_range; [| done]. by intros e (? & ? & ? & ? & ?). }
  rewrite (for_each_modify_pure _ (add_desc_fee nFeeDelta) A pb).
  2:{ intros h e _ He. apply UpdateDescendantState_fee. by apply (Hr1 _ _ He). }
  2:{ destruct Hgb as [_ ->]. done. }
  cbn [mbind option_bind].
  set (m2 := map_at A (add_desc_fee nFeeDelta) (mapTx pb)).
  set (pc := with_mapTx m2 pb).
  assert (same_graph p pc) as Hgc.
  { split; [done |]. simpl. unfold m2. rewrite dom_map_at. by destruct Hgb. }
  rewrite (CalculateDescendants_frame p pc hash ∅ Hgc), HD. cbn [mbind option_bind].
  assert (map_Forall (fun _ e => aggregates_in_range e) m2) as Hr2.
  { apply map_at_in_range; [| done]. by intros e (? & ? & ? & ? & ?). }
  rewrite (for_each_modify_pure _ (add_anc_fee nFeeDelta) (D ∖ {[hash]}) pc).
  2:{ intros h e _ He. apply UpdateAncestorState_fee. by apply (Hr2 _ _ He). }
  2:{ destruct Hgc as [_ ->]. set_solver. }
  cbn [mbind option_bind].
  eexists. split; [reflexivity |]. simpl. unfold m2. simpl. rewrite Hm1. done.
Qed.
End PrioritiseProps.

Lemma entry_eq (a b : CTxMemPoolEntry) :
  tx a = tx b -> nFee a = nFee b -> nTxWeight a = nTxWeight b ->
  nUsageSize a = nUsageSize b -> nTime a = nTime b ->
  entryHeight a = entryHeight b -> spendsCoinbase a = spendsCoinbase b ->
  sigOpCost a = sigOpCost b -> feeDelta a = feeDelta b ->
  lockPoints a = lockPoints b ->
  nCountWithDescendants a = nCountWithDescendants b ->
  nSizeWithDescendants a = nSizeWithDescendants b ->
  nModFeesWithDescendants a = nModFeesWithDescendants b ->
  nCountWithAncestors a = nCountWithAncestors b ->
  nSizeWithAncestors a = nSizeWithAncestors b ->
  nModFeesWithAncestors a = nModFeesWithAncestors b ->
  nSigOpCostWithAncestors a = nSigOpCostWithAncestors b ->
  vTxHashesIdx a = vTxHashesIdx b ->
  a = b.
Proof. destruct a, b; simpl; intros; subst; reflexivity. Qed.

Section PrioritiseRoundTrip.
Context `{Externals}.

(** C8, as the code has it. In a pool whose entry for [hash] carries the
    fee delta that [mapDeltas] records for it, prioritising by an amount
    and then by its opposite raises the modified fee of the entry by the
    amount in between and leaves every entry, and with it every fee
    aggregate of every ancestor and descendant, exactly as it was. *)
Theorem prioritise_then_deprioritise_restores (p : CTxMemPool) (hash : uint256)
    (nFeeDelta : Z) (e0 : CTxMemPoolEntry) :
  links_closed p ->
  entry_keys_ok p ->
  map_Forall (fun _ e => aggregates_in_range e) (mapTx p) ->
  mapTx p !! hash = Some e0 ->
  feeDelta e0 = default 0 (mapDeltas p !! hash) ->
  exists p1 p2,
    PrioritiseTransaction hash nFeeDelta p = Some p1
    /\ PrioritiseTransaction hash (- nFeeDelta) p1 = Some p2
    /\ modified_fee_of p1 hash = Some (GetModifiedFee e0 + nFeeDelta)
    /\ mapTx p2 = mapTx p.
Proof.
  intros Hl Hk Hr He0 Hd0.
  assert (GetHash (tx e0) = hash) as Hh0 by (by apply (Hk _ _ He0)).
  destruct (CalculateMemPoolAncestors_nolimit p e0 Hl) as (A & HA & _).
  { rewrite Hh0. apply elem_of_dom. eauto. }
  destruct (CalculateDescendants_spec p hash ∅ Hl) as (D & HD & _).
  { apply elem_of_dom. eauto. }
  { set_solver. }
  destruct (PrioritiseTransaction_spec p hash nFeeDelta e0 A D Hl Hk Hr He0 HA HD)
    as (p1 & Hp1 & Hm1 & Hl1 & Hd1).
  assert (same_graph p p1) as Hg1.
  { split; [done |]. rewrite Hm1, !dom_map_at. done. }
  assert (exists e1, mapTx p1 !! hash = Some e1 /\ GetHash (tx e1) = hash
                     /\ feeDelta e1 = feeDelta e0 + nFeeDelta
                     /\ nFee e1 = nFee e0) as (e1 & He1 & Hh1 & Hf1 & Hn1).
  { rewrite Hm1, !lookup_map_at, He0. simpl. eexists. split; [reflexivity |].
    destruct (decide (hash ∈ ({[hash]} : gset uint256))) as [_ | Hn]; [| set_solver].
    destruct (decide (hash ∈ A)), (decide (hash ∈ D ∖ {[hash]}));
      simpl; rewrite ?Hd0; done. }
  destruct (PrioritiseTransaction_spec p1 hash (- nFeeDelta) e1 A D) as (p2 & Hp2 & Hm2 & _).
  - by apply (same_graph_links_closed p).
  - unfold entry_keys_ok. rewrite Hm1. repeat (apply map_at_keys; [done |]). done.
  - rewrite Hm1. repeat (apply map_at_in_range; [by intros e (? & ? & ? & ? & ?) |]). done.
  - done.
  - rewrite <- HA. by apply CalculateMemPoolAncestors_frame; [| congruence].
  - rewrite <- HD. by apply CalculateDescendants_frame.
  - exists p1, p2. split; [done |]. split; [done |]. split.
    { unfold modified_fee_of. rewrite He1. simpl. unfold GetModifiedFee. rewrite Hf1, Hn1. f_equal. lia. }
    rewrite Hm2, Hm1, Hd1, lookup_insert_eq. cbn [default id].
    generalize dependent (default 0 (mapDeltas p !! hash)). intros f Hd0 _ _.
    apply map_eq. intros h. rewrite !lookup_map_at.
    destruct (mapTx p !! h) as [e |] eqn:He;
      cbn [fmap option_fmap option_map]; [| done]. f_equal.
    assert (h = hash -> feeDelta e = f) as Hfd
      by (intros ->; congruence).
    repeat case_decide; apply entry_eq; cbn; try reflexivity; try lia.
    all: assert (feeDelta e = f) by (apply Hfd; set_solver); lia.
Qed.
End PrioritiseRoundTrip.

(** The round trip of C8 on the middle transaction of a chain of three:
    its modified fee goes from 1000 to 1007 and back, and the entries of
    its parent and of its child are as they were. *)
Lemma prioritise_round_trip_witness :
  exists p1 p2,
    @PrioritiseTransaction demo_externals 2%N 7 chain_pool = Some p1
    /\ @PrioritiseTransaction demo_externals 2%N (- 7) p1 = Some p2
    /\ modified_fee_of p1 2%N = Some 1007
    /\ mapTx p2 = mapTx chain_pool.
Proof.
  match eval vm_compute in (mapTx chain_pool !! 2%N) with
  | Some ?e =>
      destruct (prioritise_then_deprioritise_restores (H := demo_externals)
                  chain_pool 2%N 7 e) as (p1 & p2 & H1 & H2 & H3 & H4)
  end.
  - apply (bool_decide_unpack _). by vm_compute.
  - apply (bool_decide_unpack _). by vm_compute.
  - apply (bool_decide_unpack _). by vm_compute.
  - by vm_compute.
  - by vm_compute.
  - exists p1, p2. split; [exact H1 |]. split; [exact H2 |].
    split; [exact H3 | exact H4].
Defined.

(** C8 does not hold of every transaction of the pool. A fee delta of 5
    is recorded for a transaction that is then added, so that its modified
    fee is 1005, and the prioritisation is cleared while the transaction
    is in the pool. Prioritising by 7 and then by -7 leaves the modified
    fee at 1000. *)
Lemma cleared_prioritisation_is_not_restored :
  (p ← cleared_pool;
   p1 ← @PrioritiseTransaction demo_externals 1%N 7 p;
   p2 ← @PrioritiseTransaction demo_externals 1%N (- 7) p1;
   Some (modified_fee_of p 1%N, modified_fee_of p2 1%N))
  = Some (Some 1005, Some 1000).
Proof. by vm_compute. Qed.

(** ** Removal of packages *)

(** A loop whose body cannot abort while an invariant of the elements
    visited so far holds runs to its end. *)
Lemma for_each_prefix {A S : Type} (P : list A -> S -> Prop)
    (body : A -> S -> option S) l :
  (forall l1 x l2 s, l = l1 ++ x :: l2 -> P l1 s ->
                     exists s', body x s = Some s' /\ P (l1 ++ [x]) s') ->
  forall s, P [] s -> exists s', for_each body l s = Some s' /\ P l s'.
Proof.
  intros Hbody.
  assert (forall l2 l1 s, l = l1 ++ l2 -> P l1 s ->
            exists s', for_each body l2 s = Some s' /\ P l s') as Hgen.
  { induction l2 as [| x l2 IH]; intros l1 s Hl Hs; simpl.
    - exists s. split; [done |]. by rewrite Hl, app_nil_r.
    - destruct (Hbody l1 x l2 s Hl Hs) as (s1 & Hx & Hs1). rewrite Hx. simpl.
      apply (IH (l1 ++ [x])); [| done]. by rewrite <- app_assoc. }
  intros s Hs. by apply (Hgen l []).
Qed.

Lemma sum_over_empty m f : sum_over m f ∅ = 0.
Proof. unfold sum_over. by rewrite elements_empty. Qed.

Lemma sum_over_singleton m f h : sum_over m f {[h]} = from_option f 0 (m !! h).
Proof. unfold sum_over. rewrite elements_singleton. simpl. lia. Qed.

Lemma sum_over_union m f (X Y : gset uint256) :
  X ## Y -> sum_over m f (X ∪ Y) = sum_over m f X + sum_over m f Y.
Proof.
  intros Hd. unfold sum_over.
  rewrite (foldr_sum_perm _ _ _ (elements_disj_union X Y Hd)).
  induction (elements X) as [| x l IH]; simpl; lia.
Qed.

Lemma sum_over_nonneg m f (s : gset uint256) :
  (forall h e, h ∈ s -> m !! h = Some e -> 0 <= f e) -> 0 <= sum_over m f s.
Proof.
  intros Hf. unfold sum_over.
  assert (forall h, h ∈ elements s -> 0 <= from_option f 0 (m !! h)) as Hl.
  { intros h Hh%elem_of_elements. destruct (m !! h) as [e |] eqn:He; simpl; [| lia].
    by eapply Hf. }
  induction (elements s) as [| x l IH]; simpl; [lia |].
  pose proof (Hl x ltac:(left)). 
  assert (0 <= foldr (fun h acc => from_option f 0 (m !! h) + acc) 0 l).
  { apply IH. intros h Hh. apply Hl. by right. }
  lia.
Qed.

Lemma sum_over_mono m f (X Y : gset uint256) :
  X ⊆ Y ->
  (forall h e, h ∈ Y -> m !! h = Some e -> 0 <= f e) ->
  sum_over m f X <= sum_over m f Y.
Proof.
  intros Hsub Hf.
  pose proof (sum_over_union m f X (Y ∖ X) ltac:(set_solver)) as Hu.
  rewrite <- (union_difference_L X Y Hsub) in Hu.
  assert (0 <= sum_over m f (Y ∖ X)); [| lia].
  apply sum_over_nonneg. intros h e Hh. apply Hf. set_solver.
Qed.

Lemma sum_over_ext m m' f g (s : gset uint256) :
  (forall h, h ∈ s -> from_option f 0 (m !! h) = from_option g 0 (m' !! h)) ->
  sum_over m f s = sum_over m' g s.
Proof.
  intros Hext. unfold sum_over.
  assert (forall h, h ∈ elements s ->
            from_option f 0 (m !! h) = from_option g 0 (m' !! h)) as Hl.
  { intros h Hh%elem_of_elements. by apply Hext. }
  induction (elements s) as [| x l IH]; simpl; [done |].
  rewrite (Hl x) by left. rewrite IH; [done |]. intros h Hh. apply Hl. by right.
Qed.

Lemma sizeZ_union (X Y : gset uint256) : X ## Y -> sizeZ (X ∪ Y) = sizeZ X + sizeZ Y.
Proof. intros Hd. unfold sizeZ. rewrite size_union by done. lia. Qed.

Lemma sizeZ_mono (X Y : gset uint256) : X ⊆ Y -> sizeZ X <= sizeZ Y.
Proof. intros Hs. unfold sizeZ. apply inj_le, subseteq_size, Hs. Qed.

Section Ancestry.
Context `{Externals}.

Lemma elem_of_ancestors_of p h y :
  links_closed p -> entry_keys_ok p -> h ∈ dom (mapTx p) ->
  y ∈ ancestors_of p h <-> ancestor p h y.
Proof.
  intros Hl Hk [e He]%elem_of_dom. unfold ancestors_of. rewrite He.
  pose proof (Hk _ _ He) as Hh. simpl in Hh.
  destruct (CalculateMemPoolAncestors_nolimit p e Hl) as (A & HA & Hspec).
  { rewrite Hh. apply elem_of_dom. eauto. }
  rewrite HA. simpl. by rewrite Hspec, Hh.
Qed.

Lemma elem_of_below p a s r : r ∈ below p a s <-> a ∈ ancestors_of p r /\ r ∈ s.
Proof. unfold below. by rewrite elem_of_filter. Qed.

Lemma below_union p a (X Y : gset uint256) : below p a (X ∪ Y) = below p a X ∪ below p a Y.
Proof. apply set_eq. intros r. rewrite elem_of_union, !elem_of_below. set_solver. Qed.

Lemma below_singleton p a r :
  below p a {[r]} = if decide (a ∈ ancestors_of p r) then {[r]} else ∅.
Proof.
  apply set_eq. intros x. rewrite elem_of_below.
  destruct (decide (a ∈ ancestors_of p r)); set_solver.
Qed.

Lemma below_subseteq p a (X Y : gset uint256) : X ⊆ Y -> below p a X ⊆ below p a Y.
Proof. intros Hs r. rewrite !elem_of_below. set_solver. Qed.
End Ancestry.

Lemma reduce_desc_0 e : reduce_desc 0 0 0 e = e.
Proof. destruct e. unfold reduce_desc, set_desc. simpl. f_equal; lia. Qed.

Lemma reduce_desc_reduce_desc s1 f1 c1 s2 f2 c2 e :
  reduce_desc s1 f1 c1 (reduce_desc s2 f2 c2 e) = reduce_desc (s1 + s2) (f1 + f2) (c1 + c2) e.
Proof. destruct e. unfold reduce_desc, set_desc. simpl. f_equal; lia. Qed.

Lemma with_cachedInnerUsage_id q : with_cachedInnerUsage (cachedInnerUsage q) q = q.
Proof. by destruct q. Qed.

Lemma TxLinks_eta l : mkLinks (parents l) (children l) = l.
Proof. by destruct l. Qed.

Section Unlinking.
Context `{Externals}.

(** [UpdateChild(entry, child, false)] on an entry that has links. *)
Lemma UpdateChild_remove entry child q l :
  mapLinks q !! entry = Some l ->
  exists u, UpdateChild entry child false q
            = with_cachedInnerUsage u
                (with_mapLinks (<[entry := mkLinks (parents l) (children l ∖ {[child]})]>
                                  (mapLinks q)) q).
Proof.
  intros Hl. unfold UpdateChild, links_at. rewrite Hl. cbn [default id].
  destruct (decide (child ∈ children l)) as [Hin | Hnin].
  - by exists (wrap64 (cachedInnerUsage q - IncrementalDynamicUsage)).
  - exists (cachedInnerUsage q).
    replace (children l ∖ {[child]}) with (children l) by set_solver.
    rewrite TxLinks_eta. by destruct q.
Qed.

(** The loop of [UpdateAncestorsOf] that takes an entry out of the
    children of its parents. *)
Lemma unlink_from_parents r l : forall q,
  (forall x, x ∈ l -> is_Some (mapLinks q !! x)) ->
  let q1 := foldl (fun q piter => UpdateChild piter r false q) q l in
  q1 = with_cachedInnerUsage (cachedInnerUsage q1) (with_mapLinks (mapLinks q1) q)
  /\ forall h, mapLinks q1 !! h
               = (fun lk => if decide (h ∈ l)
                            then mkLinks (parents lk) (children lk ∖ {[r]}) else lk)
                 <$> mapLinks q !! h.
Proof.
  induction l as [| x l IH]; intros q Hall; cbn [foldl].
  - split; [by destruct q |]. intros h.
    destruct (mapLinks q !! h); [| done]. cbn.
    destruct (decide (h ∈ [])) as [Hin | _]; [by apply elem_of_nil in Hin | done].
  - destruct (Hall x) as [lx Hlx]; [left |].
    destruct (UpdateChild_remove x r q lx Hlx) as (u & ->).
    match goal with |- context [foldl _ ?q0 l] => set (q' := q0) end.
    destruct (IH q') as (Hq1 & Hlk).
    { intros y Hy. subst q'. cbn.
      destruct (decide (y = x)) as [-> | Hne].
      - rewrite lookup_insert_eq. eauto.
      - rewrite lookup_insert_ne by done. apply Hall. by right. }
    split.
    + etrans; [exact Hq1 |]. subst q'. reflexivity.
    + intros h. rewrite Hlk. subst q'. cbn [mapLinks with_cachedInnerUsage with_mapLinks].
      destruct (decide (h = x)) as [-> | Hne].
      * rewrite lookup_insert_eq, Hlx. cbn [fmap option_fmap option_map].
        f_equal. destruct (decide (x ∈ x :: l)) as [_ | Hn]; [| by destruct Hn; left].
        destruct (decide (x ∈ l)); cbn [parents children]; [| done].
        f_equal. set_solver.
      * rewrite lookup_insert_ne by done.
        destruct (mapLinks q !! h) as [lh |]; [| done].
        cbn [fmap option_fmap option_map]. f_equal.
        destruct (decide (h ∈ l)) as [Hin | Hnin].
        -- destruct (decide (h ∈ x :: l)) as [_ | Hn]; [done | by destruct Hn; right].
        -- destruct (decide (h ∈ x :: l)) as [[? | ?]%elem_of_cons | _]; done.
Qed.
End Unlinking.

Lemma same_but_graph_refl p : same_but_graph p p.
Proof. by destruct p. Qed.

Lemma same_but_graph_trans p q r :
  same_but_graph p q -> same_but_graph q r -> same_but_graph p r.
Proof.
  unfold same_but_graph. destruct p, q, r. cbn.
  intros Hq Hr. injection Hq. injection Hr. intros. subst. reflexivity.
Qed.

Lemma same_but_graph_mapTx m p : same_but_graph p (with_mapTx m p).
Proof. by destruct p. Qed.

Lemma same_but_graph_links u l p :
  same_but_graph p (with_cachedInnerUsage u (with_mapLinks l p)).
Proof. by destruct p. Qed.

Section DetachedFacts.
Context `{Externals}.
Variable p : CTxMemPool.
Hypothesis Hwf : well_formed p.
Variables (L : gset uint256) (q : CTxMemPool).
Hypothesis Hd : detached p L q.

Lemma detached_dom_mapTx : dom (mapTx q) = dom (mapTx p).
Proof.
  destruct Hd as (_ & Htx & _). apply set_eq. intros h.
  rewrite !elem_of_dom, Htx, fmap_is_Some. done.
Qed.

Lemma detached_dom_mapLinks : dom (mapLinks q) = dom (mapLinks p).
Proof.
  destruct Hd as (_ & _ & Hlk). apply set_eq. intros h.
  rewrite !elem_of_dom, Hlk, fmap_is_Some. done.
Qed.

Lemma detached_links_closed : links_closed q.
Proof.
  destruct Hwf as ((Hdom & Hall) & _). destruct Hd as (_ & _ & Hlk).
  split.
  - by rewrite detached_dom_mapLinks, detached_dom_mapTx.
  - intros h l Hh. rewrite Hlk in Hh.
    destruct (mapLinks p !! h) as [l0 |] eqn:Hl0; [| done].
    cbn in Hh. injection Hh as <-. cbn [parents children].
    rewrite detached_dom_mapTx. destruct (Hall h l0 Hl0) as [Hp Hc].
    split; [done | set_solver].
Qed.

Lemma detached_entry_keys_ok : entry_keys_ok q.
Proof.
  destruct Hwf as (_ & _ & Hk & _). destruct Hd as (_ & Htx & _).
  intros h e He. rewrite Htx in He.
  destruct (mapTx p !! h) as [e0 |] eqn:He0; [| done].
  cbn in He. injection He as <-. by apply (Hk h e0).
Qed.

Lemma detached_parent_rel x y : parent_rel q x y <-> parent_rel p x y.
Proof.
  destruct Hd as (_ & _ & Hlk). unfold parent_rel. split.
  - intros (l & Hl & Hy). rewrite Hlk in Hl.
    destruct (mapLinks p !! x) as [l0 |]; [| done].
    cbn in Hl. injection Hl as <-. eauto.
  - intros (l & Hl & Hy). eexists. rewrite Hlk, Hl. split; [reflexivity | done].
Qed.

Lemma detached_ancestor x y : ancestor q x y <-> ancestor p x y.
Proof.
  unfold ancestor. split; induction 1 as [a b Hab | a b c Hab _ IH].
  - apply tc_once. by apply detached_parent_rel.
  - eapply tc_l; [| exact IH]. by apply detached_parent_rel.
  - apply tc_once. by apply detached_parent_rel.
  - eapply tc_l; [| exact IH]. by apply detached_parent_rel.
Qed.

Lemma detached_ancestors_of h : h ∈ dom (mapTx p) -> ancestors_of q h = ancestors_of p h.
Proof.
  intros Hh. destruct Hwf as (Hl & _ & Hk & _).
  apply set_eq. intros y.
  rewrite (elem_of_ancestors_of q h y detached_links_closed detached_entry_keys_ok)
    by (by rewrite detached_dom_mapTx).
  rewrite (elem_of_ancestors_of p h y Hl Hk Hh). apply detached_ancestor.
Qed.
End DetachedFacts.

Section Accounting.
Context `{Externals}.
Variable p : CTxMemPool.
Hypothesis Hwf : well_formed p.

Lemma below_insert_sum f h r er (L : gset uint256) :
  r ∉ L -> mapTx p !! r = Some er ->
  sum_over (mapTx p) f (below p h ({[r]} ∪ L))
  = (if decide (h ∈ ancestors_of p r) then f er else 0)
    + sum_over (mapTx p) f (below p h L).
Proof.
  intros Hr Her. rewrite below_union, sum_over_union.
  - f_equal. rewrite below_singleton.
    destruct (decide (h ∈ ancestors_of p r)).
    + by rewrite sum_over_singleton, Her.
    + apply sum_over_empty.
  - intros x [_ Hx]%elem_of_below [_ Hx']%elem_of_below. set_solver.
Qed.

Lemma below_insert_size h r (L : gset uint256) :
  r ∉ L ->
  sizeZ (below p h ({[r]} ∪ L))
  = (if decide (h ∈ ancestors_of p r) then 1 else 0) + sizeZ (below p h L).
Proof.
  intros Hr. rewrite below_union, sizeZ_union.
  - f_equal. rewrite below_singleton. unfold sizeZ.
    destruct (decide (h ∈ ancestors_of p r)).
    + by rewrite size_singleton.
    + by rewrite size_empty.
  - intros x [_ Hx]%elem_of_below [_ Hx']%elem_of_below. set_solver.
Qed.

(** What was taken off the descendant aggregates of an entry leaves room
    for the entry itself. *)
Lemma below_bound h e (L : gset uint256) :
  L ⊆ dom (mapTx p) -> mapTx p !! h = Some e ->
  0 <= sum_over (mapTx p) GetTxSize (below p h L)
  /\ 0 < nSizeWithDescendants e - sum_over (mapTx p) GetTxSize (below p h L) < 2 ^ 63
  /\ 0 <= sizeZ (below p h L)
  /\ 0 < nCountWithDescendants e - sizeZ (below p h L) < 2 ^ 63.
Proof.
  intros HL He. destruct Hwf as (_ & _ & _ & Hr & Hpos & Hacc).
  destruct (Hacc h e He) as [Hs Hc]. destruct (Hr h e He) as (Hs1 & Hc1 & _).
  pose proof (Hpos h e He) as Hp. cbn in Hp.
  assert (forall x ex, x ∈ dom (mapTx p) -> mapTx p !! x = Some ex -> 0 <= GetTxSize ex)
    as Hnn.
  { intros x ex _ Hx. pose proof (Hpos x ex Hx) as Hx'. cbn in Hx'. lia. }
  assert (0 <= sum_over (mapTx p) GetTxSize (below p h L)) as H0.
  { apply sum_over_nonneg. intros x ex [_ Hx]%elem_of_below. apply Hnn. by apply HL. }
  pose proof (sum_over_mono (mapTx p) GetTxSize _ _
                (below_subseteq p h L (dom (mapTx p)) HL)) as Hm.
  assert (sum_over (mapTx p) GetTxSize (below p h L)
          <= sum_over (mapTx p) GetTxSize (below p h (dom (mapTx p)))) as Hm'.
  { apply Hm. intros x ex [_ Hx]%elem_of_below. by apply Hnn. }
  pose proof (sizeZ_mono _ _ (below_subseteq p h L (dom (mapTx p)) HL)) as Hz.
  assert (0 <= sizeZ (below p h L)) by (unfold sizeZ; lia).
  lia.
Qed.
End Accounting.

Lemma UpdateDescendantState_remove s f e :
  0 < nSizeWithDescendants e - s < 2 ^ 63 ->
  0 < nCountWithDescendants e - 1 < 2 ^ 63 ->
  UpdateDescendantState (-1 * s) (-1 * f) (-1) e = Some (reduce_desc s f 1 e).
Proof.
  intros Hs Hc. unfold UpdateDescendantState, reduce_desc.
  replace (nSizeWithDescendants e + -1 * s) with (nSizeWithDescendants e - s) by lia.
  replace (nCountWithDescendants e + -1) with (nCountWithDescendants e - 1) by lia.
  replace (nModFeesWithDescendants e + -1 * f) with (nModFeesWithDescendants e - f) by lia.
  rewrite !wrap64_small by lia. rewrite !int64_of_small by lia.
  destruct (0 <? nSizeWithDescendants e - s) eqn:E1; [| apply Z.ltb_ge in E1; lia].
  destruct (0 <? nCountWithDescendants e - 1) eqn:E2; [| apply Z.ltb_ge in E2; lia].
  done.
Qed.

Section DetachStep.
Context `{Externals}.
Variable p : CTxMemPool.
Hypothesis Hwf : well_formed p.

(** One pass of the first loop of [UpdateForRemoveFromMempool]. *)
Lemma detach_step (L : gset uint256) q r :
  detached p L q -> L ⊆ dom (mapTx p) -> r ∈ dom (mapTx p) -> r ∉ L ->
  exists q',
    (entry ← mapTx q !! r;
     res ← CalculateMemPoolAncestors q entry NoLimits false;
     UpdateAncestorsOf false r (snd res) q) = Some q'
    /\ detached p ({[r]} ∪ L) q'.
Proof.
  intros Hd HL Hr HrL.
  pose proof (detached_links_closed p Hwf L q Hd) as Hlq.
  pose proof (detached_entry_keys_ok p Hwf L q Hd) as Hkq.
  pose proof (detached_dom_mapTx p L q Hd) as Hdomq.
  pose proof (detached_ancestors_of p Hwf L q Hd r Hr) as Hanc.
  pose proof Hwf as (Hl & Hsym & Hk & Hrange & Hpos & Hacc).
  destruct Hd as (Hq & Htx & Hlk).
  apply elem_of_dom in Hr as [er Her].
  assert (exists er', mapTx q !! r = Some er' /\ GetTxSize er' = GetTxSize er
                      /\ GetModifiedFee er' = GetModifiedFee er) as (er' & Her' & Hsz & Hfee).
  { eexists. rewrite Htx, Her. split; [reflexivity |]. by destruct er. }
  rewrite Her'. cbn [mbind option_bind].
  pose proof (Hkq _ _ Her') as Hhr. cbn in Hhr.
  destruct (CalculateMemPoolAncestors_nolimit q er' Hlq) as (A & HA & HAspec).
  { rewrite Hhr, Hdomq. apply elem_of_dom. eauto. }
  assert (A = ancestors_of p r) as ->.
  { rewrite <- Hanc. unfold ancestors_of. by rewrite Her', HA. }
  rewrite HA. cbn [mbind option_bind snd].
  assert (exists lr, mapLinks p !! r = Some lr) as [lr Hlr].
  { apply elem_of_dom. destruct Hl as [-> _]. apply elem_of_dom. eauto. }
  unfold UpdateAncestorsOf, GetMemPoolParents.
  rewrite Her', Hlk, Hlr. cbn [mbind option_bind fmap option_fmap option_map parents].
  destruct (unlink_from_parents r (ordered (parents lr)) q) as (Hq1 & Hlk1).
  { intros x Hx%elem_of_ordered. rewrite Hlk.
    destruct Hl as [Hdom Hall]. destruct (Hall r lr Hlr) as [Hp _].
    apply Hp in Hx. rewrite <- Hdom in Hx. apply elem_of_dom in Hx as [lx ->]. cbn. eauto. }
  set (q1 := foldl (fun q piter => UpdateChild piter r false q) q (ordered (parents lr))) in *.
  assert (mapTx q1 = mapTx q) as Htx1 by (by rewrite Hq1).
  rewrite Htx1, Her'. cbn [mbind option_bind]. rewrite Hsz, Hfee.
  assert (ancestors_of p r ⊆ dom (mapTx p)) as HAdom.
  { intros y Hy. apply (elem_of_ancestors_of p r y Hl Hk) in Hy; [| apply elem_of_dom; eauto].
    by eapply ancestors_in_pool. }
  rewrite (for_each_modify_pure _ (reduce_desc (GetTxSize er) (GetModifiedFee er) 1)).
  - eexists. split; [reflexivity |]. split; [| split].
    + eapply same_but_graph_trans; [exact Hq |].
      eapply same_but_graph_trans; [| apply same_but_graph_mapTx].
      rewrite Hq1. apply same_but_graph_links.
    + intros h. cbn [mapTx with_mapTx]. rewrite lookup_map_at, Htx1, Htx.
      destruct (mapTx p !! h) as [e |] eqn:He; [| done].
      cbn [fmap option_fmap option_map]. f_equal.
      rewrite !(below_insert_sum p Hwf _ h r er L HrL Her), (below_insert_size p Hwf h r L HrL).
      destruct (decide (h ∈ ancestors_of p r)).
      * by rewrite reduce_desc_reduce_desc.
      * done.
    + intros h. cbn [mapLinks with_mapTx]. rewrite Hlk1, Hlk.
      destruct (mapLinks p !! h) as [lh |] eqn:Hlh; [| done].
      cbn [fmap option_fmap option_map parents children]. f_equal.
      destruct (decide (h ∈ ordered (parents lr))) as [Hin | Hnin];
        cbn [parents children]; f_equal; [set_solver |].
      assert (r ∉ children lh); [| set_solver].
      intros Hc. apply Hnin, elem_of_ordered.
      destruct (Hsym h lh Hlh) as [Hs1 _]. specialize (Hs1 r Hc). cbn in Hs1.
      unfold links_at in Hs1. by rewrite Hlr in Hs1.
  - intros h e Hh He. rewrite Htx1, Htx in He.
    destruct (mapTx p !! h) as [e0 |] eqn:He0; [| done].
    cbn in He. injection He as <-.
    assert ({[r]} ∪ L ⊆ dom (mapTx p)) as HL'.
    { intros x [->%elem_of_singleton | Hx]%elem_of_union; [apply elem_of_dom; eauto | by apply HL]. }
    pose proof (below_bound p Hwf h e0 _ HL' He0) as (Hb1 & Hb2 & Hb3 & Hb4).
    rewrite (below_insert_sum p Hwf _ h r er L HrL Her) in Hb1, Hb2.
    rewrite (below_insert_size p Hwf h r L HrL) in Hb3, Hb4.
    rewrite decide_True in Hb1, Hb2, Hb3, Hb4 by done.
    apply UpdateDescendantState_remove; destruct e0; cbn in *; lia.
  - by rewrite Htx1, Hdomq.
Qed.
End DetachStep.

Section DetachAll.
Context `{Externals}.
Variable p : CTxMemPool.
Hypothesis Hwf : well_formed p.

Lemma detached_nothing : detached p ∅ p.
Proof.
  split; [apply same_but_graph_refl |]. split.
  - intros h. destruct (mapTx p !! h) as [e |]; [| done]. cbn. f_equal.
    replace (below p h ∅) with (∅ : gset uint256)
      by (symmetry; apply set_eq; intros x; rewrite elem_of_below; set_solver).
    rewrite !sum_over_empty. symmetry. apply reduce_desc_0.
  - intros h. destruct (mapLinks p !! h) as [l |]; [| done]. cbn. f_equal.
    replace (children l ∖ ∅) with (children l) by set_solver.
    symmetry. apply TxLinks_eta.
Qed.

(** The first loop of [UpdateForRemoveFromMempool] runs to its end. *)
Lemma detach_all (R : gset uint256) :
  R ⊆ dom (mapTx p) ->
  exists q,
    for_each (fun removeIt q =>
                entry ← mapTx q !! removeIt;
                r ← CalculateMemPoolAncestors q entry NoLimits false;
                UpdateAncestorsOf false removeIt (snd r) q)
             (ordered R) p = Some q
    /\ detached p R q.
Proof.
  intros HR.
  destruct (for_each_prefix
              (fun l1 q => detached p (list_to_set l1) q)
              (fun removeIt q =>
                 entry ← mapTx q !! removeIt;
                 r ← CalculateMemPoolAncestors q entry NoLimits false;
                 UpdateAncestorsOf false removeIt (snd r) q)
              (ordered R)) with (s := p) as (q & Hrun & Hq).
  - intros l1 x l2 q Hsplit Hd.
    pose proof (NoDup_ordered R) as Hnd. rewrite Hsplit in Hnd.
    apply NoDup_app in Hnd as (_ & Hx & _).
    assert (forall y, y ∈ l1 ++ x :: l2 -> y ∈ dom (mapTx p)) as Hin.
    { intros y Hy. rewrite <- Hsplit in Hy. by apply HR, elem_of_ordered. }
    destruct (detach_step p Hwf (list_to_set l1) q x Hd) as (q' & Hq' & Hd').
    + intros y Hy%elem_of_list_to_set. apply Hin. apply elem_of_app. by left.
    + apply Hin. apply elem_of_app. right. left.
    + intros Hy%elem_of_list_to_set. apply (Hx x Hy). left.
    + exists q'. split; [exact Hq' |].
      replace (list_to_set (l1 ++ [x]) : gset uint256) with ({[x]} ∪ list_to_set l1 : gset uint256);
        [done |].
      apply set_eq. intros y. rewrite list_to_set_app. set_solver.
  - apply detached_nothing.
  - exists q. split; [done |]. by rewrite list_to_set_ordered in Hq.
Qed.

(** Once the entries of a set that is closed under child links are
    detached, none of them has a child left, and
    [UpdateChildrenForRemoval] finds nothing to do. *)
Lemma UpdateChildrenForRemoval_nothing (R : gset uint256) q l :
  detached p R q ->
  (forall r lr, r ∈ R -> mapLinks p !! r = Some lr -> children lr ⊆ R) ->
  (forall r, r ∈ l -> r ∈ R) -> R ⊆ dom (mapTx p) ->
  for_each UpdateChildrenForRemoval l q = Some q.
Proof.
  intros Hd Hclosed Hl HR. pose proof (detached_dom_mapTx p R q Hd) as Hdom.
  pose proof Hwf as ((Hdl & _) & _). destruct Hd as (_ & _ & Hlk).
  induction l as [| r l IH]; [done |]. cbn [for_each].
  assert (r ∈ R) as Hr by (apply Hl; left).
  assert (UpdateChildrenForRemoval r q = Some q) as ->.
  { unfold UpdateChildrenForRemoval, GetMemPoolChildren.
    pose proof (HR r Hr) as Hin. rewrite <- Hdom in Hin. apply elem_of_dom in Hin as [e ->].
    pose proof (HR r Hr) as Hin. rewrite <- Hdl in Hin. apply elem_of_dom in Hin as [lr Hlr].
    rewrite Hlk, Hlr. cbn.
    replace (children lr ∖ R) with (∅ : gset uint256).
    - by rewrite ordered_empty.
    - pose proof (Hclosed r lr Hr Hlr). set_solver. }
  cbn. apply IH. intros y Hy. apply Hl. by right.
Qed.
End DetachAll.

Lemma forget_idx_set_vTxHashesIdx i e : forget_idx (set_vTxHashesIdx i e) = forget_idx e.
Proof. by destruct e. Qed.

Lemma forget_idx_alter i k (m : gmap uint256 CTxMemPoolEntry) h :
  forget_idx <$> alter (set_vTxHashesIdx i) k m !! h = forget_idx <$> m !! h.
Proof.
  destruct (decide (h = k)) as [-> | Hne].
  - rewrite lookup_alter_eq. destruct (m !! k); [| done]. cbn.
    by rewrite forget_idx_set_vTxHashesIdx.
  - by rewrite lookup_alter_ne.
Qed.

Section Erasing.
Context `{Externals}.

Lemma unindex_inputs_only ins : forall q,
  unindex_inputs ins q = with_mapNextTx (mapNextTx (unindex_inputs ins q)) q.
Proof.
  unfold unindex_inputs. induction ins as [| x ins IH]; intros q; cbn [foldl].
  - by destruct q.
  - rewrite IH at 1. by destruct q.
Qed.

Lemma unregister_hash_only idx q :
  exists v m, unregister_hash idx q = with_vTxHashes v (with_mapTx m q)
              /\ forall h, forget_idx <$> m !! h = forget_idx <$> mapTx q !! h.
Proof.
  unfold unregister_hash. destruct (1 <? length (vTxHashes q))%nat.
  - destruct (last (vTxHashes q)) as [back |].
    + eexists _, _. split; [reflexivity |]. intros h. apply forget_idx_alter.
    + exists (vTxHashes q), (mapTx q). split; [by destruct q | done].
  - exists [], (mapTx q). split; [by destruct q | done].
Qed.

(** [removeUnchecked] on an entry of the pool. *)
Lemma removeUnchecked_spec r reason q e :
  mapTx q !! r = Some e -> GetHash (tx e) = r ->
  exists q', removeUnchecked r reason q = Some q' /\ erased reason q [r] q'.
Proof.
  intros He Hh. unfold removeUnchecked. rewrite He. cbn [mbind option_bind]. rewrite Hh.
  eexists. split; [reflexivity |].
  rewrite unindex_inputs_only.
  match goal with |- context [unregister_hash ?i ?q0] =>
    destruct (unregister_hash_only i q0) as (v & m & -> & Hm) end.
  cbn [mapTx with_mapNextTx emit] in Hm.
  set (nx := mapNextTx _). clearbody nx.
  unfold erase_entry. cbv zeta.
  match goal with |- erased _ _ _ (if ?b then _ else _) =>
    change b with (minerPolicyEstimator q) end.
  assert (forall h : uint256, (if decide (h ∈ [r]) then true else false) = bool_decide (h = r)) as Hdec.
  { intros h. destruct (decide (h ∈ [r])) as [Hin | Hnin].
    - apply list_elem_of_singleton in Hin. by rewrite bool_decide_eq_true_2.
    - rewrite bool_decide_eq_false_2; [done |]. intros ->. apply Hnin. left. }
  destruct (minerPolicyEstimator q) eqn:Hest.
  - repeat split; try reflexivity; try (cbn; by rewrite ?Hest).
    + intros h. cbn [mapTx with_mapTx emit with_nTransactionsUpdated with_mapLinks
                     with_cachedInnerUsage with_totalTxSize with_vTxHashes with_mapNextTx].
      pose proof (Hdec h) as Hd. destruct (decide (h ∈ [r])); case_bool_decide; try done.
      * subst. by rewrite lookup_delete_eq.
      * rewrite lookup_delete_ne by done. apply Hm.
    + intros h. cbn [mapLinks with_mapTx emit with_nTransactionsUpdated with_mapLinks
                     with_cachedInnerUsage with_totalTxSize with_vTxHashes with_mapNextTx].
      pose proof (Hdec h) as Hd. destruct (decide (h ∈ [r])); case_bool_decide; try done.
      * subst. by rewrite lookup_delete_eq.
      * by rewrite lookup_delete_ne.
    + cbn. by rewrite Hest, <- app_assoc.
  - repeat split; try reflexivity; try (cbn; by rewrite ?Hest).
    + intros h. cbn [mapTx with_mapTx emit with_nTransactionsUpdated with_mapLinks
                     with_cachedInnerUsage with_totalTxSize with_vTxHashes with_mapNextTx].
      pose proof (Hdec h) as Hd. destruct (decide (h ∈ [r])); case_bool_decide; try done.
      * subst. by rewrite lookup_delete_eq.
      * rewrite lookup_delete_ne by done. apply Hm.
    + intros h. cbn [mapLinks with_mapTx emit with_nTransactionsUpdated with_mapLinks
                     with_cachedInnerUsage with_totalTxSize with_vTxHashes with_mapNextTx].
      pose proof (Hdec h) as Hd. destruct (decide (h ∈ [r])); case_bool_decide; try done.
      * subst. by rewrite lookup_delete_eq.
      * by rewrite lookup_delete_ne.
Qed.
End Erasing.

Lemma forget_idx_tx e e' : forget_idx e = forget_idx e' -> tx e = tx e'.
Proof. intros Heq. apply (f_equal tx) in Heq. by destruct e, e'. Qed.

Lemma erased_nil reason q : erased reason q [] q.
Proof.
  split; [| split].
  - intros h. destruct (decide (h ∈ [])) as [Hin | _]; [by apply elem_of_nil in Hin | done].
  - intros h. destruct (decide (h ∈ [])) as [Hin | _]; [by apply elem_of_nil in Hin | done].
  - repeat split. cbn. by rewrite app_nil_r.
Qed.

Lemma erased_snoc reason q l1 x s s' :
  erased reason q l1 s -> erased reason s [x] s' -> erased reason q (l1 ++ [x]) s'.
Proof.
  intros (Ht & Hl & Hd & Hr1 & Hr2 & Hr3 & He & Hs) (Ht' & Hl' & Hd' & Hr1' & Hr2' & Hr3' & He' & Hs').
  assert (forall h : uint256, h ∈ l1 ++ [x] <-> h ∈ [x] \/ h ∈ l1) as Hin.
  { intros h. rewrite elem_of_app. tauto. }
  split; [| split].
  - intros h. rewrite Ht'. specialize (Hin h).
    destruct (decide (h ∈ [x])), (decide (h ∈ l1 ++ [x])); try tauto.
    + rewrite Ht. destruct (decide (h ∈ l1)); tauto.
    + rewrite Ht. destruct (decide (h ∈ l1)); tauto.
  - intros h. rewrite Hl'. specialize (Hin h).
    destruct (decide (h ∈ [x])), (decide (h ∈ l1 ++ [x])); try tauto.
    + rewrite Hl. destruct (decide (h ∈ l1)); tauto.
    + rewrite Hl. destruct (decide (h ∈ l1)); tauto.
  - repeat split; try congruence.
    rewrite Hs', Hs, He, flat_map_app, app_assoc. done.
Qed.

Section EraseAll.
Context `{Externals}.

(** The loop of [RemoveStaged] over [removeUnchecked] runs to its end. *)
Lemma erase_all reason q l :
  NoDup l -> (forall x, x ∈ l -> x ∈ dom (mapTx q)) -> entry_keys_ok q ->
  exists q', for_each (fun it q => removeUnchecked it reason q) l q = Some q'
             /\ erased reason q l q'.
Proof.
  intros Hnd Hin Hk.
  apply (for_each_prefix (fun l1 s => erased reason q l1 s)); [| apply erased_nil].
  intros l1 x l2 s Hsplit Hs.
  rewrite Hsplit in Hnd. apply NoDup_app in Hnd as (_ & Hx & _).
  assert (x ∈ dom (mapTx q)) as [e He]%elem_of_dom.
  { apply Hin. rewrite Hsplit. apply elem_of_app. right. left. }
  pose proof Hs as (Ht & _).
  specialize (Ht x). rewrite He in Ht.
  destruct (decide (x ∈ l1)) as [Hx1 | _]; [exfalso; apply (Hx x Hx1); left |].
  destruct (mapTx s !! x) as [e' |] eqn:He'; [| done].
  cbn [fmap option_fmap option_map] in Ht. apply (inj Some) in Ht.
  apply forget_idx_tx in Ht.
  destruct (removeUnchecked_spec x reason s e' He') as (s' & Hrun & Hs').
  { rewrite Ht. by apply (Hk x e). }
  exists s'. split; [done |]. by eapply erased_snoc.
Qed.
End EraseAll.

Lemma same_but_graph_fields p q :
  same_but_graph p q ->
  mapNextTx q = mapNextTx p /\ mapDeltas q = mapDeltas p
  /\ rollingMinimumFeeRate q = rollingMinimumFeeRate p
  /\ lastRollingFeeUpdate q = lastRollingFeeUpdate p
  /\ blockSinceLastRollingFeeBump q = blockSinceLastRollingFeeBump p
  /\ minerPolicyEstimator q = minerPolicyEstimator p
  /\ signals q = signals p.
Proof. intros Hq. rewrite Hq. by destruct p. Qed.

Section RemoveStagedSpec.
Context `{Externals}.
Variable p : CTxMemPool.
Hypothesis Hwf : well_formed p.

Lemma removed_from_intro reason (R : gset uint256) q q' :
  detached p R q -> erased reason q (ordered R) q' -> removed_from reason p R q'.
Proof.
  intros (Hq & Htx & Hlk) (Ht & Hl & Hd & Hr1 & Hr2 & Hr3 & He & Hs).
  destruct (same_but_graph_fields p q Hq) as (_ & Hd0 & Hr10 & Hr20 & Hr30 & He0 & Hs0).
  assert (forall h : uint256, h ∈ ordered R <-> h ∈ R) as Hin by (intros; apply elem_of_ordered).
  split; [| split].
  - intros h. rewrite Ht, Htx. specialize (Hin h).
    destruct (decide (h ∈ ordered R)), (decide (h ∈ R)); tauto.
  - intros h. rewrite Hl, Hlk. specialize (Hin h).
    destruct (decide (h ∈ ordered R)), (decide (h ∈ R)); tauto.
  - repeat split; try congruence.
Qed.

(** [RemoveStaged] of a set of entries that holds the children of its
    members, without the update of the descendants: it returns, and the
    pool it leaves is the pool without the set. *)
Lemma RemoveStaged_spec reason (R : gset uint256) :
  R ⊆ dom (mapTx p) -> closed_under_children p R ->
  exists p', RemoveStaged R false reason p = Some p' /\ removed_from reason p R p'
             /\ rollingMinimumFeeRate p' = rollingMinimumFeeRate p
             /\ lastRollingFeeUpdate p' = lastRollingFeeUpdate p
             /\ blockSinceLastRollingFeeBump p' = blockSinceLastRollingFeeBump p.
Proof.
  intros HR Hclosed. unfold RemoveStaged, UpdateForRemoveFromMempool.
  cbn [mbind option_bind].
  destruct (detach_all p Hwf R HR) as (q & Hq & Hd). rewrite Hq. cbn [mbind option_bind].
  rewrite (UpdateChildrenForRemoval_nothing p Hwf R q (ordered R) Hd Hclosed)
    by (done || by intros r Hr%elem_of_ordered).
  cbn [mbind option_bind].
  destruct (erase_all reason q (ordered R)) as (q' & Hq' & He).
  - apply NoDup_ordered.
  - intros x Hx%elem_of_ordered. rewrite (detached_dom_mapTx p R q Hd). by apply HR.
  - by apply (detached_entry_keys_ok p Hwf R q).
  - exists q'. split; [done |]. split; [by eapply removed_from_intro |].
    destruct Hd as (Hsame & _). destruct He as (_ & _ & _ & Hr1 & Hr2 & Hr3 & _).
    destruct (same_but_graph_fields p q Hsame) as (_ & _ & Hr10 & Hr20 & Hr30 & _).
    repeat split; congruence.
Qed.
End RemoveStagedSpec.

Lemma forget_idx_eq e e' :
  forget_idx e' = forget_idx e -> e' = set_vTxHashesIdx (vTxHashesIdx e') e.
Proof.
  destruct e, e'. unfold forget_idx, set_vTxHashesIdx. cbn.
  intros Heq. injection Heq. intros. subst. reflexivity.
Qed.

Section Survivors.
Context `{Externals}.
Variables (p : CTxMemPool) (reason : MemPoolRemovalReason) (R : gset uint256)
          (p' : CTxMemPool).
Hypothesis Hwf : well_formed p.
Hypothesis HR : R ⊆ dom (mapTx p).
Hypothesis Hclosed : closed_under_children p R.
Hypothesis Hrem : removed_from reason p R p'.

Lemma survivor_entry h e' :
  mapTx p' !! h = Some e' ->
  (h ∉ R) /\ exists e, mapTx p !! h = Some e
                     /\ e' = set_vTxHashesIdx (vTxHashesIdx e')
                               (reduce_desc (sum_over (mapTx p) GetTxSize (below p h R))
                                            (sum_over (mapTx p) GetModifiedFee (below p h R))
                                            (sizeZ (below p h R)) e).
Proof.
  intros He'. destruct Hrem as (Ht & _). specialize (Ht h). rewrite He' in Ht.
  destruct (decide (h ∈ R)); [done |]. split; [done |].
  destruct (mapTx p !! h) as [e |]; [| done]. exists e. split; [done |].
  cbn [fmap option_fmap option_map] in Ht. apply (inj Some) in Ht.
  by apply forget_idx_eq.
Qed.

Lemma entry_survives h e :
  h ∉ R -> mapTx p !! h = Some e ->
  exists e', mapTx p' !! h = Some e'
             /\ e' = set_vTxHashesIdx (vTxHashesIdx e')
                       (reduce_desc (sum_over (mapTx p) GetTxSize (below p h R))
                                    (sum_over (mapTx p) GetModifiedFee (below p h R))
                                    (sizeZ (below p h R)) e).
Proof.
  intros Hh He. destruct Hrem as (Ht & _). specialize (Ht h). rewrite He in Ht.
  destruct (decide (h ∈ R)); [done |].
  destruct (mapTx p' !! h) as [e' |]; [| done]. exists e'. split; [done |].
  cbn [fmap option_fmap option_map] in Ht. apply (inj Some) in Ht.
  by apply forget_idx_eq.
Qed.

Lemma removed_dom : dom (mapTx p') = dom (mapTx p) ∖ R.
Proof.
  apply set_eq. intros h. rewrite elem_of_difference, !elem_of_dom. split.
  - intros [e' He']. destruct (survivor_entry h e' He') as (Hh & e & He & _). eauto.
  - intros [[e He] Hh]. destruct (entry_survives h e Hh He) as (e' & He' & _). eauto.
Qed.

Lemma survivor_links h l' :
  mapLinks p' !! h = Some l' ->
  (h ∉ R) /\ exists l, mapLinks p !! h = Some l
                     /\ l' = mkLinks (parents l) (children l ∖ R).
Proof.
  intros Hl'. destruct Hrem as (_ & Hl & _). specialize (Hl h). rewrite Hl' in Hl.
  destruct (decide (h ∈ R)); [done |]. split; [done |].
  destruct (mapLinks p !! h) as [l |]; [| done]. exists l. split; [done |].
  cbn in Hl. by injection Hl.
Qed.

Lemma links_survive h l :
  h ∉ R -> mapLinks p !! h = Some l ->
  mapLinks p' !! h = Some (mkLinks (parents l) (children l ∖ R)).
Proof.
  intros Hh Hl. destruct Hrem as (_ & Hlk & _). rewrite Hlk, Hl.
  by destruct (decide (h ∈ R)).
Qed.

Lemma removed_dom_links : dom (mapLinks p') = dom (mapLinks p) ∖ R.
Proof.
  apply set_eq. intros h. rewrite elem_of_difference, !elem_of_dom. split.
  - intros [l' Hl']. destruct (survivor_links h l' Hl') as (Hh & l & Hl & _). eauto.
  - intros [[l Hl] Hh]. rewrite (links_survive h l Hh Hl). eauto.
Qed.

(** The parents of an entry that stays stay. *)
Lemma parents_survive h l b :
  h ∉ R -> mapLinks p !! h = Some l -> b ∈ parents l -> b ∉ R.
Proof.
  intros Hh Hl Hb HbR.
  pose proof Hwf as ((Hdom & _) & Hsym & _).
  destruct (Hsym h l Hl) as [_ Hs]. specialize (Hs b Hb). cbn in Hs.
  pose proof (HR b HbR) as Hin. rewrite <- Hdom in Hin. apply elem_of_dom in Hin as [lb Hlb].
  unfold links_at in Hs. rewrite Hlb in Hs. cbn in Hs.
  apply Hh. by apply (Hclosed b lb HbR Hlb).
Qed.

Lemma removed_links_closed : links_closed p'.
Proof.
  pose proof Hwf as ((Hdom & Hall) & _). split.
  - by rewrite removed_dom, removed_dom_links, Hdom.
  - intros h l' Hl'. destruct (survivor_links h l' Hl') as (Hh & l & Hl & ->).
    cbn [parents children]. rewrite removed_dom. destruct (Hall h l Hl) as [Hp Hc].
    split.
    + intros b Hb. apply elem_of_difference. split; [by apply Hp |].
      by eapply parents_survive.
    + set_solver.
Qed.

Lemma removed_links_symmetric : links_symmetric p'.
Proof.
  pose proof Hwf as ((Hdom & Hall) & Hsym & _).
  intros h l' Hl'. destruct (survivor_links h l' Hl') as (Hh & l & Hl & ->).
  cbn [parents children]. destruct (Hsym h l Hl) as [Hs1 Hs2]. split.
  - intros c [Hc HcR]%elem_of_difference. specialize (Hs1 c Hc). cbn in Hs1. cbn.
    unfold links_at in *. destruct (mapLinks p !! c) as [lc |] eqn:Hlc; [| set_solver].
    by rewrite (links_survive c lc HcR Hlc).
  - intros b Hb. specialize (Hs2 b Hb). cbn in Hs2. cbn.
    pose proof (parents_survive h l b Hh Hl Hb) as HbR.
    unfold links_at in *. destruct (mapLinks p !! b) as [lb |] eqn:Hlb; [| set_solver].
    rewrite (links_survive b lb HbR Hlb). cbn in *. set_solver.
Qed.

Lemma removed_entry_keys_ok : entry_keys_ok p'.
Proof.
  pose proof Hwf as (_ & _ & Hk & _).
  intros h e' He'. destruct (survivor_entry h e' He') as (_ & e & He & ->).
  cbn. by apply (Hk h e).
Qed.

Lemma removed_parent_rel x y : parent_rel p' x y -> parent_rel p x y.
Proof.
  intros (l' & Hl' & Hy). destruct (survivor_links x l' Hl') as (_ & l & Hl & ->).
  exists l. by split.
Qed.

Lemma removed_ancestor x y : ancestor p' x y -> ancestor p x y.
Proof.
  unfold ancestor. induction 1 as [a b Hab | a b c Hab _ IH].
  - apply tc_once. by apply removed_parent_rel.
  - eapply tc_l; [| exact IH]. by apply removed_parent_rel.
Qed.

Lemma removed_below a : below p' a (dom (mapTx p')) ⊆ below p a (dom (mapTx p) ∖ R).
Proof.
  pose proof Hwf as (Hl & _ & Hk & _).
  intros r [Ha Hr]%elem_of_below. apply elem_of_below.
  rewrite removed_dom in Hr. split; [| done].
  apply (elem_of_ancestors_of p r a Hl Hk); [set_solver |].
  apply removed_ancestor.
  apply (elem_of_ancestors_of p' r a removed_links_closed removed_entry_keys_ok);
    [by rewrite removed_dom | done].
Qed.

Lemma removed_in_range : map_Forall (fun _ e => aggregates_in_range e) (mapTx p').
Proof.
  pose proof Hwf as (_ & _ & _ & Hr & _).
  intros h e' He'. destruct (survivor_entry h e' He') as (_ & e & He & ->).
  destruct (Hr h e He) as (_ & _ & Ha).
  pose proof (below_bound p Hwf h e R HR He) as (_ & Hs & _ & Hc).
  split; [exact Hs |]. split; [exact Hc |]. exact Ha.
Qed.

Lemma removed_sizes_positive : sizes_positive p'.
Proof.
  pose proof Hwf as (_ & _ & _ & _ & Hpos & _).
  intros h e' He'. destruct (survivor_entry h e' He') as (_ & e & He & ->).
  apply (Hpos h e He).
Qed.

Lemma removed_packages_accounted : packages_accounted p'.
Proof.
  pose proof Hwf as (_ & _ & _ & _ & Hpos & Hacc).
  intros h e' He'. destruct (survivor_entry h e' He') as (Hh & e & He & ->).
  destruct (Hacc h e He) as [Hs Hc].
  change (GetTxSize e
          + sum_over (mapTx p') GetTxSize (below p' h (dom (mapTx p')))
          <= nSizeWithDescendants e - sum_over (mapTx p) GetTxSize (below p h R)
          /\ 1 + sizeZ (below p' h (dom (mapTx p')))
             <= nCountWithDescendants e - sizeZ (below p h R)).
  assert (below p h (dom (mapTx p)) = below p h R ∪ below p h (dom (mapTx p) ∖ R)) as Hsplit.
  { rewrite <- below_union. f_equal. by apply union_difference_L. }
  assert (below p h R ## below p h (dom (mapTx p) ∖ R)) as Hdisj.
  { intros x [_ Hx]%elem_of_below [_ Hx']%elem_of_below. set_solver. }
  rewrite Hsplit, sum_over_union in Hs by done. rewrite Hsplit, sizeZ_union in Hc by done.
  pose proof (sizeZ_mono _ _ (removed_below h)) as Hz.
  assert (sum_over (mapTx p') GetTxSize (below p' h (dom (mapTx p')))
          <= sum_over (mapTx p) GetTxSize (below p h (dom (mapTx p) ∖ R))) as Hm.
  { etrans; [| apply (sum_over_mono _ _ _ _ (removed_below h))].
    - apply Z.eq_le_incl, sum_over_ext.
      intros x [_ Hx]%elem_of_below. apply elem_of_dom in Hx as [ex' Hex'].
      destruct (survivor_entry x ex' Hex') as (_ & ex & Hex & Heq).
      rewrite Hex', Hex. cbn [from_option]. by rewrite Heq.
    - intros x ex _ Hex. pose proof (Hpos x ex Hex) as Hp. cbn in Hp. lia. }
  lia.
Qed.

Lemma removed_well_formed : well_formed p'.
Proof.
  split; [apply removed_links_closed |]. split; [apply removed_links_symmetric |].
  split; [apply removed_entry_keys_ok |]. split; [apply removed_in_range |].
  split; [apply removed_sizes_positive | apply removed_packages_accounted].
Qed.
End Survivors.

(** ** Recursive removal *)

Section Spenders.
Context `{Externals}.

(** The loop of [removeRecursive] over the outputs of a transaction that
    is not in the pool. *)
Lemma spenders_of_spec p h :
  spend_index_exact p ->
  forall n i acc,
    exists res, spenders_of p h n i acc = Some res
                /\ forall s, s ∈ res <->
                             s ∈ acc \/ exists k, (k < n)%nat
                                        /\ mapNextTx p !! mkOutPoint h (i + N.of_nat k) = Some s.
Proof.
  intros [Hex _]. induction n as [| n IH]; intros i acc; cbn [spenders_of].
  - exists acc. split; [done |]. intros s. split; [tauto |].
    intros [Hs | (k & Hk & _)]; [done | lia].
  - assert (forall s, (exists k, (k < S n)%nat
                         /\ mapNextTx p !! mkOutPoint h (i + N.of_nat k) = Some s)
                      <-> mapNextTx p !! mkOutPoint h i = Some s
                          \/ exists k, (k < n)%nat
                               /\ mapNextTx p !! mkOutPoint h (i + 1 + N.of_nat k) = Some s)
      as Hsplit.
    { intros s. split.
      - intros (k & Hk & Hs). destruct k as [| k].
        + left. by replace (i + N.of_nat 0)%N with i in Hs by lia.
        + right. exists k. split; [lia |].
          by replace (i + 1 + N.of_nat k)%N with (i + N.of_nat (S k))%N by lia.
      - intros [Hs | (k & Hk & Hs)].
        + exists 0%nat. split; [lia |]. by replace (i + N.of_nat 0)%N with i by lia.
        + exists (S k). split; [lia |].
          by replace (i + N.of_nat (S k))%N with (i + 1 + N.of_nat k)%N by lia. }
    destruct (mapNextTx p !! mkOutPoint h i) as [nh |] eqn:Hnh.
    + pose proof (Hex _ _ Hnh) as Hin. cbn in Hin.
      destruct (mapTx p !! nh) as [e |]; [| done]. cbn [mbind option_bind].
      destruct (IH (i + 1)%N ({[nh]} ∪ acc)) as (res & Hres & Hspec).
      exists res. split; [done |]. intros s. rewrite Hspec, Hsplit.
      rewrite elem_of_union, elem_of_singleton. split.
      * intros [[-> | Hs] | Hk]; eauto.
      * intros [Hs | [[= ->] | Hk]]; eauto.
    + destruct (IH (i + 1)%N acc) as (res & Hres & Hspec).
      exists res. split; [done |]. intros s. rewrite Hspec, Hsplit.
      split; [tauto |]. intros [Hs | [Hs | Hk]]; [tauto | done | tauto].
Qed.

Lemma spenders_of_outputs p T :
  entry_keys_ok p -> spend_index_exact p ->
  exists res, spenders_of p (GetHash T) (length (vout T)) 0%N ∅ = Some res
              /\ forall s, s ∈ res <-> spends_output_of p T s.
Proof.
  intros Hk Hex.
  destruct (spenders_of_spec p (GetHash T) Hex (length (vout T)) 0%N ∅) as (res & Hres & Hspec).
  exists res. split; [done |]. intros s. rewrite Hspec. destruct Hex as [Hex1 Hex2].
  split.
  - intros [Hs | (k & Hk' & Hs)]; [set_solver |].
    pose proof (Hex1 _ _ Hs) as Hin. cbn in Hin.
    destruct (mapTx p !! s) as [e |] eqn:He; [| done].
    exists e, (mkOutPoint (GetHash T) (0 + N.of_nat k)).
    split; [done |]. split; [done |]. split; [done |]. cbn. lia.
  - intros (e & o & He & Ho & Hh & Hn). right.
    exists (N.to_nat (op_n o)). split; [lia |].
    apply list_elem_of_fmap in Ho as (txin & -> & Hin).
    pose proof (Hex2 s e He) as Hall. cbn in Hall.
    rewrite Forall_forall in Hall. specialize (Hall txin Hin).
    rewrite <- Hall. f_equal. destruct (prevout txin) as [oh on]. cbn in *.
    subst oh. f_equal. lia.
Qed.
End Spenders.

Section RemoveRecursive.
Context `{Externals}.

(** C9, as the code has it. In a well-formed pool whose spend index is
    exact, [removeRecursive] of a transaction that is not in the pool
    returns. The entries that left the pool are the transactions that
    spend an output of the transaction and their descendants, no more and
    no less. An entry that stays keeps its transaction, its fees, its
    time and its ancestor aggregates; its descendant size, fees and count
    are reduced by those of the removed entries below it, and its
    position in [vTxHashes] may have changed. An entry with no removed
    entry below it is as it was but for that position. *)
Theorem removeRecursive_of_absent_transaction (p : CTxMemPool) (T : CTransaction)
    (reason : MemPoolRemovalReason) :
  well_formed p ->
  spend_index_exact p ->
  mapTx p !! GetHash T = None ->
  exists p' R,
    removeRecursive T reason p = Some p'
    /\ (forall h, h ∈ R <-> exists s, spends_output_of p T s /\ descendant p s h)
    /\ dom (mapTx p') = dom (mapTx p) ∖ R
    /\ (forall h e,
          mapTx p !! h = Some e -> h ∉ R ->
          exists e',
            mapTx p' !! h = Some e'
            /\ forget_idx e'
               = forget_idx
                   (reduce_desc (sum_over (mapTx p) GetTxSize (below p h R))
                                (sum_over (mapTx p) GetModifiedFee (below p h R))
                                (sizeZ (below p h R)) e)
            /\ ((forall r, r ∈ R -> ~ ancestor p r h) -> forget_idx e' = forget_idx e)).
Proof.
  intros Hwf Hex Habsent.
  pose proof Hwf as (Hl & _ & Hk & _).
  unfold removeRecursive. rewrite Habsent.
  destruct (spenders_of_outputs p T Hk Hex) as (S0 & -> & HS).
  cbn [mbind option_bind].
  assert (forall x, x ∈ ordered S0 -> x ∈ dom (mapTx p)) as HSdom.
  { intros x Hx%elem_of_ordered%HS. destruct Hx as (e & _ & He & _).
    apply elem_of_dom. eauto. }
  destruct (descendants_of_list p (ordered S0) ∅ Hl HSdom) as (R & -> & HR & Hcl);
    [set_solver |].
  cbn [mbind option_bind].
  assert (forall h, h ∈ R <-> exists s, spends_output_of p T s /\ descendant p s h) as HRspec.
  { intros h. rewrite HR. split.
    - intros [Hh | (x & Hx%elem_of_ordered%HS & Hd)]; [set_solver | eauto].
    - intros (s & Hs%HS%elem_of_ordered & Hd). eauto. }
  assert (R ⊆ dom (mapTx p)) as HRdom.
  { intros h (s & Hs & Hd)%HRspec. eapply descendants_in_pool; [done | | done].
    destruct Hs as (e & _ & He & _). apply elem_of_dom. eauto. }
  assert (closed_under_children p R) as Hclosed.
  { intros r lr Hr Hlr c Hc. apply (Hcl r c Hr). by exists lr. }
  destruct (RemoveStaged_spec p Hwf reason R HRdom Hclosed) as (p' & Hp' & Hrem & _).
  exists p', R. split; [done |]. split; [done |].
  split; [by eapply removed_dom |].
  intros h e He Hh.
  destruct (entry_survives p reason R p' Hrem h e Hh He) as (e' & He' & Heq).
  exists e'. split; [done |]. split.
  - rewrite Heq at 1. apply forget_idx_set_vTxHashesIdx.
  - intros Hnone. rewrite Heq at 1. rewrite forget_idx_set_vTxHashesIdx.
    replace (below p h R) with (∅ : gset uint256).
    + by rewrite !sum_over_empty, reduce_desc_0.
    + symmetry. apply set_eq. intros r. rewrite elem_of_below. split; [| set_solver].
      intros [Ha Hr]. exfalso. apply (Hnone r Hr).
      apply (elem_of_ancestors_of p r h Hl Hk); [by apply HRdom | done].
Qed.
End RemoveRecursive.

(** [removeRecursive] of transaction 2 on the pool that holds [chain_tx 1]
    and the child that also spends transaction 2: the child leaves,
    [chain_tx 1] stays. *)
Lemma removeRecursive_witness :
  exists p' R,
    @removeRecursive demo_externals tx_absent UNKNOWN family = Some p'
    /\ (forall h, h ∈ R <-> exists s, spends_output_of family tx_absent s /\ descendant family s h)
    /\ dom (mapTx p') = dom (mapTx family) ∖ R.
Proof.
  destruct (removeRecursive_of_absent_transaction (H := demo_externals)
              family tx_absent UNKNOWN) as (p' & R & H1 & H2 & H3 & _).
  - apply (bool_decide_unpack _). by vm_compute.
  - apply (bool_decide_unpack _). by vm_compute.
  - by vm_compute.
  - exists p', R. split; [exact H1 |]. split; [exact H2 | exact H3].
Defined.

(** C9 does not hold of the entries above a removed one. [chain_tx 1] has
    a child that also spends an output of transaction 2. When
    transaction 2, which is not in the pool, is removed recursively, the
    child leaves, and the entry of [chain_tx 1], which spends nothing of
    transaction 2 and descends from nothing that does, goes from two
    descendants to one. *)
Lemma removeRecursive_changes_an_entry_that_stays :
  (p' ← @removeRecursive demo_externals tx_absent UNKNOWN family;
   Some (elements (dom (mapTx p')),
         descendant_count_of family 1%N, descendant_count_of p' 1%N))
  = Some ([1%N], Some 2, Some 1).
Proof. by vm_compute. Qed.

(** ** Trimming *)

Section PoolFrames.
Context `{Externals}.
Variables p q : CTxMemPool.
Hypothesis Htx : mapTx q = mapTx p.
Hypothesis Hlk : mapLinks q = mapLinks p.

Lemma ancestors_of_frame h : ancestors_of q h = ancestors_of p h.
Proof.
  unfold ancestors_of. rewrite Htx. destruct (mapTx p !! h) as [e |]; [| done].
  rewrite (CalculateMemPoolAncestors_frame p q e e); [done | | done].
  split; [done | by rewrite Htx].
Qed.

Lemma below_frame a s : below q a s = below p a s.
Proof. apply set_eq. intros r. by rewrite !elem_of_below, ancestors_of_frame. Qed.

Lemma well_formed_frame : well_formed p -> well_formed q.
Proof.
  intros (Hl & Hsym & Hk & Hr & Hpos & Hacc).
  split; [| split; [| split; [| split; [| split]]]].
  - apply (same_graph_links_closed p q); [| done]. split; [done | by rewrite Htx].
  - unfold links_symmetric, links_at. by rewrite Hlk.
  - unfold entry_keys_ok. by rewrite Htx.
  - by rewrite Htx.
  - unfold sizes_positive. by rewrite Htx.
  - unfold packages_accounted. rewrite Htx. intros a e He.
    rewrite below_frame. apply (Hacc a e He).
Qed.

End PoolFrames.

Section ScoreIndex.
Variable cmp : CTxMemPoolEntry -> CTxMemPoolEntry -> bool.
Hypothesis cmp_asym : forall a b, cmp a b = true -> cmp b a = false.
Hypothesis cmp_trans : forall a b c, cmp b a = false -> cmp c b = false -> cmp c a = false.

(** The first entry of the descendant-score index: no entry sorts before
    it. *)
Lemma descendant_score_begin_spec p :
  mapTx p <> ∅ ->
  exists it e, descendant_score_begin cmp p = Some it
               /\ mapTx p !! it = Some e
               /\ forall h' e', mapTx p !! h' = Some e' -> cmp e' e = false.
Proof.
  intros Hne. unfold descendant_score_begin.
  assert (Total (index_le cmp)) as Htot.
  { intros a b. unfold index_le. destruct (cmp (snd b) (snd a)) eqn:E; [| by left].
    right. by apply cmp_asym. }
  assert (Transitive (index_le cmp)) as Htr.
  { intros a b c Hab Hbc. unfold index_le in *. by eapply cmp_trans. }
  pose proof (StronglySorted_merge_sort (index_le cmp) (map_to_list (mapTx p))) as Hsorted.
  pose proof (merge_sort_Permutation (index_le cmp) (map_to_list (mapTx p))) as Hperm.
  destruct (merge_sort (index_le cmp) (map_to_list (mapTx p))) as [| [it e] rest] eqn:Hsort.
  - apply Permutation_nil_l in Hperm. symmetry in Hperm.
    by apply map_to_list_empty_iff in Hperm.
  - exists it, e. split; [done |].
    assert (forall h' e', mapTx p !! h' = Some e' <-> (h', e') ∈ (it, e) :: rest) as Hin.
    { intros h' e'. by rewrite Hperm, elem_of_map_to_list. }
    split; [apply Hin; left |].
    intros h' e' [[= -> ->] | Hrest]%Hin%elem_of_cons.
    + destruct (Htot (it, e) (it, e)) as [Hr | Hr]; exact Hr.
    + apply StronglySorted_inv in Hsorted as [_ Hall].
      rewrite Forall_forall in Hall. apply (Hall (h', e') Hrest).
Qed.
End ScoreIndex.

Section RollingFee.
Context `{Externals}.

Lemma trackPackageRemoved_fields rate p :
  let q := trackPackageRemoved rate p in
  mapTx q = mapTx p /\ mapLinks q = mapLinks p /\ mapDeltas q = mapDeltas p
  /\ minerPolicyEstimator q = minerPolicyEstimator p /\ signals q = signals p.
Proof.
  unfold trackPackageRemoved.
  by destruct (Qle_bool (inject_Z (GetFeePerK rate)) (rollingMinimumFeeRate p)).
Qed.

End RollingFee.

Section TrimToSizeSpec.
Context `{Externals}.
Variable CompareTxMemPoolEntryByDescendantScore :
  CTxMemPoolEntry -> CTxMemPoolEntry -> bool.
Hypothesis cmp_asym :
  forall a b, CompareTxMemPoolEntryByDescendantScore a b = true ->
              CompareTxMemPoolEntryByDescendantScore b a = false.
Hypothesis cmp_trans :
  forall a b c, CompareTxMemPoolEntryByDescendantScore b a = false ->
                CompareTxMemPoolEntryByDescendantScore c b = false ->
                CompareTxMemPoolEntryByDescendantScore c a = false.



End TrimToSizeSpec.

Lemma demo_cmp_asym a b : demo_cmp a b = true -> demo_cmp b a = false.
Proof.
  unfold demo_cmp. cbv zeta.
  set (fa := nModFeesWithDescendants a). set (fb := nModFeesWithDescendants b).
  set (sa := Z.max 1 (nSizeWithDescendants a)). set (sb := Z.max 1 (nSizeWithDescendants b)).
  destruct (fa * sb =? fb * sa) eqn:E1, (fb * sa =? fa * sb) eqn:E2;
    rewrite ?Z.eqb_eq, ?Z.eqb_neq, ?Z.ltb_lt, ?Z.ltb_ge, ?N.ltb_lt, ?N.ltb_ge in *; lia.
Qed.

Lemma demo_cmp_trans a b c :
  demo_cmp b a = false -> demo_cmp c b = false -> demo_cmp c a = false.
Proof.
  unfold demo_cmp. cbv zeta.
  set (fa := nModFeesWithDescendants a). set (fb := nModFeesWithDescendants b).
  set (fc := nModFeesWithDescendants c).
  assert (0 < Z.max 1 (nSizeWithDescendants a)) as Ha by lia.
  assert (0 < Z.max 1 (nSizeWithDescendants b)) as Hb by lia.
  assert (0 < Z.max 1 (nSizeWithDescendants c)) as Hc by lia.
  set (sa := Z.max 1 (nSizeWithDescendants a)) in *.
  set (sb := Z.max 1 (nSizeWithDescendants b)) in *.
  set (sc := Z.max 1 (nSizeWithDescendants c)) in *.
  clearbody fa fb fc sa sb sc.
  intros Hba Hcb.
  assert (fa * sb <= fb * sa
          /\ (fa * sb = fb * sa -> (GetHash (tx a) <= GetHash (tx b))%N)) as [H1 H1'].
  { destruct (fb * sa =? fa * sb) eqn:E;
      rewrite ?Z.eqb_eq, ?Z.eqb_neq, ?Z.ltb_lt, ?Z.ltb_ge, ?N.ltb_lt, ?N.ltb_ge in *;
      split; lia. }
  assert (fb * sc <= fc * sb
          /\ (fb * sc = fc * sb -> (GetHash (tx b) <= GetHash (tx c))%N)) as [H2 H2'].
  { destruct (fc * sb =? fb * sc) eqn:E;
      rewrite ?Z.eqb_eq, ?Z.eqb_neq, ?Z.ltb_lt, ?Z.ltb_ge, ?N.ltb_lt, ?N.ltb_ge in *;
      split; lia. }
  assert (fa * sc * sb <= fc * sa * sb) as H3 by nia.
  assert (fa * sc <= fc * sa) as H4 by nia.
  destruct (fc * sa =? fa * sc) eqn:E;
    rewrite ?Z.eqb_eq, ?Z.eqb_neq, ?Z.ltb_lt, ?Z.ltb_ge, ?N.ltb_lt, ?N.ltb_ge in *; [| lia].
  assert (fa * sb = fb * sa) as E1 by nia.
  assert (fb * sc = fc * sb) as E2 by nia.
  specialize (H1' E1). specialize (H2' E2). lia.
Qed.


(** * Further properties of the code *)

(** ** The traversals of the link graph *)

(** X1. On a pool whose links are closed, [CalculateDescendants] returns:
    it adds to a set that holds the children of its members the entry and
    everything reached from it through child links, nothing else, and
    the set it returns holds the children of its members again. An
    entry that is in the set already is not walked. *)
Theorem CalculateDescendants_collects (p : CTxMemPool) (it : uint256)
    (setDescendants : gset uint256) :
  links_closed p ->
  it ∈ dom (mapTx p) ->
  (forall a b, a ∈ setDescendants -> child_rel p a b -> b ∈ setDescendants) ->
  exists res,
    CalculateDescendants p it setDescendants = Some res
    /\ (forall y, y ∈ res <-> y ∈ setDescendants \/ descendant p it y)
    /\ (forall a b, a ∈ res -> child_rel p a b -> b ∈ res)
    /\ (it ∈ setDescendants -> res = setDescendants).
Proof.
  intros Hl Hit Hacc.
  destruct (CalculateDescendants_spec p it setDescendants Hl Hit Hacc) as (res & Hres & Hspec).
  exists res. split; [done |]. split; [done |]. split.
  - intros a b Ha Hab. apply Hspec. apply Hspec in Ha as [Ha | Ha].
    + left. by eapply Hacc.
    + right. eapply rtc_r; [exact Ha | exact Hab].
  - intros Hin. unfold CalculateDescendants in Hres.
    rewrite decide_True in Hres by done. destruct (size (mapLinks p)); cbn in Hres.
    + unfold set_begin in Hres. rewrite ordered_empty in Hres. cbn in Hres. congruence.
    + unfold set_begin in Hres. rewrite ordered_empty in Hres. cbn in Hres. congruence.
Qed.

(** The descendants of the first transaction of the chain of three. *)
Lemma CalculateDescendants_witness :
  exists res,
    CalculateDescendants chain_pool 1%N ∅ = Some res
    /\ (forall y, y ∈ res <-> y ∈ (∅ : gset uint256) \/ descendant chain_pool 1%N y)
    /\ (forall a b, a ∈ res -> child_rel chain_pool a b -> b ∈ res)
    /\ (1%N ∈ (∅ : gset uint256) -> res = ∅).
Proof.
  apply (CalculateDescendants_collects chain_pool 1%N ∅).
  - apply (bool_decide_unpack _). by vm_compute.
  - apply (bool_decide_unpack _). by vm_compute.
  - intros a b Ha. by apply elem_of_empty in Ha.
Defined.

Section AncestorsOfEntries.
Context `{Externals}.

(** X2. For an entry of a pool whose links are closed, and without
    limits, [CalculateMemPoolAncestors] returns [true] and the set of the
    entries reached through at least one parent link: the strict
    ancestors, all of them entries of the pool. *)
Theorem CalculateMemPoolAncestors_of_pool_entry (p : CTxMemPool) (e : CTxMemPoolEntry) :
  links_closed p ->
  GetHash (tx e) ∈ dom (mapTx p) ->
  exists setAncestors,
    CalculateMemPoolAncestors p e NoLimits false = Some (true, setAncestors)
    /\ (forall y, y ∈ setAncestors <-> ancestor p (GetHash (tx e)) y)
    /\ setAncestors ⊆ dom (mapTx p).
Proof.
  intros Hl Hin.
  destruct (CalculateMemPoolAncestors_nolimit p e Hl Hin) as (A & HA & Hspec).
  exists A. split; [done |]. split; [done |].
  intros y Hy%Hspec. by eapply ancestors_in_pool.
Qed.
End AncestorsOfEntries.

(** The ancestors of the last transaction of the chain of three. *)
Lemma CalculateMemPoolAncestors_witness :
  exists setAncestors,
    @CalculateMemPoolAncestors demo_externals chain_pool (demo_entry (chain_tx 3) 1000)
      NoLimits false = Some (true, setAncestors)
    /\ (forall y, y ∈ setAncestors <-> ancestor chain_pool 3%N y)
    /\ setAncestors ⊆ dom (mapTx chain_pool).
Proof.
  apply (CalculateMemPoolAncestors_of_pool_entry (H := demo_externals)
           chain_pool (demo_entry (chain_tx 3) 1000)).
  - apply (bool_decide_unpack _). by vm_compute.
  - apply (bool_decide_unpack _). by vm_compute.
Defined.

Lemma wrap64_add_l a b : wrap64 (wrap64 a + b) = wrap64 (a + b).
Proof. unfold wrap64. by rewrite Zplus_mod_idemp_l. Qed.

Lemma sum_over_insert m f x e (s : gset uint256) :
  x ∉ s -> m !! x = Some e -> sum_over m f ({[x]} ∪ s) = f e + sum_over m f s.
Proof.
  intros Hx He. rewrite sum_over_union by set_solver.
  by rewrite sum_over_singleton, He.
Qed.

Lemma sizeZ_insert x (s : gset uint256) : x ∉ s -> sizeZ ({[x]} ∪ s) = 1 + sizeZ s.
Proof.
  intros Hx. unfold sizeZ. rewrite size_union by set_solver. rewrite size_singleton. lia.
Qed.

Lemma sizeZ_remove x (s : gset uint256) : x ∈ s -> sizeZ (s ∖ {[x]}) = sizeZ s - 1.
Proof.
  intros Hx. unfold sizeZ.
  assert (size s = size (s ∖ {[x]}) + 1)%nat; [| lia].
  rewrite (union_difference_L {[x]} s) at 1 by set_solver.
  rewrite size_union by set_solver. rewrite size_singleton. lia.
Qed.

Section PackageLimits.
Context `{Externals}.
Variables (p : CTxMemPool) (entrySize : Z) (lim : Limits).

Lemma search_parents_counted ins : forall parentHashes res,
  search_parents p (limitAncestorCount lim) ins parentHashes = Some res ->
  (parentHashes = ∅ \/ wrap64 (sizeZ parentHashes + 1) <= limitAncestorCount lim) ->
  res = ∅ \/ wrap64 (sizeZ res + 1) <= limitAncestorCount lim.
Proof.
  induction ins as [| txin ins IH]; intros PH res Hrun Hinv; cbn [search_parents] in Hrun.
  - by simplify_eq.
  - destruct (mapTx p !! op_hash (prevout txin)); [| by eapply IH].
    destruct (limitAncestorCount lim <? wrap64 (sizeZ ({[op_hash (prevout txin)]} ∪ PH) + 1))
      eqn:E; [done |].
    apply Z.ltb_ge in E. eapply IH; [exact Hrun |]. by right.
Qed.

Lemma visit_parents_counted SA ps : forall PH res,
  visit_parents (limitAncestorCount lim) SA ps PH = Some res ->
  (forall x, x ∈ res <-> x ∈ PH \/ (x ∈ ps /\ x ∉ SA))
  /\ (ps = [] \/ wrap64 (sizeZ res + sizeZ SA + 1) <= limitAncestorCount lim).
Proof.
  induction ps as [| ph ps IH]; intros PH res Hrun; cbn [visit_parents] in Hrun.
  - simplify_eq. split; [| by left]. intros x. split; [by left |].
    intros [Hx | [Hx _]]; [done | by apply elem_of_nil in Hx].
  - cbv zeta in Hrun.
    set (PH1 := if decide (ph ∈ SA) then PH else {[ph]} ∪ PH) in *.
    destruct (limitAncestorCount lim <? wrap64 (sizeZ PH1 + sizeZ SA + 1)) eqn:E; [done |].
    apply Z.ltb_ge in E. destruct (IH PH1 res Hrun) as [Hmem Hcnt]. split.
    + intros x. rewrite Hmem. subst PH1. rewrite elem_of_cons.
      destruct (decide (ph ∈ SA)); set_solver.
    + right. destruct Hcnt as [-> | Hcnt]; [| done].
      cbn [visit_parents] in Hrun. by simplify_eq.
Qed.

Lemma ancestors_loop_limits (counted : Prop) fuel : forall PH SA total A,
  ancestors_loop fuel p entrySize lim PH SA total = Some (true, A) ->
  PH ## SA ->
  total = wrap64 (entrySize + sum_over (mapTx p) GetTxSize SA) ->
  (forall a, a ∈ SA -> within_descendant_limits p entrySize lim a) ->
  (counted -> PH ∪ SA = ∅ \/ wrap64 (sizeZ PH + sizeZ SA + 1) <= limitAncestorCount lim) ->
  (SA = ∅ \/ total <= limitAncestorSize lim) ->
  (forall a, a ∈ A -> within_descendant_limits p entrySize lim a)
  /\ (counted -> A = ∅ \/ wrap64 (sizeZ A + 1) <= limitAncestorCount lim)
  /\ (A = ∅ \/ wrap64 (entrySize + sum_over (mapTx p) GetTxSize A) <= limitAncestorSize lim).
Proof.
  induction fuel as [| fuel IH]; intros PH SA total A Hrun Hdisj Htot Hdesc Hcnt Hsize.
  - cbn [ancestors_loop] in Hrun.
    destruct (set_begin PH) as [x |] eqn:Hb; [done |]. apply set_begin_None in Hb.
    simplify_eq. split; [done |]. split.
    + intros Hc. destruct (Hcnt Hc) as [Hu | Hu]; [left; set_solver |].
      right. unfold sizeZ in Hu. rewrite size_empty in Hu. exact Hu.
    + destruct Hsize as [-> | Hs]; [by left | by right].
  - cbn [ancestors_loop] in Hrun.
    destruct (set_begin PH) as [x |] eqn:Hb.
    2:{ apply set_begin_None in Hb. simplify_eq. split; [done |]. split.
        - intros Hc. destruct (Hcnt Hc) as [Hu | Hu]; [left; set_solver |].
          right. unfold sizeZ in Hu. rewrite size_empty in Hu. exact Hu.
        - destruct Hsize as [-> | Hs]; [by left | by right]. }
    apply set_begin_Some in Hb.
    destruct (mapTx p !! x) as [e |] eqn:He; [| done]. cbn [mbind option_bind] in Hrun.
    cbv zeta in Hrun.
    destruct (limitDescendantSize lim <? wrap64 (nSizeWithDescendants e + entrySize)) eqn:E1;
      [done |].
    destruct (limitDescendantCount lim <? wrap64 (nCountWithDescendants e + 1)) eqn:E2;
      [done |].
    destruct (limitAncestorSize lim <? wrap64 (total + GetTxSize e)) eqn:E3; [done |].
    apply Z.ltb_ge in E1, E2, E3.
    destruct (GetMemPoolParents p x) as [ps |]; [| done]. cbn [mbind option_bind] in Hrun.
    destruct (visit_parents (limitAncestorCount lim) ({[x]} ∪ SA) (ordered ps) (PH ∖ {[x]}))
      as [PH2 |] eqn:Hv; [| done].
    destruct (visit_parents_counted _ _ _ _ Hv) as [Hmem Hvc].
    assert (x ∉ SA) as HxSA by set_solver.
    assert (wrap64 (total + GetTxSize e)
            = wrap64 (entrySize + sum_over (mapTx p) GetTxSize ({[x]} ∪ SA))) as Htot'.
    { rewrite (sum_over_insert _ _ x e SA HxSA He), Htot, wrap64_add_l. f_equal. lia. }
    apply (IH _ _ _ _ Hrun).
    + intros y Hy%Hmem Hy'. set_solver.
    + exact Htot'.
    + intros a [->%elem_of_singleton | Ha]%elem_of_union; [| by apply Hdesc].
      exists e. done.
    + intros Hc. right. destruct Hvc as [Hnil | Hvc]; [| done].
      assert (PH2 = PH ∖ {[x]}) as ->.
      { rewrite Hnil in Hv. cbn [visit_parents] in Hv. by simplify_eq. }
      destruct (Hcnt Hc) as [Hu | Hu]; [set_solver |].
      rewrite (sizeZ_remove x PH Hb), (sizeZ_insert x SA HxSA).
      replace (sizeZ PH - 1 + (1 + sizeZ SA) + 1) with (sizeZ PH + sizeZ SA + 1) by lia.
      exact Hu.
    + right. exact E3.
Qed.

End PackageLimits.

Section PackageLimitsClaim.
Context `{Externals}.

(** X3. When [CalculateMemPoolAncestors] answers [true], every staged
    ancestor has room for the entry within the descendant limits, and
    the ancestors, if there are any, keep the entry within the ancestor
    size limit. The ancestor count limit is respected when the parents
    were searched through [mapTx]; for an entry of the pool the parents
    are taken from the links without a check. All sums are the 64-bit
    ones of the code. *)
Theorem CalculateMemPoolAncestors_within_limits (p : CTxMemPool) (entry : CTxMemPoolEntry)
    (lim : Limits) (fSearchForParents : bool) (setAncestors : gset uint256) :
  CalculateMemPoolAncestors p entry lim fSearchForParents = Some (true, setAncestors) ->
  (forall a, a ∈ setAncestors -> within_descendant_limits p (GetTxSize entry) lim a)
  /\ (setAncestors = ∅
      \/ wrap64 (GetTxSize entry + sum_over (mapTx p) GetTxSize setAncestors)
         <= limitAncestorSize lim)
  /\ (fSearchForParents = true ->
      setAncestors = ∅ \/ wrap64 (sizeZ setAncestors + 1) <= limitAncestorCount lim).
Proof.
  intros Hrun. unfold CalculateMemPoolAncestors in Hrun.
  set (entrySize := GetTxSize entry) in *.
  assert (forall PH,
            ancestors_loop (S (size (mapLinks p))) p entrySize lim PH ∅ (wrap64 entrySize)
            = Some (true, setAncestors) ->
            (fSearchForParents = true ->
             PH = ∅ \/ wrap64 (sizeZ PH + 1) <= limitAncestorCount lim) ->
            (forall a, a ∈ setAncestors -> within_descendant_limits p entrySize lim a)
            /\ (fSearchForParents = true ->
                setAncestors = ∅ \/ wrap64 (sizeZ setAncestors + 1) <= limitAncestorCount lim)
            /\ (setAncestors = ∅
                \/ wrap64 (entrySize + sum_over (mapTx p) GetTxSize setAncestors)
                   <= limitAncestorSize lim)) as Hloop.
  { intros PH Hl Hc.
    apply (ancestors_loop_limits p entrySize lim (fSearchForParents = true)
             (S (size (mapLinks p))) PH ∅ (wrap64 entrySize));
      [done | set_solver | | set_solver | | by left].
    - rewrite sum_over_empty. f_equal. lia.
    - intros Hs. destruct (Hc Hs) as [-> | Hc']; [left; set_solver |]. right.
      unfold sizeZ at 2. rewrite size_empty. by rewrite Z.add_0_r. }
  destruct fSearchForParents.
  - destruct (search_parents p (limitAncestorCount lim) (vin (tx entry)) ∅) as [PH |] eqn:Hs;
      [| done].
    destruct (Hloop PH Hrun) as (H1 & H2 & H3).
    + intros _. eapply search_parents_counted; [exact Hs | by left].
    + split; [exact H1 |]. split; [exact H3 | exact H2].
  - destruct (GetMemPoolParents p (GetHash (tx entry))) as [PH |]; [| done].
    cbn [mbind option_bind] in Hrun.
    destruct (Hloop PH Hrun) as (H1 & H2 & H3); [done |].
    split; [exact H1 |]. split; [exact H3 | exact H2].
Qed.
End PackageLimitsClaim.

(** The fourth transaction of a chain, against the chain of three in the
    pool and the default limits. *)
Lemma CalculateMemPoolAncestors_limits_witness :
  let A : gset uint256 := {[1%N; 2%N; 3%N]} in
  let entry := demo_entry (chain_tx 4) 1000 in
  let lim := mkLimits 25 101000 25 101000 in
  (forall a, a ∈ A ->
     within_descendant_limits chain_pool (@GetTxSize demo_externals entry) lim a)
  /\ (A = ∅
      \/ wrap64 (@GetTxSize demo_externals entry
                 + sum_over (mapTx chain_pool) (@GetTxSize demo_externals) A)
         <= limitAncestorSize lim)
  /\ (true = true -> A = ∅ \/ wrap64 (sizeZ A + 1) <= limitAncestorCount lim).
Proof.
  cbv zeta.
  apply (CalculateMemPoolAncestors_within_limits (H := demo_externals) chain_pool
           (demo_entry (chain_tx 4) 1000) (mkLimits 25 101000 25 101000) true).
  by vm_compute.
Defined.

(** ** Removal of packages, continued *)

Section RemovalOfPackages.
Context `{Externals}.

(** X4. On a well-formed pool, [RemoveStaged] of a set of entries that
    holds the children of its members, without the update of the
    descendants, returns; the pool it leaves is the pool without the set,
    the observers are told of each removal, and the pool is well-formed
    again. *)
Theorem RemoveStaged_removes_package (p : CTxMemPool) (stage : gset uint256)
    (reason : MemPoolRemovalReason) :
  well_formed p ->
  stage ⊆ dom (mapTx p) ->
  closed_under_children p stage ->
  exists p',
    RemoveStaged stage false reason p = Some p'
    /\ removed_from reason p stage p'
    /\ dom (mapTx p') = dom (mapTx p) ∖ stage
    /\ well_formed p'.
Proof.
  intros Hwf Hdom Hclosed.
  destruct (RemoveStaged_spec p Hwf reason stage Hdom Hclosed) as (p' & Hrun & Hrem & _).
  exists p'. split; [done |]. split; [done |].
  split; [by eapply removed_dom |].
  by eapply removed_well_formed.
Qed.

(** [Expire] on a well-formed pool. *)
Lemma Expire_spec (p : CTxMemPool) (time : Z) :
  well_formed p ->
  exists n p' stage,
    Expire time p = Some (n, p')
    /\ (forall h, h ∈ stage <->
                  exists x e, mapTx p !! x = Some e /\ nTime e < time /\ descendant p x h)
    /\ n = sizeZ stage
    /\ removed_from EXPIRY p stage p'
    /\ well_formed p'
    /\ (forall h e', mapTx p' !! h = Some e' -> time <= nTime e').
Proof.
  intros Hwf. pose proof Hwf as (Hl & _). unfold Expire. cbv zeta.
  set (toremove := dom (filter (fun kv => nTime (snd kv) < time) (mapTx p))).
  assert (forall x, x ∈ toremove <-> exists e, mapTx p !! x = Some e /\ nTime e < time) as Hold.
  { intros x. unfold toremove. rewrite elem_of_dom. split.
    - intros [e He]. apply map_lookup_filter_Some in He as [He Ht]. eauto.
    - intros (e & He & Ht). exists e. by apply map_lookup_filter_Some. }
  assert (forall x, x ∈ ordered toremove -> x ∈ dom (mapTx p)) as Hin.
  { intros x (e & He & _)%elem_of_ordered%Hold. apply elem_of_dom. eauto. }
  destruct (descendants_of_list p (ordered toremove) ∅ Hl Hin) as (stage & -> & Hstage & Hcl);
    [set_solver |].
  cbn [mbind option_bind].
  assert (forall h, h ∈ stage <->
                    exists x e, mapTx p !! x = Some e /\ nTime e < time /\ descendant p x h)
    as Hspec.
  { intros h. rewrite Hstage. split.
    - intros [Hh | (x & Hx%elem_of_ordered%Hold & Hd)]; [set_solver |].
      destruct Hx as (e & He & Ht). eauto.
    - intros (x & e & He & Ht & Hd). right. exists x. split; [| done].
      apply elem_of_ordered, Hold. eauto. }
  assert (stage ⊆ dom (mapTx p)) as Hdom.
  { intros h (x & e & He & _ & Hd)%Hspec. eapply descendants_in_pool; [done | | done].
    apply elem_of_dom. eauto. }
  assert (closed_under_children p stage) as Hclosed.
  { intros r lr Hr Hlr c Hc. apply (Hcl r c Hr). by exists lr. }
  destruct (RemoveStaged_spec p Hwf EXPIRY stage Hdom Hclosed) as (p' & -> & Hrem & _).
  cbn [mbind option_bind].
  exists (sizeZ stage), p', stage.
  split; [done |]. split; [done |]. split; [done |]. split; [done |].
  split; [by eapply removed_well_formed |].
  intros h e' He'.
  destruct (survivor_entry p EXPIRY stage p' Hrem h e' He') as (Hh & e & He & ->).
  cbn. destruct (Z_lt_le_dec (nTime e) time) as [Hlt | Hle]; [| done].
  exfalso. apply Hh, Hspec. exists h, e. split; [done |]. split; [done | apply rtc_refl].
Qed.

(** X5. On a well-formed pool, [Expire] returns. The entries that leave
    are those older than [time] and their descendants, for the reason
    [EXPIRY]; their number is what the call returns; the pool is
    well-formed again and holds no entry older than [time]. *)
Theorem Expire_removes_old_packages (p : CTxMemPool) (time : Z) :
  well_formed p ->
  exists n p' stage,
    Expire time p = Some (n, p')
    /\ (forall h, h ∈ stage <->
                  exists x e, mapTx p !! x = Some e /\ nTime e < time /\ descendant p x h)
    /\ n = sizeZ stage
    /\ removed_from EXPIRY p stage p'
    /\ well_formed p'
    /\ (forall h e', mapTx p' !! h = Some e' -> time <= nTime e').
Proof. apply Expire_spec. Qed.

(** X6. On a well-formed pool, [removeRecursive] of a transaction that is
    in the pool returns; the entries that leave are the transaction and
    its descendants, and the pool is well-formed again. *)
Theorem removeRecursive_of_pool_transaction (p : CTxMemPool) (T : CTransaction)
    (reason : MemPoolRemovalReason) :
  well_formed p ->
  GetHash T ∈ dom (mapTx p) ->
  exists p' stage,
    removeRecursive T reason p = Some p'
    /\ (forall h, h ∈ stage <-> descendant p (GetHash T) h)
    /\ removed_from reason p stage p'
    /\ dom (mapTx p') = dom (mapTx p) ∖ stage
    /\ well_formed p'.
Proof.
  intros Hwf Hin. pose proof Hwf as (Hl & _). unfold removeRecursive.
  pose proof Hin as [e He]%elem_of_dom. rewrite He. cbn [mbind option_bind].
  assert (forall x, x ∈ ordered ({[GetHash T]} : gset uint256) -> x ∈ dom (mapTx p)) as Hdom0.
  { intros x Hx%elem_of_ordered. set_solver. }
  destruct (descendants_of_list p (ordered {[GetHash T]}) ∅ Hl Hdom0)
    as (stage & -> & Hstage & Hcl); [set_solver |].
  cbn [mbind option_bind].
  assert (forall h, h ∈ stage <-> descendant p (GetHash T) h) as Hspec.
  { intros h. rewrite Hstage. split.
    - intros [Hh | (x & Hx%elem_of_ordered & Hd)]; [set_solver |].
      apply elem_of_singleton in Hx. by subst.
    - intros Hd. right. exists (GetHash T). split; [| done].
      apply elem_of_ordered. set_solver. }
  assert (stage ⊆ dom (mapTx p)) as Hdom.
  { intros h Hd%Hspec. by eapply descendants_in_pool. }
  assert (closed_under_children p stage) as Hclosed.
  { intros r lr Hr Hlr c Hc. apply (Hcl r c Hr). by exists lr. }
  destruct (RemoveStaged_spec p Hwf reason stage Hdom Hclosed) as (p' & -> & Hrem & _).
  exists p', stage. split; [done |]. split; [done |]. split; [done |].
  split; [by eapply removed_dom | by eapply removed_well_formed].
Qed.
End RemovalOfPackages.

(** The child leaves the pool of [chain_tx 1] and its child. *)
Lemma RemoveStaged_witness :
  exists p',
    @RemoveStaged demo_externals {[3%N]} false EXPIRY family = Some p'
    /\ @removed_from demo_externals EXPIRY family {[3%N]} p'
    /\ dom (mapTx p') = dom (mapTx family) ∖ {[3%N]}
    /\ @well_formed demo_externals p'.
Proof.
  apply (RemoveStaged_removes_package (H := demo_externals) family {[3%N]} EXPIRY).
  - apply (bool_decide_unpack _). by vm_compute.
  - apply (bool_decide_unpack _). by vm_compute.
  - intros r lr ->%elem_of_singleton Hlr. vm_compute in Hlr.
    injection Hlr as <-. apply (bool_decide_unpack _). by vm_compute.
Defined.

(** Every entry of the crowded pool was added at time 1500000000. *)
Lemma Expire_witness :
  exists n p' stage,
    @Expire demo_externals 1500000001 crowded = Some (n, p')
    /\ (forall h, h ∈ stage <->
                  exists x e, mapTx crowded !! x = Some e /\ nTime e < 1500000001
                              /\ descendant crowded x h)
    /\ n = sizeZ stage
    /\ @removed_from demo_externals EXPIRY crowded stage p'
    /\ @well_formed demo_externals p'
    /\ (forall h e', mapTx p' !! h = Some e' -> 1500000001 <= nTime e').
Proof.
  apply (Expire_removes_old_packages (H := demo_externals) crowded 1500000001).
  apply (bool_decide_unpack _). by vm_compute.
Defined.

Lemma removeRecursive_of_pool_transaction_witness :
  exists p' stage,
    @removeRecursive demo_externals (chain_tx 1) CONFLICT family = Some p'
    /\ (forall h, h ∈ stage <-> descendant family (GetHash (chain_tx 1)) h)
    /\ @removed_from demo_externals CONFLICT family stage p'
    /\ dom (mapTx p') = dom (mapTx family) ∖ stage
    /\ @well_formed demo_externals p'.
Proof.
  apply (removeRecursive_of_pool_transaction (H := demo_externals) family (chain_tx 1) CONFLICT).
  - apply (bool_decide_unpack _). by vm_compute.
  - apply (bool_decide_unpack _). by vm_compute.
Defined.

(** ** Trimming, continued *)

Lemma shrunk_refl p : shrunk p p.
Proof. intros h e He. eauto. Qed.

Lemma shrunk_trans p q r : shrunk p q -> shrunk q r -> shrunk p r.
Proof.
  intros Hpq Hqr h e'' He''. destruct (Hqr h e'' He'') as (e' & He' & Hc').
  destruct (Hpq h e' He') as (e & He & Hc). exists e. split; [done | congruence].
Qed.

Lemma shrunk_dom p p' : shrunk p p' -> dom (mapTx p') ⊆ dom (mapTx p).
Proof.
  intros Hs h [e' He']%elem_of_dom. destruct (Hs h e' He') as (e & He & _).
  apply elem_of_dom. eauto.
Qed.

Lemma package_core_tx e e' : package_core e' = package_core e -> tx e' = tx e.
Proof. intros Hc. apply (f_equal tx) in Hc. by destruct e, e'. Qed.

Lemma package_core_nTime e e' : package_core e' = package_core e -> nTime e' = nTime e.
Proof. intros Hc. apply (f_equal nTime) in Hc. by destruct e, e'. Qed.

Section Shrinking.
Context `{Externals}.

Lemma removed_from_shrunk reason p R p' : removed_from reason p R p' -> shrunk p p'.
Proof.
  intros Hrem h e' He'.
  destruct (survivor_entry p reason R p' Hrem h e' He') as (_ & e & He & Heq).
  exists e. split; [done |]. rewrite Heq. by destruct e.
Qed.
End Shrinking.

Lemma elem_of_no_spends_remaining p txn o :
  o ∈ no_spends_remaining p txn <->
  exists t, t ∈ txn /\ o ∈ prevout <$> vin t /\ exists_ p (op_hash o) = false.
Proof.
  unfold no_spends_remaining. rewrite list_elem_of_In, in_flat_map. split.
  - intros (t & Ht & Ho). apply list_elem_of_In, list_elem_of_filter in Ho as [Hf Ho].
    exists t. split; [by apply list_elem_of_In | done].
  - intros (t & Ht & Ho & Hf). exists t. split; [by apply list_elem_of_In |].
    apply list_elem_of_In, list_elem_of_filter. done.
Qed.

Section TrimToSizeReports.
Context `{Externals}.
Variable CompareTxMemPoolEntryByDescendantScore :
  CTxMemPoolEntry -> CTxMemPoolEntry -> bool.
Hypothesis cmp_asym :
  forall a b, CompareTxMemPoolEntryByDescendantScore a b = true ->
              CompareTxMemPoolEntryByDescendantScore b a = false.
Hypothesis cmp_trans :
  forall a b c, CompareTxMemPoolEntryByDescendantScore b a = false ->
                CompareTxMemPoolEntryByDescendantScore c b = false ->
                CompareTxMemPoolEntryByDescendantScore c a = false.

(** What one pass of the loop of [TrimToSize] adds to the outpoints it
    reports. *)
Lemma TrimToSize_pass_reports collect acc p :
  well_formed p -> mapTx p <> ∅ ->
  exists new p1,
    TrimToSize_pass CompareTxMemPoolEntryByDescendantScore collect acc p
    = Some (acc ++ new, p1)
    /\ well_formed p1 /\ shrunk p p1
    /\ (size (mapTx p1) < size (mapTx p))%nat
    /\ (collect = false -> new = [])
    /\ (forall o, o ∈ new ->
          (op_hash o ∉ dom (mapTx p1))
          /\ exists h e, mapTx p !! h = Some e /\ (h ∉ dom (mapTx p1))
                         /\ o ∈ prevout <$> vin (tx e)).
Proof.
  intros Hwf Hne. pose proof Hwf as (Hl & _).
  destruct (descendant_score_begin_spec _ cmp_asym cmp_trans p Hne)
    as (it & e & Hbegin & He & _).
  unfold TrimToSize_pass. rewrite Hbegin. cbn [mbind option_bind]. rewrite He.
  cbn [mbind option_bind]. fold (removed_rate e).
  set (p0 := trackPackageRemoved (removed_rate e) p).
  destruct (trackPackageRemoved_fields (removed_rate e) p) as (Htx0 & Hlk0 & Hd0 & He0 & Hs0).
  fold p0 in Htx0, Hlk0, Hd0, He0, Hs0.
  pose proof (well_formed_frame p p0 Htx0 Hlk0 Hwf) as Hwf0.
  assert (it ∈ dom (mapTx p)) as Hit by (apply elem_of_dom; eauto).
  destruct (CalculateDescendants_spec p it ∅ Hl Hit) as (D & HD & HDspec); [set_solver |].
  rewrite (CalculateDescendants_frame p p0) by (split; [done | by rewrite Htx0]).
  rewrite HD. cbn [mbind option_bind].
  assert (forall h, h ∈ D <-> descendant p it h) as HDspec'.
  { intros h. rewrite HDspec. set_solver. }
  assert (D ⊆ dom (mapTx p)) as HDdom.
  { intros h Hh%HDspec'. by eapply descendants_in_pool. }
  assert (closed_under_children p0 D) as Hclosed.
  { intros r lr Hr Hlr c Hc. apply HDspec'. apply HDspec' in Hr.
    eapply rtc_r; [exact Hr |]. exists lr. split; [by rewrite <- Hlk0 | done]. }
  assert (exists txn, (if collect
                       then mapM (fun h => tx <$> mapTx p0 !! h) (ordered D)
                       else Some []) = Some txn
                      /\ (collect = false -> txn = [])
                      /\ forall t, t ∈ txn -> exists h e, h ∈ D /\ mapTx p !! h = Some e
                                                          /\ t = tx e)
    as (txn & -> & Hnil & Htxn).
  { destruct collect.
    - destruct (mapM (fun h => tx <$> mapTx p0 !! h) (ordered D)) as [txn |] eqn:Hm.
      + exists txn. split; [done |]. split; [done |].
        apply mapM_Some in Hm. intros t Ht.
        apply list_elem_of_lookup in Ht as [i Hi].
        destruct (Forall2_lookup_r _ _ _ _ _ Hm Hi) as (h & Hh & Hf).
        rewrite Htx0 in Hf. destruct (mapTx p !! h) as [eh |] eqn:Heh; [| done].
        cbn in Hf. injection Hf as <-. exists h, eh. split; [| done].
        apply elem_of_ordered. by eapply list_elem_of_lookup_2.
      + exfalso. apply eq_None_not_Some in Hm. apply Hm. apply mapM_is_Some, Forall_forall.
        intros h Hh%elem_of_ordered%HDdom. unfold compose. rewrite Htx0.
        apply elem_of_dom in Hh as [eh ->]. cbn. eauto.
    - exists []. split; [done |]. split; [done |]. intros t Ht. by apply elem_of_nil in Ht. }
  cbn [mbind option_bind].
  destruct (RemoveStaged_spec p0 Hwf0 SIZELIMIT D) as (p1 & -> & Hrem & _);
    [by rewrite Htx0 | done |].
  cbn [mbind option_bind].
  pose proof (removed_dom p0 SIZELIMIT D p1 Hrem) as Hdom1. rewrite Htx0 in Hdom1.
  exists (no_spends_remaining p1 txn), p1.
  split; [done |]. split.
  { apply (removed_well_formed p0 SIZELIMIT D p1 Hwf0); [by rewrite Htx0 | done | done]. }
  split.
  { intros h e' He'. destruct (removed_from_shrunk SIZELIMIT p0 D p1 Hrem h e' He')
      as (e0 & He0' & Hc). exists e0. split; [by rewrite <- Htx0 | done]. }
  split.
  { rewrite <- !size_dom. rewrite Hdom1.
    apply subset_size. split; [set_solver |]. intros Hsub.
    specialize (Hsub it Hit). apply elem_of_difference in Hsub as [_ Hn].
    apply Hn, HDspec', rtc_refl. }
  split.
  { intros Hc. rewrite (Hnil Hc). done. }
  intros o (t & Ht & Ho & Hf)%elem_of_no_spends_remaining. split.
  - unfold exists_ in Hf. apply bool_decide_eq_false in Hf.
    intros Hin. apply Hf. by apply elem_of_dom.
  - destruct (Htxn t Ht) as (h & eh & Hh & Heh & ->). exists h, eh.
    split; [done |]. split; [| done]. rewrite Hdom1. set_solver.
Qed.

Lemma TrimToSize_loop_reports sizelimit collect fuel : forall acc p,
  well_formed p -> (size (mapTx p) <= fuel)%nat ->
  exists new p',
    TrimToSize_loop CompareTxMemPoolEntryByDescendantScore fuel sizelimit collect acc p
    = Some (acc ++ new, p')
    /\ well_formed p' /\ shrunk p p'
    /\ (DynamicMemoryUsage p' <= sizelimit \/ mapTx p' = ∅)
    /\ (collect = false -> new = [])
    /\ (forall o, o ∈ new ->
          (op_hash o ∉ dom (mapTx p'))
          /\ exists h e, mapTx p !! h = Some e /\ (h ∉ dom (mapTx p'))
                         /\ o ∈ prevout <$> vin (tx e)).
Proof.
  induction fuel as [| fuel IH]; intros acc p Hwf Hfuel.
  - assert (mapTx p = ∅) as Hempty by (apply map_size_empty_iff; lia).
    cbn [TrimToSize_loop]. rewrite bool_decide_eq_false_2 by (by intros Hn; apply Hn).
    cbn [andb]. exists [], p. rewrite app_nil_r.
    split; [done |]. split; [done |]. split; [apply shrunk_refl |].
    split; [by right |]. split; [done |]. intros o Ho. by apply elem_of_nil in Ho.
  - cbn [TrimToSize_loop].
    destruct (bool_decide (mapTx p <> ∅)) eqn:Hne; cbn [andb].
    + apply bool_decide_eq_true in Hne.
      destruct (sizelimit <? DynamicMemoryUsage p) eqn:Hlim.
      * destruct (TrimToSize_pass_reports collect acc p Hwf Hne)
          as (new1 & p1 & -> & Hwf1 & Hs1 & Hsize & Hnil1 & Hnew1).
        cbn [mbind option_bind fst snd].
        destruct (IH (acc ++ new1) p1 Hwf1) as (new2 & p' & -> & Hwf' & Hs2 & Hpost & Hnil2 & Hnew2);
          [lia |].
        exists (new1 ++ new2), p'. rewrite app_assoc.
        split; [done |]. split; [done |]. split; [by eapply shrunk_trans |].
        split; [done |]. split.
        { intros Hc. by rewrite (Hnil1 Hc), (Hnil2 Hc). }
        intros o [Ho | Ho]%elem_of_app.
        -- destruct (Hnew1 o Ho) as (Hf & h & e & He & Hh & Hin).
           pose proof (shrunk_dom p1 p' Hs2) as Hsub. split; [set_solver |].
           exists h, e. split; [done |]. split; [set_solver | done].
        -- destruct (Hnew2 o Ho) as (Hf & h & e1 & He1 & Hh & Hin). split; [done |].
           destruct (Hs1 h e1 He1) as (e & He & Hc). exists h, e.
           split; [done |]. split; [done |]. by rewrite <- (package_core_tx _ _ Hc).
      * apply Z.ltb_ge in Hlim.
        exists [], p.
        rewrite app_nil_r. split; [done |]. split; [done |]. split; [apply shrunk_refl |].
        split; [by left |]. split; [done |]. intros o Ho. by apply elem_of_nil in Ho.
    + apply bool_decide_eq_false in Hne.
      assert (mapTx p = ∅) as Hempty by (by destruct (decide (mapTx p = ∅))).
      exists [], p. rewrite app_nil_r.
      split; [done |]. split; [done |]. split; [apply shrunk_refl |].
      split; [by right |]. split; [done |]. intros o Ho. by apply elem_of_nil in Ho.
Qed.
End TrimToSizeReports.

Section TrimToSizeMore.
Context `{Externals}.
Variable CompareTxMemPoolEntryByDescendantScore :
  CTxMemPoolEntry -> CTxMemPoolEntry -> bool.
Hypothesis cmp_asym :
  forall a b, CompareTxMemPoolEntryByDescendantScore a b = true ->
              CompareTxMemPoolEntryByDescendantScore b a = false.
Hypothesis cmp_trans :
  forall a b c, CompareTxMemPoolEntryByDescendantScore b a = false ->
                CompareTxMemPoolEntryByDescendantScore c b = false ->
                CompareTxMemPoolEntryByDescendantScore c a = false.

(** X7. On a well-formed pool, and with a comparator that is a strict
    weak ordering, [TrimToSize] leaves a well-formed pool whose entries
    were all in the pool before. Every outpoint it reports in
    [pvNoSpendsRemaining] is an input of a transaction that has left the
    pool, and the transaction of that outpoint is not in the pool that is
    left; without [pvNoSpendsRemaining] nothing is reported. *)
Theorem TrimToSize_reports_unfunded_inputs (sizelimit : Z) (collect : bool)
    (p : CTxMemPool) :
  well_formed p ->
  exists reported p',
    TrimToSize CompareTxMemPoolEntryByDescendantScore sizelimit collect p
    = Some (reported, p')
    /\ well_formed p'
    /\ shrunk p p'
    /\ (collect = false -> reported = [])
    /\ (forall o, o ∈ reported ->
          (op_hash o ∉ dom (mapTx p'))
          /\ exists h e, mapTx p !! h = Some e /\ (h ∉ dom (mapTx p'))
                         /\ o ∈ prevout <$> vin (tx e)).
Proof.
  intros Hwf. unfold TrimToSize.
  destruct (TrimToSize_loop_reports _ cmp_asym cmp_trans sizelimit collect
              (size (mapTx p)) [] p Hwf) as (new & p' & Hrun & Hwf' & Hs & _ & Hnil & Hnew);
    [lia |].
  exists new, p'. done.
Qed.

(** X8. On a well-formed pool, [LimitMempoolSize] returns: it expires,
    then trims. The pool it leaves is well-formed, its entries were in
    the pool before, none of them is older than [age], and its dynamic
    memory usage is at most the limit unless it is empty. (The
    subtraction [GetTime() - age] is taken where it does not leave the
    64-bit range.) *)
Theorem LimitMempoolSize_expires_and_trims (now limit age : Z) (p : CTxMemPool) :
  - 2 ^ 63 <= now - age < 2 ^ 63 ->
  well_formed p ->
  exists uncache p',
    LimitMempoolSize CompareTxMemPoolEntryByDescendantScore now limit age p
    = Some (uncache, p')
    /\ well_formed p'
    /\ shrunk p p'
    /\ (forall h e', mapTx p' !! h = Some e' -> now - age <= nTime e')
    /\ (DynamicMemoryUsage p' <= limit \/ mapTx p' = ∅).
Proof.
  intros _ Hwf. unfold LimitMempoolSize.
  destruct (Expire_spec p (now - age) Hwf)
    as (n & p1 & stage & -> & _ & _ & Hrem & Hwf1 & Hyoung).
  cbn [mbind option_bind snd]. unfold TrimToSize.
  destruct (TrimToSize_loop_reports _ cmp_asym cmp_trans limit true
              (size (mapTx p1)) [] p1 Hwf1) as (new & p' & -> & Hwf' & Hs & Hpost & _);
    [lia |].
  exists ([] ++ new), p'. split; [done |]. split; [done |].
  split; [eapply shrunk_trans; [by eapply removed_from_shrunk | done] |].
  split; [| done].
  intros h e' He'. destruct (Hs h e' He') as (e1 & He1 & Hc).
  rewrite (package_core_nTime _ _ Hc). by eapply Hyoung.
Qed.
End TrimToSizeMore.

Lemma TrimToSize_reports_witness :
  exists reported p',
    @TrimToSize demo_externals demo_cmp 3000 true crowded = Some (reported, p')
    /\ @well_formed demo_externals p'
    /\ shrunk crowded p'
    /\ (true = false -> reported = [])
    /\ (forall o, o ∈ reported ->
          (op_hash o ∉ dom (mapTx p'))
          /\ exists h e, mapTx crowded !! h = Some e /\ (h ∉ dom (mapTx p'))
                         /\ o ∈ prevout <$> vin (tx e)).
Proof.
  apply (TrimToSize_reports_unfunded_inputs (H := demo_externals) demo_cmp
           demo_cmp_asym demo_cmp_trans 3000 true crowded).
  apply (bool_decide_unpack _). by vm_compute.
Defined.

Lemma LimitMempoolSize_witness :
  exists uncache p',
    @LimitMempoolSize demo_externals demo_cmp 1500001000 3000 1200 crowded
    = Some (uncache, p')
    /\ @well_formed demo_externals p'
    /\ shrunk crowded p'
    /\ (forall h e', mapTx p' !! h = Some e' -> 1500001000 - 1200 <= nTime e')
    /\ (@DynamicMemoryUsage demo_externals p' <= 3000 \/ mapTx p' = ∅).
Proof.
  apply (LimitMempoolSize_expires_and_trims (H := demo_externals) demo_cmp
           demo_cmp_asym demo_cmp_trans 1500001000 3000 1200 crowded).
  - lia.
  - apply (bool_decide_unpack _). by vm_compute.
Defined.

(** ** What the operations leave of the entries *)

Lemma keeps_entries_refl p : keeps_entries p p.
Proof. done. Qed.

Lemma keeps_entries_trans p q r : keeps_entries p q -> keeps_entries q r -> keeps_entries p r.
Proof. unfold keeps_entries. congruence. Qed.

Lemma never_adds_refl p : never_adds p p.
Proof. unfold never_adds. done. Qed.

Lemma never_adds_trans p q r : never_adds p q -> never_adds q r -> never_adds p r.
Proof. unfold never_adds. intros Hpq Hqr. by etrans. Qed.

Lemma keeps_entries_never_adds p q : keeps_entries p q -> never_adds p q.
Proof. unfold keeps_entries, never_adds. by intros ->. Qed.

Lemma never_adds_lookup p q h e' :
  never_adds p q -> mapTx q !! h = Some e' ->
  exists e, mapTx p !! h = Some e /\ identity_of e' = identity_of e.
Proof.
  intros Hn He'. unfold never_adds in Hn.
  assert ((identity_of <$> mapTx q) !! h = Some (identity_of e')) as Hq
    by (by rewrite lookup_fmap, He').
  eapply lookup_weaken in Hq; [| exact Hn]. rewrite lookup_fmap in Hq.
  destruct (mapTx p !! h) as [e |]; [| done]. exists e. split; [done |].
  cbn [fmap option_fmap option_map] in Hq. apply (inj Some) in Hq. by symmetry.
Qed.

Lemma modify_keeps_entries it f p p' :
  (forall e e', f e = Some e' -> identity_of e' = identity_of e) ->
  modify it f p = Some p' -> keeps_entries p p'.
Proof.
  intros Hf Hm. apply modify_inv in Hm as (e & e' & He & Hfe & ->).
  unfold keeps_entries. cbn. rewrite fmap_insert. apply insert_id.
  rewrite lookup_fmap, He. cbn. f_equal. symmetry. by apply Hf.
Qed.

Lemma alter_keeps_entries g it p :
  (forall e, identity_of (g e) = identity_of e) ->
  keeps_entries p (with_mapTx (alter g it (mapTx p)) p).
Proof.
  intros Hg. unfold keeps_entries. cbn. apply map_eq. intros h.
  rewrite !lookup_fmap. destruct (decide (h = it)) as [-> | Hne].
  - rewrite lookup_alter_eq. destruct (mapTx p !! it); cbn; [| done]. by rewrite Hg.
  - by rewrite lookup_alter_ne.
Qed.

Lemma UpdateDescendantState_identity a b c e e' :
  UpdateDescendantState a b c e = Some e' -> identity_of e' = identity_of e.
Proof.
  unfold UpdateDescendantState. intros Hu. cbv zeta in Hu.
  repeat match type of Hu with
         | (if ?b then _ else _) = _ => destruct b; [discriminate |]
         end.
  by simplify_eq.
Qed.

Lemma UpdateAncestorState_identity a b c d e e' :
  UpdateAncestorState a b c d e = Some e' -> identity_of e' = identity_of e.
Proof.
  unfold UpdateAncestorState. intros Hu. cbv zeta in Hu.
  repeat match type of Hu with
         | (if ?b then _ else _) = _ => destruct b; [discriminate |]
         end.
  by simplify_eq.
Qed.

Section KeepsEntries.
Context `{Externals}.

Lemma UpdateChild_keeps_entries a b add p : keeps_entries p (UpdateChild a b add p).
Proof. unfold UpdateChild. by repeat case_match. Qed.

Lemma UpdateParent_keeps_entries a b add p : keeps_entries p (UpdateParent a b add p).
Proof. unfold UpdateParent. by repeat case_match. Qed.

Lemma for_each_keeps_entries {A} (body : A -> CTxMemPool -> option CTxMemPool) l p p' :
  (forall x q q', body x q = Some q' -> keeps_entries q q') ->
  for_each body l p = Some p' -> keeps_entries p p'.
Proof.
  intros Hbody Hrun.
  eapply (for_each_inv (keeps_entries p)); [| exact Hrun | apply keeps_entries_refl].
  intros x s s' _ Hx Hs. eapply keeps_entries_trans; [exact Hs | by eapply Hbody].
Qed.

Lemma foldl_keeps_entries {A} (body : CTxMemPool -> A -> CTxMemPool) l p :
  (forall x q, keeps_entries q (body q x)) -> keeps_entries p (foldl body p l).
Proof.
  intros Hbody. apply (foldl_inv (keeps_entries p)); [| apply keeps_entries_refl].
  intros x s _ Hs. eapply keeps_entries_trans; [exact Hs | apply Hbody].
Qed.

Lemma UpdateAncestorsOf_keeps_entries add it setAncestors p p' :
  UpdateAncestorsOf add it setAncestors p = Some p' -> keeps_entries p p'.
Proof.
  unfold UpdateAncestorsOf. intros Hu.
  destruct (GetMemPoolParents p it) as [ps |]; cbn [mbind option_bind] in Hu; [| discriminate].
  match type of Hu with
  | context [foldl ?body p ?l] =>
      pose proof (foldl_keeps_entries body l p
                    (fun x q => UpdateChild_keeps_entries x it add q)) as Hk;
      destruct (mapTx (foldl body p l) !! it) as [e |]; cbn [mbind option_bind] in Hu;
        [| discriminate]
  end.
  eapply keeps_entries_trans; [exact Hk |].
  eapply for_each_keeps_entries; [| exact Hu].
  intros x q q' Hm. eapply modify_keeps_entries; [| exact Hm].
  apply UpdateDescendantState_identity.
Qed.

Lemma UpdateEntryForAncestors_keeps_entries it setAncestors p p' :
  UpdateEntryForAncestors it setAncestors p = Some p' -> keeps_entries p p'.
Proof.
  unfold UpdateEntryForAncestors. intros Hu.
  destruct (for_each _ (ordered setAncestors) (0, 0, 0)) as [[[a b] c] |];
    cbn [mbind option_bind] in Hu; [| discriminate].
  eapply modify_keeps_entries; [| exact Hu]. apply UpdateAncestorState_identity.
Qed.

Lemma UpdateChildrenForRemoval_keeps_entries it p p' :
  UpdateChildrenForRemoval it p = Some p' -> keeps_entries p p'.
Proof.
  unfold UpdateChildrenForRemoval. intros Hu.
  destruct (GetMemPoolChildren p it) as [cs |]; cbn [mbind option_bind] in Hu; [| discriminate].
  injection Hu as <-. apply foldl_keeps_entries. intros x q.
  exact (UpdateParent_keeps_entries x it false q).
Qed.

Lemma detach_loop_keeps_entries l p p' :
  for_each (fun removeIt q =>
              entry ← mapTx q !! removeIt;
              r ← CalculateMemPoolAncestors q entry NoLimits false;
              UpdateAncestorsOf false removeIt (snd r) q) l p = Some p' ->
  keeps_entries p p'.
Proof.
  apply for_each_keeps_entries. intros x q q' Hx.
  destruct (mapTx q !! x) as [e |]; cbn [mbind option_bind] in Hx; [| discriminate].
  destruct (CalculateMemPoolAncestors q e NoLimits false) as [r |];
    cbn [mbind option_bind] in Hx; [| discriminate].
  by eapply UpdateAncestorsOf_keeps_entries.
Qed.

Lemma update_descendants_loop_keeps_entries l p p' :
  for_each (fun removeIt q =>
              setDescendants ← CalculateDescendants q removeIt ∅;
              let setDescendants := setDescendants ∖ {[removeIt]} in
              r ← mapTx q !! removeIt;
              let modifySize := - GetTxSize r in
              let modifyFee := - GetModifiedFee r in
              let modifySigOps := int32_of (- sigOpCost r) in
              for_each (fun dit q' =>
                          modify dit (UpdateAncestorState modifySize modifyFee (-1)
                                                          modifySigOps) q')
                       (ordered setDescendants) q) l p = Some p' ->
  keeps_entries p p'.
Proof.
  apply for_each_keeps_entries. intros x q q' Hx. cbv zeta in Hx.
  destruct (CalculateDescendants q x ∅) as [D |]; cbn [mbind option_bind] in Hx;
    [| discriminate].
  destruct (mapTx q !! x) as [r |]; cbn [mbind option_bind] in Hx; [| discriminate].
  eapply for_each_keeps_entries; [| exact Hx].
  intros y s s' Hm. eapply modify_keeps_entries; [| exact Hm].
  apply UpdateAncestorState_identity.
Qed.

Lemma UpdateForRemoveFromMempool_keeps_entries stage updateDescendants p p' :
  UpdateForRemoveFromMempool stage updateDescendants p = Some p' -> keeps_entries p p'.
Proof.
  unfold UpdateForRemoveFromMempool. intros Hu.
  assert (exists p1 p2,
            keeps_entries p p1
            /\ keeps_entries p1 p2
            /\ for_each UpdateChildrenForRemoval (ordered stage) p2 = Some p')
    as (p1 & p2 & Hk1 & Hk2 & Hu3).
  { destruct updateDescendants.
    - match type of Hu with
      | (?a ≫= _) = _ => destruct a as [p1 |] eqn:H1; cbn [mbind option_bind] in Hu;
                           [| discriminate]
      end.
      match type of Hu with
      | (?a ≫= _) = _ => destruct a as [p2 |] eqn:H2; cbn [mbind option_bind] in Hu;
                           [| discriminate]
      end.
      exists p1, p2. split; [by eapply update_descendants_loop_keeps_entries |].
      split; [by eapply detach_loop_keeps_entries | done].
    - cbn [mbind option_bind] in Hu.
      match type of Hu with
      | (?a ≫= _) = _ => destruct a as [p2 |] eqn:H2; cbn [mbind option_bind] in Hu;
                           [| discriminate]
      end.
      exists p, p2. split; [apply keeps_entries_refl |].
      split; [by eapply detach_loop_keeps_entries | done]. }
  eapply keeps_entries_trans; [exact Hk1 |]. eapply keeps_entries_trans; [exact Hk2 |].
  eapply for_each_keeps_entries; [| exact Hu3].
  intros x q q'. apply UpdateChildrenForRemoval_keeps_entries.
Qed.

Lemma unindex_inputs_keeps_entries ins p : keeps_entries p (unindex_inputs ins p).
Proof. unfold unindex_inputs. apply foldl_keeps_entries. done. Qed.

Lemma unregister_hash_keeps_entries idx p : keeps_entries p (unregister_hash idx p).
Proof.
  unfold unregister_hash. case_match; [| done]. case_match; [| done].
  match goal with
  | |- keeps_entries p (with_vTxHashes _ (with_mapTx (alter ?g ?k _) p)) =>
      pose proof (alter_keeps_entries g k p) as Hk
  end.
  apply Hk. by intros [].
Qed.

Lemma removeUnchecked_never_adds it reason p p' :
  removeUnchecked it reason p = Some p' ->
  never_adds p p' /\ it ∉ dom (mapTx p').
Proof.
  unfold removeUnchecked. intros Hr.
  destruct (mapTx p !! it) as [e |] eqn:He; cbn [mbind option_bind] in Hr; [| discriminate].
  cbv zeta in Hr. injection Hr as <-.
  pose proof (keeps_entries_trans _ _ _
                (unindex_inputs_keeps_entries (vin (tx e))
                   (emit (NotifyEntryRemoved (GetHash (tx e)) reason) p))
                (unregister_hash_keeps_entries (vTxHashesIdx e) _)) as Hk.
  unfold keeps_entries in Hk. cbn [mapTx emit] in Hk.
  match goal with
  | |- context [erase_entry it e ?q] =>
      set (q3 := erase_entry it e q);
      assert (mapTx q3 = delete it (mapTx q)) as Hm by done
  end.
  assert (forall q4, mapTx q4 = mapTx q3 -> never_adds p q4 /\ it ∉ dom (mapTx q4)) as Hall.
  { intros q4 Hq4. split.
    - unfold never_adds. rewrite Hq4, Hm, fmap_delete, Hk. apply delete_subseteq.
    - rewrite Hq4, Hm, dom_delete. set_solver. }
  match goal with |- never_adds p (if ?b then _ else _) /\ _ => destruct b end;
    by apply Hall.
Qed.

Lemma for_each_never_adds {A} (body : A -> CTxMemPool -> option CTxMemPool) l p p' :
  (forall x q q', body x q = Some q' -> never_adds q q') ->
  for_each body l p = Some p' -> never_adds p p'.
Proof.
  intros Hbody Hrun.
  eapply (for_each_inv (never_adds p)); [| exact Hrun | apply never_adds_refl].
  intros x s s' _ Hx Hs. eapply never_adds_trans; [exact Hs | by eapply Hbody].
Qed.

Lemma RemoveStaged_never_adds stage updateDescendants reason p p' :
  RemoveStaged stage updateDescendants reason p = Some p' -> never_adds p p'.
Proof.
  unfold RemoveStaged. intros Hr.
  destruct (UpdateForRemoveFromMempool stage updateDescendants p) as [p1 |] eqn:H1;
    cbn [mbind option_bind] in Hr; [| discriminate].
  apply UpdateForRemoveFromMempool_keeps_entries, keeps_entries_never_adds in H1.
  eapply never_adds_trans; [exact H1 |].
  eapply for_each_never_adds; [| exact Hr].
  intros x q q' Hx. by apply removeUnchecked_never_adds in Hx as [? _].
Qed.
End KeepsEntries.

Section NeverAdds.
Context `{Externals}.

Lemma removeRecursive_never_adds origTx reason p p' :
  removeRecursive origTx reason p = Some p' -> never_adds p p'.
Proof.
  unfold removeRecursive. intros Hr.
  match type of Hr with
  | (?a ≫= _) = _ => destruct a as [txToRemove |]; cbn [mbind option_bind] in Hr;
                       [| discriminate]
  end.
  match type of Hr with
  | (?a ≫= _) = _ => destruct a as [stage |]; cbn [mbind option_bind] in Hr;
                       [| discriminate]
  end.
  by eapply RemoveStaged_never_adds.
Qed.

Lemma Expire_never_adds time p n p' : Expire time p = Some (n, p') -> never_adds p p'.
Proof.
  unfold Expire. cbv zeta. intros Hr.
  match type of Hr with
  | (?a ≫= _) = _ => destruct a as [stage |]; cbn [mbind option_bind] in Hr;
                       [| discriminate]
  end.
  destruct (RemoveStaged stage false EXPIRY p) as [p1 |] eqn:H1;
    cbn [mbind option_bind] in Hr; [| discriminate].
  injection Hr as _ <-. by eapply RemoveStaged_never_adds.
Qed.

Lemma trackPackageRemoved_keeps_entries rate p : keeps_entries p (trackPackageRemoved rate p).
Proof. unfold trackPackageRemoved. by case_match. Qed.

Section WithComparator.
Variable CompareTxMemPoolEntryByDescendantScore :
  CTxMemPoolEntry -> CTxMemPoolEntry -> bool.

Lemma TrimToSize_pass_never_adds collect acc p acc' p' :
  TrimToSize_pass CompareTxMemPoolEntryByDescendantScore collect acc p = Some (acc', p') ->
  never_adds p p'.
Proof.
  unfold TrimToSize_pass. intros Hr.
  destruct (descendant_score_begin _ p) as [it |]; cbn [mbind option_bind] in Hr;
    [| discriminate].
  destruct (mapTx p !! it) as [e |]; cbn [mbind option_bind] in Hr; [| discriminate].
  cbv zeta in Hr.
  match type of Hr with
  | context [CalculateDescendants ?q0 it ∅] => set (p0 := q0) in *
  end.
  destruct (CalculateDescendants p0 it ∅) as [stage |]; cbn [mbind option_bind] in Hr;
    [| discriminate].
  match type of Hr with
  | (?a ≫= _) = _ => destruct a as [txn |]; cbn [mbind option_bind] in Hr; [| discriminate]
  end.
  destruct (RemoveStaged stage false SIZELIMIT p0) as [p1 |] eqn:H1;
    cbn [mbind option_bind] in Hr; [| discriminate].
  injection Hr as _ <-.
  eapply never_adds_trans; [| by eapply RemoveStaged_never_adds].
  apply keeps_entries_never_adds, trackPackageRemoved_keeps_entries.
Qed.

Lemma TrimToSize_loop_never_adds sizelimit collect fuel : forall acc p acc' p',
  TrimToSize_loop CompareTxMemPoolEntryByDescendantScore fuel sizelimit collect acc p
  = Some (acc', p') ->
  never_adds p p'.
Proof.
  induction fuel as [| fuel IH]; intros acc p acc' p' Hr; cbn [TrimToSize_loop] in Hr.
  - destruct (_ && _); [discriminate |]. injection Hr as _ <-. apply never_adds_refl.
  - destruct (_ && _); [| injection Hr as _ <-; apply never_adds_refl].
    destruct (TrimToSize_pass _ collect acc p) as [[acc1 p1] |] eqn:H1;
      cbn [mbind option_bind fst snd] in Hr; [| discriminate].
    eapply never_adds_trans; [by eapply TrimToSize_pass_never_adds | by eapply IH].
Qed.

Lemma LimitMempoolSize_never_adds now limit age p r :
  LimitMempoolSize CompareTxMemPoolEntryByDescendantScore now limit age p = Some r ->
  never_adds p (snd r).
Proof.
  unfold LimitMempoolSize. intros Hr.
  destruct (Expire (now - age) p) as [[n p1] |] eqn:H1; cbn [mbind option_bind snd] in Hr;
    [| discriminate].
  destruct r as [acc p']. cbn [snd].
  eapply never_adds_trans; [by eapply Expire_never_adds |].
  by eapply TrimToSize_loop_never_adds.
Qed.
End WithComparator.

Lemma index_inputs_keeps_entries newit ins q : keeps_entries q (index_inputs newit ins q).
Proof.
  unfold index_inputs. apply foldl_keeps_entries.
  intros x s. unfold mapNextTx_insert. by case_match.
Qed.

Lemma link_parents_keeps_entries newit ins q : keeps_entries q (link_parents newit ins q).
Proof.
  unfold link_parents. cbv zeta. apply foldl_keeps_entries.
  intros x s. case_match; [apply UpdateParent_keeps_entries | apply keeps_entries_refl].
Qed.

(** [addUnchecked] of an entry whose txid is not in the pool. *)
Lemma addUnchecked_identity hash entry setAncestors validFeeEstimate p p' :
  mapTx p !! GetHash (tx entry) = None ->
  addUnchecked hash entry setAncestors validFeeEstimate p = Some p' ->
  identity_of <$> mapTx p'
  = <[GetHash (tx entry) := identity_of entry]> (identity_of <$> mapTx p).
Proof.
  intros Hfresh Ha. unfold addUnchecked in Ha. cbv zeta in Ha.
  set (newit := GetHash (tx entry)) in *.
  assert (identity_of <$> mapTx (insert_entry entry (emit (NotifyEntryAdded newit) p))
          = <[newit := identity_of entry]> (identity_of <$> mapTx p)) as H0.
  { unfold insert_entry. cbv zeta. cbn [mapTx emit]. fold newit. rewrite Hfresh.
    case_match; cbn; by rewrite fmap_insert. }
  destruct (apply_fee_delta _ _ _) as [p1 |] eqn:H1; cbn [mbind option_bind] in Ha;
    [| discriminate].
  assert (keeps_entries (insert_entry entry (emit (NotifyEntryAdded newit) p)) p1) as Hk1.
  { unfold apply_fee_delta in H1.
    destruct (mapDeltas _ !! hash) as [delta |];
      [| injection H1 as <-; apply keeps_entries_refl].
    destruct (delta =? 0); [injection H1 as <-; apply keeps_entries_refl |].
    eapply modify_keeps_entries; [| exact H1]. intros e e' He.
    injection He as <-. reflexivity. }
  destruct (mapTx p1 !! newit) as [e |]; cbn [mbind option_bind] in Ha; [| discriminate].
  destruct (UpdateAncestorsOf _ _ _ _) as [p2 |] eqn:H2; cbn [mbind option_bind] in Ha;
    [| discriminate].
  apply UpdateAncestorsOf_keeps_entries in H2.
  destruct (UpdateEntryForAncestors _ _ _) as [p3 |] eqn:H3; cbn [mbind option_bind] in Ha;
    [| discriminate].
  apply UpdateEntryForAncestors_keeps_entries in H3.
  injection Ha as <-.
  assert (keeps_entries p1 p2) as Hk2.
  { eapply keeps_entries_trans; [| exact H2].
    eapply keeps_entries_trans; [| apply link_parents_keeps_entries].
    eapply keeps_entries_trans; [| apply index_inputs_keeps_entries].
    done. }
  assert (keeps_entries p3 (register_entry newit entry (GetWitnessHash (tx e))
                              validFeeEstimate p3)) as Hk4.
  { unfold register_entry. cbv zeta.
    match goal with
    | |- keeps_entries p3 (with_mapTx (alter ?g ?k (mapTx ?q)) ?q) =>
        eapply keeps_entries_trans; [| apply (alter_keeps_entries g k q); by intros []]
    end.
    by case_match. }
  unfold keeps_entries in *. rewrite Hk4, H3, Hk2, Hk1, H0. done.
Qed.
End NeverAdds.

(** ** Outcomes of the admission *)

Lemma refuses_bind {A B} (s : step A) (k : A -> step B) :
  refuses s -> (forall a, refuses (k a)) -> refuses (step_bind s k).
Proof. intros Hs Hk. destruct s as [a | r]; [apply Hk | exact Hs]. Qed.

Lemma refuses_or_abort {A} (o : option A) : refuses (or_abort o).
Proof. by destruct o. Qed.

Lemma refuses_reject {A} dos code reason corruption :
  refuses (@reject A dos code reason corruption).
Proof. done. Qed.

Section Refusals.
Context `{Externals}.
Variable CompareTxMemPoolEntryByDescendantScore :
  CTxMemPoolEntry -> CTxMemPoolEntry -> bool.
Variable env : ChainEnv.

Ltac refusal :=
  repeat first
    [ done
    | apply refuses_reject
    | apply refuses_or_abort
    | apply refuses_bind; [| intros ?]
    | case_match ].

Lemma basic_checks_refuses p t : refuses (basic_checks env p t).
Proof. unfold basic_checks. refusal. Qed.

Lemma basic_checks_fresh p t : basic_checks env p t = Continue tt -> mapTx p !! GetHash t = None.
Proof.
  unfold basic_checks, reject. intros Hb.
  destruct (CheckTransaction env t); [discriminate |].
  destruct (IsCoinBase env t); [discriminate |].
  destruct (negb (arg_prematurewitness env) && HasWitness t && negb (witnessEnabled env));
    [discriminate |].
  destruct (if fRequireStandard env then IsStandardTx env t (witnessEnabled env) else None);
    [discriminate |].
  destruct (negb (CheckFinalTx env t)); [discriminate |].
  destruct (exists_ p (GetHash t)) eqn:Hx; [discriminate |].
  unfold exists_ in Hx. apply bool_decide_eq_false in Hx.
  by apply eq_None_not_Some.
Qed.

Lemma find_conflicts_refuses p ins : forall sc, refuses (find_conflicts env p ins sc).
Proof.
  induction ins as [| txin ins IH]; intros sc; cbn [find_conflicts]; [done |].
  destruct (mapNextTx p !! prevout txin); [| apply IH].
  apply refuses_bind; [apply refuses_or_abort |]. intros ptx.
  repeat case_match; try apply IH. apply refuses_reject.
Qed.

Lemma missing_or_known_not_accepted t b : missing_or_known env t b <> Accepted.
Proof. unfold missing_or_known. by case_match. Qed.

Lemma fetch_inputs_refuses p t b ins : forall uncache view,
  refuses (snd (fetch_inputs env p t b ins uncache view)).
Proof.
  induction ins as [| txin ins IH]; intros uncache view; cbn [fetch_inputs]; [done |].
  cbv zeta.
  pose proof (missing_or_known_not_accepted t b) as Hm.
  repeat case_match; try apply IH; cbn [snd refuses];
    destruct (missing_or_known env t b); done.
Qed.

Lemma fee_checks_refuses p t fLimitFree nAcceptTime nAbsurdFee view :
  refuses (snd (fee_checks env p t fLimitFree nAcceptTime nAbsurdFee view)).
Proof.
  unfold fee_checks. cbv zeta. destruct (CheckSequenceLocks env t) as [locks_ok lp].
  repeat match goal with
         | |- context [if ?b then (p, _) else _] => destruct b; [done |]
         end.
  destruct (GetMinFee (GetTime env) (maxmempool_bytes env) p) as [minFee p1].
  repeat match goal with
         | |- context [if ?b then (p1, _) else _] => destruct b; [done |]
         end.
  done.
Qed.

Lemma fee_checks_entry p t fLimitFree nAcceptTime nAbsurdFee view p1 c :
  fee_checks env p t fLimitFree nAcceptTime nAbsurdFee view = (p1, Continue c) ->
  tx (c_entry c) = t.
Proof.
  unfold fee_checks, reject. cbv zeta. destruct (CheckSequenceLocks env t) as [locks_ok lp].
  repeat match goal with
         | |- context [if ?b then (p, _) else _] => destruct b; [intros [=] |]
         end.
  destruct (GetMinFee (GetTime env) (maxmempool_bytes env) p) as [minFee p2].
  repeat match goal with
         | |- context [if ?b then (p2, _) else _] => destruct b; [intros [=] |]
         end.
  intros [= _ <-]. reflexivity.
Qed.

Lemma admission_prefix_refuses p t fLimitFree pfMissingInputs nAcceptTime nAbsurdFee :
  refuses (snd (admission_prefix env p t fLimitFree pfMissingInputs nAcceptTime nAbsurdFee)).
Proof.
  unfold admission_prefix.
  pose proof (basic_checks_refuses p t) as Hb.
  destruct (basic_checks env p t) as [[] | r]; [| exact Hb].
  pose proof (find_conflicts_refuses p (vin t) ∅) as Hf.
  destruct (find_conflicts env p (vin t) ∅) as [sc | r]; [| exact Hf].
  pose proof (fetch_inputs_refuses p t pfMissingInputs (vin t) [] ∅) as Hi.
  destruct (fetch_inputs env p t pfMissingInputs (vin t) [] ∅) as [uncache [view | r]];
    [| exact Hi].
  pose proof (fee_checks_refuses p t fLimitFree nAcceptTime nAbsurdFee view) as Hc.
  destruct (fee_checks env p t fLimitFree nAcceptTime nAbsurdFee view) as [p1 [c | r]];
    [done | exact Hc].
Qed.

(** What the prefix has established when it hands on a candidate. *)
Lemma admission_prefix_candidate p t fLimitFree pfMissingInputs nAcceptTime nAbsurdFee
    uncache p1 sc c :
  admission_prefix env p t fLimitFree pfMissingInputs nAcceptTime nAbsurdFee
  = (uncache, p1, Continue (sc, c)) ->
  mapTx p !! GetHash t = None /\ tx (c_entry c) = t.
Proof.
  unfold admission_prefix. intros Hp.
  destruct (basic_checks env p t) as [[] | r] eqn:Hb; [| discriminate].
  apply basic_checks_fresh in Hb.
  destruct (find_conflicts env p (vin t) ∅) as [sc' | r]; [| discriminate].
  destruct (fetch_inputs env p t pfMissingInputs (vin t) [] ∅) as [uncache' [view | r]];
    [| discriminate].
  destruct (fee_checks env p t fLimitFree nAcceptTime nAbsurdFee view) as [p1' [c' | r]] eqn:Hf;
    [| discriminate].
  cbn in Hp. injection Hp as _ _ _ <-. split; [done |].
  by eapply fee_checks_entry.
Qed.

Lemma direct_conflicts_refuses p rate cs : forall a b n,
  refuses (direct_conflicts p rate cs a b n).
Proof.
  induction cs as [| h cs IH]; intros a b n; cbn [direct_conflicts]; [done |].
  cbv zeta. repeat case_match; try apply IH. apply refuses_reject.
Qed.

Lemma admission_checks_refuses p t c sc : refuses (admission_checks env p t c sc).
Proof.
  unfold admission_checks.
  apply refuses_bind.
  { unfold ancestor_checks. refusal. }
  intros setAncestors. apply refuses_bind.
  { unfold replacement_checks. case_match; [done |].
    apply refuses_bind.
    - unfold replacement_staging. cbv zeta. apply refuses_bind.
      + apply direct_conflicts_refuses.
      + intros [[a b] n]. refusal.
    - intros rep. refusal. }
  intros rep. apply refuses_bind.
  { unfold script_checks. by case_match. }
  intros _. apply refuses_bind.
  { unfold reconcile_checks. cbv zeta. refusal. }
  done.
Qed.
End Refusals.

Lemma identity_of_tx e e' : identity_of e' = identity_of e -> tx e' = tx e.
Proof. unfold identity_of. by intros [= -> _ _ _ _ _ _ _]. Qed.

Section Outcomes.
Context `{Externals}.
Variable CompareTxMemPoolEntryByDescendantScore :
  CTxMemPoolEntry -> CTxMemPoolEntry -> bool.
Variable env : ChainEnv.

(** The three ways [commit] ends. *)
Lemma commit_outcomes p t c setAncestors rep fOverrideMempoolLimit uncache :
  let w := commit CompareTxMemPoolEntryByDescendantScore env p t c setAncestors rep
             fOverrideMempoolLimit uncache in
  w_result w = Accepted \/ w_result w = Rejected mempool_full \/ w_result w = Aborted.
Proof.
  unfold commit. cbv zeta. repeat case_match; cbn; tauto.
Qed.

(** X9. A call of [AcceptToMemoryPoolWorker] that refuses the transaction
    before the commit, with a rejection other than "mempool full", with
    missing inputs or with a fatal error, leaves the pool as it was, up to
    the rolling fee rate that [GetMinFee] refreshes. *)
Theorem refusal_leaves_the_pool (p : CTxMemPool) (t : CTransaction)
    (fLimitFree pfMissingInputs : bool) (nAcceptTime : Z)
    (fOverrideMempoolLimit : bool) (nAbsurdFee : Z) :
  let w := AcceptToMemoryPoolWorker CompareTxMemPoolEntryByDescendantScore env p t
             fLimitFree pfMissingInputs nAcceptTime fOverrideMempoolLimit nAbsurdFee in
  refused_before_commit (w_result w) ->
  same_up_to_fee_decay p (w_pool w).
Proof.
  cbv zeta. unfold AcceptToMemoryPoolWorker.
  pose proof (admission_prefix_same env p t fLimitFree
                pfMissingInputs nAcceptTime nAbsurdFee) as Hs.
  destruct (admission_prefix env p t fLimitFree pfMissingInputs nAcceptTime nAbsurdFee)
    as [[uncache p1] [[sc c] | r]]; cbn [fst snd] in Hs; [| done].
  destruct (admission_checks env p1 t c sc) as [[setAncestors rep] | r]; [| done].
  intros Href.
  destruct (commit_outcomes p1 t c setAncestors rep fOverrideMempoolLimit uncache)
    as [Hr | [Hr | Hr]]; rewrite Hr in Href; cbn in Href; done.
Qed.

(** X10. When [AcceptToMemoryPoolWorker] accepts a transaction, the pool
    it leaves holds that transaction under its txid. *)
Theorem accepted_transaction_is_in_the_pool (p : CTxMemPool) (t : CTransaction)
    (fLimitFree pfMissingInputs : bool) (nAcceptTime : Z)
    (fOverrideMempoolLimit : bool) (nAbsurdFee : Z) :
  let w := AcceptToMemoryPoolWorker CompareTxMemPoolEntryByDescendantScore env p t
             fLimitFree pfMissingInputs nAcceptTime fOverrideMempoolLimit nAbsurdFee in
  w_result w = Accepted ->
  get (w_pool w) (GetHash t) = Some t.
Proof.
  cbv zeta. unfold AcceptToMemoryPoolWorker.
  pose proof (admission_prefix_same env p t fLimitFree
                pfMissingInputs nAcceptTime nAbsurdFee) as Hs.
  pose proof (admission_prefix_refuses env p t fLimitFree pfMissingInputs nAcceptTime
                nAbsurdFee) as Hr.
  destruct (admission_prefix env p t fLimitFree pfMissingInputs nAcceptTime nAbsurdFee)
    as [[uncache p1] [[sc c] | r]] eqn:Hp; cbn [fst snd] in Hs, Hr.
  2:{ cbn. intros ->. done. }
  destruct (admission_prefix_candidate env p t fLimitFree pfMissingInputs nAcceptTime
              nAbsurdFee uncache p1 sc c Hp) as [Hfresh Htx].
  apply same_up_to_fee_decay_contents in Hs as (Hm1 & _).
  pose proof (admission_checks_refuses env p1 t c sc) as Hc.
  destruct (admission_checks env p1 t c sc) as [[setAncestors rep] | r].
  2:{ cbn. intros ->. done. }
  unfold commit. cbv zeta.
  destruct (mapM _ (ordered (allConflicting rep))) as [replaced |]; [| done].
  destruct (RemoveStaged (allConflicting rep) false REPLACED p1) as [p2 |] eqn:H2; [| done].
  apply RemoveStaged_never_adds in H2.
  assert (mapTx p2 !! GetHash (tx (c_entry c)) = None) as Hfresh2.
  { rewrite Htx. destruct (mapTx p2 !! GetHash t) as [e2 |] eqn:He2; [| done].
    destruct (never_adds_lookup p1 p2 _ e2 H2 He2) as (e1 & He1 & _). congruence. }
  destruct (addUnchecked (GetHash t) (c_entry c) setAncestors false p2) as [p3 |] eqn:H3;
    [| done].
  pose proof (addUnchecked_identity _ _ _ _ _ _ Hfresh2 H3) as Hid.
  assert (exists e3, mapTx p3 !! GetHash t = Some e3 /\ tx e3 = t) as (e3 & He3 & Htx3).
  { apply (f_equal (fun m => m !! GetHash t)) in Hid.
    rewrite Htx, lookup_insert_eq, lookup_fmap in Hid.
    destruct (mapTx p3 !! GetHash t) as [e3 |]; [| done]. exists e3. split; [done |].
    cbn [fmap option_fmap option_map] in Hid. apply (inj Some) in Hid.
    apply identity_of_tx in Hid. congruence. }
  destruct fOverrideMempoolLimit.
  { intros _. cbn. unfold get. cbn. rewrite He3. cbn. by rewrite Htx3. }
  destruct (LimitMempoolSize _ _ _ _ p3) as [[acc p4] |] eqn:H4; [| done].
  apply LimitMempoolSize_never_adds in H4. cbn [snd] in H4.
  destruct (exists_ p4 (GetHash t)) eqn:Hex; cbn [negb]; [| done].
  intros _. cbn. unfold exists_ in Hex. apply bool_decide_eq_true in Hex as [e4 He4].
  destruct (never_adds_lookup p3 p4 _ e4 H4 He4) as (e3' & He3' & Hid4).
  unfold get. cbn. rewrite He4. cbn. f_equal.
  apply identity_of_tx in Hid4. congruence.
Qed.
End Outcomes.

(** The orphan is turned away, and the pool of three is as it was. *)
Lemma refusal_witness :
  let w := demo_admit demo_env chain_pool tx_orphan in
  refused_before_commit (w_result w) /\ same_up_to_fee_decay chain_pool (w_pool w).
Proof.
  cbv zeta.
  assert (refused_before_commit (w_result (demo_admit demo_env chain_pool tx_orphan))) as Hr
    by (by vm_compute).
  split; [exact Hr |].
  exact (refusal_leaves_the_pool (H := demo_externals) demo_cmp demo_env chain_pool tx_orphan
           true true 1500000000 false 0 Hr).
Defined.

(** [tx_bump] is accepted into the empty pool. *)
Lemma accepted_witness :
  get (w_pool (demo_admit demo_env demo_pool tx_bump)) (GetHash tx_bump) = Some tx_bump.
Proof.
  apply (accepted_transaction_is_in_the_pool (H := demo_externals) demo_cmp demo_env
           demo_pool tx_bump true true 1500000000 false 0).
  by vm_compute.
Defined.

Section NeverAddsClaims.
Context `{Externals}.

(** X11. Whatever the pool, a removal that returns has added no entry
    and has left the transaction, fee, weight, time and height of every
    entry it kept as they were: this holds of [RemoveStaged] with either
    flag, of [removeRecursive], of [Expire], of [TrimToSize] and of
    [LimitMempoolSize]. *)
Theorem removals_never_add
    (cmp : CTxMemPoolEntry -> CTxMemPoolEntry -> bool) (p p' : CTxMemPool) :
  (forall stage updateDescendants reason,
     RemoveStaged stage updateDescendants reason p = Some p' -> never_adds p p')
  /\ (forall origTx reason, removeRecursive origTx reason p = Some p' -> never_adds p p')
  /\ (forall time n, Expire time p = Some (n, p') -> never_adds p p')
  /\ (forall sizelimit collect reported,
        TrimToSize cmp sizelimit collect p = Some (reported, p') -> never_adds p p')
  /\ (forall now limit age uncache,
        LimitMempoolSize cmp now limit age p = Some (uncache, p') -> never_adds p p').
Proof.
  split; [intros; by eapply RemoveStaged_never_adds |].
  split; [intros; by eapply removeRecursive_never_adds |].
  split; [intros; by eapply Expire_never_adds |].
  split.
  - intros sizelimit collect reported Hr. unfold TrimToSize in Hr.
    by eapply TrimToSize_loop_never_adds.
  - intros now limit age uncache Hr.
    by apply LimitMempoolSize_never_adds in Hr.
Qed.

(** X12. When [addUnchecked] of an entry whose txid is not in the pool
    returns, the pool holds the transaction of the entry under that txid,
    and it holds the entries it held, each with its transaction, fee,
    weight, time and height. *)
Theorem addUnchecked_inserts (hash : uint256) (entry : CTxMemPoolEntry)
    (setAncestors : gset uint256) (validFeeEstimate : bool) (p p' : CTxMemPool) :
  mapTx p !! GetHash (tx entry) = None ->
  addUnchecked hash entry setAncestors validFeeEstimate p = Some p' ->
  get p' (GetHash (tx entry)) = Some (tx entry)
  /\ dom (mapTx p') = {[GetHash (tx entry)]} ∪ dom (mapTx p)
  /\ identity_of <$> mapTx p'
     = <[GetHash (tx entry) := identity_of entry]> (identity_of <$> mapTx p).
Proof.
  intros Hfresh Ha. pose proof (addUnchecked_identity _ _ _ _ _ _ Hfresh Ha) as Hid.
  split; [| split; [| done]].
  - apply (f_equal (fun m => m !! GetHash (tx entry))) in Hid.
    rewrite lookup_insert_eq, lookup_fmap in Hid. unfold get.
    destruct (mapTx p' !! GetHash (tx entry)) as [e' |]; [| done].
    cbn [fmap option_fmap option_map] in Hid. apply (inj Some) in Hid.
    apply identity_of_tx in Hid. cbn. by rewrite Hid.
  - apply (f_equal dom) in Hid. by rewrite dom_insert_L, !dom_fmap_L in Hid.
Qed.
End NeverAddsClaims.

Lemma removals_never_add_witness :
  exists p', @RemoveStaged demo_externals {[3%N]} true BLOCK family = Some p'
             /\ never_adds family p'.
Proof.
  destruct (@RemoveStaged demo_externals {[3%N]} true BLOCK family) as [p' |] eqn:Hr.
  - exists p'. split; [done |].
    by apply (proj1 (removals_never_add (H := demo_externals) demo_cmp family p')
                {[3%N]} true BLOCK).
  - by vm_compute in Hr.
Defined.

Lemma addUnchecked_inserts_witness :
  exists p',
    @addUnchecked demo_externals 7%N (demo_entry tx_rich 5000) ∅ false family = Some p'
    /\ get p' 7%N = Some tx_rich
    /\ dom (mapTx p') = {[7%N]} ∪ dom (mapTx family).
Proof.
  destruct (@addUnchecked demo_externals 7%N (demo_entry tx_rich 5000) ∅ false family)
    as [p' |] eqn:Ha.
  - exists p'. split; [done |].
    destruct (addUnchecked_inserts (H := demo_externals) 7%N (demo_entry tx_rich 5000) ∅
                false family p') as (H1 & H2 & _); [by vm_compute | done |].
    split; [exact H1 | exact H2].
  - by vm_compute in Ha.
Defined.

Section Reweigh.
Context `{Externals}.

Lemma weight_of_lookup p q h e' :
  weight_of <$> mapTx q = weight_of <$> mapTx p ->
  mapTx q !! h = Some e' ->
  exists e, mapTx p !! h = Some e /\ weight_of e' = weight_of e.
Proof.
  intros Hw He'. apply (f_equal (fun m => m !! h)) in Hw.
  rewrite !lookup_fmap, He' in Hw. destruct (mapTx p !! h) as [e |]; [| done].
  cbn [fmap option_fmap option_map] in Hw. apply (inj Some) in Hw. eauto.
Qed.

Lemma weight_of_tx e e' : weight_of e' = weight_of e -> tx e' = tx e.
Proof. unfold weight_of. by intros [= -> _ _ _ _]. Qed.

Lemma weight_of_GetTxSize e e' : weight_of e' = weight_of e -> GetTxSize e' = GetTxSize e.
Proof. unfold weight_of, GetTxSize. by intros [= _ -> -> _ _]. Qed.

Lemma weight_of_desc e e' :
  weight_of e' = weight_of e ->
  nSizeWithDescendants e' = nSizeWithDescendants e
  /\ nCountWithDescendants e' = nCountWithDescendants e.
Proof. unfold weight_of. by intros [= _ _ _ -> ->]. Qed.

(** The invariants that do not read the fees hold of a pool with the
    same links whose entries weigh the same. *)
Lemma well_formed_reweigh p q :
  mapLinks q = mapLinks p ->
  weight_of <$> mapTx q = weight_of <$> mapTx p ->
  map_Forall (fun _ e => aggregates_in_range e) (mapTx q) ->
  well_formed p -> well_formed q.
Proof.
  intros Hlk Hw Hr (Hl & Hsym & Hk & _ & Hpos & Hacc).
  assert (dom (mapTx q) = dom (mapTx p)) as Hd.
  { apply (f_equal dom) in Hw. by rewrite !dom_fmap_L in Hw. }
  assert (same_graph p q) as Hg by done.
  assert (forall h, ancestors_of q h = ancestors_of p h) as Hanc.
  { intros h. unfold ancestors_of. destruct (mapTx q !! h) as [e' |] eqn:He'.
    - destruct (weight_of_lookup p q h e' Hw He') as (e & He & Hee). rewrite He.
      by rewrite (CalculateMemPoolAncestors_frame p q e e' Hg (f_equal GetHash (weight_of_tx _ _ Hee))).
    - apply not_elem_of_dom in He'. rewrite Hd in He'. apply not_elem_of_dom in He'.
      by rewrite He'. }
  assert (forall a s, below q a s = below p a s) as Hbelow.
  { intros a s. apply set_eq. intros r. by rewrite !elem_of_below, Hanc. }
  assert (forall h, from_option GetTxSize 0 (mapTx q !! h)
                    = from_option GetTxSize 0 (mapTx p !! h)) as Hsz.
  { intros h. destruct (mapTx q !! h) as [e' |] eqn:He'.
    - destruct (weight_of_lookup p q h e' Hw He') as (e & -> & Hee). cbn.
      by apply weight_of_GetTxSize.
    - apply not_elem_of_dom in He'. rewrite Hd in He'. apply not_elem_of_dom in He'.
      by rewrite He'. }
  split; [| split; [| split; [| split; [| split]]]].
  - by apply (same_graph_links_closed p q).
  - unfold links_symmetric, links_at. by rewrite Hlk.
  - intros h e' He'. destruct (weight_of_lookup p q h e' Hw He') as (e & He & Hee).
    cbn. rewrite (weight_of_tx _ _ Hee). apply (Hk _ _ He).
  - done.
  - intros h e' He'. destruct (weight_of_lookup p q h e' Hw He') as (e & He & Hee).
    cbn. rewrite (weight_of_GetTxSize _ _ Hee). apply (Hpos _ _ He).
  - intros a e' He'. destruct (weight_of_lookup p q a e' Hw He') as (e & He & Hee).
    cbn. rewrite Hd, Hbelow. destruct (weight_of_desc _ _ Hee) as [-> ->].
    rewrite (weight_of_GetTxSize _ _ Hee).
    rewrite (sum_over_ext (mapTx q) (mapTx p) GetTxSize GetTxSize) by (intros; apply Hsz).
    apply (Hacc a e He).
Qed.

Lemma weight_of_map_at s g m :
  (forall e, weight_of (g e) = weight_of e) ->
  weight_of <$> map_at s g m = weight_of <$> m.
Proof.
  intros Hg. apply map_eq. intros h. rewrite !lookup_fmap, lookup_map_at.
  destruct (m !! h) as [e |]; cbn; [| done]. case_decide; by rewrite ?Hg.
Qed.

(** X13. On a well-formed pool, [PrioritiseTransaction] of a transaction
    of the pool returns. It records the new total for the txid in
    [mapDeltas] and sets the fee delta of the entry to it, it adds the
    amount to the descendant fees of every ancestor of the entry and to
    the ancestor fees of every other descendant, it changes no other
    entry and no link, and the pool it leaves is well formed. *)
Theorem PrioritiseTransaction_moves_fees (p : CTxMemPool) (hash : uint256)
    (nFeeDelta : Z) (e0 : CTxMemPoolEntry) :
  well_formed p ->
  mapTx p !! hash = Some e0 ->
  let delta := default 0 (mapDeltas p !! hash) + nFeeDelta in
  exists p' A D,
    PrioritiseTransaction hash nFeeDelta p = Some p'
    /\ (forall y, y ∈ A <-> ancestor p hash y)
    /\ (forall y, y ∈ D <-> descendant p hash y /\ y <> hash)
    /\ mapTx p' = map_at D (add_anc_fee nFeeDelta)
                    (map_at A (add_desc_fee nFeeDelta)
                       (map_at {[hash]} (UpdateFeeDelta delta) (mapTx p)))
    /\ mapLinks p' = mapLinks p
    /\ mapDeltas p' = <[hash := delta]> (mapDeltas p)
    /\ well_formed p'.
Proof.
  intros Hwf He0 delta. pose proof Hwf as (Hl & Hsym & Hk & Hr & Hpos & Hacc).
  assert (GetHash (tx e0) = hash) as Hh0 by apply (Hk _ _ He0).
  assert (hash ∈ dom (mapTx p)) as Hin by (apply elem_of_dom; eauto).
  destruct (CalculateMemPoolAncestors_nolimit p e0 Hl) as (A & HA & HAspec);
    [by rewrite Hh0 |].
  destruct (CalculateDescendants_spec p hash ∅ Hl Hin) as (D & HD & HDspec); [set_solver |].
  destruct (PrioritiseTransaction_spec p hash nFeeDelta e0 A D Hl Hk Hr He0 HA HD)
    as (p' & Hp' & Htx & Hlk & Hdl).
  exists p', A, (D ∖ {[hash]}).
  split; [done |]. split; [intros y; by rewrite HAspec, Hh0 |].
  split; [intros y; rewrite elem_of_difference, HDspec; set_solver |].
  split; [done |]. split; [done |]. split; [done |].
  apply (well_formed_reweigh p p'); [done | | | done].
  - rewrite Htx. by rewrite !weight_of_map_at.
  - rewrite Htx. repeat apply map_at_in_range; try done; by intros e (? & ? & ? & ? & ?).
Qed.
End Reweigh.


Lemma PrioritiseTransaction_moves_fees_witness :
  exists p', @PrioritiseTransaction demo_externals 2%N 500 chain_pool = Some p'
             /\ well_formed (H := demo_externals) p'.
Proof.
  match eval vm_compute in (mapTx chain_pool !! 2%N) with
  | Some ?e =>
      destruct (PrioritiseTransaction_moves_fees (H := demo_externals) chain_pool 2%N 500 e)
        as (p' & A & D & Hp' & _ & _ & _ & _ & _ & Hwf')
  end.
  - apply (bool_decide_unpack _). by vm_compute.
  - by vm_compute.
  - exists p'. split; [exact Hp' | exact Hwf'].
Defined.

(** ** What the bookkeeping of an insertion leaves of the entries *)

Section KeepsDeltas.
Context `{Externals}.

Lemma modify_mapDeltas it f p p' : modify it f p = Some p' -> mapDeltas p' = mapDeltas p.
Proof. intros Hm. by apply modify_inv in Hm as (e & e' & _ & _ & ->). Qed.

Lemma for_each_mapDeltas {A} (body : A -> CTxMemPool -> option CTxMemPool) l p p' :
  (forall x q q', body x q = Some q' -> mapDeltas q' = mapDeltas q) ->
  for_each body l p = Some p' -> mapDeltas p' = mapDeltas p.
Proof.
  intros Hbody Hrun.
  eapply (for_each_inv (fun q => mapDeltas q = mapDeltas p)); [| exact Hrun | done].
  intros x s s' _ Hx Hs. rewrite <- Hs. by eapply Hbody.
Qed.

Lemma foldl_mapDeltas {A} (body : CTxMemPool -> A -> CTxMemPool) l p :
  (forall x q, mapDeltas (body q x) = mapDeltas q) -> mapDeltas (foldl body p l) = mapDeltas p.
Proof.
  intros Hbody. apply (foldl_inv (fun q => mapDeltas q = mapDeltas p)); [| done].
  intros x s _ Hs. by rewrite Hbody.
Qed.

Lemma UpdateAncestorsOf_mapDeltas add it setAncestors p p' :
  UpdateAncestorsOf add it setAncestors p = Some p' -> mapDeltas p' = mapDeltas p.
Proof.
  unfold UpdateAncestorsOf. intros Hu.
  destruct (GetMemPoolParents p it) as [ps |]; cbn [mbind option_bind] in Hu; [| discriminate].
  match type of Hu with
  | context [foldl ?body p ?l] =>
      assert (mapDeltas (foldl body p l) = mapDeltas p) as Hk
        by (apply foldl_mapDeltas; intros x q; unfold UpdateChild; by repeat case_match);
      destruct (mapTx (foldl body p l) !! it) as [e |]; cbn [mbind option_bind] in Hu;
        [| discriminate]
  end.
  rewrite <- Hk. eapply for_each_mapDeltas; [| exact Hu].
  intros x q q' Hm. exact (modify_mapDeltas _ _ _ _ Hm).
Qed.

Lemma UpdateEntryForAncestors_mapDeltas it setAncestors p p' :
  UpdateEntryForAncestors it setAncestors p = Some p' -> mapDeltas p' = mapDeltas p.
Proof.
  unfold UpdateEntryForAncestors. intros Hu.
  destruct (for_each _ (ordered setAncestors) (0, 0, 0)) as [[[a b] c] |];
    cbn [mbind option_bind] in Hu; [| discriminate].
  exact (modify_mapDeltas _ _ _ _ Hu).
Qed.

Lemma index_inputs_mapDeltas newit ins q : mapDeltas (index_inputs newit ins q) = mapDeltas q.
Proof.
  unfold index_inputs. apply foldl_mapDeltas.
  intros x s. unfold mapNextTx_insert. by case_match.
Qed.

Lemma link_parents_mapDeltas newit ins q : mapDeltas (link_parents newit ins q) = mapDeltas q.
Proof.
  unfold link_parents. cbv zeta. apply foldl_mapDeltas.
  intros x s. case_match; [| done]. unfold UpdateParent. by repeat case_match.
Qed.

Lemma register_entry_mapDeltas newit entry w v q :
  mapDeltas (register_entry newit entry w v q) = mapDeltas q.
Proof. unfold register_entry. cbv zeta. cbn. by case_match. Qed.
End KeepsDeltas.

Section Keeps.
Context `{Externals}.
Context {X : Type} (proj : CTxMemPoolEntry -> X).
Hypothesis proj_desc : forall e s f c, proj (set_desc e s f c) = proj e.
Hypothesis proj_anc : forall e s f c o, proj (set_anc e s f c o) = proj e.
Hypothesis proj_idx : forall e i, proj (set_vTxHashesIdx i e) = proj e.

Lemma keeps_refl p : keeps proj p p.
Proof. done. Qed.

Lemma keeps_trans p q r : keeps proj p q -> keeps proj q r -> keeps proj p r.
Proof. unfold keeps. congruence. Qed.

Lemma modify_keeps it f p p' :
  (forall e e', f e = Some e' -> proj e' = proj e) ->
  modify it f p = Some p' -> keeps proj p p'.
Proof.
  intros Hf Hm. apply modify_inv in Hm as (e & e' & He & Hfe & ->).
  unfold keeps. cbn. rewrite fmap_insert. apply insert_id.
  rewrite lookup_fmap, He. cbn. f_equal. symmetry. by apply Hf.
Qed.

Lemma UpdateDescendantState_keeps a b c e e' :
  UpdateDescendantState a b c e = Some e' -> proj e' = proj e.
Proof.
  unfold UpdateDescendantState. intros Hu. cbv zeta in Hu.
  repeat match type of Hu with
         | (if ?b then _ else _) = _ => destruct b; [discriminate |]
         end.
  apply (inj Some) in Hu. subst e'. apply proj_desc.
Qed.

Lemma UpdateAncestorState_keeps a b c d e e' :
  UpdateAncestorState a b c d e = Some e' -> proj e' = proj e.
Proof.
  unfold UpdateAncestorState. intros Hu. cbv zeta in Hu.
  repeat match type of Hu with
         | (if ?b then _ else _) = _ => destruct b; [discriminate |]
         end.
  apply (inj Some) in Hu. subst e'. apply proj_anc.
Qed.

Lemma for_each_keeps {A} (body : A -> CTxMemPool -> option CTxMemPool) l p p' :
  (forall x q q', body x q = Some q' -> keeps proj q q') ->
  for_each body l p = Some p' -> keeps proj p p'.
Proof.
  intros Hbody Hrun.
  eapply (for_each_inv (keeps proj p)); [| exact Hrun | apply keeps_refl].
  intros x s s' _ Hx Hs. eapply keeps_trans; [exact Hs | by eapply Hbody].
Qed.

Lemma foldl_keeps {A} (body : CTxMemPool -> A -> CTxMemPool) l p :
  (forall x q, keeps proj q (body q x)) -> keeps proj p (foldl body p l).
Proof.
  intros Hbody. apply (foldl_inv (keeps proj p)); [| apply keeps_refl].
  intros x s _ Hs. eapply keeps_trans; [exact Hs | apply Hbody].
Qed.

Lemma UpdateAncestorsOf_keeps add it setAncestors p p' :
  UpdateAncestorsOf add it setAncestors p = Some p' -> keeps proj p p'.
Proof.
  unfold UpdateAncestorsOf. intros Hu.
  destruct (GetMemPoolParents p it) as [ps |]; cbn [mbind option_bind] in Hu; [| discriminate].
  match type of Hu with
  | context [foldl ?body p ?l] =>
      assert (keeps proj p (foldl body p l)) as Hk
        by (apply foldl_keeps; intros x q; unfold UpdateChild; by repeat case_match);
      destruct (mapTx (foldl body p l) !! it) as [e |]; cbn [mbind option_bind] in Hu;
        [| discriminate]
  end.
  eapply keeps_trans; [exact Hk |].
  eapply for_each_keeps; [| exact Hu].
  intros x q q' Hm. eapply modify_keeps; [| exact Hm].
  apply UpdateDescendantState_keeps.
Qed.

Lemma UpdateEntryForAncestors_keeps it setAncestors p p' :
  UpdateEntryForAncestors it setAncestors p = Some p' -> keeps proj p p'.
Proof.
  unfold UpdateEntryForAncestors. intros Hu.
  destruct (for_each _ (ordered setAncestors) (0, 0, 0)) as [[[a b] c] |];
    cbn [mbind option_bind] in Hu; [| discriminate].
  eapply modify_keeps; [| exact Hu]. apply UpdateAncestorState_keeps.
Qed.

Lemma index_inputs_keeps newit ins q : keeps proj q (index_inputs newit ins q).
Proof.
  unfold index_inputs. apply foldl_keeps.
  intros x s. unfold mapNextTx_insert. by case_match.
Qed.

Lemma link_parents_keeps newit ins q : keeps proj q (link_parents newit ins q).
Proof.
  unfold link_parents. cbv zeta. apply foldl_keeps.
  intros x s. case_match; [| apply keeps_refl]. unfold UpdateParent. by repeat case_match.
Qed.

Lemma register_entry_keeps newit entry w v q :
  keeps proj q (register_entry newit entry w v q).
Proof.
  unfold register_entry. cbv zeta.
  match goal with
  | |- keeps proj q (with_mapTx (alter ?g ?k (mapTx ?q')) ?q') =>
      assert (keeps proj q q') as Hq by (by case_match);
      eapply keeps_trans; [exact Hq |]
  end.
  unfold keeps. cbn [mapTx with_mapTx]. apply map_eq. intros h.
  rewrite !lookup_fmap. destruct (decide (h = newit)) as [-> | Hne].
  - rewrite lookup_alter_eq.
    match goal with |- _ <$> (_ <$> ?o) = _ => destruct o end; cbn; [| done].
    by rewrite proj_idx.
  - by rewrite lookup_alter_ne.
Qed.

(** What [addUnchecked] does after it has applied the fee delta. *)
Lemma addUnchecked_after_delta hash entry setAncestors validFeeEstimate p p' :
  addUnchecked hash entry setAncestors validFeeEstimate p = Some p' ->
  exists p1,
    apply_fee_delta hash (GetHash (tx entry))
      (insert_entry entry (emit (NotifyEntryAdded (GetHash (tx entry))) p)) = Some p1
    /\ keeps proj p1 p'
    /\ mapDeltas p' = mapDeltas p1.
Proof.
  intros Ha. unfold addUnchecked in Ha. cbv zeta in Ha.
  set (newit := GetHash (tx entry)) in *.
  destruct (apply_fee_delta _ _ _) as [p1 |] eqn:H1; cbn [mbind option_bind] in Ha;
    [| discriminate].
  exists p1. split; [done |].
  destruct (mapTx p1 !! newit) as [e |]; cbn [mbind option_bind] in Ha; [| discriminate].
  destruct (UpdateAncestorsOf _ _ _ _) as [p2 |] eqn:H2; cbn [mbind option_bind] in Ha;
    [| discriminate].
  destruct (UpdateEntryForAncestors _ _ _) as [p3 |] eqn:H3; cbn [mbind option_bind] in Ha;
    [| discriminate].
  injection Ha as <-.
  split.
  - eapply keeps_trans; [| apply register_entry_keeps].
    eapply keeps_trans; [| by eapply UpdateEntryForAncestors_keeps].
    eapply keeps_trans; [| by eapply UpdateAncestorsOf_keeps].
    eapply keeps_trans; [| apply link_parents_keeps].
    eapply keeps_trans; [| apply index_inputs_keeps].
    done.
  - rewrite register_entry_mapDeltas, (UpdateEntryForAncestors_mapDeltas _ _ _ _ H3),
      (UpdateAncestorsOf_mapDeltas _ _ _ _ _ H2), link_parents_mapDeltas,
      index_inputs_mapDeltas.
    done.
Qed.
End Keeps.

Section Arrival.
Context `{Externals}.

(** X14. A fee delta recorded before the transaction arrives is applied
    when it arrives. [PrioritiseTransaction] of a txid that is not in the
    pool returns and changes nothing but [mapDeltas]; when [addUnchecked]
    then adds an entry for that txid, built with no fee delta of its own,
    the pool holds the entry with the recorded total as its fee delta, so
    that its modified fee is its fee plus that total; the fee deltas of
    the other entries and [mapDeltas] are as they were. *)
Theorem prioritised_before_arrival (p : CTxMemPool) (nFeeDelta : Z)
    (entry : CTxMemPoolEntry) (setAncestors : gset uint256) (validFeeEstimate : bool)
    (p' : CTxMemPool) :
  let hash := GetHash (tx entry) in
  let delta := default 0 (mapDeltas p !! hash) + nFeeDelta in
  let p1 := with_mapDeltas (<[hash := delta]> (mapDeltas p)) p in
  mapTx p !! hash = None ->
  feeDelta entry = 0 ->
  addUnchecked hash entry setAncestors validFeeEstimate p1 = Some p' ->
  PrioritiseTransaction hash nFeeDelta p = Some p1
  /\ (exists e', mapTx p' !! hash = Some e' /\ feeDelta e' = delta
                 /\ GetModifiedFee e' = nFee entry + delta)
  /\ (forall h, h <> hash -> feeDelta <$> mapTx p' !! h = feeDelta <$> mapTx p !! h)
  /\ mapDeltas p' = <[hash := delta]> (mapDeltas p).
Proof.
  intros hash delta p1 Hfresh Hzero Ha.
  split.
  { unfold PrioritiseTransaction. cbv zeta. cbn [mapTx with_mapDeltas]. by rewrite Hfresh. }
  destruct (addUnchecked_after_delta feeDelta (fun _ _ _ _ => eq_refl)
              (fun _ _ _ _ _ => eq_refl) (fun _ _ => eq_refl) _ _ _ _ _ _ Ha)
    as (p2 & H2 & Hk & Hd).
  destruct (addUnchecked_after_delta nFee (fun _ _ _ _ => eq_refl)
              (fun _ _ _ _ _ => eq_refl) (fun _ _ => eq_refl) _ _ _ _ _ _ Ha)
    as (p2' & H2' & Hk' & _).
  fold hash in H2, H2'. rewrite H2 in H2'. injection H2' as <-.
  set (p0 := insert_entry entry (emit (NotifyEntryAdded hash) p1)) in *.
  assert (mapTx p0 = <[hash := entry]> (mapTx p) /\ mapDeltas p0 = mapDeltas p1) as [Htx0 Hd0].
  { unfold p0, insert_entry, p1. cbv zeta. cbn [mapTx emit with_mapDeltas]. fold hash.
    rewrite Hfresh. by case_match. }
  assert (exists e2, mapTx p2 = <[hash := e2]> (mapTx p) /\ feeDelta e2 = delta
                     /\ nFee e2 = nFee entry /\ mapDeltas p2 = mapDeltas p1)
    as (e2 & Htx2 & Hfd2 & Hfee2 & Hd2).
  { unfold apply_fee_delta in H2. rewrite Hd0 in H2. unfold p1 at 1 in H2.
    cbn [mapDeltas with_mapDeltas] in H2. rewrite lookup_insert_eq in H2. destruct (delta =? 0) eqn:Ez.
    - injection H2 as <-. exists entry. apply Z.eqb_eq in Ez. by rewrite Ez.
    - apply modify_inv in H2 as (e & e2 & He & He2 & ->).
      rewrite Htx0, lookup_insert_eq in He. injection He as <-. injection He2 as <-.
      exists (UpdateFeeDelta delta entry). cbn [mapTx with_mapTx mapDeltas].
      rewrite Htx0, insert_insert_eq. done. }
  split; [| split].
  - unfold keeps in Hk, Hk'.
    apply (f_equal (fun m => m !! hash)) in Hk, Hk'.
    rewrite !lookup_fmap, Htx2, lookup_insert_eq in Hk, Hk'.
    destruct (mapTx p' !! hash) as [e' |]; [| done].
    cbn [fmap option_fmap option_map] in Hk, Hk'. apply (inj Some) in Hk, Hk'.
    exists e'. split; [done |]. unfold GetModifiedFee. split; lia.
  - intros h Hne. unfold keeps in Hk. apply (f_equal (fun m => m !! h)) in Hk.
    rewrite !lookup_fmap, Htx2, lookup_insert_ne in Hk by done. done.
  - by rewrite Hd, Hd2.
Qed.
End Arrival.

Lemma prioritised_before_arrival_witness :
  exists p',
    @addUnchecked demo_externals 7%N (demo_entry tx_rich 5000) ∅ false
      (with_mapDeltas (<[7%N := 250]> (mapDeltas family)) family) = Some p'
    /\ modified_fee_of p' 7%N = Some 5250.
Proof.
  destruct (@addUnchecked demo_externals 7%N (demo_entry tx_rich 5000) ∅ false
              (with_mapDeltas (<[7%N := 250]> (mapDeltas family)) family)) as [p' |] eqn:Ha.
  - exists p'. split; [done |].
    destruct (prioritised_before_arrival (H := demo_externals) family 250
                (demo_entry tx_rich 5000) ∅ false p')
      as (_ & (e' & He' & _ & Hm) & _); [by vm_compute | by vm_compute | exact Ha |].
    unfold modified_fee_of. change (GetHash (tx (demo_entry tx_rich 5000))) with 7%N in He'.
    rewrite He'. cbn [fmap option_fmap option_map]. f_equal. rewrite Hm. by vm_compute.
  - by vm_compute in Ha.
Defined.

(** ** The ancestors of a transaction that arrives *)

Section Arriving.
Context `{Externals}.

Lemma search_parents_spec p limit ins : forall PH res,
  search_parents p limit ins PH = Some res ->
  forall x, x ∈ res
            <-> x ∈ PH \/ (x ∈ (fun txin => op_hash (prevout txin)) <$> ins)
                          /\ x ∈ dom (mapTx p).
Proof.
  induction ins as [| txin ins IH]; intros PH res Hrun x; cbn [search_parents] in Hrun.
  - simplify_eq. rewrite fmap_nil. set_solver.
  - rewrite fmap_cons, elem_of_cons.
    destruct (mapTx p !! op_hash (prevout txin)) as [e |] eqn:He.
    + cbv zeta in Hrun. destruct (limit <? _); [done |].
      rewrite (IH _ _ Hrun x). rewrite elem_of_union, elem_of_singleton.
      assert (op_hash (prevout txin) ∈ dom (mapTx p)) by (apply elem_of_dom; eauto).
      split; [intros [[-> | ?] | [? ?]] | intros [? | [[-> | ?] ?]]]; tauto.
    + rewrite (IH _ _ Hrun x).
      assert (op_hash (prevout txin) ∉ dom (mapTx p)) by (by apply not_elem_of_dom).
      split; [intros [? | [? ?]] | intros [? | [[-> | ?] ?]]]; tauto.
Qed.

(** A traversal that the limits let through is the traversal without
    limits. *)
Lemma ancestors_loop_true_nolimit p entrySize lim fuel : forall PH SA total total' A,
  ancestors_loop fuel p entrySize lim PH SA total = Some (true, A) ->
  ancestors_loop fuel p entrySize NoLimits PH SA total' = Some (true, A).
Proof.
  induction fuel as [| fuel IH]; intros PH SA total total' A Hrun;
    cbn [ancestors_loop] in Hrun |- *.
  - by destruct (set_begin PH).
  - destruct (set_begin PH) as [x |]; [| done].
    destruct (mapTx p !! x) as [e |]; cbn [mbind option_bind] in Hrun |- *; [| done].
    cbv zeta in Hrun |- *. rewrite !nNoLimit_never.
    repeat match type of Hrun with
           | (if ?b then _ else _) = _ => destruct b; [discriminate |]
           end.
    destruct (GetMemPoolParents p x) as [ps |]; cbn [mbind option_bind] in Hrun |- *;
      [| done].
    rewrite visit_parents_nolimit.
    destruct (visit_parents _ _ _ _) as [PH' |] eqn:Hv; [| discriminate].
    assert (PH' = PH ∖ {[x]} ∪ (list_to_set (ordered ps) ∖ ({[x]} ∪ SA))) as <-.
    { apply set_eq. intros y.
      destruct (visit_parents_counted lim _ _ _ _ Hv) as [Hm _].
      rewrite Hm. set_unfold. tauto. }
    by eapply IH.
Qed.

Lemma CalculateMemPoolAncestors_search_spec p entry lim A :
  links_closed p ->
  CalculateMemPoolAncestors p entry lim true = Some (true, A) ->
  forall y, y ∈ A <-> exists x, x ∈ pool_parents p (tx entry) /\ rtc (parent_rel p) x y.
Proof.
  intros Hl Hrun. unfold CalculateMemPoolAncestors in Hrun. cbv zeta in Hrun.
  destruct (search_parents p (limitAncestorCount lim) (vin (tx entry)) ∅) as [P0 |] eqn:Hs;
    [| discriminate].
  assert (P0 = pool_parents p (tx entry)) as ->.
  { apply set_eq. intros x. rewrite (search_parents_spec _ _ _ _ _ Hs x).
    unfold pool_parents. set_unfold. tauto. }
  apply (ancestors_loop_true_nolimit _ _ _ _ _ _ _ (wrap64 (GetTxSize entry))) in Hrun.
  rewrite ancestors_loop_bfs in Hrun.
  destruct (bfs_spec (GetMemPoolParents p) (dom (mapTx p)) (parents_next_universe p Hl)
              (S (size (mapLinks p))) (pool_parents p (tx entry)) ∅)
    as (res & Hres & Hspec).
  - unfold pool_parents. set_solver.
  - set_solver.
  - set_solver.
  - by apply fuel_enough.
  - rewrite Hres in Hrun. cbn in Hrun. injection Hrun as <-.
    intros y. rewrite Hspec. unfold reach. split.
    + intros [Hy | (x & Hx & Hxy)]; [set_solver |].
      exists x. split; [done | by apply rtc_edge_parents].
    + intros (x & Hx & Hxy). right. exists x. split; [done | by apply rtc_edge_parents].
Qed.
End Arriving.

(** ** Linking an entry that arrives *)

Section Linking.
Context `{Externals}.

Lemma UpdateChild_add entry child q l :
  mapLinks q !! entry = Some l ->
  exists u, UpdateChild entry child true q
            = with_cachedInnerUsage u
                (with_mapLinks (<[entry := mkLinks (parents l) ({[child]} ∪ children l)]>
                                  (mapLinks q)) q).
Proof.
  intros Hl. unfold UpdateChild, links_at. rewrite Hl. cbn [default id].
  destruct (decide (child ∈ children l)) as [Hin | Hnin].
  - exists (cachedInnerUsage q).
    replace ({[child]} ∪ children l) with (children l) by set_solver.
    rewrite TxLinks_eta. by destruct q.
  - by exists (wrap64 (cachedInnerUsage q + IncrementalDynamicUsage)).
Qed.

Lemma UpdateParent_add entry parent q l :
  mapLinks q !! entry = Some l ->
  exists u, UpdateParent entry parent true q
            = with_cachedInnerUsage u
                (with_mapLinks (<[entry := mkLinks ({[parent]} ∪ parents l) (children l)]>
                                  (mapLinks q)) q).
Proof.
  intros Hl. unfold UpdateParent, links_at. rewrite Hl. cbn [default id].
  destruct (decide (parent ∈ parents l)) as [Hin | Hnin].
  - exists (cachedInnerUsage q).
    replace ({[parent]} ∪ parents l) with (parents l) by set_solver.
    rewrite TxLinks_eta. by destruct q.
  - by exists (wrap64 (cachedInnerUsage q + IncrementalDynamicUsage)).
Qed.

(** The loop of [UpdateAncestorsOf] that makes an entry a child of its
    parents. *)
Lemma link_to_parents r l : forall q,
  (forall x, x ∈ l -> is_Some (mapLinks q !! x)) ->
  let q1 := foldl (fun q piter => UpdateChild piter r true q) q l in
  q1 = with_cachedInnerUsage (cachedInnerUsage q1) (with_mapLinks (mapLinks q1) q)
  /\ forall h, mapLinks q1 !! h
               = (fun lk => if decide (h ∈ l)
                            then mkLinks (parents lk) ({[r]} ∪ children lk) else lk)
                 <$> mapLinks q !! h.
Proof.
  induction l as [| x l IH]; intros q Hall; cbn [foldl].
  - split; [by destruct q |]. intros h.
    destruct (mapLinks q !! h); [| done]. cbn.
    destruct (decide (h ∈ [])) as [Hin | _]; [by apply elem_of_nil in Hin | done].
  - destruct (Hall x) as [lx Hlx]; [left |].
    destruct (UpdateChild_add x r q lx Hlx) as (u & ->).
    match goal with |- context [foldl _ ?q0 l] => set (q' := q0) end.
    destruct (IH q') as (Hq1 & Hlk).
    { intros y Hy. subst q'. cbn.
      destruct (decide (y = x)) as [-> | Hne].
      - rewrite lookup_insert_eq. eauto.
      - rewrite lookup_insert_ne by done. apply Hall. by right. }
    split.
    + etrans; [exact Hq1 |]. subst q'. reflexivity.
    + intros h. rewrite Hlk. subst q'. cbn [mapLinks with_cachedInnerUsage with_mapLinks].
      destruct (decide (h = x)) as [-> | Hne].
      * rewrite lookup_insert_eq, Hlx. cbn [fmap option_fmap option_map].
        f_equal. destruct (decide (x ∈ x :: l)) as [_ | Hn]; [| by destruct Hn; left].
        destruct (decide (x ∈ l)); cbn [parents children]; [| done].
        f_equal. set_solver.
      * rewrite lookup_insert_ne by done.
        destruct (mapLinks q !! h) as [lh |]; [| done].
        cbn [fmap option_fmap option_map]. f_equal.
        destruct (decide (h ∈ l)) as [Hin | Hnin].
        -- destruct (decide (h ∈ x :: l)) as [_ | Hn]; [done | by destruct Hn; right].
        -- destruct (decide (h ∈ x :: l)) as [[? | ?]%elem_of_cons | _]; done.
Qed.

(** The loop of [addUnchecked] over the hashes its inputs refer to. *)
Lemma link_parents_loop newit l : forall q lk,
  mapLinks q !! newit = Some lk ->
  let q1 := foldl (fun q phash =>
                     match mapTx q !! phash with
                     | Some _ => UpdateParent newit phash true q
                     | None => q
                     end) q l in
  q1 = with_cachedInnerUsage (cachedInnerUsage q1) (with_mapLinks (mapLinks q1) q)
  /\ mapLinks q1
     = <[newit := mkLinks (list_to_set l ∩ dom (mapTx q) ∪ parents lk) (children lk)]>
         (mapLinks q).
Proof.
  induction l as [| x l IH]; intros q lk Hlk; cbn [foldl].
  - split; [by destruct q |]. rewrite list_to_set_nil.
    replace (∅ ∩ dom (mapTx q) ∪ parents lk) with (parents lk) by set_solver.
    rewrite TxLinks_eta. by rewrite insert_id.
  - destruct (mapTx q !! x) as [e |] eqn:He.
    + destruct (UpdateParent_add newit x q lk Hlk) as (u & ->).
      match goal with |- context [foldl _ ?q0 l] => set (q' := q0) end.
      destruct (IH q' (mkLinks ({[x]} ∪ parents lk) (children lk))) as (Hq1 & Hl1).
      { subst q'. cbn. apply lookup_insert_eq. }
      split.
      * etrans; [exact Hq1 |]. subst q'. reflexivity.
      * rewrite Hl1. subst q'. cbn [mapLinks mapTx with_cachedInnerUsage with_mapLinks parents
                                      children].
        rewrite insert_insert_eq. f_equal. f_equal.
        assert (x ∈ dom (mapTx q)) by (apply elem_of_dom; eauto).
        rewrite list_to_set_cons. set_solver.
    + destruct (IH q lk Hlk) as (Hq1 & Hl1). split; [done |].
      rewrite Hl1. f_equal. f_equal.
      assert (x ∉ dom (mapTx q)) by (by apply not_elem_of_dom).
      rewrite list_to_set_cons. set_solver.
Qed.

Lemma link_parents_spec newit ins q lk :
  mapLinks q !! newit = Some lk ->
  let q1 := link_parents newit ins q in
  q1 = with_cachedInnerUsage (cachedInnerUsage q1) (with_mapLinks (mapLinks q1) q)
  /\ mapLinks q1
     = <[newit := mkLinks (list_to_set ((fun txin => op_hash (prevout txin)) <$> ins)
                           ∩ dom (mapTx q) ∪ parents lk) (children lk)]> (mapLinks q).
Proof.
  intros Hlk. unfold link_parents. cbv zeta.
  destruct (link_parents_loop newit
              (ordered (list_to_set ((fun txin => op_hash (prevout txin)) <$> ins)))
              q lk Hlk) as (Hq1 & Hl1).
  split; [exact Hq1 |]. rewrite Hl1. by rewrite list_to_set_ordered.
Qed.

Lemma index_inputs_only newit ins : forall q,
  index_inputs newit ins q = with_mapNextTx (mapNextTx (index_inputs newit ins q)) q.
Proof.
  unfold index_inputs. induction ins as [| txin ins IH]; intros q; cbn [foldl].
  - by destruct q.
  - rewrite IH. unfold mapNextTx_insert. case_match; [done |]. by destruct q.
Qed.
End Linking.

(** ** What [addUnchecked] does *)

Lemma UpdateDescendantState_add s f e :
  0 < nSizeWithDescendants e + s < 2 ^ 63 ->
  0 < nCountWithDescendants e + 1 < 2 ^ 63 ->
  UpdateDescendantState (1 * s) (1 * f) 1 e = Some (add_desc s f 1 e).
Proof.
  intros Hs Hc. unfold UpdateDescendantState, add_desc. rewrite !Z.mul_1_l.
  rewrite !wrap64_small by lia. rewrite !int64_of_small by lia.
  destruct (0 <? nSizeWithDescendants e + s) eqn:E1; [| apply Z.ltb_ge in E1; lia].
  destruct (0 <? nCountWithDescendants e + 1) eqn:E2; [| apply Z.ltb_ge in E2; lia].
  done.
Qed.

Lemma int32_of_small z : 0 <= z < 2 ^ 31 -> int32_of z = z.
Proof.
  intros Hz. unfold int32_of, wrap32. rewrite Z.mod_small by lia.
  destruct (z <? 2 ^ 31) eqn:E; [done | apply Z.ltb_ge in E; lia].
Qed.

Lemma UpdateAncestorState_add s f c o e :
  0 < nSizeWithAncestors e + s < 2 ^ 63 ->
  0 < nCountWithAncestors e + c < 2 ^ 63 ->
  0 <= o < 2 ^ 31 ->
  0 <= nSigOpCostWithAncestors e + o < 2 ^ 31 ->
  UpdateAncestorState s f c o e
  = Some (set_anc e (nSizeWithAncestors e + s) (nModFeesWithAncestors e + f)
                  (nCountWithAncestors e + c) (nSigOpCostWithAncestors e + o)).
Proof.
  intros Hs Hc Ho Hg. unfold UpdateAncestorState.
  rewrite (int32_of_small o) by done.
  rewrite !wrap64_small by lia. rewrite !int64_of_small by lia.
  rewrite (int32_of_small (nSigOpCostWithAncestors e + o)) by done.
  destruct (0 <? nSizeWithAncestors e + s) eqn:E1; [| apply Z.ltb_ge in E1; lia].
  destruct (0 <? nCountWithAncestors e + c) eqn:E2; [| apply Z.ltb_ge in E2; lia].
  destruct (0 <=? nSigOpCostWithAncestors e + o) eqn:E3; [| apply Z.leb_gt in E3; lia].
  done.
Qed.

Section AncestorSums.
Context `{Externals}.

(** The sums that [UpdateEntryForAncestors] takes over the ancestors. *)
Lemma ancestor_sums (m : gmap uint256 CTxMemPoolEntry) l : forall s0 f0 o0,
  (forall a, a ∈ l -> is_Some (m !! a)) ->
  for_each (fun ancestorIt '(updateSize, updateFee, updateSigOpsCost) =>
              a ← m !! ancestorIt;
              Some (updateSize + GetTxSize a, updateFee + GetModifiedFee a,
                    updateSigOpsCost + sigOpCost a)) l (s0, f0, o0)
  = Some (s0 + foldr (fun h acc => from_option GetTxSize 0 (m !! h) + acc) 0 l,
          f0 + foldr (fun h acc => from_option GetModifiedFee 0 (m !! h) + acc) 0 l,
          o0 + foldr (fun h acc => from_option sigOpCost 0 (m !! h) + acc) 0 l).
Proof.
  induction l as [| x l IH]; intros s0 f0 o0 Hall; cbn [for_each foldr].
  - by rewrite !Z.add_0_r.
  - destruct (Hall x) as [e He]; [left |]. rewrite He. cbn [mbind option_bind from_option].
    rewrite IH by (intros a Ha; apply Hall; by right).
    do 2 f_equal; [f_equal |]; lia.
Qed.
End AncestorSums.

Section AddSpec.
Context `{Externals}.

Lemma apply_fee_delta_spec hash (h : uint256) entry q :
  mapTx q !! h = Some entry ->
  exists e1, apply_fee_delta hash h q = Some (with_mapTx (<[h := e1]> (mapTx q)) q)
             /\ weight_of e1 = weight_of entry
             /\ nSizeWithAncestors e1 = nSizeWithAncestors entry
             /\ nCountWithAncestors e1 = nCountWithAncestors entry
             /\ nSigOpCostWithAncestors e1 = nSigOpCostWithAncestors entry.
Proof.
  intros He. unfold apply_fee_delta.
  assert (Some q = Some (with_mapTx (<[h := entry]> (mapTx q)) q)) as Hid.
  { rewrite insert_id by done. by destruct q. }
  destruct (mapDeltas q !! hash) as [delta |]; [| by exists entry].
  destruct (delta =? 0); [by exists entry |].
  exists (UpdateFeeDelta delta entry). split; [| done].
  by rewrite (modify_Some h _ q entry (UpdateFeeDelta delta entry)).
Qed.

Lemma addUnchecked_spec p hash entry A validFeeEstimate :
  let h := GetHash (tx entry) in
  let P0 := pool_parents p (tx entry) in
  well_formed p ->
  mapTx p !! h = None ->
  (forall txin, txin ∈ vin (tx entry) -> op_hash (prevout txin) <> h) ->
  A ⊆ dom (mapTx p) ->
  fresh_entry entry ->
  room_for p entry A ->
  exists p' e' fee,
    addUnchecked hash entry A validFeeEstimate p = Some p'
    /\ mapTx p' = <[h := e']> (map_at A (add_desc (GetTxSize entry) fee 1) (mapTx p))
    /\ linked_in h P0 (mapLinks p) (mapLinks p')
    /\ weight_of e' = weight_of entry
    /\ nSizeWithAncestors e' = GetTxSize entry + sum_over (mapTx p) GetTxSize A
    /\ nCountWithAncestors e' = 1 + sizeZ A
    /\ nSigOpCostWithAncestors e' = sigOpCost entry + sum_over (mapTx p) sigOpCost A
    /\ GetModifiedFee e' = fee.
Proof.
  intros h P0 Hwf Hfresh Hself HA Hnew Hroom.
  pose proof Hwf as (Hl & Hsym & Hk & Hr & Hpos & Hacc).
  assert (mapLinks p !! h = None) as Hnolink.
  { apply not_elem_of_dom. destruct Hl as [-> _]. by apply not_elem_of_dom. }
  unfold addUnchecked. cbv zeta. fold h.
  set (p0 := insert_entry entry (emit (NotifyEntryAdded h) p)).
  assert (mapTx p0 = <[h := entry]> (mapTx p)
          /\ mapLinks p0 = <[h := mkLinks ∅ ∅]> (mapLinks p)) as [Htx0 Hlk0].
  { unfold p0, insert_entry. cbv zeta. cbn [mapTx mapLinks emit]. fold h.
    rewrite Hfresh. cbn [mapLinks mapTx with_mapTx emit]. by rewrite Hnolink. }
  destruct (apply_fee_delta_spec hash h entry p0) as (e1 & -> & Hw1 & Hs1 & Hc1 & Hg1).
  { rewrite Htx0. apply lookup_insert_eq. }
  cbn [mbind option_bind]. cbn [mapTx with_mapTx]. rewrite lookup_insert_eq.
  cbn [mbind option_bind].
  assert (tx e1 = tx entry) as Htx1 by (by apply weight_of_tx).
  rewrite Htx1.
  match goal with
  | |- context [link_parents h ?ins ?q] => set (qc := q); set (qd := link_parents h ins qc)
  end.
  assert (mapTx qc = <[h := e1]> (mapTx p) /\ mapLinks qc = mapLinks p0) as [Htxc Hlkc].
  { unfold qc. rewrite index_inputs_only. cbn [mapTx mapLinks with_mapNextTx
      with_cachedInnerUsage with_mapTx]. rewrite Htx0, insert_insert_eq. done. }
  destruct (link_parents_spec h (vin (tx entry)) qc (mkLinks ∅ ∅)) as (Hqd & Hlkd).
  { rewrite Hlkc, Hlk0. apply lookup_insert_eq. }
  fold qd in Hqd, Hlkd.
  assert (mapTx qd = <[h := e1]> (mapTx p)) as Htxd by (rewrite Hqd; exact Htxc).
  assert (mapLinks qd = <[h := mkLinks P0 ∅]> (mapLinks p)) as Hlkd'.
  { rewrite Hlkd, Hlkc, Hlk0, insert_insert_eq. cbn [parents children]. do 2 f_equal.
    rewrite Htxc, dom_insert_L. unfold P0, pool_parents.
    set (S := list_to_set ((fun txin => op_hash (prevout txin)) <$> vin (tx entry))
              : gset uint256).
    assert (h ∉ S) as Hn.
    { unfold S. rewrite elem_of_list_to_set, list_elem_of_fmap.
      intros (txin & Heq & Hin). by apply (Hself txin Hin). }
    set_solver. }
  clearbody qd. clear Hqd Hlkd qc Htxc Hlkc.
  assert (P0 ⊆ dom (mapTx p)) as HP0 by (unfold P0, pool_parents; set_solver).
  assert (h ∉ dom (mapTx p)) as Hh by (by apply not_elem_of_dom).
  unfold UpdateAncestorsOf.
  assert (GetMemPoolParents qd h = Some P0) as ->.
  { unfold GetMemPoolParents. rewrite Htxd, Hlkd', !lookup_insert_eq. done. }
  cbn [mbind option_bind].
  destruct (link_to_parents h (ordered P0) qd) as (Hqe & Hlke).
  { intros x Hx%elem_of_ordered. rewrite Hlkd'. rewrite lookup_insert_ne by set_solver.
    apply elem_of_dom. destruct Hl as [-> _]. by apply HP0. }
  match type of Hqe with ?q = _ => set (qe := q) in * end.
  assert (mapTx qe = <[h := e1]> (mapTx p)) as Htxe by (rewrite Hqe; exact Htxd).
  rewrite Htxe, lookup_insert_eq. cbn [mbind option_bind].
  assert (linked_in h P0 (mapLinks p) (mapLinks qe)) as Hlinked.
  { intros x. rewrite Hlke, Hlkd'. destruct (decide (x = h)) as [-> | Hne].
    - rewrite lookup_insert_eq. cbn [fmap option_fmap option_map].
      destruct (decide (h ∈ ordered P0)) as [Hin%elem_of_ordered | _]; [set_solver | done].
    - rewrite lookup_insert_ne by done. destruct (mapLinks p !! x) as [l |]; [| done].
      cbn [fmap option_fmap option_map]. f_equal.
      destruct (decide (x ∈ ordered P0)) as [Hin | Hnin];
        destruct (decide (x ∈ P0)) as [Hin' | Hnin']; try done.
      + by apply elem_of_ordered in Hin.
      + by apply elem_of_ordered in Hin'. }
  assert (GetTxSize e1 = GetTxSize entry) as Hsz1 by (by apply weight_of_GetTxSize).
  destruct Hroom as (Hroom1 & Hroom2 & Hroom3 & Hroom4 & Hroom5).
  destruct Hnew as (Hn1 & Hn2 & Hn3 & Hn4 & Hn5 & Hn6 & Hn7).
  set (g := add_desc (GetTxSize entry) (GetModifiedFee e1) 1).
  rewrite (for_each_modify_pure _ g A qe).
  2:{ intros a e Ha He. rewrite Htxe, lookup_insert_ne in He by set_solver.
      rewrite Hsz1. apply UpdateDescendantState_add.
      - destruct (Hr a e He) as (? & _). destruct (Hroom1 a e He Ha). lia.
      - destruct (Hr a e He) as (_ & ? & _). destruct (Hroom1 a e He Ha). lia. }
  2:{ rewrite Htxe, dom_insert_L. set_solver. }
  cbn [mbind option_bind].
  set (qf := with_mapTx (map_at A g (mapTx qe)) qe).
  assert (mapTx qf = <[h := e1]> (map_at A g (mapTx p))) as Htxf.
  { unfold qf. cbn [mapTx with_mapTx]. rewrite Htxe. apply map_eq. intros x.
    rewrite lookup_map_at. destruct (decide (x = h)) as [-> | Hne].
    - rewrite !lookup_insert_eq. cbn. by rewrite decide_False by set_solver.
    - rewrite !lookup_insert_ne by done. by rewrite lookup_map_at. }
  assert (mapLinks qf = mapLinks qe) as Hlkf by done.
  clearbody qf.
  assert (forall (f : CTxMemPoolEntry -> Z),
            (forall e, f (g e) = f e) ->
            foldr (fun x acc => from_option f 0 (mapTx qf !! x) + acc) 0 (ordered A)
            = sum_over (mapTx p) f A) as Hsum.
  { intros f Hf. rewrite <- sum_over_ordered. apply sum_over_ext. intros a Ha.
    rewrite Htxf, lookup_insert_ne by set_solver. rewrite lookup_map_at.
    destruct (mapTx p !! a); cbn; [| done]. case_decide; by rewrite ?Hf. }
  unfold UpdateEntryForAncestors. cbv zeta.
  rewrite (ancestor_sums (mapTx qf) (ordered A) 0 0 0).
  2:{ intros a Ha%elem_of_ordered. rewrite Htxf, lookup_insert_ne by set_solver.
      rewrite lookup_map_at. apply fmap_is_Some, elem_of_dom. by apply HA. }
  cbn [mbind option_bind]. rewrite !Z.add_0_l.
  rewrite (Hsum GetTxSize) by done. rewrite (Hsum sigOpCost) by done.
  assert (0 <= sum_over (mapTx p) GetTxSize A) as Hnonneg.
  { apply sum_over_nonneg. intros a e _ He. pose proof (Hpos a e He). simpl in *. lia. }
  assert (0 <= sizeZ A) as HsizeA by (unfold sizeZ; lia).
  match goal with
  | |- context [modify h (UpdateAncestorState ?s ?f ?c ?o) qf] =>
      pose proof (UpdateAncestorState_add s f c o e1) as Hua
  end.
  rewrite (modify_Some h _ qf e1 _ ltac:(by rewrite Htxf, lookup_insert_eq)
             (Hua ltac:(lia) ltac:(lia) ltac:(lia) ltac:(lia))).
  clear Hua. cbn [mbind option_bind].
  match goal with
  | |- context [<[h := ?e]> (mapTx qf)] => set (e2 := e)
  end.
  set (q2 := with_mapTx (<[h := e2]> (mapTx qf)) qf).
  assert (exists n, mapTx (register_entry h entry (GetWitnessHash (tx entry))
                             validFeeEstimate q2)
                    = alter (set_vTxHashesIdx n) h (mapTx q2)
                    /\ mapLinks (register_entry h entry (GetWitnessHash (tx entry))
                                   validFeeEstimate q2) = mapLinks q2) as (n & Htxr & Hlkr).
  { unfold register_entry. cbv zeta. eexists. split.
    - cbn [mapTx with_mapTx]. f_equal. by case_match.
    - cbn [mapLinks with_mapTx]. by case_match. }
  exists (register_entry h entry (GetWitnessHash (tx entry)) validFeeEstimate q2),
         (set_vTxHashesIdx n e2), (GetModifiedFee e1).
  split; [done |]. split.
  { rewrite Htxr. unfold q2. cbn [mapTx with_mapTx]. rewrite Htxf, insert_insert_eq.
    fold g. apply map_eq. intros x. destruct (decide (x = h)) as [-> | Hne].
    - by rewrite lookup_alter_eq, !lookup_insert_eq.
    - by rewrite lookup_alter_ne, !lookup_insert_ne. }
  split.
  { rewrite Hlkr. unfold q2. cbn [mapLinks with_mapTx]. by rewrite Hlkf. }
  split; [exact Hw1 |].
  cbn [nSizeWithAncestors nCountWithAncestors nSigOpCostWithAncestors set_vTxHashesIdx
       set_anc e2].
  unfold e2. cbn. split; [lia |]. split; [lia |]. split; [lia | reflexivity].
Qed.
End AddSpec.

(** ** The pool after an arrival *)

Section Arrived.
Context `{Externals}.
Variables (p p' : CTxMemPool) (entry e' : CTxMemPoolEntry) (A : gset uint256) (fee : Z).
Variables (h : uint256) (P0 : gset uint256).
Hypothesis Hh : h = GetHash (tx entry).
Hypothesis HP0 : P0 = pool_parents p (tx entry).
Hypothesis Hwf : well_formed p.
Hypothesis Hfresh : mapTx p !! h = None.
Hypothesis HA : forall y, y ∈ A <-> exists x, x ∈ P0 /\ rtc (parent_rel p) x y.
Hypothesis Hnew : fresh_entry entry.
Hypothesis Hroom : room_for p entry A.
Hypothesis Htx : mapTx p' = <[h := e']> (map_at A (add_desc (GetTxSize entry) fee 1) (mapTx p)).
Hypothesis Hlk : linked_in h P0 (mapLinks p) (mapLinks p').
Hypothesis Hw : weight_of e' = weight_of entry.
Hypothesis Hs : nSizeWithAncestors e' = GetTxSize entry + sum_over (mapTx p) GetTxSize A.
Hypothesis Hc : nCountWithAncestors e' = 1 + sizeZ A.
Hypothesis Hg : nSigOpCostWithAncestors e' = sigOpCost entry + sum_over (mapTx p) sigOpCost A.

Lemma arrived_fresh : h ∉ dom (mapTx p).
Proof. by apply not_elem_of_dom. Qed.

Lemma arrived_parents_in_pool : P0 ⊆ dom (mapTx p).
Proof. rewrite HP0. unfold pool_parents. set_solver. Qed.

Lemma arrived_ancestors_in_pool : A ⊆ dom (mapTx p).
Proof.
  pose proof Hwf as (Hl & _). intros y (x & Hx & Hxy)%HA.
  apply arrived_parents_in_pool in Hx. clear HA.
  induction Hxy as [| x z y (l & Hlx & Hz) _ IH]; [done |].
  apply IH. destruct Hl as [_ Hcl]. destruct (Hcl _ _ Hlx) as [Hp _]. by apply Hp.
Qed.

Lemma arrived_dom : dom (mapTx p') = {[h]} ∪ dom (mapTx p).
Proof. by rewrite Htx, dom_insert_L, dom_map_at. Qed.

Lemma arrived_lookup_old x :
  x <> h ->
  mapTx p' !! x
  = (fun e => if decide (x ∈ A) then add_desc (GetTxSize entry) fee 1 e else e)
    <$> mapTx p !! x.
Proof. intros Hne. by rewrite Htx, lookup_insert_ne, lookup_map_at. Qed.

Lemma arrived_lookup_new : mapTx p' !! h = Some e'.
Proof. by rewrite Htx, lookup_insert_eq. Qed.

Lemma arrived_links_old x :
  x <> h ->
  mapLinks p' !! x
  = (fun l => if decide (x ∈ P0) then mkLinks (parents l) ({[h]} ∪ children l) else l)
    <$> mapLinks p !! x.
Proof. intros Hne. by rewrite Hlk, decide_False. Qed.

Lemma arrived_links_new : mapLinks p' !! h = Some (mkLinks P0 ∅).
Proof. by rewrite Hlk, decide_True. Qed.

Lemma arrived_dom_links : dom (mapLinks p') = {[h]} ∪ dom (mapLinks p).
Proof.
  apply set_eq. intros x. rewrite elem_of_union, elem_of_singleton, !elem_of_dom.
  destruct (decide (x = h)) as [-> | Hne].
  - rewrite arrived_links_new. split; eauto.
  - rewrite arrived_links_old by done. rewrite fmap_is_Some. tauto.
Qed.

Lemma arrived_links_closed : links_closed p'.
Proof.
  pose proof Hwf as ([Hd Hcl] & _). split.
  - by rewrite arrived_dom_links, arrived_dom, Hd.
  - intros x l' Hl'. cbn. rewrite arrived_dom.
    destruct (decide (x = h)) as [-> | Hne].
    + rewrite arrived_links_new in Hl'. injection Hl' as <-. cbn.
      pose proof arrived_parents_in_pool. set_solver.
    + rewrite arrived_links_old in Hl' by done.
      destruct (mapLinks p !! x) as [l |] eqn:Hlx; [| done].
      cbn in Hl'. injection Hl' as <-. destruct (Hcl _ _ Hlx) as [Hp Hch].
      case_decide; cbn; set_solver.
Qed.

Lemma arrived_parent_rel x y :
  parent_rel p' x y <-> (x = h /\ y ∈ P0) \/ (x <> h /\ parent_rel p x y).
Proof.
  unfold parent_rel. destruct (decide (x = h)) as [-> | Hne].
  - rewrite arrived_links_new. split.
    + intros (l & [= <-] & Hy). by left.
    + intros [[_ Hy] | [? _]]; [| done]. eauto.
  - rewrite arrived_links_old by done. split.
    + intros (l' & Hl' & Hy). right. split; [done |].
      destruct (mapLinks p !! x) as [l |]; [| done]. cbn in Hl'. injection Hl' as <-.
      exists l. split; [done |]. by case_decide.
    + intros [[? _] | [_ (l & Hlx & Hy)]]; [done |]. rewrite Hlx. cbn.
      eexists. split; [done |]. by case_decide.
Qed.

Lemma arrived_parent_old x y : parent_rel p x y -> x <> h /\ y <> h.
Proof.
  pose proof Hwf as ([Hd Hcl] & _). intros (l & Hlx & Hy).
  pose proof arrived_fresh as Hnin. split; intros ->.
  - apply Hnin. rewrite <- Hd. apply elem_of_dom. eauto.
  - destruct (Hcl _ _ Hlx) as [Hp _]. by apply Hnin, Hp.
Qed.

Lemma arrived_ancestor_old x y : x <> h -> ancestor p' x y <-> ancestor p x y.
Proof.
  intros Hne. unfold ancestor. split.
  - intros Hxy. induction Hxy as [x y Hxy | x z y Hxz _ IH].
    + apply arrived_parent_rel in Hxy as [[? _] | [_ Hxy]]; [done |]. by apply tc_once.
    + apply arrived_parent_rel in Hxz as [[? _] | [_ Hxz]]; [done |].
      eapply tc_l; [exact Hxz |]. apply IH. by destruct (arrived_parent_old _ _ Hxz).
  - intros Hxy. clear Hne. induction Hxy as [x y Hxy | x z y Hxz _ IH].
    + apply tc_once. apply arrived_parent_rel. right.
      split; [by destruct (arrived_parent_old _ _ Hxy) | done].
    + eapply tc_l; [| exact IH]. apply arrived_parent_rel. right.
      split; [by destruct (arrived_parent_old _ _ Hxz) | done].
Qed.

Lemma arrived_ancestor_new y : ancestor p' h y <-> y ∈ A.
Proof.
  rewrite HA. unfold ancestor. rewrite tc_first_step. split.
  - intros (x & Hx & Hxy). apply arrived_parent_rel in Hx as [[_ Hx] | [? _]]; [| done].
    exists x. split; [done |].
    assert (x <> h) as Hne.
    { intros ->. by apply arrived_fresh, arrived_parents_in_pool. }
    clear Hx. induction Hxy as [| x z y Hxz _ IH]; [apply rtc_refl |].
    apply arrived_parent_rel in Hxz as [[? _] | [_ Hxz]]; [done |].
    eapply rtc_l; [exact Hxz |]. apply IH. by destruct (arrived_parent_old _ _ Hxz).
  - intros (x & Hx & Hxy). exists x. split; [apply arrived_parent_rel; by left |].
    clear Hx. induction Hxy as [| x z y Hxz _ IH]; [apply rtc_refl |].
    eapply rtc_l; [| exact IH]. apply arrived_parent_rel. right.
    split; [by destruct (arrived_parent_old _ _ Hxz) | done].
Qed.

Lemma arrived_never_ancestor x : ~ ancestor p' x h.
Proof.
  assert (forall x y, parent_rel p' x y -> y <> h) as Hstep.
  { intros a b [[_ Hb] | [_ Hab]]%arrived_parent_rel.
    - intros ->. by apply arrived_fresh, arrived_parents_in_pool.
    - by destruct (arrived_parent_old _ _ Hab). }
  intros Hx. unfold ancestor in Hx. remember h as t eqn:Ht.
  induction Hx as [x y Hxy | x z y _ _ IH]; [| by apply IH].
  subst y. by apply (Hstep _ _ Hxy).
Qed.

Lemma arrived_links_at_old x :
  x ∈ dom (mapTx p) ->
  parents (links_at p' x) = parents (links_at p x)
  /\ children (links_at p x) ⊆ children (links_at p' x)
  /\ (x ∈ P0 -> h ∈ children (links_at p' x)).
Proof.
  intros Hx. assert (x <> h) as Hne by (intros ->; by apply arrived_fresh).
  assert (is_Some (mapLinks p !! x)) as [l Hlx].
  { apply elem_of_dom. destruct Hwf as ([-> _] & _). done. }
  unfold links_at. rewrite arrived_links_old by done. rewrite Hlx.
  cbn [fmap option_fmap option_map default id].
  destruct (decide (x ∈ P0)); cbn [parents children]; set_solver.
Qed.

Lemma arrived_links_symmetric : links_symmetric p'.
Proof.
  pose proof Hwf as ([Hd Hcl] & Hsym & _). intros a l' Hl'. cbn.
  destruct (decide (a = h)) as [-> | Hne].
  - rewrite arrived_links_new in Hl'. injection Hl' as <-. cbn. split; [done |].
    intros b Hb. apply arrived_links_at_old; [by apply arrived_parents_in_pool | done].
  - rewrite arrived_links_old in Hl' by done.
    destruct (mapLinks p !! a) as [l |] eqn:Hla; [| done]. cbn in Hl'.
    destruct (Hsym _ _ Hla) as [Hch Hpa]. destruct (Hcl _ _ Hla) as [Hpd Hcd].
    assert (forall c, c ∈ children l -> a ∈ parents (links_at p' c)) as Hch'.
    { intros c Hcc. destruct (arrived_links_at_old c) as (-> & _); [by apply Hcd |].
      by apply Hch. }
    assert (forall b, b ∈ parents l -> a ∈ children (links_at p' b)) as Hpa'.
    { intros b Hb. destruct (arrived_links_at_old b) as (_ & Hsub & _); [by apply Hpd |].
      by apply Hsub, Hpa. }
    injection Hl' as <-. case_decide as HaP; cbn; (split; [| done]).
    + intros c [->%elem_of_singleton | Hcc]%elem_of_union; [| by apply Hch'].
      unfold links_at. by rewrite arrived_links_new.
    + done.
Qed.

Lemma arrived_entry_keys_ok : entry_keys_ok p'.
Proof.
  pose proof Hwf as (_ & _ & Hk & _). intros x ex Hx. cbn.
  destruct (decide (x = h)) as [-> | Hne].
  - rewrite arrived_lookup_new in Hx. injection Hx as <-.
    by rewrite (weight_of_tx _ _ Hw).
  - rewrite arrived_lookup_old in Hx by done.
    destruct (mapTx p !! x) as [e |] eqn:He; [| done]. cbn in Hx. injection Hx as <-.
    pose proof (Hk _ _ He) as Hke. cbn in Hke. by case_decide.
Qed.

Lemma arrived_in_range : map_Forall (fun _ e => aggregates_in_range e) (mapTx p').
Proof.
  pose proof Hwf as (_ & _ & _ & Hr & Hpos & _).
  destruct Hroom as (Hroom1 & Hroom2 & Hroom3 & Hroom4 & Hroom5).
  destruct Hnew as (Hn1 & Hn2 & Hn3 & Hn4 & Hn5 & Hn6 & Hn7).
  intros x ex Hx. cbn. destruct (decide (x = h)) as [-> | Hne].
  - rewrite arrived_lookup_new in Hx. injection Hx as <-.
    destruct (weight_of_desc _ _ Hw) as [Hds Hdc].
    assert (0 <= sum_over (mapTx p) GetTxSize A) as Hnonneg.
    { apply sum_over_nonneg. intros a e _ He. pose proof (Hpos a e He). simpl in *. lia. }
    assert (0 <= sizeZ A) by (unfold sizeZ; lia).
    unfold aggregates_in_range. rewrite Hds, Hdc, Hs, Hc, Hg.
    rewrite int32_of_small by lia. lia.
  - rewrite arrived_lookup_old in Hx by done.
    destruct (mapTx p !! x) as [e |] eqn:He; [| done]. cbn in Hx. injection Hx as <-.
    pose proof (Hr _ _ He) as Hre. cbn in Hre. case_decide as HxA; [| done].
    destruct (Hroom1 _ _ He HxA). unfold aggregates_in_range in *. cbn. lia.
Qed.

Lemma arrived_GetTxSize x :
  x <> h -> from_option GetTxSize 0 (mapTx p' !! x) = from_option GetTxSize 0 (mapTx p !! x).
Proof.
  intros Hne. rewrite arrived_lookup_old by done.
  destruct (mapTx p !! x); cbn; [| done]. by case_decide.
Qed.

Lemma arrived_sizes_positive : sizes_positive p'.
Proof.
  pose proof Hwf as (_ & _ & _ & _ & Hpos & _).
  intros x ex Hx. cbn. destruct (decide (x = h)) as [-> | Hne].
  - rewrite arrived_lookup_new in Hx. injection Hx as <-.
    rewrite (weight_of_GetTxSize _ _ Hw). by destruct Hnew as ((? & _) & _).
  - pose proof (arrived_GetTxSize x Hne) as Hsz. rewrite Hx in Hsz. cbn in Hsz.
    destruct (mapTx p !! x) as [e |] eqn:He.
    + cbn in Hsz. rewrite Hsz. apply (Hpos _ _ He).
    + rewrite arrived_lookup_old, He in Hx by done. done.
Qed.

Lemma arrived_ancestors_of x :
  x ∈ dom (mapTx p) -> ancestors_of p' x = ancestors_of p x.
Proof.
  intros Hx. pose proof Hwf as (Hl & _ & Hk & _).
  assert (x <> h) as Hne by (intros ->; by apply arrived_fresh).
  apply set_eq. intros y.
  rewrite (elem_of_ancestors_of p' x y arrived_links_closed arrived_entry_keys_ok)
    by (rewrite arrived_dom; set_solver).
  rewrite (elem_of_ancestors_of p x y Hl Hk Hx). by apply arrived_ancestor_old.
Qed.

Lemma arrived_ancestors_of_new : ancestors_of p' h = A.
Proof.
  apply set_eq. intros y.
  rewrite (elem_of_ancestors_of p' h y arrived_links_closed arrived_entry_keys_ok)
    by (rewrite arrived_dom; set_solver).
  apply arrived_ancestor_new.
Qed.

Lemma arrived_below a :
  below p' a (dom (mapTx p'))
  = if decide (a ∈ A) then {[h]} ∪ below p a (dom (mapTx p)) else below p a (dom (mapTx p)).
Proof.
  apply set_eq. intros r. rewrite elem_of_below, arrived_dom.
  assert (r ∈ (if decide (a ∈ A) then {[h]} ∪ below p a (dom (mapTx p))
               else below p a (dom (mapTx p)))
          <-> (r = h /\ a ∈ A) \/ r ∈ below p a (dom (mapTx p))) as ->.
  { case_decide; set_solver. }
  rewrite elem_of_below. pose proof arrived_fresh as Hnin.
  destruct (decide (r = h)) as [-> | Hne].
  - rewrite arrived_ancestors_of_new. set_solver.
  - split.
    + intros [Ha [? | Hr]%elem_of_union]; [set_solver |].
      right. by rewrite <- arrived_ancestors_of.
    + intros [[? _] | [Ha Hr]]; [done |]. rewrite arrived_ancestors_of by done.
      set_solver.
Qed.

Lemma arrived_packages_accounted : packages_accounted p'.
Proof.
  pose proof Hwf as (Hl & _ & Hk & _ & Hpos & Hacc).
  pose proof arrived_fresh as Hnin.
  assert (forall a, h ∉ below p a (dom (mapTx p))) as Hnb.
  { intros a [_ ?]%elem_of_below. done. }
  assert (forall a, sum_over (mapTx p') GetTxSize (below p a (dom (mapTx p)))
                    = sum_over (mapTx p) GetTxSize (below p a (dom (mapTx p)))) as Hsame.
  { intros a. apply sum_over_ext. intros r Hr. apply arrived_GetTxSize. intros ->.
    by apply (Hnb a). }
  intros a ea Ha. cbn. rewrite arrived_below.
  destruct (decide (a = h)) as [-> | Hne].
  - rewrite arrived_lookup_new in Ha. injection Ha as <-.
    assert (h ∉ A) as HhA by (intros Hin; by apply Hnin, arrived_ancestors_in_pool).
    rewrite decide_False by done.
    assert (below p h (dom (mapTx p)) = ∅) as ->.
    { apply set_eq. intros r. rewrite elem_of_below. split; [| set_solver].
      intros [Hr Hrd]. rewrite (elem_of_ancestors_of p r h Hl Hk Hrd) in Hr.
      exfalso. apply (arrived_never_ancestor r).
      apply arrived_ancestor_old; [intros ->; done | done]. }
    rewrite sum_over_empty. unfold sizeZ. rewrite size_empty.
    destruct (weight_of_desc _ _ Hw) as [-> ->]. rewrite (weight_of_GetTxSize _ _ Hw).
    destruct Hnew as (_ & _ & -> & -> & _). lia.
  - rewrite arrived_lookup_old in Ha by done.
    destruct (mapTx p !! a) as [e |] eqn:He; [| done]. cbn in Ha. injection Ha as <-.
    destruct (Hacc _ _ He) as [Hsz Hcnt]. case_decide as HaA.
    + rewrite (sum_over_insert _ _ h e') by (done || apply arrived_lookup_new).
      rewrite sizeZ_insert by done. rewrite Hsame.
      rewrite (weight_of_GetTxSize _ _ Hw). cbn. unfold GetTxSize in *. cbn. lia.
    + rewrite Hsame. lia.
Qed.

Lemma arrived_well_formed : well_formed p'.
Proof.
  split; [apply arrived_links_closed |]. split; [apply arrived_links_symmetric |].
  split; [apply arrived_entry_keys_ok |]. split; [apply arrived_in_range |].
  split; [apply arrived_sizes_positive | apply arrived_packages_accounted].
Qed.
End Arrived.

Section ArrivalClaim.
Context `{Externals}.

(** X16. Well-formedness is kept by arrivals. Let the pool be well
    formed, and let [entry] be a fresh entry for a transaction that is
    not in the pool and spends none of its own outputs. If
    [CalculateMemPoolAncestors], searching the parents through [mapTx],
    answers [true] with the set [A], and the aggregates have room for the
    entry, then [addUnchecked] with [A] returns without tripping an
    assertion. The pool it leaves is well formed; it holds the entry and
    the entries it held; the parents of the entry are the pool
    transactions its inputs refer to and its ancestors are [A]; the
    ancestors of the other entries are as before, and the descendant
    size, fees and count of exactly the entries of [A] have grown by the
    size, the modified fee and one. *)
Theorem addUnchecked_keeps_well_formed (p : CTxMemPool) (hash : uint256)
    (entry : CTxMemPoolEntry) (lim : Limits) (A : gset uint256) (validFeeEstimate : bool) :
  let h := GetHash (tx entry) in
  well_formed p ->
  mapTx p !! h = None ->
  Forall (fun txin => op_hash (prevout txin) <> h) (vin (tx entry)) ->
  fresh_entry entry ->
  CalculateMemPoolAncestors p entry lim true = Some (true, A) ->
  room_for p entry A ->
  exists p' e',
    addUnchecked hash entry A validFeeEstimate p = Some p'
    /\ well_formed p'
    /\ mapTx p' !! h = Some e'
    /\ dom (mapTx p') = {[h]} ∪ dom (mapTx p)
    /\ GetMemPoolParents p' h = Some (pool_parents p (tx entry))
    /\ ancestors_of p' h = A
    /\ (forall x, x ∈ dom (mapTx p) -> ancestors_of p' x = ancestors_of p x)
    /\ (forall a e, mapTx p !! a = Some e ->
          mapTx p' !! a
          = Some (if decide (a ∈ A)
                  then add_desc (GetTxSize entry) (GetModifiedFee e') 1 e else e)).
Proof.
  intros h Hwf Hfresh Hself Hnew HA Hroom.
  pose proof Hwf as (Hl & _).
  pose proof (CalculateMemPoolAncestors_search_spec p entry lim A Hl HA) as HAspec.
  assert (A ⊆ dom (mapTx p)) as HAdom.
  { intros y (x & Hx & Hxy)%HAspec.
    assert (x ∈ dom (mapTx p)) as Hxd by (unfold pool_parents in Hx; set_solver).
    clear Hx. induction Hxy as [| x z y (l & Hlx & Hz) _ IH]; [done |].
    apply IH. destruct Hl as [_ Hcl]. destruct (Hcl _ _ Hlx) as [Hp _]. by apply Hp. }
  destruct (addUnchecked_spec p hash entry A validFeeEstimate Hwf Hfresh) 
    as (p' & e' & fee & Hadd & Htx & Hlk & Hw & Hs & Hc & Hg & Hfee);
    [by apply Forall_forall | done | done | done |].
  fold h in Htx, Hlk.
  exists p', e'. split; [exact Hadd |].
  split.
  { by apply (arrived_well_formed p p' entry e' A fee h (pool_parents p (tx entry))). }
  split; [by rewrite Htx, lookup_insert_eq |].
  split; [by rewrite Htx, dom_insert_L, dom_map_at |].
  split.
  { unfold GetMemPoolParents. rewrite Htx, lookup_insert_eq. cbn [mbind option_bind].
    rewrite Hlk. by rewrite decide_True. }
  split.
  { by apply (arrived_ancestors_of_new p p' entry e' A fee h (pool_parents p (tx entry))). }
  split.
  { intros x Hx.
    by apply (arrived_ancestors_of p p' entry e' A fee h (pool_parents p (tx entry))). }
  intros a e He. assert (a <> h) as Hne by (intros ->; congruence).
  rewrite Htx, lookup_insert_ne by done. rewrite lookup_map_at, He, Hfee. done.
Qed.
End ArrivalClaim.

Lemma addUnchecked_keeps_well_formed_witness :
  exists p',
    @addUnchecked demo_externals 4%N (demo_entry tx_grandchild 1000) {[1%N; 3%N]} false family
    = Some p'
    /\ well_formed (H := demo_externals) p'.
Proof.
  destruct (addUnchecked_keeps_well_formed (H := demo_externals) family 4%N
              (demo_entry tx_grandchild 1000) NoLimits {[1%N; 3%N]} false)
    as (p' & e' & Hadd & Hwf' & _).
  - apply (bool_decide_unpack _). by vm_compute.
  - by vm_compute.
  - apply (bool_decide_unpack _). by vm_compute.
  - apply (bool_decide_unpack _). by vm_compute.
  - by vm_compute.
  - apply (bool_decide_unpack _). by vm_compute.
  - exists p'. split; [exact Hadd | exact Hwf'].
Defined.

(** ** What the bookkeeping of a removal leaves of the pool *)

Section KeepsField.
Context `{Externals}.
Context {X : Type} (field : CTxMemPool -> X).
Hypothesis field_mapTx : forall m p, field (with_mapTx m p) = field p.
Hypothesis field_mapLinks : forall l p, field (with_mapLinks l p) = field p.
Hypothesis field_usage : forall u p, field (with_cachedInnerUsage u p) = field p.

Lemma modify_field it f p p' : modify it f p = Some p' -> field p' = field p.
Proof. intros Hm. apply modify_inv in Hm as (e & e' & _ & _ & ->). apply field_mapTx. Qed.

Lemma UpdateChild_field a b add p : field (UpdateChild a b add p) = field p.
Proof. unfold UpdateChild. repeat case_match; by rewrite ?field_usage, ?field_mapLinks. Qed.

Lemma UpdateParent_field a b add p : field (UpdateParent a b add p) = field p.
Proof. unfold UpdateParent. repeat case_match; by rewrite ?field_usage, ?field_mapLinks. Qed.

Lemma for_each_field {A} (body : A -> CTxMemPool -> option CTxMemPool) l p p' :
  (forall x q q', body x q = Some q' -> field q' = field q) ->
  for_each body l p = Some p' -> field p' = field p.
Proof.
  intros Hbody Hrun.
  eapply (for_each_inv (fun q => field q = field p)); [| exact Hrun | done].
  intros x s s' _ Hx Hs. rewrite <- Hs. by eapply Hbody.
Qed.

Lemma foldl_field {A} (body : CTxMemPool -> A -> CTxMemPool) l p :
  (forall x q, field (body q x) = field q) -> field (foldl body p l) = field p.
Proof.
  intros Hbody. apply (foldl_inv (fun q => field q = field p)); [| done].
  intros x s _ Hs. by rewrite Hbody.
Qed.

Lemma UpdateAncestorsOf_field add it setAncestors p p' :
  UpdateAncestorsOf add it setAncestors p = Some p' -> field p' = field p.
Proof.
  unfold UpdateAncestorsOf. intros Hu.
  destruct (GetMemPoolParents p it) as [ps |]; cbn [mbind option_bind] in Hu; [| discriminate].
  match type of Hu with
  | context [foldl ?body p ?l] =>
      assert (field (foldl body p l) = field p) as Hk
        by (apply foldl_field; intros x q; exact (UpdateChild_field x it add q));
      destruct (mapTx (foldl body p l) !! it) as [e |]; cbn [mbind option_bind] in Hu;
        [| discriminate]
  end.
  rewrite <- Hk. eapply for_each_field; [| exact Hu].
  intros x q q' Hm. exact (modify_field _ _ _ _ Hm).
Qed.

Lemma UpdateChildrenForRemoval_field it p p' :
  UpdateChildrenForRemoval it p = Some p' -> field p' = field p.
Proof.
  unfold UpdateChildrenForRemoval. intros Hu.
  destruct (GetMemPoolChildren p it) as [cs |]; cbn [mbind option_bind] in Hu; [| discriminate].
  injection Hu as <-. apply foldl_field. intros x q. exact (UpdateParent_field x it false q).
Qed.

Lemma UpdateForRemoveFromMempool_field stage updateDescendants p p' :
  UpdateForRemoveFromMempool stage updateDescendants p = Some p' -> field p' = field p.
Proof.
  unfold UpdateForRemoveFromMempool. intros Hu.
  match type of Hu with
  | (?first ≫= _) = _ => destruct first as [p1 |] eqn:H1; cbn [mbind option_bind] in Hu;
                          [| discriminate]
  end.
  assert (field p1 = field p) as Hp1.
  { destruct updateDescendants; [| by injection H1 as <-].
    revert H1. apply for_each_field. intros x q q' Hx.
    destruct (CalculateDescendants q x ∅) as [D |]; cbn [mbind option_bind] in Hx;
      [| discriminate].
    destruct (mapTx q !! x) as [r |]; cbn [mbind option_bind] in Hx; [| discriminate].
    revert Hx. apply for_each_field. intros y s s' Hm. exact (modify_field _ _ _ _ Hm). }
  match type of Hu with
  | (?second ≫= _) = _ => destruct second as [p2 |] eqn:H2; cbn [mbind option_bind] in Hu;
                           [| discriminate]
  end.
  assert (field p2 = field p1) as Hp2.
  { revert H2. apply for_each_field. intros x q q' Hx.
    destruct (mapTx q !! x) as [e |]; cbn [mbind option_bind] in Hx; [| discriminate].
    destruct (CalculateMemPoolAncestors q e NoLimits false) as [r |];
      cbn [mbind option_bind] in Hx; [| discriminate].
    by eapply UpdateAncestorsOf_field. }
  rewrite <- Hp1, <- Hp2. eapply for_each_field; [| exact Hu].
  intros x q q'. apply UpdateChildrenForRemoval_field.
Qed.
End KeepsField.

(** ** The index of the spent outpoints through removals *)

Section SpendIndex.
Context `{Externals}.

Lemma unindex_inputs_lookup ins o : forall q,
  mapNextTx (unindex_inputs ins q) !! o
  = if decide (o ∈ prevout <$> ins) then None else mapNextTx q !! o.
Proof.
  unfold unindex_inputs. induction ins as [| txin ins IH]; intros q; cbn [foldl].
  - rewrite fmap_nil. by rewrite decide_False by apply not_elem_of_nil.
  - rewrite IH. cbn [mapNextTx with_mapNextTx]. rewrite fmap_cons.
    destruct (decide (o ∈ prevout <$> ins)) as [Hin | Hnin].
    + by rewrite decide_True by (by right).
    + destruct (decide (o = prevout txin)) as [-> | Hne].
      * rewrite lookup_delete_eq. by rewrite decide_True by left.
      * rewrite lookup_delete_ne by done.
        rewrite decide_False; [done |]. by intros [? | ?]%elem_of_cons.
Qed.

(** What [removeUnchecked] leaves of the maps. *)
Lemma removeUnchecked_shape r reason q q' e :
  mapTx q !! r = Some e ->
  removeUnchecked r reason q = Some q' ->
  (forall x, forget_idx <$> mapTx q' !! x
             = if decide (x = r) then None else forget_idx <$> mapTx q !! x)
  /\ mapLinks q' = delete r (mapLinks q)
  /\ (forall o, mapNextTx q' !! o
                = if decide (o ∈ prevout <$> vin (tx e)) then None else mapNextTx q !! o)
  /\ mapDeltas q' = mapDeltas q.
Proof.
  intros He Hrun. unfold removeUnchecked in Hrun. rewrite He in Hrun.
  cbn [mbind option_bind] in Hrun. cbv zeta in Hrun.
  match type of Hrun with
  | context [erase_entry r e ?q0] => set (q1 := erase_entry r e q0) in Hrun
  end.
  assert ((forall x, forget_idx <$> mapTx q1 !! x
                     = if decide (x = r) then None else forget_idx <$> mapTx q !! x)
          /\ mapLinks q1 = delete r (mapLinks q)
          /\ (forall o, mapNextTx q1 !! o
                        = if decide (o ∈ prevout <$> vin (tx e)) then None
                          else mapNextTx q !! o)
          /\ mapDeltas q1 = mapDeltas q) as Hq1.
  { unfold q1. clear Hrun q1.
    match goal with |- context [unregister_hash ?i ?q0] =>
      destruct (unregister_hash_only i q0) as (v & m & -> & Hm) end.
    rewrite unindex_inputs_only in Hm.
    cbn [mapTx with_mapNextTx emit] in Hm.
    unfold erase_entry. cbv zeta.
    cbn [mapTx mapLinks mapNextTx mapDeltas with_mapTx with_nTransactionsUpdated
         with_mapLinks with_cachedInnerUsage with_totalTxSize with_vTxHashes].
    split; [| split; [| split]].
    - intros x. destruct (decide (x = r)) as [-> | Hne].
      + by rewrite lookup_delete_eq.
      + rewrite lookup_delete_ne by done. apply Hm.
    - rewrite unindex_inputs_only. reflexivity.
    - intros o. rewrite unindex_inputs_lookup. reflexivity.
    - rewrite unindex_inputs_only. reflexivity. }
  clearbody q1. destruct (minerPolicyEstimator q1); injection Hrun as <-; exact Hq1.
Qed.

Lemma forget_idx_tx_lookup (m m' : gmap uint256 CTxMemPoolEntry) x :
  forget_idx <$> m' !! x = forget_idx <$> m !! x -> tx <$> m' !! x = tx <$> m !! x.
Proof.
  intros Heq. destruct (m' !! x) as [e' |], (m !! x) as [e |]; try done.
  cbn in *. apply (inj Some) in Heq. f_equal. by apply forget_idx_tx.
Qed.

(** The index stays exact when an entry leaves the pool. *)
Lemma removeUnchecked_spend_index r reason q q' :
  spend_index_exact q -> removeUnchecked r reason q = Some q' -> spend_index_exact q'.
Proof.
  intros [Hidx Hins] Hrun.
  destruct (mapTx q !! r) as [e |] eqn:He;
    [| unfold removeUnchecked in Hrun; by rewrite He in Hrun].
  destruct (removeUnchecked_shape r reason q q' e He Hrun) as (Htx & _ & Hnx & _).
  assert (forall s, s <> r -> tx <$> mapTx q' !! s = tx <$> mapTx q !! s) as Htx'.
  { intros s Hne. apply forget_idx_tx_lookup. by rewrite Htx, decide_False. }
  assert (mapTx q' !! r = None) as Hgone.
  { specialize (Htx r). rewrite decide_True in Htx by done.
    by destruct (mapTx q' !! r). }
  split.
  - intros o s Hos. rewrite Hnx in Hos.
    destruct (decide (o ∈ prevout <$> vin (tx e))) as [| Hnin]; [done |].
    pose proof (Hidx o s Hos) as Hs. cbn in Hs.
    destruct (decide (s = r)) as [-> | Hne]; [by rewrite He in Hs |].
    specialize (Htx' s Hne). destruct (mapTx q !! s) as [es |]; [| done].
    destruct (mapTx q' !! s) as [es' |]; [| done]. cbn in Htx' |- *.
    apply (inj Some) in Htx'. by rewrite Htx'.
  - intros s es' Hs'. cbn.
    assert (s <> r) as Hne by (intros ->; congruence).
    specialize (Htx' s Hne). rewrite Hs' in Htx'.
    destruct (mapTx q !! s) as [es |] eqn:Hs; [| done]. cbn in Htx'.
    apply (inj Some) in Htx'. rewrite Htx'.
    pose proof (Hins s es Hs) as Hall. cbn in Hall.
    rewrite Forall_forall in Hall |- *. intros txin Hin. rewrite Hnx.
    destruct (decide (prevout txin ∈ prevout <$> vin (tx e))) as [Hc | _];
      [| by apply Hall].
    apply list_elem_of_fmap in Hc as (txin' & Heq & Hin').
    pose proof (Hins r e He) as Hall'. cbn in Hall'. rewrite Forall_forall in Hall'.
    specialize (Hall' txin' Hin'). specialize (Hall txin Hin).
    rewrite Heq in Hall. congruence.
Qed.

Lemma spend_index_exact_frame p q :
  mapNextTx q = mapNextTx p -> keeps_entries p q ->
  spend_index_exact p -> spend_index_exact q.
Proof.
  intros Hnx Hk [Hidx Hins].
  assert (forall s, tx <$> mapTx q !! s = tx <$> mapTx p !! s) as Htx.
  { intros s. unfold keeps_entries in Hk. apply (f_equal (fun m => m !! s)) in Hk.
    rewrite !lookup_fmap in Hk.
    destruct (mapTx q !! s) as [e' |], (mapTx p !! s) as [e |]; try done.
    cbn in *. apply (inj Some) in Hk. f_equal. by apply identity_of_tx. }
  split.
  - intros o s Hos. rewrite Hnx in Hos. pose proof (Hidx o s Hos) as Hs. cbn in *.
    specialize (Htx s). destruct (mapTx p !! s) as [e |]; [| done].
    destruct (mapTx q !! s) as [e' |]; [| done]. cbn in Htx |- *.
    apply (inj Some) in Htx. by rewrite Htx.
  - intros s e' Hs'. cbn. specialize (Htx s). rewrite Hs' in Htx.
    destruct (mapTx p !! s) as [e |] eqn:Hs; [| done]. cbn in Htx.
    apply (inj Some) in Htx. rewrite Htx, Hnx. apply (Hins s e Hs).
Qed.

(** [RemoveStaged], with either flag, keeps the index exact; it only
    takes outpoints out of it, among them every input of the
    transactions it removes. *)
Lemma RemoveStaged_spend_index stage updateDescendants reason p p' :
  spend_index_exact p ->
  RemoveStaged stage updateDescendants reason p = Some p' ->
  spend_index_exact p'
  /\ mapNextTx p' ⊆ mapNextTx p.
Proof.
  intros Hex Hrun. unfold RemoveStaged in Hrun.
  destruct (UpdateForRemoveFromMempool stage updateDescendants p) as [p1 |] eqn:H1;
    cbn [mbind option_bind] in Hrun; [| discriminate].
  assert (mapNextTx p1 = mapNextTx p) as Hnx1
    by (by apply (UpdateForRemoveFromMempool_field mapNextTx) in H1).
  apply UpdateForRemoveFromMempool_keeps_entries in H1.
  pose proof (spend_index_exact_frame p p1 Hnx1 H1 Hex) as Hex1.
  rewrite <- Hnx1.
  apply (for_each_inv (fun q => spend_index_exact q /\ mapNextTx q ⊆ mapNextTx p1)
                      (fun it q => removeUnchecked it reason q) (ordered stage))
    with (s := p1); [| done | done].
  intros r s s' _ Hr [Hs Hsub]. split; [by eapply removeUnchecked_spend_index |].
  etrans; [| exact Hsub].
  destruct (mapTx s !! r) as [e |] eqn:He;
    [| unfold removeUnchecked in Hr; by rewrite He in Hr].
  destruct (removeUnchecked_shape r reason s s' e He Hr) as (_ & _ & Hnx & _).
  apply map_subseteq_spec. intros o v Ho. rewrite Hnx in Ho. by case_decide.
Qed.
End SpendIndex.

(** ** A confirmed transaction leaves the pool *)

Lemma ordered_singleton (h : uint256) : ordered {[h]} = [h].
Proof.
  apply Permutation_singleton_r. rewrite ordered_perm. by rewrite elements_singleton.
Qed.

Lemma int32_of_neg z : 0 <= z <= 2 ^ 31 -> int32_of (- z) = - z.
Proof.
  intros Hz. unfold int32_of, wrap32. destruct (decide (z = 0)) as [-> | Hne]; [done |].
  replace (- z) with (2 ^ 32 - z + -1 * 2 ^ 32) by lia.
  rewrite Z.mod_add by lia. rewrite Z.mod_small by lia.
  destruct (2 ^ 32 - z <? 2 ^ 31) eqn:E; [apply Z.ltb_lt in E; lia | lia].
Qed.

Lemma UpdateAncestorState_remove s f o e :
  0 < nSizeWithAncestors e - s < 2 ^ 63 ->
  0 < nCountWithAncestors e - 1 < 2 ^ 63 ->
  0 <= o < 2 ^ 31 ->
  0 <= nSigOpCostWithAncestors e - o < 2 ^ 31 ->
  UpdateAncestorState (- s) (- f) (-1) (int32_of (- o)) e = Some (sub_anc s f 1 o e).
Proof.
  intros Hs Hc Ho Hg. unfold UpdateAncestorState, sub_anc.
  rewrite (int32_of_neg o) by lia. rewrite (int32_of_neg o) by lia.
  replace (nSizeWithAncestors e + - s) with (nSizeWithAncestors e - s) by lia.
  replace (nCountWithAncestors e + -1) with (nCountWithAncestors e - 1) by lia.
  replace (nModFeesWithAncestors e + - f) with (nModFeesWithAncestors e - f) by lia.
  replace (nSigOpCostWithAncestors e + - o) with (nSigOpCostWithAncestors e - o) by lia.
  rewrite !wrap64_small by lia. rewrite !int64_of_small by lia.
  rewrite int32_of_small by lia.
  destruct (0 <? nSizeWithAncestors e - s) eqn:E1; [| apply Z.ltb_ge in E1; lia].
  destruct (0 <? nCountWithAncestors e - 1) eqn:E2; [| apply Z.ltb_ge in E2; lia].
  destruct (0 <=? nSigOpCostWithAncestors e - o) eqn:E3; [| apply Z.leb_gt in E3; lia].
  done.
Qed.

Lemma sum_over_elem_le m f (s : gset uint256) h e :
  h ∈ s -> m !! h = Some e ->
  (forall x ex, x ∈ s -> m !! x = Some ex -> 0 <= f ex) ->
  f e <= sum_over m f s.
Proof.
  intros Hh He Hnn.
  replace s with ({[h]} ∪ s ∖ {[h]}) by (apply set_eq; intros x; destruct (decide (x = h)); set_solver).
  rewrite (sum_over_insert m f h e) by (set_solver || done).
  assert (0 <= sum_over m f (s ∖ {[h]})); [| lia].
  apply sum_over_nonneg. intros x ex Hx. apply Hnn. set_solver.
Qed.

Section Kinship.
Context `{Externals}.
Variable p : CTxMemPool.
Hypothesis Hl : links_closed p.
Hypothesis Hsym : links_symmetric p.

Lemma child_parent a b : child_rel p a b -> parent_rel p b a.
Proof.
  intros (l & Hla & Hb). destruct (Hsym a l Hla) as [Hch _]. specialize (Hch b Hb).
  cbn in Hch. unfold links_at in Hch.
  destruct (mapLinks p !! b) as [lb |] eqn:Hlb; [| set_solver]. exists lb. by split.
Qed.

Lemma parent_child a b : parent_rel p a b -> child_rel p b a.
Proof.
  intros (l & Hla & Hb). destruct (Hsym a l Hla) as [_ Hpa]. specialize (Hpa b Hb).
  cbn in Hpa. unfold links_at in Hpa.
  destruct (mapLinks p !! b) as [lb |] eqn:Hlb; [| set_solver]. exists lb. by split.
Qed.

Lemma descendant_ancestor h x : descendant p h x -> x = h \/ ancestor p x h.
Proof.
  unfold descendant, ancestor. intros Hhx. apply rtc_tc in Hhx as [-> | Hhx]; [by left |].
  right. induction Hhx as [a b Hab | a b c Hab _ IH].
  - apply tc_once. by apply child_parent.
  - eapply tc_r; [exact IH |]. by apply child_parent.
Qed.

Lemma ancestor_descendant x h : ancestor p x h -> descendant p h x.
Proof.
  unfold descendant, ancestor. intros Hxh. induction Hxh as [a b Hab | a b c Hab _ IH].
  - apply rtc_once. by apply parent_child.
  - eapply rtc_r; [exact IH |]. by apply parent_child.
Qed.
End Kinship.

Section UnlinkingChildren.
Context `{Externals}.

(** [UpdateParent(entry, parent, false)] on an entry that has links. *)
Lemma UpdateParent_remove entry parent q l :
  mapLinks q !! entry = Some l ->
  exists u, UpdateParent entry parent false q
            = with_cachedInnerUsage u
                (with_mapLinks (<[entry := mkLinks (parents l ∖ {[parent]}) (children l)]>
                                  (mapLinks q)) q).
Proof.
  intros Hl. unfold UpdateParent, links_at. rewrite Hl. cbn [default id].
  destruct (decide (parent ∈ parents l)) as [Hin | Hnin].
  - by exists (wrap64 (cachedInnerUsage q - IncrementalDynamicUsage)).
  - exists (cachedInnerUsage q).
    replace (parents l ∖ {[parent]}) with (parents l) by set_solver.
    rewrite TxLinks_eta. by destruct q.
Qed.

(** The loop of [UpdateChildrenForRemoval]. *)
Lemma unlink_from_children r l : forall q,
  (forall x, x ∈ l -> is_Some (mapLinks q !! x)) ->
  let q1 := foldl (fun q updateIt => UpdateParent updateIt r false q) q l in
  q1 = with_cachedInnerUsage (cachedInnerUsage q1) (with_mapLinks (mapLinks q1) q)
  /\ forall h, mapLinks q1 !! h
               = (fun lk => if decide (h ∈ l)
                            then mkLinks (parents lk ∖ {[r]}) (children lk) else lk)
                 <$> mapLinks q !! h.
Proof.
  induction l as [| x l IH]; intros q Hall; cbn [foldl].
  - split; [by destruct q |]. intros h.
    destruct (mapLinks q !! h); [| done]. cbn.
    destruct (decide (h ∈ [])) as [Hin | _]; [by apply elem_of_nil in Hin | done].
  - destruct (Hall x) as [lx Hlx]; [left |].
    destruct (UpdateParent_remove x r q lx Hlx) as (u & ->).
    match goal with |- context [foldl _ ?q0 l] => set (q' := q0) end.
    destruct (IH q') as (Hq1 & Hlk).
    { intros y Hy. subst q'. cbn.
      destruct (decide (y = x)) as [-> | Hne].
      - rewrite lookup_insert_eq. eauto.
      - rewrite lookup_insert_ne by done. apply Hall. by right. }
    split.
    + etrans; [exact Hq1 |]. subst q'. reflexivity.
    + intros h. rewrite Hlk. subst q'. cbn [mapLinks with_cachedInnerUsage with_mapLinks].
      destruct (decide (h = x)) as [-> | Hne].
      * rewrite lookup_insert_eq, Hlx. cbn [fmap option_fmap option_map].
        f_equal. destruct (decide (x ∈ x :: l)) as [_ | Hn]; [| by destruct Hn; left].
        destruct (decide (x ∈ l)); cbn [parents children]; [| done].
        f_equal. set_solver.
      * rewrite lookup_insert_ne by done.
        destruct (mapLinks q !! h) as [lh |]; [| done].
        cbn [fmap option_fmap option_map]. f_equal.
        destruct (decide (h ∈ l)) as [Hin | Hnin].
        -- destruct (decide (h ∈ x :: l)) as [_ | Hn]; [done | by destruct Hn; right].
        -- destruct (decide (h ∈ x :: l)) as [[? | ?]%elem_of_cons | _]; done.
Qed.
End UnlinkingChildren.

Lemma weight_of_sub_anc s f c o e : weight_of (sub_anc s f c o e) = weight_of e.
Proof. done. Qed.

Section TakeOut.
Context `{Externals}.
Variables (p : CTxMemPool) (h : uint256) (e : CTxMemPoolEntry).
Hypothesis Hwf : well_formed p.
Hypothesis Hanc : ancestors_accounted p.
Hypothesis He : mapTx p !! h = Some e.

Lemma sigOpCost_sum_nonneg (s : gset uint256) : 0 <= sum_over (mapTx p) sigOpCost s.
Proof. apply sum_over_nonneg. intros x ex _ Hx. by destruct (Hanc x ex Hx) as (? & _). Qed.

Lemma GetTxSize_sum_nonneg (s : gset uint256) : 0 <= sum_over (mapTx p) GetTxSize s.
Proof.
  pose proof Hwf as (_ & _ & _ & _ & Hpos & _).
  apply sum_over_nonneg. intros x ex _ Hx. pose proof (Hpos x ex Hx). simpl in *. lia.
Qed.

(** The ancestor aggregates of an entry have room for each of its
    ancestors to leave. *)
Lemma ancestor_can_leave d ed :
  mapTx p !! d = Some ed -> h ∈ ancestors_of p d ->
  UpdateAncestorState (- GetTxSize e) (- GetModifiedFee e) (-1) (int32_of (- sigOpCost e)) ed
  = Some (sub_anc (GetTxSize e) (GetModifiedFee e) 1 (sigOpCost e) ed)
  /\ aggregates_in_range (sub_anc (GetTxSize e) (GetModifiedFee e) 1 (sigOpCost e) ed).
Proof.
  intros Hd Hh. pose proof Hwf as (_ & _ & _ & Hr & Hpos & _).
  destruct (Hanc d ed Hd) as (Hd1 & Hd2 & Hd3 & Hd4 & Hd5).
  destruct (Hanc h e He) as (Hh1 & Hh2 & _ & _ & Hh5).
  pose proof (Hr d ed Hd) as (Hr1 & Hr2 & Hr3 & Hr4 & Hr5). 
  pose proof (Hpos d ed Hd) as Hpd. pose proof (Hpos h e He) as Hph. cbn in Hpd, Hph.
  assert (GetTxSize e <= sum_over (mapTx p) GetTxSize (ancestors_of p d)) as Hle1.
  { apply (sum_over_elem_le _ _ _ h e); [done | done |].
    intros x ex _ Hx. pose proof (Hpos x ex Hx). simpl in *. lia. }
  assert (sigOpCost e <= sum_over (mapTx p) sigOpCost (ancestors_of p d)) as Hle2.
  { apply (sum_over_elem_le _ _ _ h e); [done | done |].
    intros x ex _ Hx. by destruct (Hanc x ex Hx) as (? & _). }
  assert (1 <= sizeZ (ancestors_of p d)) as Hle3.
  { unfold sizeZ. assert (size (ancestors_of p d) <> 0)%nat; [| lia].
    intros Hz. apply size_empty_inv in Hz. set_solver. }
  pose proof (sigOpCost_sum_nonneg (ancestors_of p h)) as Hnn.
  split.
  - apply UpdateAncestorState_remove; lia.
  - unfold aggregates_in_range, sub_anc. cbn. rewrite int32_of_small by lia. lia.
Qed.

Lemma take_out_descendants :
  exists D : gset uint256,
    (forall y, y ∈ D <-> descendant p h y /\ y <> h)
    /\ (setDescendants ← CalculateDescendants p h ∅;
        let setDescendants := setDescendants ∖ {[h]} in
        r ← mapTx p !! h;
        let modifySize := - GetTxSize r in
        let modifyFee := - GetModifiedFee r in
        let modifySigOps := int32_of (- sigOpCost r) in
        for_each (fun dit q' =>
                    modify dit (UpdateAncestorState modifySize modifyFee (-1) modifySigOps) q')
                 (ordered setDescendants) p)
       = Some (with_mapTx
                 (map_at D (sub_anc (GetTxSize e) (GetModifiedFee e) 1 (sigOpCost e))
                         (mapTx p)) p).
Proof.
  pose proof Hwf as (Hl & Hsym & Hk & _).
  assert (h ∈ dom (mapTx p)) as Hin by (apply elem_of_dom; eauto).
  destruct (CalculateDescendants_spec p h ∅ Hl Hin) as (D0 & HD0 & Hspec); [set_solver |].
  exists (D0 ∖ {[h]}). split.
  { intros y. rewrite elem_of_difference, Hspec, elem_of_singleton. set_solver. }
  rewrite HD0. cbn [mbind option_bind]. cbv zeta. rewrite He. cbn [mbind option_bind].
  apply for_each_modify_pure.
  - intros d ed [[? | Hd]%Hspec Hne%not_elem_of_singleton]%elem_of_difference Hed;
      [set_solver |].
    apply (ancestor_can_leave d ed Hed).
    apply (elem_of_ancestors_of p d h Hl Hk); [apply elem_of_dom; eauto |].
    by destruct (descendant_ancestor p Hl Hsym h d Hd).
  - intros d [[? | Hd]%Hspec _]%elem_of_difference; [set_solver |].
    by eapply descendants_in_pool.
Qed.

Lemma RemoveStaged_take_out reason :
  exists p', RemoveStaged {[h]} true reason p = Some p' /\ taken_out p h p'.
Proof.
  pose proof Hwf as (Hl & Hsym & Hk & Hr & Hpos & Hacc).
  assert (h ∈ dom (mapTx p)) as Hin by (apply elem_of_dom; eauto).
  destruct take_out_descendants as (D & HD & Hloop1). cbv zeta in Hloop1.
  set (g := sub_anc (GetTxSize e) (GetModifiedFee e) 1 (sigOpCost e)) in *.
  set (p1 := with_mapTx (map_at D g (mapTx p)) p) in *.
  assert (h ∉ D) as HhD by (intros [_ ?]%HD; done).
  assert (forall d, d ∈ D -> h ∈ ancestors_of p d) as HDanc.
  { intros d [Hd Hne]%HD.
    apply (elem_of_ancestors_of p d h Hl Hk); [by eapply descendants_in_pool |].
    by destruct (descendant_ancestor p Hl Hsym h d Hd). }
  assert (well_formed p1) as Hwf1.
  { apply (well_formed_reweigh p p1); [done | | | done].
    - unfold p1. cbn [mapTx with_mapTx]. by apply weight_of_map_at.
    - unfold p1. cbn [mapTx with_mapTx]. intros x ex. rewrite lookup_map_at.
      destruct (mapTx p !! x) as [ex0 |] eqn:Hx; [| done]. cbn.
      intros [= <-]. case_decide as HxD; [| by apply (Hr x ex0)].
      by apply (ancestor_can_leave x ex0 Hx), HDanc. }
  assert (mapTx p1 !! h = Some e) as He1.
  { unfold p1. cbn [mapTx with_mapTx]. rewrite lookup_map_at, He. cbn.
    by rewrite decide_False. }
  assert (forall x, ancestors_of p1 x = ancestors_of p x) as Hanc1.
  { intros x. unfold ancestors_of, p1. cbn [mapTx with_mapTx]. rewrite lookup_map_at.
    destruct (mapTx p !! x) as [ex |]; [| done]. cbn [fmap option_fmap option_map].
    rewrite (CalculateMemPoolAncestors_frame p _ ex); [done | | by case_decide].
    split; [done |]. cbn [mapTx with_mapTx]. apply dom_map_at. }
  unfold RemoveStaged, UpdateForRemoveFromMempool. rewrite ordered_singleton.
  cbn [for_each]. cbv zeta. rewrite Hloop1. cbn [mbind option_bind].
  destruct (detach_step p1 Hwf1 ∅ p1 h) as (q2 & Hq2 & Hd2).
  { apply detached_nothing. exact Hwf1. }
  { set_solver. }
  { apply elem_of_dom. eauto. }
  { set_solver. }
  rewrite Hq2. cbn [mbind option_bind].
  replace ({[h]} ∪ ∅) with ({[h]} : gset uint256) in Hd2 by set_solver.
  destruct Hd2 as (Hsame2 & Htx2 & Hlk2).
  assert (is_Some (mapLinks p !! h)) as [lh Hlh].
  { apply elem_of_dom. destruct Hl as [-> _]. done. }
  unfold UpdateChildrenForRemoval.
  assert (GetMemPoolChildren q2 h = Some (children lh ∖ {[h]})) as ->.
  { unfold GetMemPoolChildren. rewrite Htx2, He1. cbn [fmap option_fmap option_map mbind
      option_bind]. rewrite Hlk2. unfold p1. cbn [mapLinks with_mapTx]. by rewrite Hlh. }
  cbn [mbind option_bind].
  destruct (unlink_from_children h (ordered (children lh ∖ {[h]})) q2) as (Hq3 & Hlk3).
  { intros x [Hx _]%elem_of_ordered%elem_of_difference. rewrite Hlk2.
    unfold p1. cbn [mapLinks with_mapTx]. apply fmap_is_Some, elem_of_dom.
    destruct Hl as [-> Hcl]. destruct (Hcl h lh Hlh) as [_ Hc]. by apply Hc. }
  match type of Hq3 with ?q = _ => set (q3 := q) in * end.
  assert (mapTx q3 = mapTx q2) as Htx3 by (rewrite Hq3; reflexivity).
  assert (mapDeltas q3 = mapDeltas p) as Hdl3.
  { rewrite Hq3. cbn. destruct (same_but_graph_fields p1 q2 Hsame2) as (_ & -> & _). done. }
  clearbody q3.
  assert (is_Some (mapTx q3 !! h)) as [e3 He3].
  { rewrite Htx3, Htx2, He1. cbn. eauto. }
  assert (exists p', removeUnchecked h reason q3 = Some p') as [p' Hp'].
  { unfold removeUnchecked. rewrite He3. cbn [mbind option_bind]. eauto. }
  rewrite Hp'. cbn [mbind option_bind]. exists p'. split; [done |].
  destruct (removeUnchecked_shape h reason q3 p' e3 He3 Hp') as (Htx' & Hlk' & _ & Hdl').
  exists e, (ancestors_of p h), D.
  split; [done |]. split; [intros y; by apply elem_of_ancestors_of |].
  split; [done |]. split; [| split; [| congruence]].
  - intros x. rewrite Htx'. destruct (decide (x = h)) as [| Hne]; [done |].
    f_equal. rewrite Htx3, Htx2.
    assert (mapTx p1 !! x = (fun ex => if decide (x ∈ D) then g ex else ex) <$> mapTx p !! x)
      as -> by (unfold p1; cbn [mapTx with_mapTx]; apply lookup_map_at).
    destruct (mapTx p !! x) as [ex |]; [| done].
    cbn [fmap option_fmap option_map]. f_equal.
    rewrite below_singleton, Hanc1.
    destruct (decide (x ∈ ancestors_of p h)) as [HxA | HxA].
    + rewrite !sum_over_singleton, He1. cbn [from_option].
      unfold sizeZ. rewrite size_singleton. by case_decide.
    + rewrite !sum_over_empty. unfold sizeZ. rewrite size_empty. rewrite reduce_desc_0.
      by case_decide.
  - intros x. rewrite Hlk'. destruct (decide (x = h)) as [-> | Hne].
    + by rewrite lookup_delete_eq.
    + rewrite lookup_delete_ne by done. rewrite Hlk3, Hlk2.
      unfold p1. cbn [mapLinks with_mapTx].
      destruct (mapLinks p !! x) as [lx |] eqn:Hlx; [| done].
      cbn [fmap option_fmap option_map]. f_equal.
      destruct (decide (x ∈ ordered (children lh ∖ {[h]}))) as [Hx | Hx]; [done |].
      cbn [parents children]. f_equal.
      assert (h ∉ parents lx); [| set_solver].
      intros Hhx. apply Hx, elem_of_ordered, elem_of_difference. split; [| set_solver].
      destruct (Hsym x lx Hlx) as [_ Hpa]. specialize (Hpa h Hhx). cbn in Hpa.
      unfold links_at in Hpa. by rewrite Hlh in Hpa.
Qed.
End TakeOut.

(** ** The pool after a confirmed transaction has left *)

Lemma sum_over_without m f (S S' : gset uint256) h eh :
  S' ⊆ S ∖ {[h]} -> h ∈ S -> m !! h = Some eh ->
  (forall x ex, x ∈ S -> m !! x = Some ex -> 0 <= f ex) ->
  sum_over m f S' + f eh <= sum_over m f S.
Proof.
  intros Hsub Hh Hm Hnn.
  replace S with ({[h]} ∪ S ∖ {[h]})
    by (apply set_eq; intros x; destruct (decide (x = h)); set_solver).
  rewrite (sum_over_insert m f h eh) by (set_solver || done).
  assert (sum_over m f S' <= sum_over m f (S ∖ {[h]})); [| lia].
  apply sum_over_mono; [done |]. intros x ex Hx. apply Hnn. set_solver.
Qed.

Lemma sizeZ_without (S S' : gset uint256) h :
  S' ⊆ S ∖ {[h]} -> h ∈ S -> sizeZ S' + 1 <= sizeZ S.
Proof.
  intros Hsub Hh. pose proof (sizeZ_remove h S Hh). pose proof (sizeZ_mono _ _ Hsub). lia.
Qed.

Section TakenOut.
Context `{Externals}.
Variables (p p' : CTxMemPool) (h : uint256) (e : CTxMemPoolEntry) (A D : gset uint256).
Hypothesis Hwf : well_formed p.
Hypothesis Hanc : ancestors_accounted p.
Hypothesis He : mapTx p !! h = Some e.
Hypothesis HA : forall y, y ∈ A <-> ancestor p h y.
Hypothesis HD : forall y, y ∈ D <-> descendant p h y /\ y <> h.
Hypothesis Htx :
  forall x, forget_idx <$> mapTx p' !! x
            = if decide (x = h) then None
              else forget_idx <$>
                     ((fun ex =>
                         (if decide (x ∈ A)
                          then reduce_desc (GetTxSize e) (GetModifiedFee e) 1 else id)
                           ((if decide (x ∈ D)
                             then sub_anc (GetTxSize e) (GetModifiedFee e) 1 (sigOpCost e)
                             else id) ex))
                      <$> mapTx p !! x).
Hypothesis Hlk :
  forall x, mapLinks p' !! x
            = if decide (x = h) then None
              else (fun l => mkLinks (parents l ∖ {[h]}) (children l ∖ {[h]}))
                   <$> mapLinks p !! x.

Lemma out_entry x e' :
  mapTx p' !! x = Some e' ->
  x <> h
  /\ exists ex, mapTx p !! x = Some ex
       /\ tx e' = tx ex /\ GetTxSize e' = GetTxSize ex /\ sigOpCost e' = sigOpCost ex
       /\ nSizeWithDescendants e'
          = nSizeWithDescendants ex - (if decide (x ∈ A) then GetTxSize e else 0)
       /\ nCountWithDescendants e'
          = nCountWithDescendants ex - (if decide (x ∈ A) then 1 else 0)
       /\ nSizeWithAncestors e'
          = nSizeWithAncestors ex - (if decide (x ∈ D) then GetTxSize e else 0)
       /\ nCountWithAncestors e'
          = nCountWithAncestors ex - (if decide (x ∈ D) then 1 else 0)
       /\ nSigOpCostWithAncestors e'
          = nSigOpCostWithAncestors ex - (if decide (x ∈ D) then sigOpCost e else 0).
Proof.
  intros He'. specialize (Htx x). rewrite He' in Htx.
  destruct (decide (x = h)) as [| Hne]; [done |]. split; [done |].
  destruct (mapTx p !! x) as [ex |]; [| done]. exists ex. split; [done |].
  cbn [fmap option_fmap option_map] in Htx. apply (inj Some) in Htx.
  apply forget_idx_eq in Htx. rewrite Htx. unfold GetTxSize.
  destruct (decide (x ∈ A)), (decide (x ∈ D)); cbn; repeat split; lia.
Qed.

Lemma out_dom : dom (mapTx p') = dom (mapTx p) ∖ {[h]}.
Proof.
  apply set_eq. intros x. rewrite elem_of_difference, elem_of_singleton, !elem_of_dom.
  rewrite <- (fmap_is_Some forget_idx (mapTx p' !! x)), Htx.
  destruct (decide (x = h)) as [-> | Hne].
  - split; [by intros [] | by intros [_ []]].
  - rewrite !fmap_is_Some. tauto.
Qed.

Lemma out_links x l' :
  mapLinks p' !! x = Some l' ->
  x <> h /\ exists l, mapLinks p !! x = Some l
                      /\ l' = mkLinks (parents l ∖ {[h]}) (children l ∖ {[h]}).
Proof.
  intros Hl'. rewrite Hlk in Hl'. destruct (decide (x = h)) as [| Hne]; [done |].
  split; [done |]. destruct (mapLinks p !! x) as [l |]; [| done]. exists l.
  split; [done |]. cbn in Hl'. by injection Hl'.
Qed.

Lemma out_dom_links : dom (mapLinks p') = dom (mapLinks p) ∖ {[h]}.
Proof.
  apply set_eq. intros x. rewrite elem_of_difference, elem_of_singleton, !elem_of_dom.
  rewrite Hlk. destruct (decide (x = h)) as [-> | Hne].
  - split; [by intros [] | by intros [_ []]].
  - rewrite fmap_is_Some. tauto.
Qed.

Lemma out_links_at x :
  x <> h ->
  links_at p' x = mkLinks (parents (links_at p x) ∖ {[h]}) (children (links_at p x) ∖ {[h]}).
Proof.
  intros Hne. unfold links_at. rewrite Hlk, decide_False by done.
  destruct (mapLinks p !! x); cbn; [done |]. f_equal; set_solver.
Qed.

Lemma out_links_closed : links_closed p'.
Proof.
  pose proof Hwf as ([Hd Hcl] & _). split.
  - by rewrite out_dom_links, out_dom, Hd.
  - intros x l' Hl'. cbn. destruct (out_links x l' Hl') as (Hne & l & Hlx & ->).
    destruct (Hcl x l Hlx) as [Hp Hc]. rewrite out_dom. cbn. set_solver.
Qed.

Lemma out_links_symmetric : links_symmetric p'.
Proof.
  pose proof Hwf as (_ & Hsym & _). intros a l' Hl'. cbn.
  destruct (out_links a l' Hl') as (Hne & l & Hla & ->).
  destruct (Hsym a l Hla) as [Hch Hpa]. cbn. split.
  - intros c [Hc Hch']%elem_of_difference. rewrite out_links_at by set_solver.
    cbn. apply elem_of_difference. split; [by apply Hch | set_solver].
  - intros b [Hb Hbh]%elem_of_difference. rewrite out_links_at by set_solver.
    cbn. apply elem_of_difference. split; [by apply Hpa | set_solver].
Qed.

Lemma out_entry_keys_ok : entry_keys_ok p'.
Proof.
  pose proof Hwf as (_ & _ & Hk & _). intros x e' He'. cbn.
  destruct (out_entry x e' He') as (_ & ex & Hx & -> & _). apply (Hk x ex Hx).
Qed.

Lemma out_parent_rel x y : parent_rel p' x y -> parent_rel p x y /\ x <> h /\ y <> h.
Proof.
  intros (l' & Hl' & Hy). destruct (out_links x l' Hl') as (Hne & l & Hlx & ->).
  cbn in Hy. apply elem_of_difference in Hy as [Hy Hyh].
  split; [by exists l |]. split; [done | set_solver].
Qed.

Lemma out_ancestor x y : ancestor p' x y -> ancestor p x y /\ y <> h.
Proof.
  unfold ancestor. induction 1 as [a b Hab | a b c Hab _ [IH1 IH2]].
  - destruct (out_parent_rel a b Hab) as (Hp & _ & Hb). split; [by apply tc_once | done].
  - destruct (out_parent_rel a b Hab) as (Hp & _ & _). split; [| done].
    eapply tc_l; [exact Hp | exact IH1].
Qed.

Lemma out_ancestors_of x :
  x ∈ dom (mapTx p') -> ancestors_of p' x ⊆ ancestors_of p x ∖ {[h]}.
Proof.
  intros Hx. pose proof Hwf as (Hl & _ & Hk & _). intros y Hy.
  apply (elem_of_ancestors_of p' x y out_links_closed out_entry_keys_ok Hx) in Hy.
  destruct (out_ancestor x y Hy) as [Hy' Hne]. apply elem_of_difference.
  split; [| set_solver].
  apply (elem_of_ancestors_of p x y Hl Hk); [| done]. rewrite out_dom in Hx. set_solver.
Qed.

Lemma out_below a : below p' a (dom (mapTx p')) ⊆ below p a (dom (mapTx p)) ∖ {[h]}.
Proof.
  intros r [Ha Hr]%elem_of_below. pose proof (out_ancestors_of r Hr a Ha) as Ha'.
  rewrite out_dom in Hr. apply elem_of_difference. split; [| set_solver].
  apply elem_of_below. set_solver.
Qed.

Lemma out_sum (f : CTxMemPoolEntry -> Z) (S : gset uint256) :
  (forall x e' ex, mapTx p' !! x = Some e' -> mapTx p !! x = Some ex -> f e' = f ex) ->
  S ⊆ dom (mapTx p') ->
  sum_over (mapTx p') f S = sum_over (mapTx p) f S.
Proof.
  intros Hf HS. apply sum_over_ext. intros x Hx%HS. apply elem_of_dom in Hx as [e' He'].
  destruct (out_entry x e' He') as (_ & ex & Hex & _).
  rewrite He', Hex. cbn. by eapply Hf.
Qed.

Lemma out_GetTxSize x e' ex :
  mapTx p' !! x = Some e' -> mapTx p !! x = Some ex -> GetTxSize e' = GetTxSize ex.
Proof.
  intros He' Hex. destruct (out_entry x e' He') as (_ & ex0 & Hex0 & _ & Hsz & _).
  by simplify_eq.
Qed.

Lemma out_sigOpCost x e' ex :
  mapTx p' !! x = Some e' -> mapTx p !! x = Some ex -> sigOpCost e' = sigOpCost ex.
Proof.
  intros He' Hex. destruct (out_entry x e' He') as (_ & ex0 & Hex0 & _ & _ & Hsg & _).
  by simplify_eq.
Qed.

Lemma out_in_A x : x ∈ A -> h ∈ below p x (dom (mapTx p)).
Proof.
  pose proof Hwf as (Hl & _ & Hk & _). intros Hx%HA. apply elem_of_below.
  assert (h ∈ dom (mapTx p)) as Hh by (apply elem_of_dom; eauto).
  split; [| done]. by apply (elem_of_ancestors_of p h x Hl Hk Hh).
Qed.

Lemma out_in_D x : x ∈ D -> h ∈ ancestors_of p x.
Proof.
  pose proof Hwf as (Hl & Hsym & Hk & _). intros [Hx Hne]%HD.
  apply (elem_of_ancestors_of p x h Hl Hk).
  - eapply descendants_in_pool; [done | | done]. apply elem_of_dom. eauto.
  - by destruct (descendant_ancestor p Hl Hsym h x Hx).
Qed.

Lemma out_packages_accounted : packages_accounted p'.
Proof.
  pose proof Hwf as (_ & _ & _ & _ & Hpos & Hacc).
  assert (forall x ex, mapTx p !! x = Some ex -> 0 <= GetTxSize ex) as Hnn.
  { intros x ex Hx. pose proof (Hpos x ex Hx). simpl in *. lia. }
  intros a ea' Ha'. cbn.
  destruct (out_entry a ea' Ha') as (Hne & ea & Ha & _ & Hsz & _ & Hds & Hdc & _).
  destruct (Hacc a ea Ha) as [Hs Hc].
  rewrite (out_sum GetTxSize) by (apply out_GetTxSize || (intros r [_ ?]%elem_of_below; done)).
  rewrite Hsz, Hds, Hdc. destruct (decide (a ∈ A)) as [HaA | HaA].
  - pose proof (sum_over_without (mapTx p) GetTxSize _ _ h e (out_below a) (out_in_A a HaA) He
                  ltac:(intros; by eapply Hnn)).
    pose proof (sizeZ_without _ _ h (out_below a) (out_in_A a HaA)). lia.
  - assert (below p' a (dom (mapTx p')) ⊆ below p a (dom (mapTx p))) as Hsub
      by (pose proof (out_below a); set_solver).
    pose proof (sum_over_mono (mapTx p) GetTxSize _ _ Hsub ltac:(intros; by eapply Hnn)).
    pose proof (sizeZ_mono _ _ Hsub). lia.
Qed.

Lemma out_ancestors_accounted : ancestors_accounted p'.
Proof.
  pose proof Hwf as (_ & _ & _ & _ & Hpos & _).
  assert (forall x ex, mapTx p !! x = Some ex -> 0 <= GetTxSize ex) as Hnn.
  { intros x ex Hx. pose proof (Hpos x ex Hx). simpl in *. lia. }
  assert (forall x ex, mapTx p !! x = Some ex -> 0 <= sigOpCost ex) as Hnn'.
  { intros x ex Hx. by destruct (Hanc x ex Hx) as (? & _). }
  destruct (Hanc h e He) as (Hh1 & _).
  intros x ex' Hx'. cbn.
  destruct (out_entry x ex' Hx') as (Hne & ex & Hx & _ & Hsz & Hsg & _ & _ & Has & Hac & Hag).
  destruct (Hanc x ex Hx) as (Hx1 & Hx2 & Hx3 & Hx4 & Hx5).
  assert (x ∈ dom (mapTx p')) as Hxd by (apply elem_of_dom; eauto).
  pose proof (out_ancestors_of x Hxd) as Hsub.
  assert (ancestors_of p' x ⊆ dom (mapTx p')) as Hin.
  { intros y Hy.
    apply (elem_of_ancestors_of p' x y out_links_closed out_entry_keys_ok Hxd) in Hy.
    by eapply ancestors_in_pool; [apply out_links_closed |]. }
  rewrite (out_sum GetTxSize) by (apply out_GetTxSize || done).
  rewrite (out_sum sigOpCost) by (apply out_sigOpCost || done).
  rewrite Hsz, Hsg, Has, Hac, Hag. destruct (decide (x ∈ D)) as [HxD | HxD].
  - pose proof (sum_over_without (mapTx p) GetTxSize _ _ h e Hsub (out_in_D x HxD) He
                  ltac:(intros; by eapply Hnn)).
    pose proof (sum_over_without (mapTx p) sigOpCost _ _ h e Hsub (out_in_D x HxD) He
                  ltac:(intros; by eapply Hnn')).
    pose proof (sizeZ_without _ _ h Hsub (out_in_D x HxD)). lia.
  - assert (ancestors_of p' x ⊆ ancestors_of p x) as Hsub' by set_solver.
    pose proof (sum_over_mono (mapTx p) GetTxSize _ _ Hsub' ltac:(intros; by eapply Hnn)).
    pose proof (sum_over_mono (mapTx p) sigOpCost _ _ Hsub' ltac:(intros; by eapply Hnn')).
    pose proof (sizeZ_mono _ _ Hsub'). lia.
Qed.

Lemma out_sizes_positive : sizes_positive p'.
Proof.
  pose proof Hwf as (_ & _ & _ & _ & Hpos & _). intros x ex' Hx'. cbn.
  destruct (out_entry x ex' Hx') as (_ & ex & Hx & _ & -> & _). apply (Hpos x ex Hx).
Qed.

Lemma out_in_range : map_Forall (fun _ e => aggregates_in_range e) (mapTx p').
Proof.
  pose proof Hwf as (_ & _ & _ & Hr & _).
  intros x ex' Hx'. cbn.
  pose proof (out_packages_accounted x ex' Hx') as [Hp1 Hp2].
  pose proof (out_ancestors_accounted x ex' Hx') as (Ha1 & Ha2 & Ha3 & Ha4 & Ha5).
  pose proof (out_sizes_positive x ex' Hx') as Hpos'. cbn in Hp1, Hp2, Hpos'.
  destruct (out_entry x ex' Hx') as (_ & ex & Hx & _ & _ & _ & Hds & Hdc & Has & Hac & Hag).
  destruct (Hr x ex Hx) as (Hr1 & Hr2 & Hr3 & Hr4 & Hr5).
  pose proof (Hwf) as (_ & _ & _ & _ & Hpos & _). pose proof (Hpos h e He) as Hpe.
  destruct (Hanc h e He) as (Hh1 & _). cbn in Hpe.
  assert (0 <= sum_over (mapTx p') GetTxSize (below p' x (dom (mapTx p')))) as Hn1.
  { apply sum_over_nonneg. intros y ey _ Hy. pose proof (out_sizes_positive y ey Hy).
    simpl in *. lia. }
  assert (0 <= sum_over (mapTx p') GetTxSize (ancestors_of p' x)) as Hn2.
  { apply sum_over_nonneg. intros y ey _ Hy. pose proof (out_sizes_positive y ey Hy).
    simpl in *. lia. }
  assert (0 <= sum_over (mapTx p') sigOpCost (ancestors_of p' x)) as Hn3.
  { apply sum_over_nonneg. intros y ey _ Hy.
    by destruct (out_ancestors_accounted y ey Hy) as (? & _). }
  assert (0 <= sizeZ (below p' x (dom (mapTx p')))) by (unfold sizeZ; lia).
  assert (0 <= sizeZ (ancestors_of p' x)) by (unfold sizeZ; lia).
  unfold aggregates_in_range.
  rewrite int32_of_small by lia.
  destruct (decide (x ∈ A)), (decide (x ∈ D)); lia.
Qed.

Lemma out_well_formed : well_formed p'.
Proof.
  split; [apply out_links_closed |]. split; [apply out_links_symmetric |].
  split; [apply out_entry_keys_ok |]. split; [apply out_in_range |].
  split; [apply out_sizes_positive | apply out_packages_accounted].
Qed.
End TakenOut.

(** ** The invariants of a block removal through the removal of packages *)

Section SurvivorsAncestors.
Context `{Externals}.
Variables (p : CTxMemPool) (reason : MemPoolRemovalReason) (R : gset uint256)
          (p' : CTxMemPool).
Hypothesis Hwf : well_formed p.
Hypothesis Hanc : ancestors_accounted p.
Hypothesis HR : R ⊆ dom (mapTx p).
Hypothesis Hclosed : closed_under_children p R.
Hypothesis Hrem : removed_from reason p R p'.

Lemma removed_ancestors_accounted : ancestors_accounted p'.
Proof.
  pose proof Hwf as (Hl & _ & Hk & _ & Hpos & _).
  pose proof (removed_well_formed p reason R p' Hwf HR Hclosed Hrem) as (Hl' & _ & Hk' & _).
  assert (forall x ex, mapTx p !! x = Some ex -> 0 <= GetTxSize ex) as Hnn.
  { intros x ex Hx. pose proof (Hpos x ex Hx). simpl in *. lia. }
  assert (forall x ex, mapTx p !! x = Some ex -> 0 <= sigOpCost ex) as Hnn'.
  { intros x ex Hx. by destruct (Hanc x ex Hx) as (? & _). }
  assert (forall (f : CTxMemPoolEntry -> Z) (S : gset uint256),
            (forall e s c d i, f (set_vTxHashesIdx i (reduce_desc s c d e)) = f e) ->
            S ⊆ dom (mapTx p') ->
            sum_over (mapTx p') f S = sum_over (mapTx p) f S) as Hsum.
  { intros f S Hf HS. apply sum_over_ext. intros x Hx%HS.
    apply elem_of_dom in Hx as [e' He'].
    destruct (survivor_entry p reason R p' Hrem x e' He') as (_ & ex & Hex & Heq).
    rewrite He', Hex. cbn. rewrite Heq. apply Hf. }
  intros x ex' Hx'. cbn.
  destruct (survivor_entry p reason R p' Hrem x ex' Hx') as (HxR & ex & Hx & Heq).
  destruct (Hanc x ex Hx) as (Hx1 & Hx2 & Hx3 & Hx4 & Hx5).
  assert (x ∈ dom (mapTx p')) as Hxd by (apply elem_of_dom; eauto).
  assert (x ∈ dom (mapTx p)) as Hxd0 by (apply elem_of_dom; eauto).
  assert (ancestors_of p' x ⊆ ancestors_of p x) as Hsub.
  { intros y Hy. apply (elem_of_ancestors_of p' x y Hl' Hk' Hxd) in Hy.
    apply (elem_of_ancestors_of p x y Hl Hk Hxd0).
    by apply (removed_ancestor p reason R p' Hrem). }
  assert (ancestors_of p' x ⊆ dom (mapTx p')) as Hin.
  { intros y Hy. apply (elem_of_ancestors_of p' x y Hl' Hk' Hxd) in Hy.
    by eapply ancestors_in_pool. }
  rewrite (Hsum GetTxSize) by done. rewrite (Hsum sigOpCost) by done.
  pose proof (sum_over_mono (mapTx p) GetTxSize _ _ Hsub ltac:(intros; by eapply Hnn)).
  pose proof (sum_over_mono (mapTx p) sigOpCost _ _ Hsub ltac:(intros; by eapply Hnn')).
  pose proof (sizeZ_mono _ _ Hsub).
  rewrite Heq. unfold GetTxSize in *. cbn. lia.
Qed.
End SurvivorsAncestors.

Section ConsistentRemovals.
Context `{Externals}.

(** A confirmed transaction leaves a consistent pool consistent. *)
Lemma RemoveStaged_confirmed p h reason :
  consistent p -> h ∈ dom (mapTx p) ->
  exists p', RemoveStaged {[h]} true reason p = Some p'
             /\ taken_out p h p' /\ consistent p'.
Proof.
  intros (Hwf & Hanc & Hidx) [e He]%elem_of_dom.
  destruct (RemoveStaged_take_out p h e Hwf Hanc He reason) as (p' & Hrun & Hout).
  exists p'. split; [done |]. split; [done |].
  pose proof Hout as (e0 & A & D & He0 & HA & HD & Htx & Hlk & _).
  split; [by apply (out_well_formed p p' h e0 A D) |].
  split; [by apply (out_ancestors_accounted p p' h e0 A D) |].
  by destruct (RemoveStaged_spend_index {[h]} true reason p p' Hidx Hrun).
Qed.

(** A transaction of the pool and its descendants leave a consistent
    pool consistent. *)
Lemma removeRecursive_in_pool p T reason :
  consistent p -> GetHash T ∈ dom (mapTx p) ->
  exists p' stage,
    removeRecursive T reason p = Some p'
    /\ (forall h, h ∈ stage <-> descendant p (GetHash T) h)
    /\ removed_from reason p stage p'
    /\ dom (mapTx p') = dom (mapTx p) ∖ stage
    /\ mapNextTx p' ⊆ mapNextTx p
    /\ consistent p'.
Proof.
  intros (Hwf & Hanc & Hidx) Hin. pose proof Hwf as (Hl & _).
  destruct (removeRecursive T reason p) as [p' |] eqn:Hrun.
  2:{ exfalso. revert Hrun. unfold removeRecursive.
      pose proof Hin as [e He]%elem_of_dom. rewrite He. cbn [mbind option_bind].
      assert (forall x, x ∈ ordered ({[GetHash T]} : gset uint256) -> x ∈ dom (mapTx p))
        as Hdom0 by (intros x Hx%elem_of_ordered; set_solver).
      destruct (descendants_of_list p (ordered {[GetHash T]}) ∅ Hl Hdom0)
        as (stage & -> & Hstage & Hcl); [set_solver |].
      cbn [mbind option_bind].
      assert (stage ⊆ dom (mapTx p)) as Hdom.
      { intros h [? | (x & Hx%elem_of_ordered & Hd)]%Hstage; [set_solver |].
        eapply descendants_in_pool; [done | | done]. set_solver. }
      assert (closed_under_children p stage) as Hclosed.
      { intros r lr Hr Hlr c Hc. apply (Hcl r c Hr). by exists lr. }
      destruct (RemoveStaged_spec p Hwf reason stage Hdom Hclosed) as (p' & -> & _).
      done. }
  pose proof Hrun as Hrun'. unfold removeRecursive in Hrun'.
  pose proof Hin as [e He]%elem_of_dom. rewrite He in Hrun'. cbn [mbind option_bind] in Hrun'.
  assert (forall x, x ∈ ordered ({[GetHash T]} : gset uint256) -> x ∈ dom (mapTx p))
    as Hdom0 by (intros x Hx%elem_of_ordered; set_solver).
  destruct (descendants_of_list p (ordered {[GetHash T]}) ∅ Hl Hdom0)
    as (stage & Hst & Hstage & Hcl); [set_solver |].
  rewrite Hst in Hrun'. cbn [mbind option_bind] in Hrun'.
  assert (forall h, h ∈ stage <-> descendant p (GetHash T) h) as Hspec.
  { intros h. rewrite Hstage. split.
    - intros [Hh | (x & Hx%elem_of_ordered & Hd)]; [set_solver |].
      apply elem_of_singleton in Hx. by subst.
    - intros Hd. right. exists (GetHash T). split; [| done].
      apply elem_of_ordered. set_solver. }
  assert (stage ⊆ dom (mapTx p)) as Hdom.
  { intros h Hd%Hspec. by eapply descendants_in_pool. }
  assert (closed_under_children p stage) as Hclosed.
  { intros r lr Hr Hlr c Hc. apply (Hcl r c Hr). by exists lr. }
  destruct (RemoveStaged_spec p Hwf reason stage Hdom Hclosed) as (p'' & Hp'' & Hrem & _).
  rewrite Hp'' in Hrun'. injection Hrun' as ->.
  exists p', stage. split; [done |]. split; [done |]. split; [done |].
  split; [by eapply removed_dom |].
  destruct (RemoveStaged_spend_index stage false reason p p' Hidx Hp'') as [Hidx' Hsub].
  split; [done |].
  split; [by eapply removed_well_formed |].
  split; [by eapply removed_ancestors_accounted | done].
Qed.
End ConsistentRemovals.

(** ** Conflicts with a block *)

Lemma thinned_refl p : thinned p p.
Proof. split; [apply never_adds_refl |]. split; [done |]. split; done. Qed.

Lemma thinned_trans p q r : thinned p q -> thinned q r -> thinned p r.
Proof.
  intros (Ha & Hn & Hd & Hc) (Ha' & Hn' & Hd' & Hc').
  split; [by eapply never_adds_trans |]. split; [by etrans |]. split; [by etrans |].
  intros x y Hxy. by apply Hc, Hc'.
Qed.

Lemma thinned_descendant p q x y : thinned p q -> descendant q x y -> descendant p x y.
Proof.
  intros (_ & _ & _ & Hc). unfold descendant.
  induction 1 as [| a b c Hab _ IH]; [apply rtc_refl |].
  eapply rtc_l; [by apply Hc | exact IH].
Qed.

Lemma thinned_dom p q : thinned p q -> dom (mapTx q) ⊆ dom (mapTx p).
Proof.
  intros (Ha & _) x [e' He']%elem_of_dom.
  destruct (never_adds_lookup p q x e' Ha He') as (e & He & _). apply elem_of_dom. eauto.
Qed.

Section Conflicts.
Context `{Externals}.

Lemma consistent_frame p q :
  mapTx q = mapTx p -> mapLinks q = mapLinks p -> mapNextTx q = mapNextTx p ->
  consistent p -> consistent q.
Proof.
  intros Htx Hlk Hnx (Hwf & Hanc & Hidx).
  split; [by apply (well_formed_frame p q) |]. split.
  - unfold ancestors_accounted. rewrite Htx. intros x ex Hx. cbn.
    rewrite (ancestors_of_frame p q Htx Hlk). apply (Hanc x ex Hx).
  - unfold spend_index_exact. by rewrite Htx, Hnx.
Qed.

Lemma ClearPrioritisation_consistent h p : consistent p -> consistent (ClearPrioritisation h p).
Proof. intros Hc. by apply (consistent_frame p). Qed.

Lemma ClearPrioritisation_thinned h p : thinned p (ClearPrioritisation h p).
Proof.
  split; [by unfold never_adds |]. split; [done |]. split; [| done].
  cbn. apply delete_subseteq.
Qed.

Lemma taken_out_thinned p h p' reason :
  spend_index_exact p -> RemoveStaged {[h]} true reason p = Some p' -> taken_out p h p' ->
  thinned p p'.
Proof.
  intros Hidx Hrun (e & A & D & _ & _ & _ & _ & Hlk & Hdl).
  split; [by eapply RemoveStaged_never_adds |].
  split; [by destruct (RemoveStaged_spend_index _ _ _ _ _ Hidx Hrun) |].
  split; [by rewrite Hdl |].
  intros x y (l' & Hl' & Hy). rewrite Hlk in Hl'.
  destruct (decide (x = h)); [done |].
  destruct (mapLinks p !! x) as [l |] eqn:Hlx; [| done]. cbn in Hl'. injection Hl' as <-.
  exists l. split; [done |]. cbn in Hy. set_solver.
Qed.

Lemma removed_from_child_rel reason p R p' :
  removed_from reason p R p' -> forall x y, child_rel p' x y -> child_rel p x y.
Proof.
  intros Hrem x y (l' & Hl' & Hy).
  destruct (survivor_links p reason R p' Hrem x l' Hl') as (_ & l & Hlx & ->).
  exists l. split; [done |]. cbn in Hy. set_solver.
Qed.

(** [removeConflicts] on a consistent pool: it returns; no transaction of
    the pool but one filed under the hash of the block transaction spends
    an input of the block transaction any more; and every entry that has
    left is a conflicting transaction or one of its descendants. *)
Lemma removeConflicts_spec t p :
  consistent p ->
  exists p',
    removeConflicts t p = Some p'
    /\ consistent p'
    /\ thinned p p'
    /\ (forall txin s, txin ∈ vin t -> mapNextTx p' !! prevout txin = Some s -> s = GetHash t)
    /\ (forall x, x ∈ dom (mapTx p) -> x ∉ dom (mapTx p') ->
          exists c, conflicts_with p t c /\ descendant p c x).
Proof.
  intros Hc. unfold removeConflicts.
  destruct (for_each_prefix
              (fun l1 q =>
                 consistent q /\ thinned p q
                 /\ (forall txin s, txin ∈ l1 -> mapNextTx q !! prevout txin = Some s ->
                                    s = GetHash t)
                 /\ (forall x, x ∈ dom (mapTx p) -> x ∉ dom (mapTx q) ->
                       exists c, (c <> GetHash t
                                  /\ exists txin, txin ∈ l1
                                                  /\ mapNextTx p !! prevout txin = Some c)
                                 /\ descendant p c x))
              (fun txin q =>
                 match mapNextTx q !! prevout txin with
                 | Some nexthash =>
                     e ← mapTx q !! nexthash;
                     let txConflict := tx e in
                     if negb (GetHash txConflict =? GetHash t)%N then
                       removeRecursive txConflict CONFLICT
                         (ClearPrioritisation (GetHash txConflict) q)
                     else Some q
                 | None => Some q
                 end) (vin t)) with (s := p) as (p' & Hrun & Hc' & Hth & Hsp & Hrm).
  - intros l1 txin l2 q Hvin (Hq & Hthq & Hspq & Hrmq).
    pose proof Hq as (Hwfq & _ & Hidxq & _). pose proof Hwfq as (_ & _ & Hkq & _).
    destruct (mapNextTx q !! prevout txin) as [s |] eqn:Hs.
    2:{ exists q. split; [done |]. split; [done |]. split; [done |]. split.
        - intros txin' s' [Hin | ->%list_elem_of_singleton]%elem_of_app Hs'; [by eauto |].
          congruence.
        - intros x Hx Hx'. destruct (Hrmq x Hx Hx') as (c & (Hne & txin' & Hin & Hc0) & Hd).
          exists c. split; [| done]. split; [done |]. exists txin'.
          split; [apply elem_of_app; by left | done]. }
    pose proof (Hidxq _ _ Hs) as Hes. cbn in Hes.
    destruct (mapTx q !! s) as [es |] eqn:Hes'; [| done]. cbn [mbind option_bind]. cbv zeta.
    pose proof (Hkq s es Hes') as Hkey. cbn in Hkey. rewrite Hkey.
    destruct (s =? GetHash t)%N eqn:Eq; cbn [negb].
    { apply N.eqb_eq in Eq. exists q. split; [done |]. split; [done |]. split; [done |]. split.
      - intros txin' s' [Hin | ->%list_elem_of_singleton]%elem_of_app Hs'; [by eauto |].
        congruence.
      - intros x Hx Hx'. destruct (Hrmq x Hx Hx') as (c & (Hne & txin' & Hin & Hc0) & Hd).
        exists c. split; [| done]. split; [done |]. exists txin'.
        split; [apply elem_of_app; by left | done]. }
    apply N.eqb_neq in Eq.
    set (q1 := ClearPrioritisation s q).
    pose proof (ClearPrioritisation_consistent s q Hq) as Hq1. fold q1 in Hq1.
    pose proof (ClearPrioritisation_thinned s q) as Hth1. fold q1 in Hth1.
    destruct (removeRecursive_in_pool q1 (tx es) CONFLICT Hq1)
      as (q2 & stage & Hrun2 & Hstage & Hrem & Hdom2 & Hnx2 & Hq2).
    { rewrite Hkey. apply elem_of_dom. unfold q1. cbn. eauto. }
    rewrite Hkey in Hstage.
    assert (thinned q1 q2) as Hth2.
    { split; [by eapply removeRecursive_never_adds |]. split; [done |].
      split; [by destruct Hrem as (_ & _ & -> & _) |].
      by apply (removed_from_child_rel CONFLICT q1 stage q2). }
    assert (thinned p q2) as Hthp.
    { eapply thinned_trans; [exact Hthq |]. eapply thinned_trans; [exact Hth1 | exact Hth2]. }
    assert (mapNextTx p !! prevout txin = Some s) as Hps.
    { destruct Hthq as (_ & Hsub & _). by eapply lookup_weaken. }
    exists q2. split; [done |]. split; [done |]. split; [done |]. split.
    + intros txin' s' Hin Hs'.
      assert (mapNextTx q !! prevout txin' = Some s') as Hqs' by (by eapply lookup_weaken).
      apply elem_of_app in Hin as [Hin | ->%list_elem_of_singleton]; [by eauto |].
      exfalso. assert (s' = s) as -> by congruence.
      destruct Hq2 as (_ & _ & Hidx2 & _). pose proof (Hidx2 _ _ Hs') as Hs2. cbn in Hs2.
      assert (s ∈ dom (mapTx q2)) as Hin2.
      { apply elem_of_dom. by destruct (mapTx q2 !! s). }
      rewrite Hdom2 in Hin2. apply elem_of_difference in Hin2 as [_ Hn].
      apply Hn, Hstage, rtc_refl.
    + intros x Hx Hx'. destruct (decide (x ∈ dom (mapTx q))) as [Hxq | Hxq].
      * exists s. split.
        -- split; [done |]. exists txin. split; [apply elem_of_app; right; left | done].
        -- eapply thinned_descendant; [exact (thinned_trans _ _ _ Hthq Hth1) |].
           apply Hstage. rewrite Hdom2 in Hx'.
           destruct (decide (x ∈ stage)); [done |]. exfalso. apply Hx'.
           apply elem_of_difference. split; [exact Hxq | done].
      * destruct (Hrmq x Hx Hxq) as (c & (Hne & txin' & Hin & Hc0) & Hd).
        exists c. split; [| done]. split; [done |]. exists txin'.
        split; [apply elem_of_app; by left | done].
  - split; [done |]. split; [apply thinned_refl |]. split.
    + intros txin s Hin. by apply elem_of_nil in Hin.
    + intros x Hx Hx'. done.
  - exists p'. split; [exact Hrun |]. split; [done |]. split; [done |]. split; [done |].
    intros x Hx Hx'. destruct (Hrm x Hx Hx') as (c & (Hne & txin & Hin & Hc0) & Hd).
    exists c. split; [| done]. split; [done |]. eauto.
Qed.
End Conflicts.

(** ** A block is connected *)

Lemma lookup_None_weaken `{Countable K} {V} (m m' : gmap K V) k :
  m' ⊆ m -> m !! k = None -> m' !! k = None.
Proof.
  intros Hsub Hk. destruct (m' !! k) as [v |] eqn:Hv; [| done].
  eapply lookup_weaken in Hv; [| exact Hsub]. congruence.
Qed.

Section BlockRemoval.
Context `{Externals}.

(** One transaction of the block. *)
Lemma removeForBlock_pass_spec t p :
  consistent p ->
  exists p',
    removeForBlock_pass t p = Some p'
    /\ consistent p'
    /\ thinned p p'
    /\ mapTx p' !! GetHash t = None
    /\ mapDeltas p' !! GetHash t = None
    /\ (forall txin, txin ∈ vin t -> mapNextTx p' !! prevout txin = None)
    /\ (forall x, x ∈ dom (mapTx p) -> x ∉ dom (mapTx p') ->
          x = GetHash t \/ exists c, conflicts_with p t c /\ descendant p c x).
Proof.
  intros Hc. unfold removeForBlock_pass.
  assert (exists p1,
             match mapTx p !! GetHash t with
             | Some _ => RemoveStaged {[GetHash t]} true BLOCK p
             | None => Some p
             end = Some p1
             /\ consistent p1 /\ thinned p p1 /\ mapTx p1 !! GetHash t = None
             /\ dom (mapTx p) ∖ {[GetHash t]} ⊆ dom (mapTx p1))
    as (p1 & -> & Hc1 & Hth1 & Hgone1 & Hdom1).
  { destruct (mapTx p !! GetHash t) as [e |] eqn:He.
    - destruct (RemoveStaged_confirmed p (GetHash t) BLOCK Hc) as (p1 & Hrun & Hout & Hc1).
      { apply elem_of_dom. eauto. }
      exists p1. split; [done |]. split; [done |].
      destruct Hc as (Hwf & Hanc & Hidx).
      split; [by eapply taken_out_thinned |].
      destruct Hout as (e0 & A & D & He0 & HA & HD & Htx & Hlk & _).
      pose proof (out_dom p p1 (GetHash t) e0 A D Htx) as Hd.
      split; [| by rewrite Hd].
      apply not_elem_of_dom. rewrite Hd. set_solver.
    - exists p. split; [done |]. split; [done |]. split; [apply thinned_refl |].
      split; [done |]. set_solver. }
  cbn [mbind option_bind].
  destruct (removeConflicts_spec t p1 Hc1) as (p2 & -> & Hc2 & Hth2 & Hsp2 & Hrm2).
  cbn [mbind option_bind].
  exists (ClearPrioritisation (GetHash t) p2). split; [done |].
  assert (mapTx p2 !! GetHash t = None) as Hgone2.
  { apply not_elem_of_dom. intros Hin%(thinned_dom p1 p2 Hth2).
    by apply not_elem_of_dom in Hgone1. }
  split; [by apply ClearPrioritisation_consistent |].
  split.
  { eapply thinned_trans; [exact Hth1 |]. eapply thinned_trans; [exact Hth2 |].
    apply ClearPrioritisation_thinned. }
  split; [exact Hgone2 |].
  split; [cbn; apply lookup_delete_eq |].
  split.
  - intros txin Hin. cbn [mapNextTx ClearPrioritisation with_mapDeltas].
    destruct (mapNextTx p2 !! prevout txin) as [s |] eqn:Hs; [| done]. exfalso.
    pose proof (Hsp2 txin s Hin Hs) as ->.
    destruct Hc2 as (_ & _ & Hidx2 & _). pose proof (Hidx2 _ _ Hs) as Hs2. cbn in Hs2.
    by rewrite Hgone2 in Hs2.
  - intros x Hx Hx'. cbn [mapTx ClearPrioritisation with_mapDeltas] in Hx'.
    destruct (decide (x = GetHash t)) as [| Hne]; [by left |]. right.
    assert (x ∈ dom (mapTx p1)) as Hx1 by (apply Hdom1; set_solver).
    destruct (Hrm2 x Hx1 Hx') as (c & (Hcne & txin & Hin & Hcs) & Hd).
    exists c. split; [| by eapply thinned_descendant].
    split; [done |]. exists txin. split; [done |].
    destruct Hth1 as (_ & Hsub & _). by eapply lookup_weaken.
Qed.

(** X17. On a consistent pool (well formed, with ancestor aggregates
    that account for the ancestors and an exact index of the spent
    outpoints) [removeForBlock] returns without tripping an assertion and
    leaves a consistent pool. No transaction of the block is in the pool
    any more, none has a fee delta recorded, and no transaction left in
    the pool spends an outpoint that a transaction of the block spends.
    The fee estimator, if there is one, is given the height and the
    entries of the block's transactions as the pool had them before.
    The call adds no entry, no spent outpoint, no fee delta and no link;
    every entry that has left is a transaction of the block, or a
    transaction in conflict with one, or a descendant of such a
    conflicting transaction. The rolling fee is marked to decay from
    [now] on. *)
Theorem removeForBlock_removes_block_and_conflicts (vtx : list CTransaction)
    (nBlockHeight now : Z) (p : CTxMemPool) :
  consistent p ->
  exists processBlock p',
    removeForBlock vtx nBlockHeight now p = Some (processBlock, p')
    /\ processBlock
       = (if minerPolicyEstimator p
          then Some (nBlockHeight, omap (fun t => mapTx p !! GetHash t) vtx) else None)
    /\ consistent p'
    /\ thinned p p'
    /\ (forall t, t ∈ vtx ->
          mapTx p' !! GetHash t = None
          /\ mapDeltas p' !! GetHash t = None
          /\ forall txin, txin ∈ vin t ->
               mapNextTx p' !! prevout txin = None
               /\ forall x e', mapTx p' !! x = Some e' ->
                               prevout txin ∉ prevout <$> vin (tx e'))
    /\ (forall x, x ∈ dom (mapTx p) -> x ∉ dom (mapTx p') ->
          exists t, t ∈ vtx
                    /\ (x = GetHash t \/ exists c, conflicts_with p t c /\ descendant p c x))
    /\ blockSinceLastRollingFeeBump p' = true
    /\ lastRollingFeeUpdate p' = now.
Proof.
  intros Hc. unfold removeForBlock. cbv zeta.
  destruct (for_each_prefix
              (fun l1 q =>
                 consistent q /\ thinned p q
                 /\ (forall t, t ∈ l1 ->
                       mapTx q !! GetHash t = None
                       /\ mapDeltas q !! GetHash t = None
                       /\ forall txin, txin ∈ vin t -> mapNextTx q !! prevout txin = None)
                 /\ (forall x, x ∈ dom (mapTx p) -> x ∉ dom (mapTx q) ->
                       exists t, t ∈ l1
                                 /\ (x = GetHash t
                                     \/ exists c, conflicts_with p t c /\ descendant p c x)))
              removeForBlock_pass vtx) with (s := p) as (p' & Hrun & Hc' & Hth & Hgone & Hrm).
  - intros l1 t l2 q Hvtx (Hq & Hthq & Hgq & Hrmq).
    destruct (removeForBlock_pass_spec t q Hq)
      as (q' & Hpass & Hq' & Hth' & Hg1 & Hg2 & Hg3 & Hrm').
    exists q'. split; [done |]. split; [done |].
    split; [by eapply thinned_trans |]. split.
    + intros t' [Hin | ->%list_elem_of_singleton]%elem_of_app; [| done].
      destruct (Hgq t' Hin) as (Ht1 & Ht2 & Ht3). destruct Hth' as (Hna & Hnx & Hdl & _).
      split.
      { apply not_elem_of_dom. intros Hd. apply not_elem_of_dom in Ht1. apply Ht1.
        apply elem_of_dom in Hd as [e' He'].
        destruct (never_adds_lookup q q' _ e' Hna He') as (e & He & _).
        apply elem_of_dom. eauto. }
      split; [by eapply lookup_None_weaken |].
      intros txin Hin'. eapply lookup_None_weaken; [exact Hnx | by apply Ht3].
    + intros x Hx Hx'. destruct (decide (x ∈ dom (mapTx q))) as [Hxq | Hxq].
      * exists t. split; [apply elem_of_app; right; left |].
        destruct (Hrm' x Hxq Hx') as [-> | (c & (Hne & txin & Hin & Hcs) & Hd)]; [by left |].
        right. exists c. split; [| by eapply thinned_descendant].
        split; [done |]. exists txin. split; [done |].
        destruct Hthq as (_ & Hsub & _). by eapply lookup_weaken.
      * destruct (Hrmq x Hx Hxq) as (t' & Hin & Ht').
        exists t'. split; [apply elem_of_app; by left | done].
  - split; [done |]. split; [apply thinned_refl |]. split.
    + intros t Hin. by apply elem_of_nil in Hin.
    + intros x Hx Hx'. done.
  - rewrite Hrun. cbn [mbind option_bind]. eexists _, _. split; [reflexivity |].
    split; [reflexivity |].
    set (p'' := with_rolling (rollingMinimumFeeRate p') now true p').
    assert (consistent p'') as Hc'' by (by apply (consistent_frame p')).
    split; [exact Hc'' |].
    split.
    { eapply thinned_trans; [exact Hth |]. split; [by unfold never_adds |]. done. }
    split.
    { intros t Hin. destruct (Hgone t Hin) as (Ht1 & Ht2 & Ht3).
      split; [exact Ht1 |]. split; [exact Ht2 |]. intros txin Hin'.
      split; [by apply Ht3 |]. intros x e' He' Hsp.
      destruct Hc' as (_ & _ & _ & Hins). pose proof (Hins x e' He') as Hall. cbn in Hall.
      rewrite Forall_forall in Hall.
      apply list_elem_of_fmap in Hsp as (txin' & Heq & Hin'').
      specialize (Hall txin' Hin''). rewrite <- Heq in Hall.
      specialize (Ht3 txin Hin'). congruence. }
    split; [exact Hrm |]. done.
Qed.
End BlockRemoval.

Lemma removeForBlock_witness :
  exists processBlock p',
    @removeForBlock demo_externals demo_block 500001 1500000600 family
    = Some (processBlock, p')
    /\ consistent (H := demo_externals) p'
    /\ mapTx p' !! 1%N = None.
Proof.
  destruct (removeForBlock_removes_block_and_conflicts (H := demo_externals)
              demo_block 500001 1500000600 family)
    as (call & p' & Hrun & _ & Hc' & _ & Hgone & _).
  - apply (bool_decide_unpack _). by vm_compute.
  - exists call, p'. split; [exact Hrun |]. split; [exact Hc' |].
    apply (Hgone (chain_tx 1)). left.
Defined.

Section BlockRemovalParts.
Context `{Externals}.

(** X18. On a consistent pool [removeConflicts] returns and leaves a
    consistent pool in which no transaction spends an input of the given
    transaction, but for one filed under its own hash. It adds nothing,
    and every entry that has left is a transaction in conflict with the
    given one, or a descendant of such a transaction. *)
Theorem removeConflicts_removes_conflicts (t : CTransaction) (p : CTxMemPool) :
  consistent p ->
  exists p',
    removeConflicts t p = Some p'
    /\ consistent p'
    /\ thinned p p'
    /\ (forall txin s, txin ∈ vin t -> mapNextTx p' !! prevout txin = Some s -> s = GetHash t)
    /\ (forall x, x ∈ dom (mapTx p) -> x ∉ dom (mapTx p') ->
          exists c, conflicts_with p t c /\ descendant p c x).
Proof. apply removeConflicts_spec. Qed.

(** X19. On a consistent pool, [RemoveStaged] of one entry with the
    update of the descendants, as for a confirmed transaction, returns
    without tripping an assertion. The entry leaves and its descendants
    stay: the descendant aggregates of its ancestors and the ancestor
    aggregates of its descendants no longer count it, it is in no link
    any more, nothing else changes in the entries and links, and the pool
    is consistent again. *)
Theorem RemoveStaged_of_confirmed_transaction (p : CTxMemPool) (h : uint256)
    (reason : MemPoolRemovalReason) :
  consistent p -> h ∈ dom (mapTx p) ->
  exists p', RemoveStaged {[h]} true reason p = Some p'
             /\ taken_out p h p'
             /\ dom (mapTx p') = dom (mapTx p) ∖ {[h]}
             /\ consistent p'.
Proof.
  intros Hc Hin. destruct (RemoveStaged_confirmed p h reason Hc Hin) as (p' & Hrun & Hout & Hc').
  exists p'. split; [done |]. split; [done |]. split; [| done].
  destruct Hout as (e0 & A & D & He0 & HA & HD & Htx & Hlk & _).
  exact (out_dom p p' h e0 A D Htx).
Qed.
End BlockRemovalParts.

Lemma removeConflicts_witness :
  exists p', @removeConflicts demo_externals tx_rival family = Some p'
             /\ consistent (H := demo_externals) p'.
Proof.
  destruct (removeConflicts_removes_conflicts (H := demo_externals) tx_rival family)
    as (p' & Hrun & Hc' & _).
  - apply (bool_decide_unpack _). by vm_compute.
  - exists p'. split; [exact Hrun | exact Hc'].
Defined.

Lemma RemoveStaged_of_confirmed_transaction_witness :
  exists p', @RemoveStaged demo_externals {[1%N]} true BLOCK family = Some p'
             /\ dom (mapTx p') = dom (mapTx family) ∖ {[1%N]}
             /\ consistent (H := demo_externals) p'.
Proof.
  destruct (RemoveStaged_of_confirmed_transaction (H := demo_externals) family 1%N BLOCK)
    as (p' & Hrun & _ & Hdom & Hc').
  - apply (bool_decide_unpack _). by vm_compute.
  - apply (bool_decide_unpack _). by vm_compute.
  - exists p'. split; [exact Hrun |]. split; [exact Hdom | exact Hc'].
Defined.
